(** * Dense polynomials and Fourier transforms of altruct

    A model of [structure/math/polynom.h] (the class [polynom<T>] with its
    multiplication kernels, power series inverse, division, evaluation,
    derivative and integral) and of the transforms [fft], [fft_rec],
    [fft_cyclic_convolution] and [convolution], with the properties that
    their description states and further properties of the code.

    Part I holds the model: the ring contract, sums and convolutions, the
    store of raw buffers on which the multiplication kernels work, the
    polynomial objects, the transforms.  Part II holds the proofs. *)

From Stdlib Require Import ZArith Lia Ring Bool Zmod.
From stdpp Require Import base list option.
Local Open Scope Z_scope.

(** * Part I: the model *)

(** * The ring contract

    The coefficient type [T] of [polynom<T>] is used through the operators
    [+ - * / == <] and through [zeroOf] / [identityOf].  The same contract
    serves the element type of the Fourier transforms. *)

Class Coeff (T : Type) := {
  r0 : T;
  r1 : T;
  radd : T -> T -> T;
  rmul : T -> T -> T;
  rsub : T -> T -> T;
  ropp : T -> T;
  rdiv : T -> T -> T;
  req : T -> T -> bool;
  rlt : T -> T -> bool;
  is_floating_point : bool
}.

Notation "a [+] b" := (radd a b) (at level 50, left associativity).
Notation "a [-] b" := (rsub a b) (at level 50, left associativity).
Notation "a [*] b" := (rmul a b) (at level 40, left associativity).
Notation "a [/] b" := (rdiv a b) (at level 40, left associativity).
Notation "[~] a" := (ropp a) (at level 35, right associativity).

(** Laws of a commutative ring whose division by a unit is multiplication
    by its inverse, with a decidable equality and a strict total order. *)
Class CoeffLaws (T : Type) `{Coeff T} : Prop := {
  coeff_ring : ring_theory r0 r1 radd rmul rsub ropp (@eq T);
  req_eq : forall a b : T, req a b = true <-> a = b;
  rdiv_unit : forall x c d : T, d [*] c = r1 -> x [/] c = x [*] d;
  rlt_irrefl : forall a : T, rlt a a = false;
  rlt_total : forall a b : T, rlt a b = false -> rlt b a = false -> a = b
}.

(** Modelled from the spec: [zeroOf], [identityOf] of base.h, which is not
    part of the sources at hand; "obtainable additive identity zeroOf(x) and
    multiplicative identity identityOf(x)". *)
Definition zeroOf {T} `{Coeff T} (x : T) : T := r0.
Definition identityOf {T} `{Coeff T} (x : T) : T := r1.

(** Modelled from the spec: [powT] of base.h, "root_base^(root_order/size)":
    the [n]-fold product. *)
Fixpoint powT_nat {T} `{Coeff T} (x : T) (n : nat) : T :=
  match n with
  | O => identityOf x
  | S n' => x [*] powT_nat x n'
  end.
Definition powT {T} `{Coeff T} (x : T) (n : Z) : T := powT_nat x (Z.to_nat n).

(** * Finite sums and convolution of coefficient sequences *)

Section Sums.
Context {T : Type} `{Coeff T}.

Fixpoint sum_n (f : Z -> T) (lo : Z) (n : nat) : T :=
  match n with
  | O => r0
  | S n' => f lo [+] sum_n f (lo + 1) n'
  end.

(** [sumZ lo hi f] is the sum of [f j] for [lo <= j <= hi]. *)
Definition sumZ (lo hi : Z) (f : Z -> T) : T :=
  sum_n f lo (Z.to_nat (hi + 1 - lo)).

(** Coefficient [i] of the product of the sequences [a] and [b]. *)
Definition conv (a b : Z -> T) (i : Z) : T :=
  sumZ 0 i (fun j => a j [*] b (i - j)).

Definition delta (i : Z) : T := if i =? 0 then r1 else r0.
Definition shift (k : Z) (a : Z -> T) : Z -> T :=
  fun j => if j <? k then r0 else a (j - k).
Definition sadd (a b : Z -> T) : Z -> T := fun j => a j [+] b j.
Definition ssub (a b : Z -> T) : Z -> T := fun j => a j [-] b j.
Definition sscal (c : T) (a : Z -> T) : Z -> T := fun j => a j [*] c.
Definition trunc (l : Z) (a : Z -> T) : Z -> T :=
  fun j => if (0 <=? j) && (j <=? l) then a j else r0.

End Sums.

(** * Raw coefficient buffers

    The multiplication kernels of [polynom<T>] work on raw pointers [T*]
    that may point into the same [std::vector].  A pointer is a buffer
    identity and an offset; the store maps buffer identities to contents. *)

Record ptr := Ptr { blk : nat; off : Z }.

(** [p + k] *)
Definition ptr_add (p : ptr) (k : Z) : ptr := Ptr (blk p) (off p + k).
Notation "p +> k" := (ptr_add p k) (at level 50, left associativity).

(** The store: buffer [b] holds [h !! b]. *)
Abbreviation heap T := (list (list T)).

(** State and failure: [None] is an access outside a buffer (undefined
    behaviour in the source) or an exhausted recursion budget. *)
Definition M (St A : Type) : Type := St -> option (A * St).

Definition ret {St A} (a : A) : M St A := fun s => Some (a, s).
Definition bind {St A B} (m : M St A) (k : A -> M St B) : M St B :=
  fun s => match m s with
           | Some (a, s') => k a s'
           | None => None
           end.

Notation "x <- m ;; k" := (bind m (fun x => k))
  (at level 100, m at next level, right associativity).
Notation "m ;; k" := (bind m (fun _ => k))
  (at level 100, right associativity).

Section Loops.
Context {St A : Type}.

Fixpoint fold_down_n (n : nat) (i : Z) (body : Z -> A -> M St A) (a : A) : M St A :=
  match n with
  | O => ret a
  | S n' => a' <- body i a ;; fold_down_n n' (i - 1) body a'
  end.

Fixpoint fold_up_n (n : nat) (i : Z) (body : Z -> A -> M St A) (a : A) : M St A :=
  match n with
  | O => ret a
  | S n' => a' <- body i a ;; fold_up_n n' (i + 1) body a'
  end.

(** [for (i = hi; i >= lo; i--)] with a local accumulator *)
Definition fold_down (hi lo : Z) (body : Z -> A -> M St A) (a : A) : M St A :=
  fold_down_n (Z.to_nat (hi - lo + 1)) hi body a.

(** [for (i = lo; i <= hi; i++)] with a local accumulator *)
Definition fold_up (lo hi : Z) (body : Z -> A -> M St A) (a : A) : M St A :=
  fold_up_n (Z.to_nat (hi - lo + 1)) lo body a.

End Loops.

Definition for_down {St} (hi lo : Z) (body : Z -> M St unit) : M St unit :=
  fold_down hi lo (fun i _ => body i) tt.

Definition for_up {St} (lo hi : Z) (body : Z -> M St unit) : M St unit :=
  fold_up lo hi (fun i _ => body i) tt.

(** [m] runs from [s] without failure and ends in a state satisfying [Q]. *)
Definition runs {St A} (m : M St A) (s : St) (Q : A -> St -> Prop) : Prop :=
  exists a s', m s = Some (a, s') /\ Q a s'.

Section Memory.
Context {T : Type}.

(** [p[i]] as an rvalue *)
Definition load (p : ptr) (i : Z) : M (heap T) T := fun h =>
  if 0 <=? off p + i then
    match h !! blk p with
    | Some b => match b !! Z.to_nat (off p + i) with
                | Some v => Some (v, h)
                | None => None
                end
    | None => None
    end
  else None.

(** [p[i] = v] *)
Definition store (p : ptr) (i : Z) (v : T) : M (heap T) unit := fun h =>
  if 0 <=? off p + i then
    match h !! blk p with
    | Some b =>
        if (Z.to_nat (off p + i) <? length b)%nat
        then Some (tt, <[blk p := <[Z.to_nat (off p + i) := v]> b]> h)
        else None
    | None => None
    end
  else None.

(** A local [std::vector<T>] with the given contents; [data()] of it. *)
Definition new_vector (init : list T) : M (heap T) ptr :=
  fun h => Some (Ptr (length h) 0, h ++ [init]).

(** The local vectors of a function body are destroyed when it returns. *)
Definition scope {A} (m : M (heap T) A) : M (heap T) A := fun h =>
  match m h with
  | Some (a, h') => Some (a, take (length h) h')
  | None => None
  end.

End Memory.

Section Kernels.
Context {T : Type} `{Coeff T}.

Fixpoint load_list (p : ptr) (i : Z) (n : nat) : M (heap T) (list T) :=
  match n with
  | O => ret []
  | S n' => v <- load p i ;; vs <- load_list p (i + 1) n' ;; ret (v :: vs)
  end.

(** [std::vector<T> V(p, p + n)] *)
Definition vector_copy (p : ptr) (n : Z) : M (heap T) ptr :=
  vs <- load_list p 0 (Z.to_nat n) ;; new_vector vs.

(** [std::vector<T> V(n, v)] *)
Definition vector_fill (n : Z) (v : T) : M (heap T) ptr :=
  new_vector (replicate (Z.to_nat n) v).

(** [pr[lm + 1 : lr] = 0] *)
Definition _zero (pr : ptr) (lm lr : Z) (ZERO_COEFF : T) : M (heap T) unit :=
  for_up (lm + 1) lr (fun i => store pr i ZERO_COEFF).

(** [pr += p2] *)
Definition _add_to (pr p2 : ptr) (l2 : Z) : M (heap T) unit :=
  for_up 0 l2 (fun i =>
    b <- load p2 i ;; a <- load pr i ;; store pr i (a [+] b)).

(** [pr -= p2] *)
Definition _sub_from (pr p2 : ptr) (l2 : Z) : M (heap T) unit :=
  for_up 0 l2 (fun i =>
    b <- load p2 i ;; a <- load pr i ;; store pr i (a [-] b)).

(** [pr = p1 * p2], schoolbook, output written from high to low index *)
Definition _mul_long (pr : ptr) (lr : Z) (p1 : ptr) (l1 : Z) (p2 : ptr) (l2 : Z)
  : M (heap T) unit :=
  x <- load p1 0 ;;
  let ZERO_COEFF := zeroOf x in
  for_down lr 0 (fun i =>
    let r := ZERO_COEFF in
    let jmax := Z.min i l1 in
    let jmin := Z.max 0 (i - l2) in
    r <- fold_down jmax jmin (fun j r =>
           a <- load p1 j ;; b <- load p2 (i - j) ;; ret (r [+] a [*] b)) r ;;
    store pr i r).

(** The type of [_mul], through which Karatsuba recurses. *)
Definition mul_fn := ptr -> Z -> ptr -> Z -> ptr -> Z -> M (heap T) unit.

(** [pr = p1 * p2], Karatsuba; [0 <= l2 <= l1 <= lr <= l1 + l2] must hold *)
Definition _mul_karatsuba (_mul : mul_fn)
    (pr : ptr) (lr : Z) (p1 : ptr) (l1 : Z) (p2 : ptr) (l2 : Z) : M (heap T) unit :=
  scope (
    x <- load p1 0 ;;
    let ZERO_COEFF := zeroOf x in
    let k := Z.quot l1 2 + 1 in
    if l2 =? 0 then
      for_down lr 0 (fun i =>
        a <- load p1 i ;; b <- load p2 0 ;; store pr i (a [*] b))
    else if l2 <? k then
      MM <- vector_fill (lr - k + 1) ZERO_COEFF ;;
      _mul MM (lr - k) (p1 +> k) (l1 - k) p2 l2 ;;
      _mul pr (Z.min lr (l2 + k - 1)) p1 (k - 1) p2 l2 ;;
      _zero pr (l2 + k - 1) lr ZERO_COEFF ;;
      _add_to (pr +> k) MM (lr - k)
    else
      S1 <- vector_copy p1 k ;;
      _add_to S1 (p1 +> k) (l1 - k) ;;
      S2 <- vector_copy p2 k ;;
      _add_to S2 (p2 +> k) (l2 - k) ;;
      let mm_l := Z.min (lr - k) (k - 1 + k - 1) in
      MM <- vector_fill (mm_l + 1) r0 ;;
      _mul MM mm_l S1 (k - 1) S2 (k - 1) ;;
      let hh_l := Z.min mm_l (l1 - k + l2 - k) in
      HH <- vector_fill (hh_l + 1) ZERO_COEFF ;;
      _mul HH hh_l (p1 +> k) (l1 - k) (p2 +> k) (l2 - k) ;;
      _mul pr (k - 1 + k - 1) p1 (k - 1) p2 (k - 1) ;;
      _zero pr (k - 1 + k - 1) lr ZERO_COEFF ;;
      _sub_from MM pr (Z.min mm_l (k - 1 + k - 1)) ;;
      _sub_from MM HH hh_l ;;
      _add_to (pr +> k) MM mm_l ;;
      _add_to (pr +> k +> k) HH (lr - k - k)).

(** [polynom_mul<T>::impl] *)
Definition impl (_mul : mul_fn)
    (pr : ptr) (lr : Z) (p1 : ptr) (l1 : Z) (p2 : ptr) (l2 : Z) : M (heap T) unit :=
  if l2 <? 48 then _mul_long pr lr p1 l1 p2 l2
  else _mul_karatsuba _mul pr lr p1 l1 p2 l2.

(** [_mul] with a budget of nested calls. *)
Fixpoint _mul_fuel (fuel : nat)
    (pr : ptr) (lr : Z) (p1 : ptr) (l1 : Z) (p2 : ptr) (l2 : Z) : M (heap T) unit :=
  match fuel with
  | O => fun _ => None
  | S fuel' =>
      if l1 <? l2 then _mul_fuel fuel' pr lr p2 l2 p1 l1
      else
        let l1 := Z.min l1 lr in
        let l2 := Z.min l2 lr in
        x <- load p1 0 ;;
        _zero pr (l1 + l2) lr (zeroOf x) ;;
        let lr := Z.min lr (l1 + l2) in
        impl (_mul_fuel fuel') pr lr p1 l1 p2 l2
  end.

(** Nesting is bounded by the larger operand length: every nested call of
    Karatsuba has smaller operand lengths, and a swap costs one more call. *)
Definition _mul (pr : ptr) (lr : Z) (p1 : ptr) (l1 : Z) (p2 : ptr) (l2 : Z)
  : M (heap T) unit :=
  _mul_fuel (2 * Z.to_nat (Z.max l1 l2) + 2) pr lr p1 l1 p2 l2.

(** ** Reading the store in specifications *)

(** Length of buffer [b] (0 when there is no such buffer). *)
Definition blen (h : heap T) (b : nat) : Z :=
  match h !! b with
  | Some l => Z.of_nat (length l)
  | None => 0
  end.

(** Content of buffer [b] at absolute position [n]. *)
Definition rda (h : heap T) (b : nat) (n : Z) : T :=
  match h !! b with
  | Some l => if 0 <=? n then default r0 (l !! Z.to_nat n) else r0
  | None => r0
  end.

Definition rd (h : heap T) (p : ptr) (i : Z) : T := rda h (blk p) (off p + i).

(** The coefficient sequence [p[0..l]], zero elsewhere. *)
Definition ser (h : heap T) (p : ptr) (l : Z) : Z -> T := trunc l (rd h p).

Definition valid (h : heap T) (p : ptr) (lo hi : Z) : Prop :=
  lo <= hi -> 0 <= off p + lo /\ off p + hi < blen h (blk p).

Definition same_shape (h h' : heap T) : Prop :=
  length h' = length h /\ forall b, blen h' b = blen h b.

(** [h'] differs from [h] at most in buffer [b] at positions [lo..hi]. *)
Definition modifies (h h' : heap T) (b : nat) (lo hi : Z) : Prop :=
  same_shape h h' /\
  forall b' n, (b' <> b \/ n < lo \/ hi < n) -> rda h' b' n = rda h b' n.

(** The output either lies in another buffer than the input or coincides
    with it. *)
Definition alias_ok (pr p : ptr) : Prop := blk pr <> blk p \/ pr = p.

(** What a multiplication kernel needs and what it establishes: the first
    [lr + 1] coefficients of the product of [p1[0..l1]] and [p2[0..l2]] in
    [pr[0..lr]], nothing else touched. *)
Definition mul_pre (h : heap T) (pr : ptr) (lr : Z) (p1 : ptr) (l1 : Z)
    (p2 : ptr) (l2 : Z) : Prop :=
  0 <= lr /\ 0 <= l1 /\ 0 <= l2 /\
  valid h pr 0 lr /\ valid h p1 0 (Z.min l1 lr) /\ valid h p2 0 (Z.min l2 lr) /\
  alias_ok pr p1 /\ alias_ok pr p2.

Definition mul_post (h : heap T) (pr : ptr) (lr : Z) (p1 : ptr) (l1 : Z)
    (p2 : ptr) (l2 : Z) : unit -> heap T -> Prop :=
  fun _ h' =>
    modifies h h' (blk pr) (off pr) (off pr + lr) /\
    forall i, 0 <= i <= lr -> rd h' pr i = conv (ser h p1 l1) (ser h p2 l2) i.

(** [f] meets the contract of [_mul] on operands shorter than [n]. *)
Definition mul_spec_below (n : Z) (f : mul_fn) : Prop :=
  forall h pr lr p1 l1 p2 l2,
    Z.max l1 l2 < n -> mul_pre h pr lr p1 l1 p2 l2 ->
    exists h', f pr lr p1 l1 p2 l2 h = Some (tt, h') /\
               mul_post h pr lr p1 l1 p2 l2 tt h'.

(** The state inside a function body that has local vectors, seen from the
    caller's store [h]: the caller's buffers keep their lengths, and only
    [pr[0..lr]] has changed, to the values [V]. *)
Definition ext_post (h : heap T) (pr : ptr) (lr : Z) (V : Z -> T)
    (h' : heap T) : Prop :=
  (length h <= length h')%nat /\
  (forall b, (b < length h)%nat -> blen h' b = blen h b) /\
  (forall b n, (b < length h)%nat ->
     (b <> blk pr \/ n < off pr \/ off pr + lr < n) -> rda h' b n = rda h b n) /\
  (forall i, 0 <= i <= lr -> rd h' pr i = V i).

End Kernels.

(** The integers as coefficients, with the truncating division of [int]. *)
Global Instance ZCoeff : Coeff Z := {|
  r0 := 0; r1 := 1; radd := Z.add; rmul := Z.mul; rsub := Z.sub; ropp := Z.opp;
  rdiv := Z.quot; req := Z.eqb; rlt := Z.ltb; is_floating_point := false |}.

(** Rewrites lengths and contents of a later store back to an earlier one,
    along the frame facts in the context. *)
Ltac heap_back :=
  repeat match goal with
  | B : forall b, blen ?h' b = blen _ b |- context [blen ?h' ?b] =>
      rewrite (B b)
  | B : forall b, (b < _)%nat -> blen ?h' b = blen _ b |- context [blen ?h' ?b] =>
      rewrite (B b) by lia
  | B : blen ?h' ?b = _ |- context [blen ?h' ?b] => rewrite B
  | F : forall b n, _ -> rda ?h' b n = rda _ b n |- context [rda ?h' ?b ?n] =>
      rewrite (F b n) by lia
  end.

(** Validity of a non-empty range: its bounds. *)
Ltac use_valid :=
  unfold valid in *;
  repeat match goal with
  | V : ?a <= ?b -> _ /\ _ |- _ =>
      let V' := fresh V in
      assert (V' : a <= b) by lia; specialize (V V'); clear V'
  end.

Ltac solve_pre :=
  unfold mul_pre, valid, alias_ok in *; cbn [blk off ptr_add]; heap_back;
  repeat match goal with |- _ /\ _ => split end;
  first [lia | assumption | left; simpl; lia | idtac].

(** * [polynom<T>]: a coefficient vector and the contextual zero *)

Record polynom (T : Type) := Polynom { ZERO_COEFF : T; c : list T }.
Arguments Polynom {T} _ _.
Arguments ZERO_COEFF {T} _.
Arguments c {T} _.

(** The objects that the static operations refer to: reference [r] is the
    object [s !! r].  Two references are the same instance when they are
    the same index. *)
Abbreviation pstore T := (list (polynom T)).

(** [std::reverse(v.begin(), v.begin() + n)] *)
Definition std_reverse {A} (l : list A) (n : Z) : list A :=
  reverse (take (Z.to_nat n) l) ++ drop (Z.to_nat n) l.

Module Poly.
Section Defs.
Context {T : Type} `{Coeff T}.

(** [std::vector::resize(n, v)], [n >= 0] *)
Definition vresize (l : list T) (n : Z) (v : T) : list T :=
  take (Z.to_nat n) l ++ replicate (Z.to_nat n - length l) v.

(** [v[i]] on a vector, for an index within it *)
Definition vget (l : list T) (i : Z) : T := default r0 (l !! Z.to_nat i).

Definition make_zero (l : list T) : T :=
  match l with
  | x :: _ => zeroOf x
  | [] => r0
  end.

(** [polynom(const T& c0)] *)
Definition of_scalar (c0 : T) : polynom T := Polynom (zeroOf c0) [c0].
(** [polynom()], that is [polynom(T(0))] *)
Definition default_polynom : polynom T := of_scalar r0.
(** [polynom(std::initializer_list<T>)], [polynom(const std::vector<T>&)] *)
Definition of_list (l : list T) : polynom T := Polynom (make_zero l) l.

Definition size (p : polynom T) : Z := Z.of_nat (length (c p)).

(** [reserve(sz)]: grows only *)
Definition reserve (p : polynom T) (sz : Z) : polynom T :=
  if size p <? sz then Polynom (ZERO_COEFF p) (vresize (c p) sz (ZERO_COEFF p))
  else p.

(** [resize(sz)]; a negative size makes [std::vector::resize] throw *)
Definition resize (p : polynom T) (sz : Z) : option (polynom T) :=
  if sz =? size p then Some p
  else if sz <? 0 then None
  else Some (Polynom (ZERO_COEFF p) (vresize (c p) sz (ZERO_COEFF p))).

(** [resize(sz, _ZERO_COEFF)] *)
Definition resize_zero (p : polynom T) (sz : Z) (z : T) : option (polynom T) :=
  resize (Polynom z (c p)) sz.

(** [at(index)], the const [operator[]] *)
Definition at_ (p : polynom T) (index : Z) : T :=
  if (0 <=? index) && (index <? size p) then vget (c p) index else ZERO_COEFF p.

Fixpoint deg_loop (p : polynom T) (n : nat) (i : Z) : Z :=
  match n with
  | O => 0
  | S n' => if negb (req (vget (c p) i) (ZERO_COEFF p)) then i
            else deg_loop p n' (i - 1)
  end.

(** [deg()]: [for (i = size() - 1; i > 0; i--) if (!(c[i] == ZERO_COEFF)) return i;
    return 0] *)
Definition deg (p : polynom T) : Z :=
  deg_loop p (Z.to_nat (size p - 1)) (size p - 1).

Fixpoint lowest_loop (p : polynom T) (n : nat) (i : Z) : Z :=
  match n with
  | O => 0
  | S n' => if negb (req (vget (c p) i) (ZERO_COEFF p)) then i
            else lowest_loop p n' (i + 1)
  end.

Definition lowest (p : polynom T) : Z := lowest_loop p (Z.to_nat (size p)) 0.

Definition leading_coeff (p : polynom T) : T := at_ p (deg p).
Definition id_coeff (p : polynom T) : T := identityOf (ZERO_COEFF p).
Definition is_power (p : polynom T) : bool :=
  (lowest p =? deg p) && req (leading_coeff p) (id_coeff p).

(** [shrink_to_fit()] *)
Definition shrink_to_fit (p : polynom T) : polynom T :=
  Polynom (ZERO_COEFF p) (vresize (c p) (deg p + 1) (ZERO_COEFF p)).

Fixpoint cmp_loop (p1 p2 : polynom T) (n : nat) (i : Z) : Z :=
  match n with
  | O => 0
  | S n' => if rlt (at_ p1 i) (at_ p2 i) then -1
            else if rlt (at_ p2 i) (at_ p1 i) then 1
            else cmp_loop p1 p2 n' (i - 1)
  end.

(** [cmp(p1, p2)] *)
Definition cmp (p1 p2 : polynom T) : Z :=
  let l := Z.max (deg p1) (deg p2) in
  cmp_loop p1 p2 (Z.to_nat (l + 1)) l.

(** [operator ==] *)
Definition eqb (p1 p2 : polynom T) : bool := cmp p1 p2 =? 0.

(** [reverse()] *)
Definition reverse (p : polynom T) : polynom T :=
  if 0 <? size p then
    Polynom (ZERO_COEFF p) (std_reverse (c p) (deg p + 1))
  else p.

(** The contextual zero is the zero of the ring: every constructor sets
    it to [zeroOf] of a coefficient. *)
Definition wf (p : polynom T) : Prop := ZERO_COEFF p = r0.

(** The polynomial with the [n] coefficients [g 0 .. g (n - 1)]. *)
Definition tabulate (z : T) (g : Z -> T) (n : Z) : polynom T :=
  Polynom z ((fun i : nat => g (Z.of_nat i)) <$> seq 0 (Z.to_nat n)).

(** The first [n] coefficients of the product. *)
Definition product (p1 p2 : polynom T) (n : Z) : list T :=
  (fun i : nat => conv (at_ p1) (at_ p2) (Z.of_nat i)) <$> seq 0 (Z.to_nat n).

(** The combined buffer that [quot_rem] leaves in [pr]: with [l1], [l2] the
    degrees of [p1], [p2], the entries [l2 .. l1] are the coefficients of a
    quotient and the entries [0 .. l2 - 1] those of the remainder that goes
    with it. *)
Definition qr_buffer (p1 p2 x : polynom T) : Prop :=
  wf x /\
  (forall n, deg p1 < n -> at_ x n = r0) /\
  forall n, at_ p1 n =
    sumZ 0 (deg p1 - deg p2) (fun j => at_ x (j + deg p2) [*] at_ p2 (n - j))
    [+] (if (0 <=? n) && (n <? deg p2) then at_ x n else r0).

(** What the loop of [inverse] maintains on [r]: an inverse of [p] modulo
    [x^n] with no coefficient from [n] on. *)
Definition inv_upto (p R : polynom T) (n : Z) : Prop :=
  wf R /\
  (forall i, n <= i -> at_ R i = r0) /\
  (forall i, 0 <= i < n -> conv (at_ p) (at_ R) i = delta i).

(** The state of [pr] inside the long division, with the entries above [i]
    already final quotient coefficients. *)
Definition ld_inv (A B : Z -> T) (l1 l2 i : Z) (X : polynom T) : Prop :=
  wf X /\
  (forall n, l1 < n -> at_ X n = r0) /\
  forall n, A n =
    sumZ (i + 1) l1 (fun m => at_ X m [*] B (n - m + l2))
    [+] (if n <=? i then at_ X n else r0).

(** ** Operations on referenced objects *)

Definition fail {A} : M (pstore T) A := fun _ => None.
Definition lift {A} (o : option A) : M (pstore T) A :=
  fun s => match o with Some a => Some (a, s) | None => None end.

Definition obj (r : nat) : M (pstore T) (polynom T) :=
  fun s => match s !! r with Some p => Some (p, s) | None => None end.

Definition set_obj (r : nat) (p : polynom T) : M (pstore T) unit :=
  fun s => if (r <? length s)%nat then Some (tt, <[r := p]> s) else None.

(** [r[index]] on a const reference *)
Definition at_ref (r : nat) (index : Z) : M (pstore T) T :=
  p <- obj r ;; ret (at_ p index).

(** [r[index]] on a non-const reference, read: [reserve(index + 1)] first *)
Definition subscript (r : nat) (index : Z) : M (pstore T) T :=
  p <- obj r ;;
  let p := reserve p (index + 1) in
  set_obj r p ;;
  if index <? 0 then fail else ret (vget (c p) index).

(** [r[index] = v] on a non-const reference *)
Definition assign (r : nat) (index : Z) (v : T) : M (pstore T) unit :=
  p <- obj r ;;
  let p := reserve p (index + 1) in
  if index <? 0 then fail
  else set_obj r (Polynom (ZERO_COEFF p) (<[Z.to_nat index := v]> (c p))).

(** The object after [p[index] = v]. *)
Definition pset (p : polynom T) (index : Z) (v : T) : polynom T :=
  Polynom (ZERO_COEFF p) (<[Z.to_nat index := v]> (c (reserve p (index + 1)))).

(** [r.resize(sz, z)] *)
Definition resize_ref (r : nat) (sz : Z) (z : T) : M (pstore T) unit :=
  p <- obj r ;; p <- lift (resize_zero p sz z) ;; set_obj r p.

(** [r.resize(sz)] *)
Definition resize_ref' (r : nat) (sz : Z) : M (pstore T) unit :=
  p <- obj r ;; p <- lift (resize p sz) ;; set_obj r p.

(** A kernel on the buffers [c] of the objects: [r.c.data()] is [Ptr r 0]. *)
Definition raw {A} (m : M (heap T) A) : M (pstore T) A :=
  fun s => match m (c <$> s) with
           | Some (a, h') =>
               Some (a, zip_with (fun p l => Polynom (ZERO_COEFF p) l) s h')
           | None => None
           end.

(** A temporary object [x] that lives for the call [f]. *)
Definition with_temp {A} (x : polynom T) (f : nat -> M (pstore T) A)
  : M (pstore T) A :=
  fun s => match f (length s) (s ++ [x]) with
           | Some (a, s') => Some (a, take (length s) s')
           | None => None
           end.

(** The object [r] after running [m] on the objects [s]. *)
Definition call (s : pstore T) (m : M (pstore T) unit) (r : nat)
  : option (polynom T) :=
  match m s with
  | Some (_, s') => s' !! r
  | None => None
  end.

(** [neg(pr, p1)] *)
Definition neg (pr p1 : nat) : M (pstore T) unit :=
  P1 <- obj p1 ;;
  let lr := deg P1 in
  resize_ref pr (lr + 1) (ZERO_COEFF P1) ;;
  for_up 0 lr (fun i => a <- at_ref p1 i ;; assign pr i ([~] a)).

(** [add(pr, p1, p2)] *)
Definition add (pr p1 p2 : nat) : M (pstore T) unit :=
  P1 <- obj p1 ;; P2 <- obj p2 ;;
  let l1 := deg P1 in let l2 := deg P2 in
  let lr := Z.max l1 l2 in
  resize_ref pr (lr + 1) (ZERO_COEFF P1) ;;
  for_up 0 lr (fun i =>
    a <- at_ref p1 i ;; b <- at_ref p2 i ;; assign pr i (a [+] b)).

(** [sub(pr, p1, p2)] *)
Definition sub (pr p1 p2 : nat) : M (pstore T) unit :=
  P1 <- obj p1 ;; P2 <- obj p2 ;;
  let l1 := deg P1 in let l2 := deg P2 in
  let lr := Z.max l1 l2 in
  resize_ref pr (lr + 1) (ZERO_COEFF P1) ;;
  for_up 0 lr (fun i =>
    a <- at_ref p1 i ;; b <- at_ref p2 i ;; assign pr i (a [-] b)).

(** [mul(pr, p1, p2, lr)]; [lr = -1] asks for the full product *)
Definition mul (pr p1 p2 : nat) (lr : Z) : M (pstore T) unit :=
  P1 <- obj p1 ;; P2 <- obj p2 ;;
  let l1 := deg P1 in let l2 := deg P2 in
  let lr := if lr <? 0 then l1 + l2 else lr in
  resize_ref pr (lr + 1) (ZERO_COEFF P1) ;;
  P1 <- obj p1 ;; P2 <- obj p2 ;;
  if (size P1 =? 0) || (size P2 =? 0) then
    raw (_zero (Ptr pr 0) (-1) lr (ZERO_COEFF P1))
  else
    raw (_mul (Ptr pr 0) lr (Ptr p1 0) l1 (Ptr p2 0) l2).

(** [mul(pr, p1, s)] *)
Definition mul_scalar (pr p1 : nat) (s : T) : M (pstore T) unit :=
  P1 <- obj p1 ;;
  let lr := deg P1 in
  resize_ref pr (lr + 1) (ZERO_COEFF P1) ;;
  for_up 0 lr (fun i => a <- at_ref p1 i ;; assign pr i (a [*] s)).

(** [div(pr, p1, s)] *)
Definition div_scalar (pr p1 : nat) (s : T) : M (pstore T) unit :=
  P1 <- obj p1 ;;
  let lr := deg P1 in
  resize_ref pr (lr + 1) (ZERO_COEFF P1) ;;
  for_up 0 lr (fun i => a <- at_ref p1 i ;; assign pr i (a [/] s)).

(** ** Operators: a copy [t] of the left operand, then [t op= rhs], which is
    the static operation with [t] as output and first input *)

Definition op_add (x rhs : polynom T) : option (polynom T) :=
  call [x; rhs] (add 0 0 1) 0.
Definition op_sub (x rhs : polynom T) : option (polynom T) :=
  call [x; rhs] (sub 0 0 1) 0.
Definition op_neg (x : polynom T) : option (polynom T) :=
  call [x] (neg 0 0) 0.
Definition op_mul (x rhs : polynom T) : option (polynom T) :=
  call [x; rhs] (mul 0 0 1 (-1)) 0.
Definition op_mul_scalar (x : polynom T) (val : T) : option (polynom T) :=
  call [x] (mul_scalar 0 0 val) 0.
Definition op_div_scalar (x : polynom T) (val : T) : option (polynom T) :=
  call [x] (div_scalar 0 0 val) 0.

(** ** Power series inverse *)

(** One round of the Newton iteration of [inverse], on the local objects
    [r] (reference 0) and [t] (reference 1). *)
Definition newton_step (p : polynom T) (L l : Z) : M (pstore T) unit :=
  let m := Z.min (L - 1) l in
  let k := Z.quot l 2 + 1 in
  (* t.c.assign(c.begin(), c.begin() + min(m + 1, (int)c.size())) *)
  t <- obj 1 ;;
  set_obj 1 (Polynom (ZERO_COEFF t) (take (Z.to_nat (Z.min (m + 1) (size p))) (c p))) ;;
  mul 1 1 0 (l + 1) ;;
  (* t.c.erase(t.c.begin(), t.c.begin() + k) *)
  t <- obj 1 ;;
  (if size t <? k then fail
   else set_obj 1 (Polynom (ZERO_COEFF t) (drop (Z.to_nat k) (c t)))) ;;
  mul 1 1 0 (l - k) ;;
  for_down m k (fun i => v <- subscript 1 (i - k) ;; assign 0 i ([~] v)).

(** [for (int l = 1; l < L * 2; l *= 2)] *)
Fixpoint newton_loop (fuel : nat) (p : polynom T) (L l : Z) : M (pstore T) unit :=
  match fuel with
  | O => fail
  | S fuel' =>
      if l <? L * 2 then newton_step p L l ;; newton_loop fuel' p L (l * 2)
      else ret tt
  end.

Definition newton (p : polynom T) (L : Z) : option (polynom T) :=
  call [of_list [id_coeff p]; default_polynom]
       (newton_loop (Z.to_nat (2 * L) + 1) p L 1) 0.

(** [inverse(L)] with a budget for the nested call on the normalised
    polynomial. *)
Fixpoint inverse_fuel (fuel : nat) (p : polynom T) (L : Z) : option (polynom T) :=
  match fuel with
  | O => None
  | S fuel' =>
      match c p !! 0%nat with
      | None => None
      | Some c0 =>
          if req c0 (ZERO_COEFF p) then Some (of_list [ZERO_COEFF p])
          else if negb (req c0 (id_coeff p)) then
            match op_div_scalar p c0 with
            | Some q =>
                match inverse_fuel fuel' q L with
                | Some r => op_div_scalar r c0
                | None => None
                end
            | None => None
            end
          else newton p L
      end
  end.

(** The nested call works on a polynomial whose constant term is
    [c[0] / c[0]]; where that is the identity (or zero) it does not nest
    again, so two levels are what the recursion takes.  Deeper nesting is
    reported as no result. *)
Definition inverse (p : polynom T) (L : Z) : option (polynom T) :=
  inverse_fuel 2 p L.

(** ** Division *)

(** [quot_rem_long(pr, p1, p2)] *)
Definition quot_rem_long (pr p1 p2 : nat) : M (pstore T) unit :=
  P1 <- obj p1 ;; P2 <- obj p2 ;;
  let l1 := deg P1 in let l2 := deg P2 in
  let lq := l1 - l2 in
  set_obj pr P1 ;;
  P2 <- obj p2 ;;
  if (lq <? 0) || is_power P2 then ret tt
  else
    for_down l1 l2 (fun i =>
      d <- at_ref p2 l2 ;;
      a <- subscript pr i ;;
      let s := a [/] d in
      assign pr i s ;;
      P1 <- obj p1 ;;
      if req s (ZERO_COEFF P1) then ret tt
      else
        for_up 1 l2 (fun j =>
          x <- subscript pr (i - j) ;;
          y <- at_ref p2 (l2 - j) ;;
          assign pr (i - j) (x [-] s [*] y))).

(** [quot_rem_hensel(pr, p1, p2)] *)
Definition quot_rem_hensel (pr p1 p2 : nat) : M (pstore T) unit :=
  P1 <- obj p1 ;; P2 <- obj p2 ;;
  let l1 := deg P1 in let l2 := deg P2 in
  let lq := l1 - l2 in
  set_obj pr P1 ;;
  P2 <- obj p2 ;;
  if (lq <? 0) || is_power P2 then ret tt
  else
    P1 <- obj p1 ;;
    (* polynom q; mul(q, p2.reverse().inverse(lq + 1), p1.reverse(), lq) *)
    iv <- lift (inverse (reverse P2) (lq + 1)) ;;
    q <- lift (call [default_polynom; iv; reverse P1] (mul 0 1 2 lq) 0) ;;
    (* std::reverse(q.c.begin(), q.c.begin() + lq + 1) *)
    q <- (if size q <? lq + 1 then fail
          else ret (Polynom (ZERO_COEFF q) (std_reverse (c q) (lq + 1)))) ;;
    (* pr -= q * p2 *)
    P2 <- obj p2 ;;
    qp <- lift (op_mul q P2) ;;
    with_temp qp (fun t => sub pr pr t) ;;
    (* q.c.insert(q.c.begin(), l2, q.ZERO_COEFF); pr += q *)
    let q := Polynom (ZERO_COEFF q) (replicate (Z.to_nat l2) (ZERO_COEFF q) ++ c q) in
    with_temp q (fun t => add pr pr t).

(** [quot_rem(pr, p1, p2)]; [l2 < 25 * log2(l1)] is [2^l2 < l1^25] *)
Definition quot_rem (pr p1 p2 : nat) : M (pstore T) unit :=
  P1 <- obj p1 ;; P2 <- obj p2 ;;
  let l1 := deg P1 in let l2 := deg P2 in
  let is_invertible :=
    req ((id_coeff P2 [/] at_ P2 l2) [*] at_ P2 l2) (id_coeff P2) in
  let is_invertible := is_invertible || is_floating_point in
  if (l1 <? 100) || (l2 <? 50) || (2 ^ l2 <? l1 ^ 25) || negb is_invertible
  then quot_rem_long pr p1 p2
  else quot_rem_hensel pr p1 p2.

(** [div(pr, p1, p2)] *)
Definition div (pr p1 p2 : nat) : M (pstore T) unit :=
  P1 <- obj p1 ;; P2 <- obj p2 ;;
  let l1 := deg P1 in let l2 := deg P2 in
  let lr := l1 - l2 in
  if lr <? 0 then
    PR <- obj pr ;; set_obj pr (Polynom (ZERO_COEFF PR) [])
  else
    quot_rem pr p1 p2 ;;
    for_up 0 lr (fun i => v <- subscript pr (i + l2) ;; assign pr i v) ;;
    resize_ref' pr (lr + 1).

(** [mod(pr, p1, p2)] *)
Definition mod_ (pr p1 p2 : nat) : M (pstore T) unit :=
  P1 <- obj p1 ;; P2 <- obj p2 ;;
  let l1 := deg P1 in let l2 := deg P2 in
  let lr := l2 - 1 in
  quot_rem pr p1 p2 ;;
  if lr <? l1 then resize_ref' pr (lr + 1) else ret tt.

(** [operator /], [operator %] *)
Definition op_div (x rhs : polynom T) : option (polynom T) :=
  call [x; rhs] (div 0 0 1) 0.
Definition op_mod (x rhs : polynom T) : option (polynom T) :=
  call [x; rhs] (mod_ 0 0 1) 0.

End Defs.
End Poly.

(** Looks up an object in a store with one object replaced. *)
Ltac lookup_obj :=
  first [ rewrite list_lookup_insert_eq by lia; reflexivity
        | rewrite list_lookup_insert_ne by (auto; congruence); eassumption
        | eassumption ].

(** * Fourier transforms *)

Section FFT.
Context {T : Type} `{Coeff T}.

(** Modelled from the spec: the cast [T(n)] of an [int] into the ring, whose
    implementation is not part of the sources at hand; "cast-from-integer":
    the [n]-fold sum of the identity. *)
Fixpoint cast_nat (n : nat) : T :=
  match n with
  | O => r0
  | S n' => r1 [+] cast_nat n'
  end.
Definition castT (n : Z) : T :=
  if n <? 0 then [~] cast_nat (Z.to_nat (- n)) else cast_nat (Z.to_nat n).

(** [data[i]] and [data[i] = v] on a buffer, for an index within it *)
Definition bget (data : list T) (i : Z) : T := default r0 (data !! Z.to_nat i).
Definition bset (data : list T) (i : Z) (v : T) : list T :=
  if i <? 0 then data else <[Z.to_nat i := v]> data.

(** [for (T* dataH = data0 + h; data0 != dataH; data0++)]: the butterflies of
    one block; pointers are positions in [data]. *)
Fixpoint fft_block (fuel : nat) (h : Z) (root : T) (dataH data0 : Z) (w : T)
    (data : list T) : option (Z * list T) :=
  match fuel with
  | O => None
  | S fuel' =>
      if data0 =? dataH then Some (data0, data)
      else
        let data1 := data0 + h in
        let t := bget data data0 [-] bget data data1 in
        let data := bset data data0 (bget data data0 [+] bget data data1) in
        let data := bset data data1 (t [*] w) in
        fft_block fuel' h root dataH (data0 + 1) (w [*] root) data
  end.

(** [for (T* data0 = data; data0 != data + size; data0 += h)] *)
Fixpoint fft_pass (fuel : nat) (size h : Z) (root e1 : T) (data0 : Z)
    (data : list T) : option (list T) :=
  match fuel with
  | O => None
  | S fuel' =>
      if data0 =? size then Some data
      else
        match fft_block (Z.to_nat h + 1) h root (data0 + h) data0 e1 data with
        | Some (data0, data) => fft_pass fuel' size h root e1 (data0 + h) data
        | None => None
        end
  end.

(** [for (int m = size; m > 1; m /= 2)] *)
Fixpoint fft_passes (fuel : nat) (size : Z) (e1 : T) (m : Z) (root : T)
    (data : list T) : option (list T) :=
  match fuel with
  | O => None
  | S fuel' =>
      if 1 <? m then
        let h := Z.quot m 2 in
        match fft_pass (Z.to_nat size + 1) size h root e1 0 data with
        | Some data => fft_passes fuel' size e1 (Z.quot m 2) (root [*] root) data
        | None => None
        end
      else Some data
  end.

(** [for (int k = size / 2; (i ^= k) < k; k /= 2);], the value of [i] after it *)
Fixpoint fft_revinc (fuel : nat) (i k : Z) : option Z :=
  match fuel with
  | O => None
  | S fuel' =>
      let i := Z.lxor i k in
      if i <? k then fft_revinc fuel' i (Z.quot k 2) else Some i
  end.

(** [std::swap(data[i], data[j])] *)
Definition bswap (data : list T) (i j : Z) : list T :=
  bset (bset data i (bget data j)) j (bget data i).

(** [for (int i = 0, j = 1; j < size - 1; j++)] *)
Fixpoint fft_reorder (fuel : nat) (size i j : Z) (data : list T)
  : option (list T) :=
  match fuel with
  | O => None
  | S fuel' =>
      if j <? size - 1 then
        match fft_revinc (Z.to_nat size + 1) i (Z.quot size 2) with
        | Some i =>
            let data := if j <? i then bswap data i j else data in
            fft_reorder fuel' size i (j + 1) data
        | None => None
        end
      else Some data
  end.

(** [fft(data, size, root)], in place; [None] is a loop that does not end. *)
Definition fft (data : list T) (size : Z) (root : T) : option (list T) :=
  if negb (Z.land size (size - 1) =? 0) then Some data
  else
    let e1 := identityOf root in
    match fft_passes (Z.to_nat size + 1) size e1 size root data with
    | Some data => fft_reorder (Z.to_nat size + 1) size 0 1 data
    | None => None
    end.

(** [for (int i = 0; i < h; i++, rooti *= root)] of [fft_rec]; [d] is the
    position of [dest] in its buffer *)
Fixpoint fft_rec_combine (n : nat) (d h i : Z) (root rooti : T) (dest : list T)
  : list T :=
  match n with
  | O => dest
  | S n' =>
      let z := bget dest (d + i + h) [*] rooti in
      let dest := bset dest (d + i + h) (bget dest (d + i) [-] z) in
      let dest := bset dest (d + i) (bget dest (d + i) [+] z) in
      fft_rec_combine n' d h (i + 1) root (rooti [*] root) dest
  end.

(** [fft_rec(dest, src, size, root, off)]: [dest] and [src] are positions
    [d] and [s] in two different buffers. *)
Fixpoint fft_rec_fuel (fuel : nat) (dest : list T) (d : Z) (src : list T) (s : Z)
    (size : Z) (root : T) (off : Z) : option (list T) :=
  match fuel with
  | O => None
  | S fuel' =>
      if size <=? 1 then Some (bset dest d (bget src s))
      else
        let h := Z.quot size 2 in
        let root2 := root [*] root in
        let rooti := identityOf root in
        match fft_rec_fuel fuel' dest d src s h root2 (off * 2) with
        | Some dest =>
            match fft_rec_fuel fuel' dest (d + h) src (s + off) h root2 (off * 2) with
            | Some dest => Some (fft_rec_combine (Z.to_nat h) d h 0 root rooti dest)
            | None => None
            end
        | None => None
        end
  end.

Definition fft_rec (dest : list T) (d : Z) (src : list T) (s : Z)
    (size : Z) (root : T) (off : Z) : option (list T) :=
  fft_rec_fuel (Z.to_nat size + 1) dest d src s size root off.

(** [T isize = T(e1) / T(size); for (i < size) dataR[i] *= isize] *)
Definition scale_isize (data : list T) (size : Z) (e1 : T) : list T :=
  let isize := e1 [/] castT size in
  fold_left (fun data i => bset data (Z.of_nat i) (bget data (Z.of_nat i) [*] isize))
            (seq 0 (Z.to_nat size)) data.

(** [fft_cyclic_convolution(dataR, data1, data2, size, root_base, root_order)]:
    the three buffers after the call *)
Definition fft_cyclic_convolution (dataR data1 data2 : list T) (size : Z)
    (root_base : T) (root_order : Z) : option (list T * list T * list T) :=
  let root := powT root_base (Z.quot root_order size) in
  let iroot := powT root (size - 1) in
  match fft_rec dataR 0 data1 0 size root 1 with
  | Some bufR =>
      (* data1 is now bufR, dataR is the buffer of data1 *)
      match fft_rec data1 0 data2 0 size root 1 with
      | Some buf1 =>
          (* data2 is now buf1, dataR is the buffer of data2 *)
          let buf2 :=
            fold_left (fun data i =>
                         bset data (Z.of_nat i)
                              (bget bufR (Z.of_nat i) [*] bget buf1 (Z.of_nat i)))
                      (seq 0 (Z.to_nat size)) data2 in
          let e1 := identityOf root in
          match fft_rec bufR 0 buf2 0 size iroot 1 with
          | Some bufR => Some (scale_isize bufR size e1, buf1, buf2)
          | None => None
          end
      | None => None
      end
  | None => None
  end.

End FFT.

(** The integers modulo [m] as elements. *)
Definition ZmodCoeff (m : Z) : Coeff (Zmod m) := {|
  r0 := Zmod.zero; r1 := Zmod.one; radd := Zmod.add; rmul := Zmod.mul;
  rsub := Zmod.sub; ropp := Zmod.opp; rdiv := Zmod.mdiv; req := Zmod.eqb;
  rlt := fun a b => Zmod.to_Z a <? Zmod.to_Z b; is_floating_point := false |}.
#[global] Existing Instance ZmodCoeff.

(** * The transform that the Fourier routines compute *)

Section FourierSpec.
Context {T : Type} `{Coeff T}.

(** The discrete Fourier transform of [x 0 .. x (n - 1)] at the root [w]. *)
Definition dft (n : Z) (w : T) (x : Z -> T) (k : Z) : T :=
  sumZ 0 (n - 1) (fun j => x j [*] powT w (j * k)).

(** [w] is a principal [n]-th root of unity. *)
Definition principal_root (n : Z) (w : T) : Prop :=
  powT w n = r1 /\
  forall e, 0 < e < n -> sumZ 0 (n - 1) (fun j => powT w (j * e)) = r0.

(** The [K]-bit number whose bits are those of [j] in reverse order. *)
Fixpoint bitrev (K : nat) (j : Z) : Z :=
  match K with
  | O => 0
  | S K' => (j mod 2) * 2 ^ Z.of_nat K' + bitrev K' (j / 2)
  end.

End FourierSpec.

(** Case analysis on the integer comparisons of the goal. *)
Ltac zcases :=
  repeat match goal with
  | |- context [?a <=? ?b] => destruct (Z.leb_spec a b)
  | |- context [?a <? ?b] => destruct (Z.ltb_spec a b)
  | |- context [?a =? ?b] => destruct (Z.eqb_spec a b)
  end; cbn [andb orb negb]; try lia.

(** * Sample data *)

(** A linear congruential generator, for coefficients between -10 and 10. *)
Definition lcg (s : Z) : Z := (s * 1103515245 + 12345) mod 2147483648.

Fixpoint sample (n : nat) (s : Z) : list Z :=
  match n with
  | O => []
  | S n' => (lcg s mod 21 - 10) :: sample n' (lcg s)
  end.

(** Residues modulo 17. *)
Definition F17 (l : list Z) : list (Zmod 17) := map (Zmod.of_Z 17) l.

(** * Evaluation, derivative and integral *)

Section Calculus.
Context {T : Type} `{Coeff T}.

(** [for (int i = deg(); i > 0; i--) r[i - 1] = c[i] * i]; the factor [i]
    enters the ring by [castT] *)
Fixpoint derivative_loop (p : polynom T) (n : nat) (i : Z) (r : polynom T)
  : polynom T :=
  match n with
  | O => r
  | S n' =>
      derivative_loop p n' (i - 1)
        (Poly.pset r (i - 1) (Poly.vget (c p) i [*] castT i))
  end.

(** [derivative()] *)
Definition derivative (p : polynom T) : polynom T :=
  let r := Poly.of_scalar (ZERO_COEFF p) in
  if Poly.size p =? 0 then r
  else derivative_loop p (Z.to_nat (Poly.deg p)) (Poly.deg p) r.

(** [for (int i = deg(); i >= 0; i--) r[i + 1] = c[i] / (i + 1)] *)
Fixpoint integral_loop (p : polynom T) (n : nat) (i : Z) (r : polynom T)
  : polynom T :=
  match n with
  | O => r
  | S n' =>
      integral_loop p n' (i - 1)
        (Poly.pset r (i + 1) (Poly.vget (c p) i [/] castT (i + 1)))
  end.

(** [integral(c0)] *)
Definition integral (p : polynom T) (c0 : T) : polynom T :=
  let r := Poly.of_scalar c0 in
  if Poly.size p =? 0 then r
  else integral_loop p (Z.to_nat (Poly.deg p + 1)) (Poly.deg p) r.

(** [integral()] *)
Definition integral_default (p : polynom T) : polynom T :=
  integral p (ZERO_COEFF p).

Section Eval.
Context {A : Type} `{Coeff A}.
(** [castOf(x, c)], the cast of a coefficient into the ring of the point
    [x]; it belongs to the ring contract of [base.h] and is a parameter
    here. *)
Variable castOf : A -> T -> A.

(** [for (int i = deg(); i >= 0; i--) r = r * x + castOf(x, c[i])] *)
Fixpoint eval_loop (p : polynom T) (x : A) (n : nat) (i : Z) (r : A) : A :=
  match n with
  | O => r
  | S n' =>
      eval_loop p x n' (i - 1) (r [*] x [+] castOf x (Poly.vget (c p) i))
  end.

(** [eval<A>(x)], also [operator ()] *)
Definition eval (p : polynom T) (x : A) : A :=
  let r := zeroOf x in
  if Poly.size p =? 0 then r
  else eval_loop p x (Z.to_nat (Poly.deg p + 1)) (Poly.deg p) r.

End Eval.
End Calculus.

(** * Ordinary convolution *)

Section Convolution.
Context {T : Type} `{Coeff T}.

(** [int l = 1; while (l < n) l *= 2;], the value of [l] after it *)
Fixpoint double_until (fuel : nat) (l n : Z) : option Z :=
  match fuel with
  | O => None
  | S fuel' => if l <? n then double_until fuel' (l * 2) n else Some l
  end.

(** [convolution(u_begin, u_end, v_begin, v_end, root_base, root_order)];
    [r.resize(n)] throws for a negative [n], the case of two empty
    sequences, and only cuts otherwise, as [n <= l]. *)
Definition convolution (u v : list T) (root_base : T) (root_order : Z)
  : option (list T) :=
  let e1 := identityOf root_base in
  let e0 := zeroOf e1 in
  let n := Z.of_nat (length u) + Z.of_nat (length v) - 1 in
  match double_until (Z.to_nat n + 1) 1 n with
  | Some l =>
      let r := Poly.vresize [] l e0 in
      let u := Poly.vresize u l e0 in
      let v := Poly.vresize v l e0 in
      match fft_cyclic_convolution r u v l root_base root_order with
      | Some (r, _, _) => if n <? 0 then None else Some (Poly.vresize r n e0)
      | None => None
      end
  | None => None
  end.

End Convolution.

(** * Part II: the properties *)

Section SumLaws.
Context {T : Type} `{CoeffLaws T}.
Add Ring coeff_ring_sums : coeff_ring.

Lemma sum_n_ext (f g : Z -> T) lo n :
  (forall j, lo <= j < lo + Z.of_nat n -> f j = g j) ->
  sum_n f lo n = sum_n g lo n.
Proof.
  revert lo; induction n as [|n IH]; intros lo E; simpl; [reflexivity|].
  rewrite E by lia. rewrite IH; [reflexivity|]. intros; apply E; lia.
Qed.

Lemma sum_n_app (f : Z -> T) lo a b :
  sum_n f lo (a + b) = sum_n f lo a [+] sum_n f (lo + Z.of_nat a) b.
Proof.
  revert lo; induction a as [|a IH]; intros lo; simpl.
  - replace (lo + Z.of_nat 0) with lo by lia. ring.
  - rewrite IH. replace (lo + 1 + Z.of_nat a) with (lo + Z.of_nat (S a)) by lia. ring.
Qed.

Lemma sumZ_empty lo hi (f : Z -> T) : hi < lo -> sumZ lo hi f = r0.
Proof. intros; unfold sumZ. replace (Z.to_nat (hi + 1 - lo)) with 0%nat by lia. reflexivity. Qed.

Lemma sumZ_first lo hi (f : Z -> T) :
  lo <= hi -> sumZ lo hi f = f lo [+] sumZ (lo + 1) hi f.
Proof.
  intros; unfold sumZ.
  replace (Z.to_nat (hi + 1 - lo)) with (S (Z.to_nat (hi + 1 - (lo + 1)))) by lia.
  reflexivity.
Qed.

Lemma sumZ_split lo m hi (f : Z -> T) :
  lo <= m + 1 -> m <= hi ->
  sumZ lo hi f = sumZ lo m f [+] sumZ (m + 1) hi f.
Proof.
  intros; unfold sumZ.
  replace (Z.to_nat (hi + 1 - lo))
    with (Z.to_nat (m + 1 - lo) + Z.to_nat (hi + 1 - (m + 1)))%nat by lia.
  rewrite sum_n_app. do 2 f_equal. lia.
Qed.

Lemma sumZ_one lo (f : Z -> T) : sumZ lo lo f = f lo.
Proof. rewrite sumZ_first by lia. rewrite sumZ_empty by lia. ring. Qed.

Lemma sumZ_last lo hi (f : Z -> T) :
  lo <= hi -> sumZ lo hi f = sumZ lo (hi - 1) f [+] f hi.
Proof.
  intros. rewrite (sumZ_split lo (hi - 1) hi) by lia.
  replace (hi - 1 + 1) with hi by lia. now rewrite sumZ_one.
Qed.

Lemma sumZ_ext lo hi (f g : Z -> T) :
  (forall j, lo <= j <= hi -> f j = g j) -> sumZ lo hi f = sumZ lo hi g.
Proof. intros E; unfold sumZ. apply sum_n_ext. intros; apply E; lia. Qed.

(** Induction on the upper end of a range. *)
Lemma range_ind (lo : Z) (P : Z -> Prop) :
  P (lo - 1) -> (forall hi, lo <= hi -> P (hi - 1) -> P hi) ->
  forall hi, lo - 1 <= hi -> P hi.
Proof.
  intros Hbase HS hi Hhi.
  replace hi with (lo - 1 + Z.of_nat (Z.to_nat (hi - (lo - 1)))) by lia.
  generalize (Z.to_nat (hi - (lo - 1))) as n.
  induction n as [|n IH].
  - now replace (lo - 1 + Z.of_nat 0) with (lo - 1) by lia.
  - apply HS; [lia|].
    now replace (lo - 1 + Z.of_nat (S n) - 1) with (lo - 1 + Z.of_nat n) by lia.
Qed.

Lemma sumZ_zero lo hi (f : Z -> T) :
  (forall j, lo <= j <= hi -> f j = r0) -> sumZ lo hi f = r0.
Proof.
  intros E. destruct (Z_lt_le_dec hi lo) as [?|Hle]; [now apply sumZ_empty|].
  revert E. pattern hi. apply (range_ind lo); [| |lia].
  - intros; apply sumZ_empty; lia.
  - intros h Hh IH E. rewrite sumZ_last by lia. rewrite IH, E by (try (intros; apply E); lia). ring.
Qed.

Lemma sumZ_add lo hi (f g : Z -> T) :
  sumZ lo hi (fun j => f j [+] g j) = sumZ lo hi f [+] sumZ lo hi g.
Proof.
  destruct (Z_lt_le_dec hi lo) as [?|Hle]; [rewrite !sumZ_empty by lia; ring|].
  pattern hi. apply (range_ind lo); [| |lia].
  - rewrite !sumZ_empty by lia; ring.
  - intros h Hh IH. rewrite !(sumZ_last lo h) by lia. rewrite IH. ring.
Qed.

Lemma sumZ_sub lo hi (f g : Z -> T) :
  sumZ lo hi (fun j => f j [-] g j) = sumZ lo hi f [-] sumZ lo hi g.
Proof.
  destruct (Z_lt_le_dec hi lo) as [?|Hle]; [rewrite !sumZ_empty by lia; ring|].
  pattern hi. apply (range_ind lo); [| |lia].
  - rewrite !sumZ_empty by lia; ring.
  - intros h Hh IH. rewrite !(sumZ_last lo h) by lia. rewrite IH. ring.
Qed.

Lemma sumZ_mul_r lo hi (f : Z -> T) (c : T) :
  sumZ lo hi (fun j => f j [*] c) = sumZ lo hi f [*] c.
Proof.
  destruct (Z_lt_le_dec hi lo) as [?|Hle]; [rewrite !sumZ_empty by lia; ring|].
  pattern hi. apply (range_ind lo); [| |lia].
  - rewrite !sumZ_empty by lia; ring.
  - intros h Hh IH. rewrite !(sumZ_last lo h) by lia. rewrite IH. ring.
Qed.

Lemma sumZ_mul_l lo hi (f : Z -> T) (c : T) :
  sumZ lo hi (fun j => c [*] f j) = c [*] sumZ lo hi f.
Proof.
  rewrite <- (sumZ_ext lo hi (fun j => f j [*] c)) by (intros; ring).
  rewrite sumZ_mul_r. ring.
Qed.

Lemma sumZ_shift d lo hi (f : Z -> T) :
  sumZ lo hi f = sumZ (lo + d) (hi + d) (fun j => f (j - d)).
Proof.
  destruct (Z_lt_le_dec hi lo) as [?|Hle]; [rewrite !sumZ_empty by lia; ring|].
  pattern hi. apply (range_ind lo); [| |lia].
  - rewrite !sumZ_empty by lia; ring.
  - intros h Hh IH. rewrite (sumZ_last lo h), (sumZ_last (lo + d) (h + d)) by lia.
    rewrite IH. replace (h + d - 1) with (h - 1 + d) by lia.
    replace (h + d - d) with h by lia. ring.
Qed.

Lemma sumZ_rev lo hi (f : Z -> T) :
  sumZ lo hi f = sumZ lo hi (fun j => f (lo + hi - j)).
Proof.
  destruct (Z_lt_le_dec hi lo) as [?|Hle]; [rewrite !sumZ_empty by lia; ring|].
  revert f. pattern hi. apply (range_ind lo); [| |lia].
  - intros; rewrite !sumZ_empty by lia; ring.
  - intros h Hh IH f. rewrite (sumZ_last lo h) by lia.
    rewrite (sumZ_first lo h (fun j => f (lo + h - j))) by lia.
    rewrite IH. replace (lo + h - lo) with h by lia.
    rewrite (sumZ_shift 1 lo (h - 1)). replace (h - 1 + 1) with h by lia.
    rewrite (sumZ_ext (lo + 1) h _ (fun j => f (lo + h - j))).
    + ring.
    + intros; f_equal; lia.
Qed.

Lemma sumZ_single lo hi m (f : Z -> T) :
  lo <= m <= hi -> (forall j, lo <= j <= hi -> j <> m -> f j = r0) ->
  sumZ lo hi f = f m.
Proof.
  intros Hm E. rewrite (sumZ_split lo (m - 1) hi) by lia.
  replace (m - 1 + 1) with m by lia. rewrite (sumZ_first m hi) by lia.
  rewrite !sumZ_zero by (intros; apply E; lia). ring.
Qed.

(** Exchange of two independent summations. *)
Lemma sumZ_swap lo1 hi1 lo2 hi2 (F : Z -> Z -> T) :
  sumZ lo1 hi1 (fun i => sumZ lo2 hi2 (fun j => F i j)) =
  sumZ lo2 hi2 (fun j => sumZ lo1 hi1 (fun i => F i j)).
Proof.
  destruct (Z_lt_le_dec hi1 lo1) as [?|Hle].
  { rewrite sumZ_empty by lia. symmetry; apply sumZ_zero. intros; apply sumZ_empty; lia. }
  pattern hi1. apply (range_ind lo1); [| |lia].
  - rewrite sumZ_empty by lia. symmetry; apply sumZ_zero. intros; apply sumZ_empty; lia.
  - intros h Hh IH. rewrite sumZ_last by lia. rewrite IH.
    rewrite <- sumZ_add. apply sumZ_ext. intros. now rewrite (sumZ_last lo1 h) by lia.
Qed.

(** Exchange of a triangular double summation. *)
Lemma sumZ_triangle n (F : Z -> Z -> T) :
  sumZ 0 n (fun j => sumZ 0 j (fun x => F x j)) =
  sumZ 0 n (fun x => sumZ x n (fun j => F x j)).
Proof.
  destruct (Z_lt_le_dec n 0) as [?|Hle]; [rewrite !sumZ_empty by lia; ring|].
  pattern n. apply (range_ind 0); [| |lia].
  - rewrite !sumZ_empty by lia; ring.
  - intros h Hh IH. rewrite (sumZ_last 0 h) by lia. rewrite IH.
    rewrite (sumZ_last 0 h (fun x => sumZ x h _)) by lia.
    rewrite sumZ_one.
    rewrite (sumZ_last 0 h (fun x => F x h)) by lia.
    rewrite (sumZ_ext 0 (h - 1) (fun x => sumZ x h _)
               (fun x => sumZ x (h - 1) (fun j => F x j) [+] F x h)).
    + rewrite sumZ_add. ring.
    + intros. now rewrite (sumZ_last j h) by lia.
Qed.

(** ** Convolution *)

Lemma conv_neg (a b : Z -> T) i : i < 0 -> conv a b i = r0.
Proof. intros; unfold conv; now apply sumZ_empty. Qed.

Lemma conv_ext (a a' b b' : Z -> T) i :
  (forall j, 0 <= j <= i -> a j = a' j) ->
  (forall j, 0 <= j <= i -> b j = b' j) ->
  conv a b i = conv a' b' i.
Proof.
  intros Ea Eb; unfold conv. apply sumZ_ext. intros j Hj.
  rewrite Ea, Eb by lia. reflexivity.
Qed.

Lemma conv_comm (a b : Z -> T) i : conv a b i = conv b a i.
Proof.
  unfold conv. rewrite sumZ_rev. apply sumZ_ext. intros j Hj.
  replace (0 + i - j) with (i - j) by lia.
  replace (i - (i - j)) with j by lia. ring.
Qed.

Lemma conv_add_l (a a' b : Z -> T) i :
  conv (sadd a a') b i = conv a b i [+] conv a' b i.
Proof.
  unfold conv, sadd. rewrite <- sumZ_add. apply sumZ_ext; intros; ring.
Qed.

Lemma conv_add_r (a b b' : Z -> T) i :
  conv a (sadd b b') i = conv a b i [+] conv a b' i.
Proof.
  unfold conv, sadd. rewrite <- sumZ_add. apply sumZ_ext; intros; ring.
Qed.

Lemma conv_sub_r (a b b' : Z -> T) i :
  conv a (ssub b b') i = conv a b i [-] conv a b' i.
Proof.
  unfold conv, ssub. rewrite <- sumZ_sub. apply sumZ_ext; intros; ring.
Qed.

Lemma conv_scal_l (c : T) (a b : Z -> T) i :
  conv (sscal c a) b i = conv a b i [*] c.
Proof.
  unfold conv, sscal. rewrite <- sumZ_mul_r. apply sumZ_ext; intros; ring.
Qed.

Lemma conv_scal_r (c : T) (a b : Z -> T) i :
  conv a (sscal c b) i = conv a b i [*] c.
Proof.
  unfold conv, sscal. rewrite <- sumZ_mul_r. apply sumZ_ext; intros; ring.
Qed.

Lemma conv_shift_l k (a b : Z -> T) i :
  0 <= k -> conv (shift k a) b i = conv a b (i - k).
Proof.
  intros Hk. unfold conv, shift.
  destruct (Z_lt_le_dec i k) as [Hlt|Hle].
  - rewrite (sumZ_empty 0 (i - k)) by lia. apply sumZ_zero. intros j Hj.
    destruct (Z.ltb_spec j k); [ring|lia].
  - rewrite (sumZ_split 0 (k - 1) i) by lia.
    rewrite sumZ_zero.
    2:{ intros j Hj. destruct (Z.ltb_spec j k); [ring|lia]. }
    replace (k - 1 + 1) with k by lia.
    rewrite (sumZ_shift k 0 (i - k)). replace (i - k + k) with i by lia.
    replace (0 + k) with k by lia.
    rewrite (sumZ_ext k i _ (fun j => a (j - k) [*] b (i - k - (j - k)))).
    + ring.
    + intros j Hj. destruct (Z.ltb_spec j k); [lia|]. do 2 f_equal. lia.
Qed.

Lemma conv_shift_r k (a b : Z -> T) i :
  0 <= k -> conv a (shift k b) i = conv a b (i - k).
Proof. intros. rewrite conv_comm, conv_shift_l by lia. apply conv_comm. Qed.

Lemma conv_assoc (a b c : Z -> T) i :
  conv (conv a b) c i = conv a (conv b c) i.
Proof.
  unfold conv at 1.
  rewrite (sumZ_ext 0 i _
            (fun j => sumZ 0 j (fun x => a x [*] b (j - x) [*] c (i - j)))).
  2:{ intros j Hj. unfold conv. now rewrite sumZ_mul_r. }
  rewrite (sumZ_triangle i (fun x j => a x [*] b (j - x) [*] c (i - j))).
  unfold conv at 1. apply sumZ_ext. intros x Hx.
  unfold conv. rewrite <- sumZ_mul_l.
  rewrite (sumZ_shift x 0 (i - x)).
  replace (0 + x) with x by lia. replace (i - x + x) with i by lia.
  apply sumZ_ext. intros j Hj.
  replace (i - x - (j - x)) with (i - j) by lia. ring.
Qed.

Lemma conv_delta_r (a : Z -> T) i : 0 <= i -> conv a delta i = a i.
Proof.
  intros Hi. unfold conv. rewrite (sumZ_single 0 i i); [|lia|].
  - unfold delta. replace (i - i) with 0 by lia. simpl. ring.
  - intros j Hj Hne; unfold delta; destruct (Z.eqb_spec (i - j) 0); [lia|ring].
Qed.

Lemma conv_delta_l (a : Z -> T) i : 0 <= i -> conv delta a i = a i.
Proof. intros; rewrite conv_comm; now apply conv_delta_r. Qed.

Lemma conv_trunc_l l (a b : Z -> T) i :
  i <= l -> conv (trunc l a) b i = conv a b i.
Proof.
  intros. apply conv_ext; [|reflexivity]. intros j Hj. unfold trunc.
  destruct (Z.leb_spec 0 j), (Z.leb_spec j l); simpl; try lia; reflexivity.
Qed.

Lemma conv_trunc_r l (a b : Z -> T) i :
  i <= l -> conv a (trunc l b) i = conv a b i.
Proof. intros. rewrite conv_comm, conv_trunc_l by lia. apply conv_comm. Qed.

(** Terms beyond the lengths of the operands vanish: the range of [j] that
    the schoolbook kernel sums over. *)
Lemma conv_window l1 l2 (a b : Z -> T) i :
  0 <= l1 -> 0 <= l2 ->
  conv (trunc l1 a) (trunc l2 b) i =
  sumZ (Z.max 0 (i - l2)) (Z.min i l1) (fun j => a j [*] b (i - j)).
Proof.
  intros H1 H2. unfold conv.
  destruct (Z_lt_le_dec i 0) as [Hi|Hi]; [rewrite !sumZ_empty by lia; reflexivity|].
  destruct (Z_lt_le_dec (Z.min i l1) (Z.max 0 (i - l2))) as [Hw|Hw].
  { rewrite (sumZ_empty (Z.max _ _)) by lia. apply sumZ_zero. intros j Hj. unfold trunc.
    destruct (Z.leb_spec 0 j), (Z.leb_spec j l1), (Z.leb_spec 0 (i - j)), (Z.leb_spec (i - j) l2);
      simpl; try lia; ring. }
  rewrite (sumZ_split 0 (Z.max 0 (i - l2) - 1) i) by lia.
  replace (Z.max 0 (i - l2) - 1 + 1) with (Z.max 0 (i - l2)) by lia.
  rewrite (sumZ_split (Z.max 0 (i - l2)) (Z.min i l1) i) by lia.
  rewrite (sumZ_zero 0), (sumZ_zero (Z.min i l1 + 1)).
  - rewrite (sumZ_ext _ _ _ (fun j => a j [*] b (i - j))); [ring|].
    intros j Hj. unfold trunc.
    destruct (Z.leb_spec 0 j), (Z.leb_spec j l1), (Z.leb_spec 0 (i - j)), (Z.leb_spec (i - j) l2);
      simpl; try lia; ring.
  - intros j Hj. unfold trunc.
    destruct (Z.leb_spec 0 j), (Z.leb_spec j l1), (Z.leb_spec 0 (i - j)), (Z.leb_spec (i - j) l2);
      simpl; try lia; ring.
  - intros j Hj. unfold trunc.
    destruct (Z.leb_spec 0 j), (Z.leb_spec j l1), (Z.leb_spec 0 (i - j)), (Z.leb_spec (i - j) l2);
      simpl; try lia; ring.
Qed.

(** The product of sequences of lengths [l1 + 1] and [l2 + 1] has no
    coefficient beyond [l1 + l2]. *)
Lemma conv_high l1 l2 (a b : Z -> T) i :
  l1 + l2 < i -> conv (trunc l1 a) (trunc l2 b) i = r0.
Proof.
  intros. unfold conv. apply sumZ_zero. intros j Hj. unfold trunc.
  destruct (Z.leb_spec 0 j), (Z.leb_spec j l1), (Z.leb_spec 0 (i - j)), (Z.leb_spec (i - j) l2);
    simpl; try lia; ring.
Qed.

(** The two splittings behind Karatsuba's recursion. *)
Lemma kara2 (lo hi b : Z -> T) k i :
  0 <= k ->
  conv (sadd lo (shift k hi)) b i = conv lo b i [+] conv hi b (i - k).
Proof. intros. now rewrite conv_add_l, conv_shift_l. Qed.

Lemma kara3 (lo1 hi1 lo2 hi2 : Z -> T) k i :
  0 <= k ->
  conv (sadd lo1 (shift k hi1)) (sadd lo2 (shift k hi2)) i =
  conv lo1 lo2 i
  [+] (conv (sadd lo1 hi1) (sadd lo2 hi2) (i - k)
       [-] conv lo1 lo2 (i - k) [-] conv hi1 hi2 (i - k))
  [+] conv hi1 hi2 (i - k - k).
Proof.
  intros.
  repeat first [rewrite conv_add_l | rewrite conv_add_r
               | rewrite conv_shift_l by lia | rewrite conv_shift_r by lia].
  ring.
Qed.

End SumLaws.

Section MonadLaws.
Context {St : Type}.

Lemma runs_ret {A} (a : A) s (Q : A -> St -> Prop) : Q a s -> runs (ret a) s Q.
Proof. intros; exists a, s; auto. Qed.

Lemma runs_bind {A B} (m : M St A) (k : A -> M St B) s (Q : B -> St -> Prop) :
  runs m s (fun a s' => runs (k a) s' Q) -> runs (bind m k) s Q.
Proof.
  intros (a & s' & E & b & s'' & E' & HQ). exists b, s''. split; [|exact HQ].
  unfold bind. now rewrite E.
Qed.

Lemma runs_wand {A} (m : M St A) s (Q Q' : A -> St -> Prop) :
  runs m s Q -> (forall a h', Q a h' -> Q' a h') -> runs m s Q'.
Proof. intros (a & h' & E & HQ) HW. exists a, h'. auto. Qed.

(** ** Loops *)

Lemma fold_down_n_rule {A} (I : Z -> A -> St -> Prop) lo body n :
  forall hi a h,
  hi = lo - 1 + Z.of_nat n -> I hi a h ->
  (forall i a h, lo <= i <= hi -> I i a h ->
     runs (body i a) h (fun a' h' => I (i - 1) a' h')) ->
  runs (fold_down_n n hi body a) h (fun a' h' => I (lo - 1) a' h').
Proof.
  induction n as [|n IH]; intros hi a h Hhi HI Hstep; simpl.
  - apply runs_ret. now replace (lo - 1) with hi by lia.
  - apply runs_bind. eapply runs_wand; [apply Hstep; [lia|exact HI]|].
    intros a' h' HI'. apply IH; [lia|exact HI'|].
    intros; apply Hstep; [lia|assumption].
Qed.

(** A descending loop: the invariant at [hi] before, at [lo - 1] after; an
    empty loop leaves everything as it is. *)
Lemma fold_down_rule {A} (I : Z -> A -> St -> Prop) hi lo body a h :
  I hi a h ->
  (forall i a h, lo <= i <= hi -> I i a h ->
     runs (body i a) h (fun a' h' => I (i - 1) a' h')) ->
  runs (fold_down hi lo body a) h (fun a' h' => I (Z.min hi (lo - 1)) a' h').
Proof.
  intros HI Hstep. unfold fold_down.
  destruct (Z_lt_le_dec hi lo) as [Hlt|Hle].
  - replace (Z.to_nat (hi - lo + 1)) with 0%nat by lia. simpl. apply runs_ret.
    now replace (Z.min hi (lo - 1)) with hi by lia.
  - replace (Z.min hi (lo - 1)) with (lo - 1) by lia.
    apply fold_down_n_rule; [lia|exact HI|exact Hstep].
Qed.

Lemma fold_up_n_rule {A} (I : Z -> A -> St -> Prop) hi body n :
  forall lo a h,
  lo = hi + 1 - Z.of_nat n -> I lo a h ->
  (forall i a h, lo <= i <= hi -> I i a h ->
     runs (body i a) h (fun a' h' => I (i + 1) a' h')) ->
  runs (fold_up_n n lo body a) h (fun a' h' => I (hi + 1) a' h').
Proof.
  induction n as [|n IH]; intros lo a h Hlo HI Hstep; simpl.
  - apply runs_ret. now replace (hi + 1) with lo by lia.
  - apply runs_bind. eapply runs_wand; [apply Hstep; [lia|exact HI]|].
    intros a' h' HI'. apply IH; [lia|exact HI'|].
    intros; apply Hstep; [lia|assumption].
Qed.

Lemma fold_up_rule {A} (I : Z -> A -> St -> Prop) lo hi body a h :
  I lo a h ->
  (forall i a h, lo <= i <= hi -> I i a h ->
     runs (body i a) h (fun a' h' => I (i + 1) a' h')) ->
  runs (fold_up lo hi body a) h (fun a' h' => I (Z.max lo (hi + 1)) a' h').
Proof.
  intros HI Hstep. unfold fold_up.
  destruct (Z_lt_le_dec hi lo) as [Hlt|Hle].
  - replace (Z.to_nat (hi - lo + 1)) with 0%nat by lia. simpl. apply runs_ret.
    now replace (Z.max lo (hi + 1)) with lo by lia.
  - replace (Z.max lo (hi + 1)) with (hi + 1) by lia.
    apply fold_up_n_rule; [lia|exact HI|exact Hstep].
Qed.

Lemma for_down_rule (I : Z -> St -> Prop) hi lo body h :
  I hi h ->
  (forall i h, lo <= i <= hi -> I i h -> runs (body i) h (fun _ h' => I (i - 1) h')) ->
  runs (for_down hi lo body) h (fun _ h' => I (Z.min hi (lo - 1)) h').
Proof.
  intros HI Hstep. unfold for_down.
  apply (fold_down_rule (fun i (_ : unit) h => I i h)); auto.
Qed.

Lemma for_up_rule (I : Z -> St -> Prop) lo hi body h :
  I lo h ->
  (forall i h, lo <= i <= hi -> I i h -> runs (body i) h (fun _ h' => I (i + 1) h')) ->
  runs (for_up lo hi body) h (fun _ h' => I (Z.max lo (hi + 1)) h').
Proof.
  intros HI Hstep. unfold for_up.
  apply (fold_up_rule (fun i (_ : unit) h => I i h)); auto.
Qed.

End MonadLaws.

Section MemLaws.
Context {T : Type} `{CoeffLaws T}.
Add Ring coeff_ring_mem : coeff_ring.

Implicit Types (h : heap T) (p : ptr).

Lemma blen_nonneg h b : 0 <= blen h b.
Proof. unfold blen. destruct (h !! b); lia. Qed.

Lemma blen_pos_lt h b : 0 < blen h b -> (b < length h)%nat.
Proof.
  unfold blen. destruct (h !! b) eqn:E; [|lia].
  intros _. eapply lookup_lt_Some; eauto.
Qed.

Lemma same_shape_refl h : same_shape h h.
Proof. split; auto. Qed.

Lemma same_shape_trans h h1 h2 : same_shape h h1 -> same_shape h1 h2 -> same_shape h h2.
Proof. intros [L1 B1] [L2 B2]. split; [congruence|]. intros b. now rewrite B2, B1. Qed.

Lemma valid_shape h h' p lo hi : same_shape h h' -> valid h p lo hi -> valid h' p lo hi.
Proof. intros [_ B] V Hle. rewrite B. auto. Qed.

Lemma modifies_refl h b lo hi : modifies h h b lo hi.
Proof. split; [apply same_shape_refl|auto]. Qed.

Lemma modifies_trans h h1 h2 b lo hi lo1 hi1 lo2 hi2 :
  modifies h h1 b lo1 hi1 -> modifies h1 h2 b lo2 hi2 ->
  (lo1 <= hi1 -> lo <= lo1 /\ hi1 <= hi) -> (lo2 <= hi2 -> lo <= lo2 /\ hi2 <= hi) ->
  modifies h h2 b lo hi.
Proof.
  intros [S1 F1] [S2 F2] H1 H2. split; [eapply same_shape_trans; eauto|].
  intros b' n Hn. rewrite F2, F1 by lia. reflexivity.
Qed.

Lemma modifies_weaken h h' b lo hi lo1 hi1 :
  modifies h h' b lo1 hi1 -> (lo1 <= hi1 -> lo <= lo1 /\ hi1 <= hi) ->
  modifies h h' b lo hi.
Proof.
  intros [S1 F1] H1. split; [exact S1|]. intros b' n Hn. apply F1. lia.
Qed.

Lemma rd_abs h p lo hi (F : Z -> T) :
  (forall i, lo <= i <= hi -> rd h p i = F i) ->
  forall n, off p + lo <= n <= off p + hi -> rda h (blk p) n = F (n - off p).
Proof.
  intros E n Hn. rewrite <- E by lia. unfold rd. f_equal. lia.
Qed.

Lemma load_ok p i h :
  0 <= off p + i < blen h (blk p) -> load p i h = Some (rd h p i, h).
Proof.
  intros Hb. unfold load, rd, rda, blen in *.
  destruct (Z.leb_spec 0 (off p + i)); [|lia].
  destruct (h !! blk p) as [b|] eqn:E; [|lia].
  destruct (lookup_lt_is_Some_2 b (Z.to_nat (off p + i))) as [v Ev]; [lia|].
  now rewrite Ev.
Qed.

Lemma runs_load p i h (Q : T -> heap T -> Prop) :
  0 <= off p + i < blen h (blk p) -> Q (rd h p i) h -> runs (load p i) h Q.
Proof. intros Hb HQ. exists (rd h p i), h. split; [now apply load_ok|exact HQ]. Qed.

Lemma store_ok p i v h :
  0 <= off p + i < blen h (blk p) ->
  exists h', store p i v h = Some (tt, h') /\
    modifies h h' (blk p) (off p + i) (off p + i) /\ rd h' p i = v.
Proof.
  intros Hb. unfold store, rd, rda, blen in *.
  destruct (Z.leb_spec 0 (off p + i)); [|lia].
  destruct (h !! blk p) as [b|] eqn:E; [|lia].
  assert (Hlt : (Z.to_nat (off p + i) < length b)%nat) by lia.
  destruct (Nat.ltb_spec (Z.to_nat (off p + i)) (length b)); [|lia].
  eexists; split; [reflexivity|].
  assert (Hbl : (blk p < length h)%nat) by (eapply lookup_lt_Some; eauto).
  split; [split; [split|]|].
  - apply length_insert.
  - intros b'. unfold blen. destruct (decide (b' = blk p)) as [->|Hne].
    + rewrite list_lookup_insert_eq by lia. rewrite E, length_insert. reflexivity.
    + rewrite list_lookup_insert_ne by auto. reflexivity.
  - intros b' n Hn. unfold rda. destruct (decide (b' = blk p)) as [->|Hne].
    + rewrite list_lookup_insert_eq by lia. rewrite E.
      destruct (Z.leb_spec 0 n); [|reflexivity].
      rewrite list_lookup_insert_ne by lia. reflexivity.
    + rewrite list_lookup_insert_ne by auto. reflexivity.
  - rewrite list_lookup_insert_eq by lia.
    destruct (Z.leb_spec 0 (off p + i)); [|lia].
    rewrite list_lookup_insert_eq by lia. reflexivity.
Qed.

Lemma runs_store p i v h (Q : unit -> heap T -> Prop) :
  0 <= off p + i < blen h (blk p) ->
  (forall h', modifies h h' (blk p) (off p + i) (off p + i) -> rd h' p i = v -> Q tt h') ->
  runs (store p i v) h Q.
Proof.
  intros Hb HQ. destruct (store_ok p i v h Hb) as (h' & E & Hm & Hv).
  exists tt, h'. auto.
Qed.

End MemLaws.

Section KernelSpecs.
Context {T : Type} `{CoeffLaws T}.
Add Ring coeff_ring_kern : coeff_ring.

Implicit Types (h : heap T) (p : ptr).

Lemma _zero_spec pr lm lr z h :
  valid h pr (lm + 1) lr ->
  runs (_zero pr lm lr z) h (fun _ h' =>
    modifies h h' (blk pr) (off pr + lm + 1) (off pr + lr) /\
    forall i, lm < i <= lr -> rd h' pr i = z).
Proof.
  intros V. unfold _zero.
  eapply runs_wand.
  - apply (for_up_rule (fun i h' =>
      modifies h h' (blk pr) (off pr + lm + 1) (off pr + i - 1) /\
      forall j, lm < j < i -> rd h' pr j = z)).
    + split; [apply modifies_refl|intros; lia].
    + intros i h1 Hi [Hm Hz].
      apply runs_store.
      * destruct Hm as [[_ Hb] _]. rewrite Hb. unfold valid in V. lia.
      * intros h2 Hm2 Hv. split.
        -- eapply modifies_trans; eauto; lia.
        -- intros j Hj. destruct (Z.eq_dec j i) as [->|Hne]; [exact Hv|].
           destruct Hm2 as [_ F]. unfold rd. rewrite F by lia. apply Hz; lia.
  - simpl. intros _ h' [Hm Hz].
    destruct (Z_lt_le_dec lr (lm + 1)).
    + replace (Z.max (lm + 1) (lr + 1)) with (lm + 1) in * by lia.
      split; [|intros; lia]. eapply modifies_weaken; [apply Hm|lia].
    + replace (Z.max (lm + 1) (lr + 1)) with (lr + 1) in * by lia.
      split; [|intros; apply Hz; lia].
      eapply modifies_weaken; [apply Hm|lia].
Qed.

(** [pr[i] = pr[i] op p2[i]] for [i] in [0..l2], the two in different buffers. *)
Lemma _acc_spec (op : T -> T -> T) pr p2 l2 h :
  valid h pr 0 l2 -> valid h p2 0 l2 -> blk pr <> blk p2 ->
  runs (for_up 0 l2 (fun i =>
          b <- load p2 i ;; a <- load pr i ;; store pr i (op a b))) h
    (fun _ h' =>
      modifies h h' (blk pr) (off pr) (off pr + l2) /\
      forall i, 0 <= i <= l2 -> rd h' pr i = op (rd h pr i) (rd h p2 i)).
Proof.
  intros V1 V2 Hne.
  eapply runs_wand.
  - apply (for_up_rule (fun i h' =>
      modifies h h' (blk pr) (off pr) (off pr + i - 1) /\
      forall j, 0 <= j < i -> rd h' pr j = op (rd h pr j) (rd h p2 j))).
    + split; [apply modifies_refl|intros; lia].
    + intros i h1 Hi [Hm Hz].
      assert (Hb := proj2 (proj1 Hm)). assert (F := proj2 Hm).
      unfold valid in V1, V2.
      apply runs_bind, runs_load; [rewrite Hb; lia|].
      apply runs_bind, runs_load; [rewrite Hb; lia|].
      apply runs_store; [rewrite Hb; lia|].
      intros h2 Hm2 Hv. split.
      * eapply modifies_trans; eauto; lia.
      * intros j Hj. destruct (Z.eq_dec j i) as [->|Hnj].
        -- rewrite Hv. unfold rd. rewrite !F by lia. reflexivity.
        -- destruct Hm2 as [_ F2]. unfold rd at 1. rewrite F2 by lia. apply Hz; lia.
  - simpl. intros _ h' [Hm Hz].
    destruct (Z_lt_le_dec l2 0).
    + replace (Z.max 0 (l2 + 1)) with 0 in * by lia.
      split; [|intros; lia]. eapply modifies_weaken; [apply Hm|lia].
    + replace (Z.max 0 (l2 + 1)) with (l2 + 1) in * by lia.
      split; [|intros; apply Hz; lia].
      eapply modifies_weaken; [apply Hm|lia].
Qed.

Lemma _add_to_spec pr p2 l2 h :
  valid h pr 0 l2 -> valid h p2 0 l2 -> blk pr <> blk p2 ->
  runs (_add_to pr p2 l2) h (fun _ h' =>
    modifies h h' (blk pr) (off pr) (off pr + l2) /\
    forall i, 0 <= i <= l2 -> rd h' pr i = rd h pr i [+] rd h p2 i).
Proof. apply (_acc_spec radd). Qed.

Lemma _sub_from_spec pr p2 l2 h :
  valid h pr 0 l2 -> valid h p2 0 l2 -> blk pr <> blk p2 ->
  runs (_sub_from pr p2 l2) h (fun _ h' =>
    modifies h h' (blk pr) (off pr) (off pr + l2) /\
    forall i, 0 <= i <= l2 -> rd h' pr i = rd h pr i [-] rd h p2 i).
Proof. apply (_acc_spec rsub). Qed.

(** ** Local vectors *)

Lemma blen_app_old h l b : (b < length h)%nat -> blen (h ++ [l]) b = blen h b.
Proof. intros. unfold blen. now rewrite lookup_app_l. Qed.

Lemma rda_app_old h l b n : (b < length h)%nat -> rda (h ++ [l]) b n = rda h b n.
Proof. intros. unfold rda. now rewrite lookup_app_l. Qed.

Lemma blen_app_new h l : blen (h ++ [l]) (length h) = Z.of_nat (length l).
Proof. unfold blen. now rewrite list_lookup_middle. Qed.

Lemma rda_app_new h l n :
  rda (h ++ [l]) (length h) n = if 0 <=? n then default r0 (l !! Z.to_nat n) else r0.
Proof. unfold rda. now rewrite list_lookup_middle. Qed.

Lemma blen_ge h b : (length h <= b)%nat -> blen h b = 0.
Proof. intros. unfold blen. now rewrite lookup_ge_None_2. Qed.

Lemma rda_ge h b n : (length h <= b)%nat -> rda h b n = r0.
Proof. intros. unfold rda. now rewrite lookup_ge_None_2. Qed.

Lemma blen_take h m b : (b < m)%nat -> blen (take m h) b = blen h b.
Proof. intros. unfold blen. now rewrite lookup_take_lt. Qed.

Lemma rda_take h m b n : (b < m)%nat -> rda (take m h) b n = rda h b n.
Proof. intros. unfold rda. now rewrite lookup_take_lt. Qed.

Lemma runs_new_vector init h (Q : ptr -> heap T -> Prop) :
  Q (Ptr (length h) 0) (h ++ [init]) -> runs (new_vector init) h Q.
Proof. intros; eexists _, _; split; [reflexivity|assumption]. Qed.

Lemma runs_vector_fill n v h (Q : ptr -> heap T -> Prop) :
  (forall h', length h' = S (length h) ->
     (forall b, (b < length h)%nat -> blen h' b = blen h b) ->
     (forall b m, (b < length h)%nat -> rda h' b m = rda h b m) ->
     blen h' (length h) = Z.max 0 n ->
     (forall m, 0 <= m < n -> rda h' (length h) m = v) ->
     Q (Ptr (length h) 0) h') ->
  runs (vector_fill n v) h Q.
Proof.
  intros HQ. apply runs_new_vector. apply HQ.
  - rewrite length_app. simpl. lia.
  - intros; now apply blen_app_old.
  - intros; now apply rda_app_old.
  - rewrite blen_app_new, length_replicate. lia.
  - intros m Hm. rewrite rda_app_new.
    destruct (Z.leb_spec 0 m); [|lia].
    rewrite lookup_replicate_2 by lia. reflexivity.
Qed.

Lemma load_list_ok p n : forall i h,
  0 <= off p + i -> off p + i + Z.of_nat n <= blen h (blk p) ->
  exists vs, load_list p i n h = Some (vs, h) /\ length vs = n /\
    forall m, (m < n)%nat -> vs !! m = Some (rd h p (i + Z.of_nat m)).
Proof.
  induction n as [|n IH]; intros i h H1 H2; simpl.
  - exists []. split; [reflexivity|]. split; [reflexivity|]. intros; lia.
  - destruct (IH (i + 1) h) as (vs & E & L & V); [lia|lia|].
    exists (rd h p i :: vs). split.
    + unfold bind. rewrite load_ok by lia. rewrite E. reflexivity.
    + split; [simpl; lia|]. intros [|m] Hm; simpl.
      * now replace (i + Z.of_nat 0) with i by lia.
      * rewrite V by lia. do 2 f_equal. lia.
Qed.

Lemma runs_vector_copy p n h (Q : ptr -> heap T -> Prop) :
  1 <= n -> valid h p 0 (n - 1) ->
  (forall h', length h' = S (length h) ->
     (forall b, (b < length h)%nat -> blen h' b = blen h b) ->
     (forall b m, (b < length h)%nat -> rda h' b m = rda h b m) ->
     blen h' (length h) = n ->
     (forall m, 0 <= m < n -> rda h' (length h) m = rd h p m) ->
     Q (Ptr (length h) 0) h') ->
  runs (vector_copy p n) h Q.
Proof.
  intros Hn V HQ. unfold vector_copy.
  destruct (load_list_ok p (Z.to_nat n) 0 h) as (vs & E & L & Hvs).
  { unfold valid in V. lia. }
  { unfold valid in V. lia. }
  apply runs_bind. exists vs, h. split; [exact E|].
  apply runs_new_vector. apply HQ.
  - rewrite length_app. simpl. lia.
  - intros; now apply blen_app_old.
  - intros; now apply rda_app_old.
  - rewrite blen_app_new. lia.
  - intros m Hm. rewrite rda_app_new.
    destruct (Z.leb_spec 0 m); [|lia].
    rewrite Hvs by lia. simpl. f_equal. lia.
Qed.

Lemma runs_scope {A} (m : M (heap T) A) h (Q : A -> heap T -> Prop) :
  runs m h (fun a h' => (length h <= length h')%nat /\ Q a (take (length h) h')) ->
  runs (scope m) h Q.
Proof.
  intros (a & h' & E & _ & HQ). exists a, (take (length h) h').
  split; [|exact HQ]. unfold scope. now rewrite E.
Qed.

(** Reads through an input of an in-place kernel whose output is final
    above index [i]: positions up to [i] still hold the input. *)
Lemma alias_read h h' pr p lo hi j :
  alias_ok pr p ->
  (forall b' n, (b' <> blk pr \/ n < lo \/ hi < n) -> rda h' b' n = rda h b' n) ->
  off pr + j < lo ->
  rd h' p j = rd h p j.
Proof.
  intros [Hne| ->] F Hj; unfold rd; apply F; [left; congruence|lia].
Qed.

Lemma _mul_long_spec h pr lr p1 l1 p2 l2 :
  mul_pre h pr lr p1 l1 p2 l2 ->
  runs (_mul_long pr lr p1 l1 p2 l2) h (mul_post h pr lr p1 l1 p2 l2).
Proof.
  intros (Hlr & Hl1 & Hl2 & Vr & V1 & V2 & A1 & A2).
  unfold valid in Vr, V1, V2.
  unfold _mul_long. apply runs_bind, runs_load; [lia|].
  eapply runs_wand.
  - apply (for_down_rule (fun i h' =>
      modifies h h' (blk pr) (off pr + i + 1) (off pr + lr) /\
      forall n, i < n <= lr -> rd h' pr n = conv (ser h p1 l1) (ser h p2 l2) n)).
    + split; [apply modifies_refl|intros; lia].
    + intros i h1 Hi [Hm Hz].
      assert (Hb := proj2 (proj1 Hm)). assert (F := proj2 Hm).
      apply runs_bind. eapply runs_wand.
      * apply (fold_down_rule (fun j r h'' =>
          h'' = h1 /\
          r = sumZ (j + 1) (Z.min i l1) (fun j => rd h p1 j [*] rd h p2 (i - j)))).
        -- split; [reflexivity|]. rewrite sumZ_empty by lia. reflexivity.
        -- intros j r h'' Hj [-> ->].
           apply runs_bind, runs_load; [rewrite Hb; lia|].
           apply runs_bind, runs_load; [rewrite Hb; lia|].
           apply runs_ret. split; [reflexivity|].
           rewrite (alias_read h h1 pr p1 _ _ j A1 F) by lia.
           rewrite (alias_read h h1 pr p2 _ _ (i - j) A2 F) by lia.
           rewrite (sumZ_first (j - 1 + 1)) by lia.
           replace (j - 1 + 1) with j by lia. ring.
      * simpl. intros r h'' [-> Hr].
        apply runs_store; [rewrite Hb; lia|].
        intros h2 Hm2 Hv. split.
        -- eapply modifies_trans; eauto; lia.
        -- intros n Hn. destruct (Z.eq_dec n i) as [->|Hne].
           ++ rewrite Hv, Hr. unfold ser. rewrite conv_window by lia.
              destruct (Z_lt_le_dec (Z.min i l1) (Z.max 0 (i - l2))).
              ** rewrite !sumZ_empty by lia. reflexivity.
              ** f_equal. lia.
           ++ destruct Hm2 as [_ F2]. unfold rd at 1. rewrite F2 by lia. apply Hz; lia.
  - simpl. intros [] h' [Hm Hz]. unfold mul_post.
    replace (Z.min lr (0 - 1)) with (-1) in * by lia.
    split; [|intros; apply Hz; lia].
    eapply modifies_weaken; [apply Hm|lia].
Qed.

Lemma runs_of_ex {A} (m : M (heap T) A) h (Q : A -> heap T -> Prop) :
  (exists h' a, m h = Some (a, h') /\ Q a h') -> runs m h Q.
Proof. intros (h' & a & E & HQ). exists a, h'. auto. Qed.

Lemma runs_callback (f : mul_fn) n h pr lr p1 l1 p2 l2 :
  mul_spec_below n f -> Z.max l1 l2 < n -> mul_pre h pr lr p1 l1 p2 l2 ->
  runs (f pr lr p1 l1 p2 l2) h (mul_post h pr lr p1 l1 p2 l2).
Proof.
  intros Hf Hn Hpre. destruct (Hf _ _ _ _ _ _ _ Hn Hpre) as (h' & E & HQ).
  exists tt, h'. auto.
Qed.

Lemma ext_post_take h pr lr V h' :
  (blk pr < length h)%nat -> ext_post h pr lr V h' ->
  modifies h (take (length h) h') (blk pr) (off pr) (off pr + lr) /\
  forall i, 0 <= i <= lr -> rd (take (length h) h') pr i = V i.
Proof.
  intros Hb (L & B & F & HV). split; [split; [split|]|].
  - rewrite length_take. lia.
  - intros b. destruct (Nat.lt_ge_cases b (length h)).
    + rewrite blen_take by lia. auto.
    + rewrite !blen_ge; [reflexivity|lia|rewrite length_take; lia].
  - intros b n Hn. destruct (Nat.lt_ge_cases b (length h)).
    + rewrite rda_take by lia. auto.
    + rewrite !rda_ge; [reflexivity|lia|rewrite length_take; lia].
  - intros i Hi. unfold rd. rewrite rda_take by lia. now apply HV.
Qed.

Lemma modifies_ext_post h h' pr lr V :
  modifies h h' (blk pr) (off pr) (off pr + lr) ->
  (forall i, 0 <= i <= lr -> rd h' pr i = V i) ->
  ext_post h pr lr V h'.
Proof.
  intros [[L B] F] HV. split; [lia|]. split; [auto|]. split; [|exact HV].
  intros; now apply F.
Qed.

Lemma ser_frame h h' p l :
  (forall j, 0 <= j <= l -> rd h' p j = rd h p j) ->
  forall j, ser h' p l j = ser h p l j.
Proof.
  intros E j. unfold ser, trunc.
  destruct (Z.leb_spec 0 j), (Z.leb_spec j l); simpl; auto.
Qed.

Lemma ser_split h p l k j :
  1 <= k <= l + 1 ->
  ser h p l j = sadd (ser h p (k - 1)) (shift k (ser h (p +> k) (l - k))) j.
Proof.
  intros Hk. unfold sadd, shift, ser, trunc, rd. simpl.
  destruct (Z.leb_spec 0 j), (Z.leb_spec j l), (Z.leb_spec j (k - 1)),
    (Z.ltb_spec j k), (Z.leb_spec 0 (j - k)), (Z.leb_spec (j - k) (l - k));
    simpl; try lia; try ring.
  replace (off p + k + (j - k)) with (off p + j) by lia. ring.
Qed.

(** Karatsuba, a constant second operand: [pr[i] = p1[i] * p2[0]]. *)
Lemma karatsuba_case1 h pr lr p1 l1 p2 :
  mul_pre h pr lr p1 l1 p2 0 -> lr = l1 ->
  runs (for_down lr 0 (fun i =>
          a <- load p1 i ;; b <- load p2 0 ;; store pr i (a [*] b))) h
       (fun _ h' => ext_post h pr lr (conv (ser h p1 l1) (ser h p2 0)) h').
Proof.
  intros (Hlr & Hl1 & Hl2 & Vr & V1 & V2 & A1 & A2) ->.
  unfold valid in Vr, V1, V2.
  eapply runs_wand.
  - apply (for_down_rule (fun i h' =>
      modifies h h' (blk pr) (off pr + i + 1) (off pr + l1) /\
      forall n, i < n <= l1 -> rd h' pr n = rd h p1 n [*] rd h p2 0)).
    + split; [apply modifies_refl|intros; lia].
    + intros i h1 Hi [Hm Hz].
      assert (Hb := proj2 (proj1 Hm)). assert (F := proj2 Hm).
      apply runs_bind, runs_load; [rewrite Hb; lia|].
      apply runs_bind, runs_load; [rewrite Hb; lia|].
      apply runs_store; [rewrite Hb; lia|].
      intros h2 Hm2 Hv. split.
      * eapply modifies_trans; eauto; lia.
      * intros n Hn. destruct (Z.eq_dec n i) as [->|Hne].
        -- rewrite Hv.
           rewrite (alias_read h h1 pr p1 _ _ i A1 F) by lia.
           rewrite (alias_read h h1 pr p2 _ _ 0 A2 F) by lia. reflexivity.
        -- destruct Hm2 as [_ F2]. unfold rd at 1. rewrite F2 by lia. apply Hz; lia.
  - simpl. intros [] h' [Hm Hz].
    replace (Z.min l1 (0 - 1)) with (-1) in * by lia.
    apply modifies_ext_post; [eapply modifies_weaken; [apply Hm|lia]|].
    intros i Hi. rewrite Hz by lia. unfold ser. rewrite conv_window by lia.
    replace (Z.max 0 (i - 0)) with i by lia. replace (Z.min i l1) with i by lia.
    rewrite sumZ_one. replace (i - i) with 0 by lia. reflexivity.
Qed.

End KernelSpecs.

Section Karatsuba.
Context {T : Type} `{CoeffLaws T}.
Add Ring coeff_ring_kara : coeff_ring.

Implicit Types (h : heap T) (p : ptr).

Lemma karatsuba_case2 (f : mul_fn) h pr lr p1 l1 p2 l2 k :
  mul_spec_below l1 f -> mul_pre h pr lr p1 l1 p2 l2 ->
  0 < l2 <= l1 -> l1 <= lr <= l1 + l2 -> 2 * k - 2 <= l1 <= 2 * k - 1 -> l2 < k ->
  runs (MM <- vector_fill (lr - k + 1) r0 ;;
        f MM (lr - k) (p1 +> k) (l1 - k) p2 l2 ;;
        f pr (Z.min lr (l2 + k - 1)) p1 (k - 1) p2 l2 ;;
        _zero pr (l2 + k - 1) lr r0 ;;
        _add_to (pr +> k) MM (lr - k)) h
       (fun _ h' => ext_post h pr lr (conv (ser h p1 l1) (ser h p2 l2)) h').
Proof.
  intros Hf Hpre H12 Hr Hk Hlk.
  assert (Hpre' := Hpre).
  destruct Hpre' as (Hlr & Hl1 & Hl2 & Vr & V1 & V2 & A1 & A2).
  use_valid.
  assert (Hbr : (blk pr < length h)%nat) by (apply blen_pos_lt; lia).
  assert (Hb1 : (blk p1 < length h)%nat) by (apply blen_pos_lt; lia).
  assert (Hb2 : (blk p2 < length h)%nat) by (apply blen_pos_lt; lia).
  assert (Hk1 : 1 <= k <= l1) by lia.
  apply runs_bind, runs_vector_fill. intros h1 L1 B1 F1 BN1 VN1.
  apply runs_bind. eapply runs_wand.
  { apply (runs_callback f l1); [exact Hf|lia|]. solve_pre. }
  intros [] h2 [[[L2 B2] F2] W2].
  apply runs_bind. eapply runs_wand.
  { apply (runs_callback f l1); [exact Hf|lia|]. solve_pre. }
  intros [] h3 [[[L3 B3] F3] W3].
  apply runs_bind. eapply runs_wand.
  { apply _zero_spec. unfold valid. heap_back. lia. }
  intros [] h4 [[[L4 B4] F4] W4].
  eapply runs_wand.
  { apply _add_to_spec; unfold valid; simpl; heap_back; lia. }
  intros [] h5 [[[L5 B5] F5] W5]. cbn [blk off ptr_add] in *.
  (* the low product, in terms of the caller's store *)
  assert (LL : forall i, 0 <= i <= lr ->
            rd h4 pr i = conv (ser h p1 (k - 1)) (ser h p2 l2) i).
  { intros i Hi. destruct (Z_le_gt_dec i (l2 + k - 1)).
    - unfold rd. rewrite F4 by lia. fold (rd h3 pr i). rewrite W3 by lia.
      apply conv_ext; intros j Hj; apply ser_frame; intros; unfold rd; heap_back; reflexivity.
    - rewrite W4 by lia. unfold ser. rewrite conv_high by lia. reflexivity. }
  assert (MMv : forall i, 0 <= i <= lr - k ->
            rda h4 (length h) i = conv (ser h (p1 +> k) (l1 - k)) (ser h p2 l2) i).
  { intros i Hi. rewrite F4, F3 by lia.
    replace (rda h2 (length h) i) with (rd h2 (Ptr (length h) 0) i)
      by (unfold rd; simpl; f_equal).
    rewrite W2 by lia.
    apply conv_ext; intros j Hj; apply ser_frame; intros; unfold rd; simpl; heap_back; reflexivity. }
  split; [lia|]. split; [intros; heap_back; reflexivity|]. split.
  - intros b n Hb Hn. rewrite F5, F4, F3, F2, F1 by lia. reflexivity.
  - intros i Hi.
    rewrite (conv_ext _ (sadd (ser h p1 (k - 1)) (shift k (ser h (p1 +> k) (l1 - k))))
               _ (ser h p2 l2) i) by
      (intros; first [apply ser_split; lia | reflexivity]).
    rewrite kara2 by lia.
    destruct (Z_lt_le_dec i k).
    + unfold rd. rewrite F5 by lia. fold (rd h4 pr i). rewrite LL by lia.
      rewrite (conv_neg _ _ (i - k)) by lia. ring.
    + replace (rd h5 pr i) with (rd h5 (pr +> k) (i - k))
        by (unfold rd; simpl; f_equal; lia).
      rewrite W5 by lia.
      replace (rd h4 (pr +> k) (i - k)) with (rd h4 pr i)
        by (unfold rd; simpl; f_equal; lia).
      rewrite LL by lia. unfold rd. simpl. rewrite MMv by lia. reflexivity.
Qed.

Lemma karatsuba_case3 (f : mul_fn) h pr lr p1 l1 p2 l2 k :
  mul_spec_below l1 f -> mul_pre h pr lr p1 l1 p2 l2 ->
  0 < l2 <= l1 -> l1 <= lr <= l1 + l2 -> 2 * k - 2 <= l1 <= 2 * k - 1 -> k <= l2 ->
  runs (S1 <- vector_copy p1 k ;;
        _add_to S1 (p1 +> k) (l1 - k) ;;
        S2 <- vector_copy p2 k ;;
        _add_to S2 (p2 +> k) (l2 - k) ;;
        let mm_l := Z.min (lr - k) (k - 1 + k - 1) in
        MM <- vector_fill (mm_l + 1) r0 ;;
        f MM mm_l S1 (k - 1) S2 (k - 1) ;;
        let hh_l := Z.min mm_l (l1 - k + l2 - k) in
        HH <- vector_fill (hh_l + 1) r0 ;;
        f HH hh_l (p1 +> k) (l1 - k) (p2 +> k) (l2 - k) ;;
        f pr (k - 1 + k - 1) p1 (k - 1) p2 (k - 1) ;;
        _zero pr (k - 1 + k - 1) lr r0 ;;
        _sub_from MM pr (Z.min mm_l (k - 1 + k - 1)) ;;
        _sub_from MM HH hh_l ;;
        _add_to (pr +> k) MM mm_l ;;
        _add_to (pr +> k +> k) HH (lr - k - k)) h
       (fun _ h' => ext_post h pr lr (conv (ser h p1 l1) (ser h p2 l2)) h').
Proof.
  intros Hf Hpre H12 Hr Hk Hlk.
  assert (Hpre' := Hpre).
  destruct Hpre' as (Hlr & Hl1 & Hl2 & Vr & V1 & V2 & A1 & A2).
  use_valid.
  assert (Hbr : (blk pr < length h)%nat) by (apply blen_pos_lt; lia).
  assert (Hb1 : (blk p1 < length h)%nat) by (apply blen_pos_lt; lia).
  assert (Hb2 : (blk p2 < length h)%nat) by (apply blen_pos_lt; lia).
  set (mm_l := Z.min (lr - k) (k - 1 + k - 1)).
  set (hh_l := Z.min mm_l (l1 - k + l2 - k)).
  assert (Hmm : mm_l = Z.min (lr - k) (k - 1 + k - 1)) by reflexivity.
  assert (Hhh : hh_l = Z.min mm_l (l1 - k + l2 - k)) by reflexivity.
  clearbody mm_l hh_l.
  set (lo1 := ser h p1 (k - 1)). set (hi1 := ser h (p1 +> k) (l1 - k)).
  set (lo2 := ser h p2 (k - 1)). set (hi2 := ser h (p2 +> k) (l2 - k)).
  (* S1 = low half of p1, plus its high half *)
  apply runs_bind, runs_vector_copy; [lia|unfold valid; lia|].
  intros h1 L1 B1 F1 BN1 VN1.
  apply runs_bind. eapply runs_wand.
  { apply _add_to_spec; unfold valid; cbn [blk off ptr_add]; heap_back; lia. }
  intros [] h2 [[[L2 B2] F2] W2]. cbn [blk off ptr_add] in *.
  (* S2 likewise *)
  apply runs_bind, runs_vector_copy; [lia|unfold valid; heap_back; lia|].
  intros h3 L3 B3 F3 BN3 VN3.
  apply runs_bind. eapply runs_wand.
  { apply _add_to_spec; unfold valid; cbn [blk off ptr_add]; heap_back; lia. }
  intros [] h4 [[[L4 B4] F4] W4]. cbn [blk off ptr_add] in *.
  (* MM = S1 * S2 *)
  apply runs_bind, runs_vector_fill. intros h5 L5 B5 F5 BN5 VN5.
  apply runs_bind. eapply runs_wand.
  { apply (runs_callback f l1); [exact Hf|lia|]. solve_pre. }
  intros [] h6 [[[L6 B6] F6] W6]. cbn [blk off ptr_add] in *.
  (* HH = high * high *)
  apply runs_bind, runs_vector_fill. intros h7 L7 B7 F7 BN7 VN7.
  apply runs_bind. eapply runs_wand.
  { apply (runs_callback f l1); [exact Hf|lia|]. solve_pre. }
  intros [] h8 [[[L8 B8] F8] W8]. cbn [blk off ptr_add] in *.
  (* pr = low * low *)
  apply runs_bind. eapply runs_wand.
  { apply (runs_callback f l1); [exact Hf|lia|]. solve_pre. }
  intros [] h9 [[[L9 B9] F9] W9]. cbn [blk off ptr_add] in *.
  apply runs_bind. eapply runs_wand.
  { apply _zero_spec. unfold valid. heap_back. lia. }
  intros [] h10 [[[L10 B10] F10] W10].
  apply runs_bind. eapply runs_wand.
  { apply _sub_from_spec; unfold valid; cbn [blk off ptr_add]; heap_back; lia. }
  intros [] h11 [[[L11 B11] F11] W11]. cbn [blk off ptr_add] in *.
  apply runs_bind. eapply runs_wand.
  { apply _sub_from_spec; unfold valid; cbn [blk off ptr_add]; heap_back; lia. }
  intros [] h12 [[[L12 B12] F12] W12]. cbn [blk off ptr_add] in *.
  apply runs_bind. eapply runs_wand.
  { apply _add_to_spec; unfold valid; cbn [blk off ptr_add]; heap_back; lia. }
  intros [] h13 [[[L13 B13] F13] W13]. cbn [blk off ptr_add] in *.
  eapply runs_wand.
  { apply _add_to_spec; unfold valid; cbn [blk off ptr_add]; heap_back; lia. }
  intros [] h14 [[[L14 B14] F14] W14]. cbn [blk off ptr_add] in *.
  (* contents of the temporaries, in terms of the caller's store *)
  assert (S1v : forall j, ser h5 (Ptr (length h) 0) (k - 1) j = sadd lo1 hi1 j).
  { intros j. unfold sadd, lo1, hi1, ser, trunc.
    destruct (Z.leb_spec 0 j), (Z.leb_spec j (k - 1)), (Z.leb_spec j (l1 - k));
      simpl; try lia; try ring.
    - unfold rd at 1. cbn [blk off]. rewrite F5, F4, F3 by lia.
      replace (rda h2 (length h) (0 + j)) with (rd h2 (Ptr (length h) 0) j) by reflexivity.
      rewrite W2 by lia. unfold rd. cbn [blk off ptr_add].
      rewrite VN1, F1 by lia. unfold rd.
      replace (0 + j) with j by lia. reflexivity.
    - unfold rd at 1. cbn [blk off]. rewrite F5, F4, F3 by lia.
      rewrite F2, VN1 by lia. unfold rd. replace (0 + j) with j by lia. ring. }
  assert (S2v : forall j, ser h5 (Ptr (length h2) 0) (k - 1) j = sadd lo2 hi2 j).
  { intros j. unfold sadd, lo2, hi2, ser, trunc.
    destruct (Z.leb_spec 0 j), (Z.leb_spec j (k - 1)), (Z.leb_spec j (l2 - k));
      simpl; try lia; try ring.
    - unfold rd at 1. cbn [blk off]. rewrite F5 by lia.
      replace (rda h4 (length h2) (0 + j)) with (rd h4 (Ptr (length h2) 0) j) by reflexivity.
      rewrite W4 by lia. unfold rd. cbn [blk off ptr_add].
      rewrite VN3, F3, F2, F1 by lia. unfold rd. rewrite F2, F1 by lia.
      replace (0 + j) with j by lia. reflexivity.
    - unfold rd at 1. cbn [blk off]. rewrite F5 by lia.
      rewrite F4, VN3 by lia. unfold rd. rewrite F2, F1 by lia.
      replace (0 + j) with j by lia. ring. }
  set (SS := conv (ser h5 (Ptr (length h) 0) (k - 1)) (ser h5 (Ptr (length h2) 0) (k - 1))).
  assert (SSe : forall i, SS i = conv (sadd lo1 hi1) (sadd lo2 hi2) i).
  { intros i. unfold SS. apply conv_ext; intros; [apply S1v|apply S2v]. }
  assert (SSh : forall i, k - 1 + (k - 1) < i -> SS i = r0).
  { intros i Hi. unfold SS, ser. now apply conv_high. }
  assert (HHe : forall i, 0 <= i <= hh_l -> rda h8 (length h6) i = conv hi1 hi2 i).
  { intros i Hi.
    replace (rda h8 (length h6) i) with (rd h8 (Ptr (length h6) 0) i) by reflexivity.
    rewrite W8 by lia.
    apply conv_ext; intros j Hj; apply ser_frame; intros; unfold rd;
      cbn [blk off ptr_add]; heap_back; reflexivity. }
  assert (LL : forall i, 0 <= i <= lr -> rd h10 pr i = conv lo1 lo2 i).
  { intros i Hi. destruct (Z_le_gt_dec i (k - 1 + k - 1)).
    - unfold rd. rewrite F10 by lia. fold (rd h9 pr i). rewrite W9 by lia.
      apply conv_ext; intros j Hj; apply ser_frame; intros; unfold rd; heap_back; reflexivity.
    - rewrite W10 by lia. unfold lo1, lo2, ser. rewrite conv_high by lia. reflexivity. }
  assert (MMv : forall i, 0 <= i <= mm_l ->
            rda h12 (length h4) i = SS i [-] conv lo1 lo2 i [-] conv hi1 hi2 i).
  { intros i Hi.
    assert (E11 : rda h11 (length h4) i = SS i [-] conv lo1 lo2 i).
    { replace (rda h11 (length h4) i) with (rd h11 (Ptr (length h4) 0) i) by reflexivity.
      rewrite W11 by lia. rewrite LL by lia. unfold rd. cbn [blk off].
      rewrite F10, F9, F8, F7 by lia.
      replace (rda h6 (length h4) (0 + i)) with (rd h6 (Ptr (length h4) 0) i) by reflexivity.
      rewrite W6 by lia. reflexivity. }
    destruct (Z_le_gt_dec i hh_l).
    - replace (rda h12 (length h4) i) with (rd h12 (Ptr (length h4) 0) i) by reflexivity.
      rewrite W12 by lia. unfold rd. cbn [blk off]. replace (0 + i) with i by lia.
      rewrite E11. rewrite F11, F10, F9 by lia. rewrite HHe by lia. reflexivity.
    - rewrite F12 by lia. rewrite E11. unfold hi1, hi2, ser.
      rewrite (conv_high (l1 - k) (l2 - k)) by lia. ring. }
  assert (P13 : forall i, 0 <= i <= lr ->
            rd h13 pr i = conv lo1 lo2 i
              [+] (SS (i - k) [-] conv lo1 lo2 (i - k) [-] conv hi1 hi2 (i - k))).
  { intros i Hi. destruct (Z_lt_le_dec i k); [|destruct (Z_le_gt_dec i (k + mm_l))].
    - unfold rd. rewrite F13, F12, F11 by lia. fold (rd h10 pr i). rewrite LL by lia.
      unfold SS. rewrite !(conv_neg _ _ (i - k)) by lia. ring.
    - replace (rd h13 pr i) with (rd h13 (pr +> k) (i - k))
        by (unfold rd; cbn [blk off ptr_add]; f_equal; lia).
      rewrite W13 by lia. unfold rd. cbn [blk off ptr_add].
      replace (0 + (i - k)) with (i - k) by lia. rewrite MMv by lia.
      rewrite F12, F11 by lia.
      replace (rda h10 (blk pr) (off pr + k + (i - k))) with (rd h10 pr i)
        by (unfold rd; f_equal; lia).
      rewrite LL by lia. reflexivity.
    - unfold rd. rewrite F13, F12, F11 by lia. fold (rd h10 pr i). rewrite LL by lia.
      rewrite SSh by lia. unfold lo1, lo2, hi1, hi2, ser.
      rewrite (conv_high (k - 1) (k - 1) _ _ (i - k)) by lia.
      rewrite (conv_high (l1 - k) (l2 - k) _ _ (i - k)) by lia. ring. }
  split; [lia|]. split; [intros; heap_back; reflexivity|]. split.
  - intros b n Hb Hn.
    rewrite F14, F13, F12, F11, F10, F9, F8, F7, F6, F5, F4, F3, F2, F1 by lia.
    reflexivity.
  - intros i Hi.
    rewrite (conv_ext _ (sadd lo1 (shift k hi1)) _ (sadd lo2 (shift k hi2)) i) by
      (intros; apply ser_split; lia).
    rewrite kara3 by lia. rewrite <- SSe.
    destruct (Z_lt_le_dec i (k + k)).
    + unfold rd. rewrite F14 by lia. fold (rd h13 pr i). rewrite P13 by lia.
      rewrite (conv_neg _ _ (i - k - k)) by lia. ring.
    + replace (rd h14 pr i) with (rd h14 (pr +> k +> k) (i - k - k))
        by (unfold rd; cbn [blk off ptr_add]; f_equal; lia).
      rewrite W14 by lia. unfold rd at 2. cbn [blk off].
      replace (0 + (i - k - k)) with (i - k - k) by lia.
      rewrite F13, F12, F11, F10, F9 by lia. rewrite HHe by lia.
      replace (rd h13 (pr +> k +> k) (i - k - k)) with (rd h13 pr i)
        by (unfold rd; cbn [blk off ptr_add]; f_equal; lia).
      rewrite P13 by lia. reflexivity.
Qed.

Lemma _mul_karatsuba_spec (f : mul_fn) h pr lr p1 l1 p2 l2 :
  mul_spec_below l1 f -> mul_pre h pr lr p1 l1 p2 l2 ->
  0 <= l2 <= l1 -> l1 <= lr <= l1 + l2 ->
  runs (_mul_karatsuba f pr lr p1 l1 p2 l2) h (mul_post h pr lr p1 l1 p2 l2).
Proof.
  intros Hf Hpre H12 Hr.
  assert (Hpre' := Hpre).
  destruct Hpre' as (Hlr & Hl1 & Hl2 & Vr & V1 & V2 & A1 & A2).
  use_valid.
  assert (Hbr : (blk pr < length h)%nat) by (apply blen_pos_lt; lia).
  unfold _mul_karatsuba. apply runs_scope.
  apply runs_bind, runs_load; [lia|]. unfold zeroOf.
  rewrite Z.quot_div_nonneg by lia.
  set (k := l1 / 2 + 1).
  assert (Hk : 2 * k - 2 <= l1 <= 2 * k - 1) by (unfold k; Z.div_mod_to_equations; lia).
  clearbody k.
  assert (Hfin : forall (a : unit) h',
            ext_post h pr lr (conv (ser h p1 l1) (ser h p2 l2)) h' ->
            (length h <= length h')%nat /\
            mul_post h pr lr p1 l1 p2 l2 a (take (length h) h')).
  { intros a h' E. split; [apply E|]. now apply ext_post_take. }
  destruct (Z.eqb_spec l2 0) as [->|Hnz]; [|destruct (Z.ltb_spec l2 k)].
  - eapply runs_wand; [apply karatsuba_case1; [exact Hpre|lia]|exact Hfin].
  - eapply runs_wand; [apply (karatsuba_case2 f); try eassumption; lia|exact Hfin].
  - eapply runs_wand; [apply (karatsuba_case3 f); try eassumption; lia|exact Hfin].
Qed.

Lemma ser_clamp h p l lr i :
  i <= lr -> forall j, 0 <= j <= i -> ser h p l j = ser h p (Z.min l lr) j.
Proof.
  intros Hi j Hj. unfold ser, trunc.
  destruct (Z.leb_spec 0 j), (Z.leb_spec j l), (Z.leb_spec j (Z.min l lr));
    simpl; try lia; reflexivity.
Qed.

Lemma mul_pre_sym h pr lr p1 l1 p2 l2 :
  mul_pre h pr lr p1 l1 p2 l2 -> mul_pre h pr lr p2 l2 p1 l1.
Proof. unfold mul_pre. tauto. Qed.

(** [_mul] with a sufficient budget meets its contract, including when the
    output is one of the inputs. *)
Lemma _mul_fuel_spec (fuel : nat) : forall h pr lr p1 l1 p2 l2,
  2 * Z.max l1 l2 + (if l1 <? l2 then 2 else 1) <= Z.of_nat fuel ->
  mul_pre h pr lr p1 l1 p2 l2 ->
  runs (_mul_fuel fuel pr lr p1 l1 p2 l2) h (mul_post h pr lr p1 l1 p2 l2).
Proof.
  induction fuel as [|fuel IH]; intros h pr lr p1 l1 p2 l2 Hfuel Hpre.
  { destruct Hpre as (Hlr & Hl1 & Hl2 & _). destruct (l1 <? l2); lia. }
  assert (Hpre' := Hpre).
  destruct Hpre' as (Hlr & Hl1 & Hl2 & Vr & V1 & V2 & A1 & A2).
  cbn [_mul_fuel].
  destruct (Z.ltb_spec l1 l2) as [Hlt|Hge].
  - eapply runs_wand.
    + apply IH; [|now apply mul_pre_sym].
      destruct (Z.ltb_spec l2 l1); lia.
    + intros [] h' [Hm Hv]. split; [exact Hm|].
      intros i Hi. rewrite Hv by lia. apply conv_comm.
  - use_valid.
    apply runs_bind, runs_load; [lia|]. unfold zeroOf.
    apply runs_bind. eapply runs_wand.
    { apply _zero_spec. unfold valid. lia. }
    intros [] h1 [[[L1 B1] F1] W1].
    set (l1' := Z.min l1 lr) in *. set (l2' := Z.min l2 lr) in *.
    set (lr' := Z.min lr (l1' + l2')).
    assert (Hpre1 : mul_pre h1 pr lr' p1 l1' p2 l2').
    { unfold mul_pre, valid. heap_back.
      replace (Z.min l1' lr') with l1' by lia. replace (Z.min l2' lr') with l2' by lia.
      repeat split; try lia; assumption. }
    assert (Hs : forall i, 0 <= i <= lr' ->
              conv (ser h1 p1 l1') (ser h1 p2 l2') i = conv (ser h p1 l1) (ser h p2 l2) i).
    { intros i Hi. apply conv_ext; intros j Hj.
      - rewrite (ser_clamp h p1 l1 lr i) by lia. apply ser_frame. intros j' Hj'.
        apply (alias_read h h1 pr p1 _ _ j' A1 F1). lia.
      - rewrite (ser_clamp h p2 l2 lr i) by lia. apply ser_frame. intros j' Hj'.
        apply (alias_read h h1 pr p2 _ _ j' A2 F1). lia. }
    assert (Hfin : forall (a : unit) h2,
              mul_post h1 pr lr' p1 l1' p2 l2' a h2 -> mul_post h pr lr p1 l1 p2 l2 a h2).
    { intros a h2 [Hm Hv]. split.
      - eapply modifies_trans; [split; [split|]; eauto|apply Hm| |]; lia.
      - intros i Hi. destruct (Z_le_gt_dec i lr').
        + rewrite Hv, Hs by lia. reflexivity.
        + destruct Hm as [_ F2]. unfold rd. rewrite F2 by lia. fold (rd h1 pr i).
          rewrite W1 by lia.
          rewrite (conv_ext _ (ser h p1 l1') _ (ser h p2 l2') i)
            by (intros; apply (ser_clamp _ _ _ lr i); lia).
          unfold ser. rewrite conv_high by lia. reflexivity. }
    unfold impl. destruct (Z.ltb_spec l2' 48).
    + eapply runs_wand; [apply _mul_long_spec; exact Hpre1|exact Hfin].
    + eapply runs_wand; [apply _mul_karatsuba_spec; [|exact Hpre1|lia|lia]|exact Hfin].
      intros h0 pr0 lr0 q1 m1 q2 m2 Hmax Hpre0.
      destruct (IH h0 pr0 lr0 q1 m1 q2 m2) as ([] & h' & E & HQ); [|exact Hpre0|eauto].
      destruct (m1 <? m2); lia.
Qed.

Lemma _mul_spec h pr lr p1 l1 p2 l2 :
  mul_pre h pr lr p1 l1 p2 l2 ->
  runs (_mul pr lr p1 l1 p2 l2) h (mul_post h pr lr p1 l1 p2 l2).
Proof.
  intros Hpre. unfold _mul. apply _mul_fuel_spec; [|exact Hpre].
  destruct Hpre as (_ & Hl1 & Hl2 & _). destruct (l1 <? l2); lia.
Qed.

Lemma _mul_spec_below n : mul_spec_below n _mul.
Proof.
  intros h pr lr p1 l1 p2 l2 _ Hpre.
  destruct (_mul_spec _ _ _ _ _ _ _ Hpre) as ([] & h' & E & HQ). eauto.
Qed.

(** Two stores of the same shape with the same contents are the same. *)
Lemma heap_ext h1 h2 :
  same_shape h1 h2 -> (forall b n, rda h2 b n = rda h1 b n) -> h2 = h1.
Proof.
  intros [L B] E. apply list_eq. intros b.
  specialize (B b). unfold blen in B.
  destruct (h2 !! b) as [l2|] eqn:E2, (h1 !! b) as [l1|] eqn:E1.
  - f_equal. apply list_eq. intros n.
    specialize (E b (Z.of_nat n)). unfold rda in E. rewrite E1, E2 in E.
    destruct (Z.leb_spec 0 (Z.of_nat n)); [|lia]. rewrite Nat2Z.id in E.
    destruct (l2 !! n) as [x2|] eqn:X2, (l1 !! n) as [x1|] eqn:X1; simpl in E.
    + congruence.
    + apply lookup_lt_Some in X2. apply lookup_ge_None in X1. lia.
    + apply lookup_ge_None in X2. apply lookup_lt_Some in X1. lia.
    + reflexivity.
  - apply lookup_lt_Some in E2. apply lookup_ge_None in E1. lia.
  - apply lookup_ge_None in E2. apply lookup_lt_Some in E1. lia.
  - reflexivity.
Qed.

Lemma mul_post_unique h pr lr p1 l1 p2 l2 a b ha hb :
  mul_post h pr lr p1 l1 p2 l2 a ha -> mul_post h pr lr p1 l1 p2 l2 b hb -> ha = hb.
Proof.
  intros [[Sa Fa] Va] [[Sb Fb] Vb]. apply heap_ext.
  - destruct Sa as [La Ba], Sb as [Lb Bb]. split; [congruence|].
    intros c. now rewrite Ba, Bb.
  - intros c n.
    destruct (decide (c = blk pr)) as [->|Hne];
      [destruct (Z_lt_le_dec n (off pr)); [|destruct (Z_lt_le_dec (off pr + lr) n)]|].
    + rewrite Fa, Fb by lia. reflexivity.
    + rewrite Fa, Fb by lia. reflexivity.
    + replace n with (off pr + (n - off pr)) by lia.
      fold (rd ha pr (n - off pr)). fold (rd hb pr (n - off pr)).
      rewrite Va, Vb by lia. reflexivity.
    + rewrite Fa, Fb by (left; exact Hne). reflexivity.
Qed.

End Karatsuba.

Section Powers.
Context {T : Type} `{CoeffLaws T}.
Add Ring coeff_ring_powers : coeff_ring.

Lemma powT_nat_add (x : T) a b :
  powT_nat x (a + b) = powT_nat x a [*] powT_nat x b.
Proof.
  induction a as [|a IH]; simpl; [unfold identityOf; ring|]. rewrite IH. ring.
Qed.

Lemma powT_nat_mul (x : T) a b :
  powT_nat x (a * b) = powT_nat (powT_nat x a) b.
Proof.
  induction b as [|b IH]; simpl.
  - now rewrite Nat.mul_0_r.
  - replace (a * S b)%nat with (a + a * b)%nat by lia.
    now rewrite powT_nat_add, IH.
Qed.

Lemma powT_nat_base (x y : T) a :
  powT_nat (x [*] y) a = powT_nat x a [*] powT_nat y a.
Proof.
  induction a as [|a IH]; simpl; [unfold identityOf; ring|]. rewrite IH. ring.
Qed.

Lemma powT_0 (x : T) : powT x 0 = r1.
Proof. reflexivity. Qed.

Lemma powT_1 (x : T) : powT x 1 = x.
Proof. unfold powT. simpl. unfold identityOf. ring. Qed.

Lemma powT_add (x : T) a b :
  0 <= a -> 0 <= b -> powT x (a + b) = powT x a [*] powT x b.
Proof.
  intros. unfold powT. rewrite Z2Nat.inj_add by lia. apply powT_nat_add.
Qed.

Lemma powT_succ (x : T) a : 0 <= a -> powT x (a + 1) = powT x a [*] x.
Proof. intros. rewrite powT_add by lia. now rewrite powT_1. Qed.

Lemma powT_mul (x : T) a b :
  0 <= a -> 0 <= b -> powT x (a * b) = powT (powT x a) b.
Proof.
  intros. unfold powT. rewrite Z2Nat.inj_mul by lia. apply powT_nat_mul.
Qed.

Lemma powT_base (x y : T) a : powT (x [*] y) a = powT x a [*] powT y a.
Proof. apply powT_nat_base. Qed.

Lemma powT_sq (x : T) a : 0 <= a -> powT (x [*] x) a = powT x (2 * a).
Proof.
  intros. rewrite powT_base. rewrite <- powT_add by lia. f_equal. lia.
Qed.

Lemma powT_one a : powT (r1 : T) a = r1.
Proof.
  unfold powT. induction (Z.to_nat a) as [|n IH]; simpl; [reflexivity|].
  rewrite IH. ring.
Qed.

Lemma powT_opp_even a : 0 <= a -> powT ([~] r1 : T) (2 * a) = r1.
Proof.
  intros. rewrite <- powT_sq by lia.
  replace ([~] r1 [*] [~] r1 : T) with (r1 : T) by ring. apply powT_one.
Qed.

Lemma powT_opp_odd a : 0 <= a -> powT ([~] r1 : T) (2 * a + 1) = [~] r1.
Proof. intros. rewrite powT_succ by lia. rewrite powT_opp_even by lia. ring. Qed.

(** A power of a root of unity depends on the exponent modulo the order. *)
Lemma powT_mod (w : T) n e :
  0 < n -> 0 <= e -> powT w n = r1 -> powT w e = powT w (e mod n).
Proof.
  intros Hn He Hw. rewrite (Z.div_mod e n) at 1 by lia.
  pose proof (Z.mod_pos_bound e n Hn). pose proof (Z.div_pos e n He Hn).
  rewrite powT_add by nia. rewrite powT_mul by lia. rewrite Hw, powT_one. ring.
Qed.

(** ** Casts of integers *)

Lemma cast_nat_add a b : cast_nat (a + b) = (cast_nat a [+] cast_nat b : T).
Proof. induction a as [|a IH]; simpl; [ring|]. rewrite IH. ring. Qed.

Lemma cast_nat_mul a b : cast_nat (a * b) = (cast_nat a [*] cast_nat b : T).
Proof.
  induction a as [|a IH]; simpl; [ring|]. rewrite cast_nat_add, IH. ring.
Qed.

Lemma castT_nonneg n : 0 <= n -> (castT n : T) = cast_nat (Z.to_nat n).
Proof. intros. unfold castT. destruct (Z.ltb_spec n 0); [lia|reflexivity]. Qed.

Lemma castT_mul a b : 0 <= a -> 0 <= b -> (castT (a * b) : T) = castT a [*] castT b.
Proof.
  intros. rewrite !castT_nonneg by nia. rewrite Z2Nat.inj_mul by lia.
  apply cast_nat_mul.
Qed.

Lemma castT_2 : (castT 2 : T) = r1 [+] r1.
Proof. unfold castT. simpl. ring. Qed.

Lemma sumZ_const n (v : T) : 0 <= n -> sumZ 0 (n - 1) (fun _ => v) = castT n [*] v.
Proof.
  intros Hn. rewrite castT_nonneg by lia. unfold sumZ.
  replace (Z.to_nat (n - 1 + 1 - 0)) with (Z.to_nat n) by lia.
  generalize 0. induction (Z.to_nat n) as [|m IH]; intros lo; simpl; [ring|].
  rewrite IH. ring.
Qed.

(** ** Splitting a sum in halves and by parity *)

Lemma sumZ_halves h (f : Z -> T) :
  0 <= h -> sumZ 0 (2 * h - 1) f = sumZ 0 (h - 1) (fun i => f i [+] f (i + h)).
Proof.
  intros Hh. rewrite (sumZ_split 0 (h - 1) (2 * h - 1)) by lia.
  rewrite sumZ_add. f_equal.
  rewrite (sumZ_shift h 0 (h - 1) (fun i => f (i + h))).
  replace (h - 1 + 1) with (0 + h) by lia. replace (2 * h - 1) with (h - 1 + h) by lia.
  apply sumZ_ext. intros j Hj. f_equal. lia.
Qed.

Lemma sumZ_parity h (f : Z -> T) :
  0 <= h ->
  sumZ 0 (2 * h - 1) f = sumZ 0 (h - 1) (fun j => f (2 * j) [+] f (2 * j + 1)).
Proof.
  intros Hh. replace h with (h - 1 + 1) at 1 by lia.
  assert (Hm : 0 - 1 <= h - 1) by lia. revert Hm. generalize (h - 1). clear h Hh.
  apply (range_ind 0 (fun m => sumZ 0 (2 * (m + 1) - 1) f =
           sumZ 0 m (fun j => f (2 * j) [+] f (2 * j + 1)))).
  - rewrite !sumZ_empty by lia. reflexivity.
  - intros m Hm IH. rewrite (sumZ_last 0 m) by lia. rewrite <- IH.
    rewrite (sumZ_last 0 (2 * (m + 1) - 1)) by lia.
    rewrite (sumZ_last 0 (2 * (m + 1) - 1 - 1)) by lia.
    replace (2 * (m + 1) - 1 - 1 - 1) with (2 * (m - 1 + 1) - 1) by lia.
    replace (2 * (m + 1) - 1 - 1) with (2 * m) by lia.
    replace (2 * (m + 1) - 1) with (2 * m + 1) by lia. ring.
Qed.

(** ** The transform *)

Lemma dft_ext n (w : T) (x y : Z -> T) k :
  (forall j, 0 <= j < n -> x j = y j) -> dft n w x k = dft n w y k.
Proof.
  intros E. unfold dft. apply sumZ_ext. intros j Hj. rewrite E by lia. reflexivity.
Qed.

Lemma dft_1 (w : T) (x : Z -> T) k : dft 1 w x k = x 0.
Proof.
  unfold dft. change (1 - 1) with 0. rewrite sumZ_one, Z.mul_0_l, powT_0. ring.
Qed.

(** Decimation in frequency, even outputs *)
Lemma dif_even h (w : T) (x : Z -> T) k :
  0 < h -> 0 <= k -> powT w h = [~] r1 ->
  dft (2 * h) w x (2 * k) =
  dft h (w [*] w) (fun i => x i [+] x (i + h)) k.
Proof.
  intros Hh Hk Hw. unfold dft. rewrite sumZ_halves by lia.
  apply sumZ_ext. intros i Hi.
  rewrite powT_sq by nia.
  replace ((i + h) * (2 * k)) with (i * (2 * k) + h * (2 * k)) by lia.
  rewrite powT_add by nia. rewrite (powT_mul w h) by lia. rewrite Hw.
  rewrite powT_opp_even by lia.
  replace (2 * (i * k)) with (i * (2 * k)) by lia. ring.
Qed.

(** Decimation in frequency, odd outputs *)
Lemma dif_odd h (w : T) (x : Z -> T) k :
  0 < h -> 0 <= k -> powT w h = [~] r1 ->
  dft (2 * h) w x (2 * k + 1) =
  dft h (w [*] w) (fun i => (x i [-] x (i + h)) [*] powT w i) k.
Proof.
  intros Hh Hk Hw. unfold dft. rewrite sumZ_halves by lia.
  apply sumZ_ext. intros i Hi.
  rewrite powT_sq by nia.
  replace ((i + h) * (2 * k + 1)) with (i * (2 * k + 1) + h * (2 * k + 1)) by lia.
  rewrite powT_add by nia. rewrite (powT_mul w h) by lia. rewrite Hw.
  rewrite powT_opp_odd by lia.
  replace (i * (2 * k + 1)) with (2 * (i * k) + i) by lia.
  rewrite (powT_add w (2 * (i * k)) i) by nia. ring.
Qed.

(** Decimation in time *)
Lemma dit_split h (w : T) (x : Z -> T) k :
  0 < h -> 0 <= k ->
  dft (2 * h) w x k =
  dft h (w [*] w) (fun j => x (2 * j)) k [+]
  powT w k [*] dft h (w [*] w) (fun j => x (2 * j + 1)) k.
Proof.
  intros Hh Hk. unfold dft. rewrite sumZ_parity by lia.
  rewrite sumZ_add. f_equal.
  - apply sumZ_ext. intros j Hj. rewrite powT_sq by nia. do 2 f_equal. lia.
  - rewrite <- sumZ_mul_l. apply sumZ_ext. intros j Hj. rewrite powT_sq by nia.
    replace ((2 * j + 1) * k) with (2 * (j * k) + k) by lia.
    rewrite powT_add by nia. ring.
Qed.

Lemma dft_period h (w : T) (x : Z -> T) k :
  0 < h -> 0 <= k -> powT w h = r1 -> dft h w x (k + h) = dft h w x k.
Proof.
  intros Hh Hk Hw. unfold dft. apply sumZ_ext. intros j Hj.
  replace (j * (k + h)) with (j * k + h * j) by lia.
  rewrite powT_add by nia. rewrite (powT_mul w h) by lia. rewrite Hw, powT_one. ring.
Qed.

Lemma dit_lo h (w : T) (x : Z -> T) i :
  0 < h -> 0 <= i -> powT w h = [~] r1 ->
  dft (2 * h) w x i =
  dft h (w [*] w) (fun j => x (2 * j)) i [+]
  dft h (w [*] w) (fun j => x (2 * j + 1)) i [*] powT w i.
Proof. intros. rewrite dit_split by lia. ring. Qed.

Lemma dit_hi h (w : T) (x : Z -> T) i :
  0 < h -> 0 <= i -> powT w h = [~] r1 ->
  dft (2 * h) w x (i + h) =
  dft h (w [*] w) (fun j => x (2 * j)) i [-]
  dft h (w [*] w) (fun j => x (2 * j + 1)) i [*] powT w i.
Proof.
  intros Hh Hi Hw. rewrite dit_split by lia.
  assert (Hw2 : powT (w [*] w) h = r1).
  { rewrite powT_base, Hw. ring. }
  rewrite !dft_period by (auto; lia).
  rewrite powT_add by lia. rewrite Hw. ring.
Qed.

End Powers.

Section Buffers.
Context {T : Type} `{Coeff T}.

Lemma bset_length (data : list T) i v : length (bset data i v) = length data.
Proof. unfold bset. destruct (i <? 0); [reflexivity|]. apply length_insert. Qed.

Lemma bget_bset (data : list T) i j v :
  0 <= i < Z.of_nat (length data) -> 0 <= j ->
  bget (bset data i v) j = if j =? i then v else bget data j.
Proof.
  intros Hi Hj. unfold bget, bset. destruct (Z.ltb_spec i 0); [lia|].
  destruct (Z.eqb_spec j i) as [->|Hne].
  - rewrite list_lookup_insert_eq by lia. reflexivity.
  - rewrite list_lookup_insert_ne by lia. reflexivity.
Qed.

Lemma buffer_ext (l l' : list T) :
  length l = length l' ->
  (forall j, 0 <= j < Z.of_nat (length l) -> bget l j = bget l' j) -> l = l'.
Proof.
  intros HL E. apply list_eq. intros i.
  destruct (Nat.lt_ge_cases i (length l)) as [Hi|Hi].
  - specialize (E (Z.of_nat i)). unfold bget in E. rewrite Nat2Z.id in E.
    destruct (lookup_lt_is_Some_2 l i Hi) as [x Ex].
    destruct (lookup_lt_is_Some_2 l' i) as [y Ey]; [lia|].
    rewrite Ex, Ey in *. simpl in E. f_equal. apply E. lia.
  - rewrite !lookup_ge_None_2 by lia. reflexivity.
Qed.

Lemma bget_bswap (data : list T) i j p :
  0 <= i < Z.of_nat (length data) -> 0 <= j < Z.of_nat (length data) -> 0 <= p ->
  bget (bswap data i j) p =
  if p =? j then bget data i else if p =? i then bget data j else bget data p.
Proof.
  intros Hi Hj Hp. unfold bswap. rewrite bget_bset by (rewrite ?bset_length; lia).
  destruct (Z.eqb_spec p j); [reflexivity|]. now rewrite bget_bset by lia.
Qed.

Lemma bswap_length (data : list T) i j : length (bswap data i j) = length data.
Proof. unfold bswap. now rewrite !bset_length. Qed.

End Buffers.

(** * Bit reversal *)

Section BitReversal.

Lemma pow2_pos (K : nat) : 0 < 2 ^ Z.of_nat K.
Proof. apply Z.pow_pos_nonneg; lia. Qed.

Lemma pow2_S (K : nat) : 2 ^ Z.of_nat (S K) = 2 * 2 ^ Z.of_nat K.
Proof. rewrite Nat2Z.inj_succ, Z.pow_succ_r by lia. reflexivity. Qed.

Lemma pow2_gt (K : nat) : Z.of_nat K < 2 ^ Z.of_nat K.
Proof. apply Z.pow_gt_lin_r; lia. Qed.

Lemma quot_pow2_S (K : nat) : Z.quot (2 ^ Z.of_nat (S K)) 2 = 2 ^ Z.of_nat K.
Proof.
  rewrite pow2_S. pose proof (pow2_pos K).
  rewrite Z.quot_div_nonneg by lia. rewrite Z.mul_comm. apply Z.div_mul. lia.
Qed.

Lemma bitrev_range (K : nat) j : 0 <= bitrev K j < 2 ^ Z.of_nat K.
Proof.
  revert j. induction K as [|K IH]; intros j; cbn [bitrev].
  - simpl. lia.
  - rewrite pow2_S. specialize (IH (j / 2)).
    pose proof (Z.mod_pos_bound j 2). nia.
Qed.

Lemma bitrev_alt (K : nat) j :
  0 <= j < 2 ^ Z.of_nat (S K) ->
  bitrev (S K) j = 2 * bitrev K (j mod 2 ^ Z.of_nat K) + j / 2 ^ Z.of_nat K.
Proof.
  revert j. induction K as [|K IH]; intros j Hj.
  - cbn [bitrev]. change (2 ^ Z.of_nat 0) with 1. change (2 ^ Z.of_nat 1) with 2 in Hj.
    rewrite Z.div_1_r. assert (j = 0 \/ j = 1) as [-> | ->] by lia; reflexivity.
  - change (bitrev (S (S K)) j) with ((j mod 2) * 2 ^ Z.of_nat (S K) + bitrev (S K) (j / 2)).
    rewrite !pow2_S in Hj. pose proof (pow2_pos K) as HP.
    rewrite IH by (rewrite pow2_S; split; [apply Z.div_pos; lia|apply Z.div_lt_upper_bound; lia]).
    change (bitrev (S K) (j mod 2 ^ Z.of_nat (S K))) with
      (((j mod 2 ^ Z.of_nat (S K)) mod 2) * 2 ^ Z.of_nat K
       + bitrev K ((j mod 2 ^ Z.of_nat (S K)) / 2)).
    rewrite !pow2_S.
    set (P := 2 ^ Z.of_nat K) in *.
    assert (E1 : (j mod (2 * P)) mod 2 = j mod 2)
      by (clearbody P; Z.div_mod_to_equations; lia).
    assert (E2 : (j mod (2 * P)) / 2 = (j / 2) mod P).
    { pose proof (Z.mod_pos_bound j (2 * P) ltac:(lia)) as Hr.
      rewrite (Z.div_mod j (2 * P)) at 2 by lia.
      replace (2 * P * (j / (2 * P)) + j mod (2 * P))
        with ((j / (2 * P) * P) * 2 + j mod (2 * P)) by lia.
      rewrite Z.div_add_l by lia. rewrite Z.add_comm, Z.mod_add by lia.
      symmetry. apply Z.mod_small.
      split; [apply Z.div_pos; lia|apply Z.div_lt_upper_bound; lia]. }
    assert (E3 : j / 2 / P = j / (2 * P)) by (rewrite Z.div_div; lia).
    rewrite E1, E2, E3. ring.
Qed.

Lemma bitrev_invol (K : nat) j :
  0 <= j < 2 ^ Z.of_nat K -> bitrev K (bitrev K j) = j.
Proof.
  revert j. induction K as [|K IH]; intros j Hj.
  - simpl in *. lia.
  - rewrite bitrev_alt by apply bitrev_range. cbn [bitrev].
    rewrite pow2_S in Hj. pose proof (pow2_pos K) as HP.
    pose proof (bitrev_range K (j / 2)) as HR.
    pose proof (Z.mod_pos_bound j 2 ltac:(lia)) as HM.
    set (P := 2 ^ Z.of_nat K) in *. set (r := bitrev K (j / 2)) in *.
    assert (E1 : (j mod 2 * P + r) mod P = r).
    { rewrite Z.add_comm, Z.mod_add by lia. apply Z.mod_small. lia. }
    assert (E2 : (j mod 2 * P + r) / P = j mod 2).
    { rewrite Z.add_comm, Z.div_add by lia. rewrite Z.div_small by lia. lia. }
    rewrite E1, E2. unfold r. rewrite IH.
    + pose proof (Z.div_mod j 2). lia.
    + split; [apply Z.div_pos; lia|apply Z.div_lt_upper_bound; lia].
Qed.

Lemma bitrev_0 (K : nat) : bitrev K 0 = 0.
Proof. induction K as [|K IH]; cbn [bitrev]; [reflexivity|]. rewrite Z.div_0_l, IH by lia. reflexivity. Qed.

Lemma lxor_pow2_low (K : nat) r :
  0 <= r < 2 ^ Z.of_nat K -> Z.lxor r (2 ^ Z.of_nat K) = r + 2 ^ Z.of_nat K.
Proof.
  intros Hr. symmetry. apply Z.add_nocarry_lxor.
  apply Z.bits_inj'. intros n Hn. rewrite Z.land_spec, Z.bits_0.
  rewrite Z.pow2_bits_eqb by lia.
  destruct (Z.eqb_spec (Z.of_nat K) n) as [<-|Hne]; [|apply andb_false_r].
  rewrite andb_true_r. rewrite Z.testbit_false by lia.
  rewrite Z.div_small by lia. reflexivity.
Qed.

Lemma lxor_pow2_high (K : nat) r :
  0 <= r < 2 ^ Z.of_nat K -> Z.lxor (2 ^ Z.of_nat K + r) (2 ^ Z.of_nat K) = r.
Proof.
  intros Hr. rewrite (Z.add_comm _ r), <- lxor_pow2_low by lia.
  rewrite Z.lxor_assoc, Z.lxor_nilpotent, Z.lxor_0_r. reflexivity.
Qed.

(** The loop [for (k = size / 2; (i ^= k) < k; k /= 2)] is the increment of
    a counter with its bits reversed. *)
Lemma fft_revinc_spec (K : nat) :
  forall fuel j, (K < fuel)%nat -> 0 <= j -> j + 1 < 2 ^ Z.of_nat K ->
  fft_revinc fuel (bitrev K j) (Z.quot (2 ^ Z.of_nat K) 2) = Some (bitrev K (j + 1)).
Proof.
  induction K as [|K IH]; intros fuel j Hf Hj Hlt.
  - simpl in Hlt. lia.
  - destruct fuel as [|fuel]; [lia|]. rewrite quot_pow2_S. cbn [fft_revinc bitrev].
    rewrite pow2_S in Hlt. pose proof (pow2_pos K) as HP.
    pose proof (bitrev_range K (j / 2)) as HR.
    pose proof (Z.div_mod j 2 ltac:(lia)) as HD.
    pose proof (Z.mod_pos_bound j 2 ltac:(lia)) as HM.
    assert (j mod 2 = 0 \/ j mod 2 = 1) as [E|E] by lia; rewrite E.
    + rewrite Z.mul_0_l, Z.add_0_l. rewrite lxor_pow2_low by lia.
      destruct (Z.ltb_spec (bitrev K (j / 2) + 2 ^ Z.of_nat K) (2 ^ Z.of_nat K)); [lia|].
      assert (E1 : (j + 1) mod 2 = 1).
      { replace (j + 1) with (1 + (j / 2) * 2) by lia. now rewrite Z.mod_add by lia. }
      assert (E2 : (j + 1) / 2 = j / 2).
      { replace (j + 1) with (1 + (j / 2) * 2) at 1 by lia. now rewrite Z.div_add by lia. }
      rewrite E1, E2. f_equal. lia.
    + rewrite Z.mul_1_l. rewrite lxor_pow2_high by lia.
      destruct (Z.ltb_spec (bitrev K (j / 2)) (2 ^ Z.of_nat K)); [|lia].
      assert (E1 : (j + 1) mod 2 = 0).
      { replace (j + 1) with (0 + (j / 2 + 1) * 2) by lia. now rewrite Z.mod_add by lia. }
      assert (E2 : (j + 1) / 2 = j / 2 + 1).
      { replace (j + 1) with (0 + (j / 2 + 1) * 2) at 1 by lia. now rewrite Z.div_add by lia. }
      rewrite E1, E2, Z.mul_0_l, Z.add_0_l.
      apply IH; lia.
Qed.

Lemma land_pow2 (K : nat) : Z.land (2 ^ Z.of_nat K) (2 ^ Z.of_nat K - 1) = 0.
Proof.
  replace (2 ^ Z.of_nat K - 1) with (Z.ones (Z.of_nat K))
    by (rewrite Z.ones_equiv; lia).
  rewrite Z.land_ones by lia. apply Z.mod_same. pose proof (pow2_pos K). lia.
Qed.

(** The test [(size & (size - 1)) != 0] rejects what is not a power of two. *)
Lemma land_pred_pow2 n :
  0 < n -> Z.land n (n - 1) = 0 -> exists K : nat, n = 2 ^ Z.of_nat K.
Proof.
  intros Hn HL. pose proof (Z.log2_nonneg n) as HK.
  destruct (Z.log2_spec n Hn) as [Hlo Hhi].
  destruct (Z.eq_dec n (2 ^ Z.log2 n)) as [E|Hne].
  - exists (Z.to_nat (Z.log2 n)). now rewrite Z2Nat.id by lia.
  - exfalso.
    assert (B1 : Z.testbit n (Z.log2 n) = true) by now apply Z.bit_log2.
    assert (E2 : Z.log2 (n - 1) = Z.log2 n).
    { apply Z.log2_unique; [lia|]. lia. }
    assert (B2 : Z.testbit (n - 1) (Z.log2 n) = true).
    { rewrite <- E2. apply Z.bit_log2. pose proof (Z.pow_pos_nonneg 2 (Z.log2 n)). lia. }
    assert (B : Z.testbit (Z.land n (n - 1)) (Z.log2 n) = true).
    { now rewrite Z.land_spec, B1, B2. }
    rewrite HL, Z.bits_0 in B. discriminate.
Qed.

End BitReversal.

Section InPlace.
Context {T : Type} `{CoeffLaws T}.
Add Ring coeff_ring_inplace : coeff_ring.

(** The butterflies of one block: [cnt] of them are left to do. *)
Lemma fft_block_spec h (root : T) :
  forall (cnt : nat) fuel dataH data0 w data,
  (cnt < fuel)%nat -> dataH = data0 + Z.of_nat cnt -> 0 <= data0 -> Z.of_nat cnt <= h ->
  dataH + h <= Z.of_nat (length data) ->
  exists data', fft_block fuel h root dataH data0 w data = Some (dataH, data') /\
    length data' = length data /\
    forall p, 0 <= p ->
      bget data' p =
        if (data0 <=? p) && (p <? dataH) then bget data p [+] bget data (p + h)
        else if (data0 + h <=? p) && (p <? dataH + h)
             then (bget data (p - h) [-] bget data p)
                  [*] (w [*] powT root (p - h - data0))
             else bget data p.
Proof.
  induction cnt as [|cnt IH]; intros fuel dataH data0 w data Hf HH Hd0 Hc HL;
    (destruct fuel as [|fuel]; [lia|]); cbn [fft_block].
  - destruct (Z.eqb_spec data0 dataH) as [Ee|Ne]; [|lia]. exists data.
    split; [now rewrite Ee|]. split; [reflexivity|]. intros p Hp. zcases; reflexivity.
  - destruct (Z.eqb_spec data0 dataH); [lia|].
    set (d1 := bset data data0 (bget data data0 [+] bget data (data0 + h))).
    set (d2 := bset d1 (data0 + h) ((bget data data0 [-] bget data (data0 + h)) [*] w)).
    assert (L1 : length d1 = length data) by apply bset_length.
    assert (L2 : length d2 = length data) by (unfold d2; now rewrite bset_length).
    destruct (IH fuel dataH (data0 + 1) (w [*] root) d2) as (data' & E & L & HP);
      try lia.
    exists data'. split; [exact E|]. split; [lia|]. intros p Hp. rewrite HP by lia.
    assert (G : forall q, 0 <= q -> bget d2 q =
              if q =? data0 + h then (bget data data0 [-] bget data (data0 + h)) [*] w
              else if q =? data0 then bget data data0 [+] bget data (data0 + h)
              else bget data q).
    { intros q Hq. unfold d2. rewrite bget_bset by lia.
      destruct (Z.eqb_spec q (data0 + h)); [reflexivity|]. unfold d1.
      now rewrite bget_bset by lia. }
    destruct (Z.eq_dec p data0) as [->|N0].
    { rewrite (G data0) by lia. zcases. reflexivity. }
    destruct (Z.eq_dec p (data0 + h)) as [->|N1].
    { rewrite (G (data0 + h)) by lia. zcases.
      replace (data0 + h - h) with data0 by lia.
      replace (data0 - data0) with 0 by lia. rewrite powT_0. ring. }
    destruct (Z.leb_spec (data0 + 1) p), (Z.ltb_spec p dataH),
      (Z.leb_spec data0 p), (Z.leb_spec (data0 + 1 + h) p), (Z.leb_spec (data0 + h) p),
      (Z.ltb_spec p (dataH + h)); cbn [andb]; try lia;
      rewrite ?(G p), ?(G (p + h)), ?(G (p - h)) by lia;
      zcases; try reflexivity.
    replace (p - h - data0) with (p - h - (data0 + 1) + 1) by lia.
    rewrite powT_succ by lia. ring.
Qed.

(** One pass over the blocks of [2 * h] elements: [cnt] blocks are left. *)
Lemma fft_pass_spec h (root : T) size :
  0 < h ->
  forall (cnt : nat) fuel data0 data,
  (cnt < fuel)%nat -> size = data0 + Z.of_nat cnt * (2 * h) -> 0 <= data0 ->
  size <= Z.of_nat (length data) ->
  exists data', fft_pass fuel size h root r1 data0 data = Some data' /\
    length data' = length data /\
    (forall p, 0 <= p < data0 \/ size <= p -> bget data' p = bget data p) /\
    (forall q i, 0 <= q < Z.of_nat cnt -> 0 <= i < h ->
       bget data' (data0 + q * (2 * h) + i) =
         bget data (data0 + q * (2 * h) + i) [+] bget data (data0 + q * (2 * h) + i + h) /\
       bget data' (data0 + q * (2 * h) + i + h) =
         (bget data (data0 + q * (2 * h) + i) [-] bget data (data0 + q * (2 * h) + i + h))
         [*] powT root i).
Proof.
  intros Hh. induction cnt as [|cnt IH]; intros fuel data0 data Hf HS Hd0 HL;
    (destruct fuel as [|fuel]; [lia|]); cbn [fft_pass].
  - destruct (Z.eqb_spec data0 size); [|lia]. exists data.
    split; [reflexivity|]. split; [reflexivity|]. split; [reflexivity|]. intros; lia.
  - destruct (Z.eqb_spec data0 size); [nia|].
    destruct (fft_block_spec h root (Z.to_nat h) (Z.to_nat h + 1) (data0 + h) data0 r1 data)
      as (d1 & E1 & L1 & P1); try lia; try nia.
    rewrite E1.
    destruct (IH fuel (data0 + h + h) d1) as (data' & E & L & PO & PI); try lia; try nia.
    exists data'. split; [exact E|]. split; [lia|]. split.
    + intros p Hp. rewrite PO by lia. rewrite P1 by lia. zcases; reflexivity.
    + intros q i Hq Hi. destruct (Z.eq_dec q 0) as [->|Hq0].
      * rewrite !PO by lia. rewrite !P1 by lia.
        replace (data0 + 0 * (2 * h) + i) with (data0 + i) by lia.
        split.
        -- zcases. reflexivity.
        -- destruct (Z.leb_spec data0 (data0 + i + h)), (Z.ltb_spec (data0 + i + h) (data0 + h)),
             (Z.leb_spec (data0 + h) (data0 + i + h)),
             (Z.ltb_spec (data0 + i + h) (data0 + h + h)); cbn [andb]; try lia.
           replace (data0 + i + h - h) with (data0 + i) by lia.
           replace (data0 + i - data0) with i by lia. ring.
      * destruct (PI (q - 1) i) as [A1 A2]; try lia.
        replace (data0 + h + h + (q - 1) * (2 * h) + i)
          with (data0 + q * (2 * h) + i) in * by lia.
        rewrite A1, A2.
        assert (G : forall p, data0 + h + h <= p -> bget d1 p = bget data p).
        { intros p Hp. rewrite P1 by lia. zcases; reflexivity. }
        rewrite !G by nia. split; reflexivity.
Qed.

(** All the passes: on every block of [2 ^ K] elements, the transform of
    the block, with its outputs in bit-reversed order. *)
Lemma fft_passes_spec :
  forall (K : nat) fuel B size (root : T) data,
  (K < fuel)%nat -> 0 <= B -> size = B * 2 ^ Z.of_nat K ->
  size = Z.of_nat (length data) ->
  (forall K', K = S K' -> powT root (2 ^ Z.of_nat K') = [~] r1) ->
  exists data', fft_passes fuel size r1 (2 ^ Z.of_nat K) root data = Some data' /\
    length data' = length data /\
    forall q k, 0 <= q < B -> 0 <= k < 2 ^ Z.of_nat K ->
      bget data' (q * 2 ^ Z.of_nat K + bitrev K k) =
      dft (2 ^ Z.of_nat K) root (fun j => bget data (q * 2 ^ Z.of_nat K + j)) k.
Proof.
  induction K as [|K IH]; intros fuel B size root data Hf HB HS HL Hroot;
    (destruct fuel as [|fuel]; [lia|]); cbn [fft_passes].
  - change (2 ^ Z.of_nat 0) with 1. change (1 <? 1) with false. cbv iota.
    exists data. split; [reflexivity|]. split; [reflexivity|].
    intros q k Hq Hk. rewrite dft_1. cbn [bitrev]. reflexivity.
  - pose proof (pow2_pos K) as HP. rewrite quot_pow2_S.
    destruct (Z.ltb_spec 1 (2 ^ Z.of_nat (S K))); [|rewrite pow2_S in *; lia].
    specialize (Hroot K eq_refl).
    set (h := 2 ^ Z.of_nat K) in *.
    assert (HS' : size = 0 + Z.of_nat (Z.to_nat B) * (2 * h))
      by (rewrite Z2Nat.id by lia; rewrite HS, pow2_S; fold h; lia).
    destruct (fft_pass_spec h root size HP (Z.to_nat B) (Z.to_nat size + 1) 0 data)
      as (d1 & E1 & L1 & _ & P1); try lia; try nia.
    rewrite E1.
    destruct (IH fuel (2 * B) size (root [*] root) d1) as (data' & E & L & PD);
      try lia; try (rewrite HS, pow2_S; fold h; lia).
    { intros K' ->. rewrite powT_sq by (pose proof (pow2_pos K'); lia).
      rewrite <- pow2_S. exact Hroot. }
    fold h in E, PD. exists data'. split; [exact E|]. split; [lia|].
    intros q k Hq Hk. rewrite pow2_S in Hk |- *. fold h in Hk |- *.
    cbn [bitrev]. fold h.
    pose proof (Z.div_mod k 2 ltac:(lia)) as HD.
    pose proof (Z.mod_pos_bound k 2 ltac:(lia)) as HM.
    assert (Hk2 : 0 <= k / 2 < h).
    { split; [apply Z.div_pos; lia|apply Z.div_lt_upper_bound; lia]. }
    replace (q * (2 * h) + (k mod 2 * h + bitrev K (k / 2)))
      with ((2 * q + k mod 2) * h + bitrev K (k / 2)) by lia.
    rewrite PD by lia.
    rewrite Z2Nat.id in P1 by lia.
    assert (k mod 2 = 0 \/ k mod 2 = 1) as [E0|E0] by lia; rewrite E0.
    + replace k with (2 * (k / 2)) at 2 by lia.
      rewrite dif_even by (auto; lia).
      apply dft_ext. intros j Hj. destruct (P1 q j) as [A1 _]; try lia.
      replace ((2 * q + 0) * h + j) with (0 + q * (2 * h) + j) by lia.
      rewrite A1. f_equal; f_equal; lia.
    + replace k with (2 * (k / 2) + 1) at 2 by lia.
      rewrite dif_odd by (auto; lia).
      apply dft_ext. intros j Hj. destruct (P1 q j) as [_ A2]; try lia.
      replace ((2 * q + 1) * h + j) with (0 + q * (2 * h) + j + h) by lia.
      rewrite A2. f_equal. f_equal; f_equal; lia.
Qed.

(** The reordering loop: [cnt] values of [j] are left. *)
Lemma fft_reorder_spec (K : nat) (data0 : list T) :
  Z.of_nat (length data0) = 2 ^ Z.of_nat K ->
  forall (cnt : nat) fuel j data,
  (cnt < fuel)%nat -> 1 <= j -> j + Z.of_nat cnt = Z.max 1 (2 ^ Z.of_nat K - 1) ->
  length data = length data0 ->
  (forall p, 0 <= p < 2 ^ Z.of_nat K ->
     bget data p = if Z.min p (bitrev K p) <? j then bget data0 (bitrev K p)
                   else bget data0 p) ->
  exists data', fft_reorder fuel (2 ^ Z.of_nat K) (bitrev K (j - 1)) j data = Some data' /\
    length data' = length data0 /\
    forall p, 0 <= p < 2 ^ Z.of_nat K -> bget data' p = bget data0 (bitrev K p).
Proof.
  intros HL0. pose proof (pow2_pos K) as HP. pose proof (pow2_gt K) as HG.
  induction cnt as [|cnt IH]; intros fuel j data Hf Hj Hc HL HI;
    (destruct fuel as [|fuel]; [lia|]); cbn [fft_reorder].
  - destruct (Z.ltb_spec j (2 ^ Z.of_nat K - 1)); [lia|].
    exists data. split; [reflexivity|]. split; [exact HL|].
    intros p Hp. rewrite HI by lia.
    destruct (Z.ltb_spec (Z.min p (bitrev K p)) j); [reflexivity|].
    pose proof (bitrev_range K p). f_equal.
    destruct (Z.eq_dec (2 ^ Z.of_nat K) 1) as [E1|N1]; [|lia].
    assert (p = 0) as -> by lia. now rewrite bitrev_0.
  - destruct (Z.ltb_spec j (2 ^ Z.of_nat K - 1)); [|lia].
    replace (bitrev K (j - 1)) with (bitrev K (j - 1)) by reflexivity.
    rewrite fft_revinc_spec by lia.
    replace (j - 1 + 1) with j by lia.
    set (i := bitrev K j).
    pose proof (bitrev_range K j) as Hi. fold i in Hi.
    assert (Hij : bitrev K i = j) by (apply bitrev_invol; lia).
    set (d1 := if j <? i then bswap data i j else data).
    assert (L1 : length d1 = length data0).
    { unfold d1. destruct (j <? i); [now rewrite bswap_length|exact HL]. }
    destruct (IH fuel (j + 1) d1) as (data' & E & L & PD); try lia.
    + intros p Hp. pose proof (bitrev_range K p) as Hrp.
      pose proof (bitrev_invol K p Hp) as Hpp.
      assert (Hpj : bitrev K p = j -> p = i) by (intros Ej; unfold i; rewrite <- Ej; lia).
      unfold d1. destruct (Z.ltb_spec j i).
      * rewrite bget_bswap by lia.
        destruct (Z.eqb_spec p j) as [->|Npj].
        { fold i. rewrite HI by lia. fold i. rewrite Hij. zcases. reflexivity. }
        destruct (Z.eqb_spec p i) as [->|Npi].
        { rewrite Hij. rewrite HI by lia. fold i. zcases. reflexivity. }
        rewrite HI by lia. zcases; try reflexivity.
      * rewrite HI by lia.
        destruct (Z.ltb_spec (Z.min p (bitrev K p)) j),
          (Z.ltb_spec (Z.min p (bitrev K p)) (j + 1)); try lia; try reflexivity.
        f_equal. destruct (Z.eq_dec p j) as [->|Npj]; [fold i; lia|].
        assert (bitrev K p = j) by lia. lia.
    + replace (j + 1 - 1) with j in E by lia. fold i in E.
      exists data'. split; [exact E|]. split; [exact L|exact PD].
Qed.

(** [fft] on a buffer whose length is a power of two computes the transform
    in place. *)
Lemma fft_spec (K : nat) (data : list T) (root : T) :
  Z.of_nat (length data) = 2 ^ Z.of_nat K ->
  (forall K', K = S K' -> powT root (2 ^ Z.of_nat K') = [~] r1) ->
  exists data', fft data (2 ^ Z.of_nat K) root = Some data' /\
    length data' = length data /\
    forall k, 0 <= k < 2 ^ Z.of_nat K ->
      bget data' k = dft (2 ^ Z.of_nat K) root (bget data) k.
Proof.
  intros HL Hroot. unfold fft. rewrite land_pow2. change (negb (0 =? 0)) with false.
  cbv iota. pose proof (pow2_pos K) as HP. pose proof (pow2_gt K) as HG.
  destruct (fft_passes_spec K (Z.to_nat (2 ^ Z.of_nat K) + 1) 1 (2 ^ Z.of_nat K) root data)
    as (d1 & E1 & L1 & P1); try lia; auto.
  unfold identityOf. rewrite E1.
  destruct (fft_reorder_spec K d1 ltac:(lia)
              (Z.to_nat (Z.max 1 (2 ^ Z.of_nat K - 1) - 1))
              (Z.to_nat (2 ^ Z.of_nat K) + 1) 1 d1)
    as (d2 & E2 & L2 & P2); try lia.
  { intros p Hp. pose proof (bitrev_range K p).
    destruct (Z.ltb_spec (Z.min p (bitrev K p)) 1); [|reflexivity].
    f_equal. destruct (Z.eq_dec p 0) as [->|Np]; [now rewrite bitrev_0|].
    assert (E0 : bitrev K p = 0) by lia.
    pose proof (bitrev_invol K p Hp) as Ei. rewrite E0, bitrev_0 in Ei. lia. }
  change (1 - 1) with 0 in E2. rewrite bitrev_0 in E2.
  exists d2. split; [exact E2|]. split; [lia|].
  intros k Hk. rewrite P2 by lia.
  specialize (P1 0 k ltac:(lia) Hk). rewrite Z.mul_0_l, Z.add_0_l in P1.
  rewrite P1. apply dft_ext. intros j Hj. f_equal.
Qed.

(** A size that is not a power of two: [fft] returns at once. *)
Lemma fft_not_pow2 (data : list T) size (root : T) :
  0 < size -> (forall K : nat, size <> 2 ^ Z.of_nat K) -> fft data size root = Some data.
Proof.
  intros Hs Hn. unfold fft.
  destruct (Z.eqb_spec (Z.land size (size - 1)) 0) as [E|E]; [|reflexivity].
  destruct (land_pred_pow2 size Hs E) as [K EK]. now destruct (Hn K).
Qed.

End InPlace.

Section Recursive.
Context {T : Type} `{CoeffLaws T}.
Add Ring coeff_ring_recursive : coeff_ring.

(** The combination loop of [fft_rec]: [cnt] values of [i] are left. *)
Lemma fft_rec_combine_spec d h (root : T) :
  forall (cnt : nat) i rooti dest,
  0 <= d -> 0 <= i -> i + Z.of_nat cnt = h -> d + 2 * h <= Z.of_nat (length dest) ->
  length (fft_rec_combine cnt d h i root rooti dest) = length dest /\
  forall p, 0 <= p ->
    bget (fft_rec_combine cnt d h i root rooti dest) p =
      if (d + i <=? p) && (p <? d + h)
      then bget dest p [+] bget dest (p + h) [*] (rooti [*] powT root (p - d - i))
      else if (d + i + h <=? p) && (p <? d + 2 * h)
           then bget dest (p - h) [-] bget dest p [*] (rooti [*] powT root (p - h - d - i))
           else bget dest p.
Proof.
  induction cnt as [|cnt IH]; intros i rooti dest Hd Hi Hc HL; cbn [fft_rec_combine].
  - split; [reflexivity|]. intros p Hp. zcases; reflexivity.
  - set (z := bget dest (d + i + h) [*] rooti).
    set (d1 := bset dest (d + i + h) (bget dest (d + i) [-] z)).
    set (d2 := bset d1 (d + i) (bget d1 (d + i) [+] z)).
    assert (L1 : length d1 = length dest) by apply bset_length.
    assert (L2 : length d2 = length dest) by (unfold d2; now rewrite bset_length).
    destruct (IH (i + 1) (rooti [*] root) d2) as [L HP]; try lia.
    split; [lia|]. intros p Hp. rewrite HP by lia.
    assert (G : forall q, 0 <= q -> bget d2 q =
              if q =? d + i then bget dest (d + i) [+] z
              else if q =? d + i + h then bget dest (d + i) [-] z
              else bget dest q).
    { intros q Hq. unfold d2. rewrite bget_bset by lia.
      destruct (Z.eqb_spec q (d + i)) as [->|Nq].
      - unfold d1. rewrite bget_bset by lia. zcases. reflexivity.
      - unfold d1. now rewrite bget_bset by lia. }
    destruct (Z.eq_dec p (d + i)) as [->|N0].
    { rewrite (G (d + i)) by lia. zcases.
      replace (d + i - d - i) with 0 by lia. rewrite powT_0. unfold z. ring. }
    destruct (Z.eq_dec p (d + i + h)) as [->|N1].
    { rewrite (G (d + i + h)) by lia. zcases.
      replace (d + i + h - h) with (d + i) by lia.
      replace (d + i - d - i) with 0 by lia. rewrite powT_0. unfold z. ring. }
    destruct (Z.leb_spec (d + (i + 1)) p), (Z.ltb_spec p (d + h)),
      (Z.leb_spec (d + i) p), (Z.leb_spec (d + (i + 1) + h) p), (Z.leb_spec (d + i + h) p),
      (Z.ltb_spec p (d + 2 * h)); cbn [andb]; try lia;
      rewrite ?(G p), ?(G (p + h)), ?(G (p - h)) by lia;
      zcases; try reflexivity.
    + replace (p - d - i) with (p - d - (i + 1) + 1) by lia.
      rewrite powT_succ by lia. ring.
    + replace (p - h - d - i) with (p - h - d - (i + 1) + 1) by lia.
      rewrite powT_succ by lia. ring.
Qed.

(** [fft_rec] on a power of two computes the transform of the strided
    source into [dest] and leaves the rest of [dest] alone. *)
Lemma fft_rec_fuel_spec :
  forall (K : nat) fuel dest d src s (root : T) off,
  (K < fuel)%nat -> 0 <= d -> d + 2 ^ Z.of_nat K <= Z.of_nat (length dest) ->
  (forall K', K = S K' -> powT root (2 ^ Z.of_nat K') = [~] r1) ->
  exists dest', fft_rec_fuel fuel dest d src s (2 ^ Z.of_nat K) root off = Some dest' /\
    length dest' = length dest /\
    (forall k, 0 <= k < 2 ^ Z.of_nat K ->
       bget dest' (d + k) =
       dft (2 ^ Z.of_nat K) root (fun j => bget src (s + j * off)) k) /\
    (forall p, 0 <= p -> ~ (d <= p < d + 2 ^ Z.of_nat K) -> bget dest' p = bget dest p).
Proof.
  induction K as [|K IH]; intros fuel dest d src s root off Hf Hd HL Hroot;
    (destruct fuel as [|fuel]; [lia|]); cbn [fft_rec_fuel].
  - change (2 ^ Z.of_nat 0) with 1 in *. change (1 <=? 1) with true. cbv iota.
    eexists. split; [reflexivity|]. split; [apply bset_length|]. split.
    + intros k Hk. assert (k = 0) as -> by lia. rewrite dft_1.
      rewrite bget_bset by lia. zcases. now rewrite Z.mul_0_l, Z.add_0_r.
    + intros p Hp Hn. rewrite bget_bset by lia. zcases. reflexivity.
  - pose proof (pow2_pos K) as HP. rewrite quot_pow2_S.
    destruct (Z.leb_spec (2 ^ Z.of_nat (S K)) 1); [rewrite pow2_S in *; lia|].
    specialize (Hroot K eq_refl). rewrite pow2_S in *.
    set (h := 2 ^ Z.of_nat K) in *.
    assert (Hroot2 : forall K', K = S K' -> powT (root [*] root) (2 ^ Z.of_nat K') = [~] r1).
    { intros K' ->. rewrite powT_sq by (pose proof (pow2_pos K'); lia).
      rewrite <- pow2_S. exact Hroot. }
    destruct (IH fuel dest d src s (root [*] root) (off * 2))
      as (d1 & E1 & L1 & P1 & F1); try lia; auto.
    fold h in E1, P1, F1. rewrite E1.
    destruct (IH fuel d1 (d + h) src (s + off) (root [*] root) (off * 2))
      as (d2 & E2 & L2 & P2 & F2); try (fold h; lia); auto.
    fold h in E2, P2, F2. rewrite E2.
    destruct (fft_rec_combine_spec d h root (Z.to_nat h) 0 r1 d2) as [L3 P3]; try lia.
    eexists. split; [reflexivity|]. unfold identityOf. split; [lia|]. split.
    + intros k Hk. rewrite P3 by lia.
      destruct (Z_lt_le_dec k h) as [Hkh|Hkh].
      * destruct (Z.leb_spec (d + 0) (d + k)), (Z.ltb_spec (d + k) (d + h)); cbn [andb]; try lia.
        rewrite F2 by lia. rewrite P1 by lia.
        replace (d + k + h) with (d + h + k) by lia. rewrite P2 by lia.
        rewrite dit_lo by (auto; lia).
        replace (d + k - d - 0) with k by lia.
        replace (r1 [*] powT root k) with (powT root k) by ring.
        f_equal; [|f_equal]; apply dft_ext; intros j Hj; f_equal; lia.
      * destruct (Z.leb_spec (d + 0) (d + k)), (Z.ltb_spec (d + k) (d + h)),
          (Z.leb_spec (d + 0 + h) (d + k)), (Z.ltb_spec (d + k) (d + 2 * h));
          cbn [andb]; try lia.
        replace (d + k - h) with (d + (k - h)) by lia.
        rewrite F2 by lia. rewrite P1 by lia.
        replace (d + k) with (d + h + (k - h)) at 1 by lia. rewrite P2 by lia.
        replace (dft (2 * h) root (fun j => bget src (s + j * off)) k)
          with (dft (2 * h) root (fun j => bget src (s + j * off)) (k - h + h))
          by (f_equal; lia).
        rewrite dit_hi by (auto; lia).
        replace (d + (k - h) - d - 0) with (k - h) by lia.
        replace (r1 [*] powT root (k - h)) with (powT root (k - h)) by ring.
        f_equal; [|f_equal]; apply dft_ext; intros j Hj; f_equal; lia.
    + intros p Hp Hn. rewrite P3 by lia. zcases; (rewrite F2 by lia; apply F1; lia).
Qed.

Lemma fft_rec_spec (K : nat) dest src (root : T) :
  Z.of_nat (length dest) = 2 ^ Z.of_nat K ->
  (forall K', K = S K' -> powT root (2 ^ Z.of_nat K') = [~] r1) ->
  exists dest', fft_rec dest 0 src 0 (2 ^ Z.of_nat K) root 1 = Some dest' /\
    length dest' = length dest /\
    forall k, 0 <= k < 2 ^ Z.of_nat K ->
      bget dest' k = dft (2 ^ Z.of_nat K) root (bget src) k.
Proof.
  intros HL Hroot. pose proof (pow2_gt K). unfold fft_rec.
  destruct (fft_rec_fuel_spec K (Z.to_nat (2 ^ Z.of_nat K) + 1) dest 0 src 0 root 1)
    as (d1 & E1 & L1 & P1 & _); try lia; auto.
  exists d1. split; [exact E1|]. split; [exact L1|].
  intros k Hk. specialize (P1 k Hk). rewrite Z.add_0_l in P1. rewrite P1.
  apply dft_ext. intros j Hj. f_equal. lia.
Qed.

(** ** The scaling loop *)

Lemma scale_loop (v : T) (m : nat) (data : list T) :
  (m <= length data)%nat ->
  let data' := fold_left (fun data i =>
                  bset data (Z.of_nat i) (bget data (Z.of_nat i) [*] v))
                (seq 0 m) data in
  length data' = length data /\
  forall p, 0 <= p ->
    bget data' p = if p <? Z.of_nat m then bget data p [*] v else bget data p.
Proof.
  induction m as [|m IH]; intros Hm; cbv zeta.
  - split; [reflexivity|]. intros p Hp. zcases. reflexivity.
  - rewrite seq_S, fold_left_app. cbn [fold_left Nat.add].
    destruct IH as [L P]; [lia|]. rewrite bset_length. split; [exact L|].
    intros p Hp. rewrite bget_bset by lia. rewrite !P by lia.
    destruct (Z.eqb_spec p (Z.of_nat m)) as [->|Np]; zcases; reflexivity.
Qed.

Lemma scale_isize_spec (data : list T) size (e1 : T) :
  0 <= size <= Z.of_nat (length data) ->
  length (scale_isize data size e1) = length data /\
  forall p, 0 <= p < size ->
    bget (scale_isize data size e1) p = bget data p [*] (e1 [/] castT size).
Proof.
  intros Hs. unfold scale_isize.
  destruct (scale_loop (e1 [/] castT size) (Z.to_nat size) data) as [L P]; [lia|].
  split; [exact L|]. intros p Hp. rewrite P by lia.
  destruct (Z.ltb_spec p (Z.of_nat (Z.to_nat size))); [reflexivity|lia].
Qed.

(** ** Inversion *)

(** The sum of the powers [w ^ (j * e)] over a full period. *)
Lemma root_sum n (w : T) e :
  0 < n -> principal_root n w -> 0 <= e ->
  sumZ 0 (n - 1) (fun j => powT w (j * e)) =
  if e mod n =? 0 then castT n else r0.
Proof.
  intros Hn [Hw Hs] He. pose proof (Z.mod_pos_bound e n Hn) as Hm.
  rewrite (sumZ_ext 0 (n - 1) _ (fun j => powT w (j * (e mod n)))).
  - destruct (Z.eqb_spec (e mod n) 0) as [E|E].
    + rewrite E. rewrite (sumZ_ext 0 (n - 1) _ (fun _ => r1)).
      * rewrite sumZ_const by lia. ring.
      * intros j Hj. now rewrite Z.mul_0_r, powT_0.
    + apply Hs. lia.
  - intros j Hj. rewrite (Z.mul_comm j e), (Z.mul_comm j (e mod n)).
    rewrite !powT_mul by lia. f_equal. now apply powT_mod.
Qed.

Lemma dft_inverse n (w : T) (x : Z -> T) k :
  0 < n -> principal_root n w -> 0 <= k < n ->
  dft n (powT w (n - 1)) (dft n w x) k = castT n [*] x k.
Proof.
  intros Hn Hw Hk. unfold dft.
  rewrite (sumZ_ext 0 (n - 1) _
    (fun j => sumZ 0 (n - 1) (fun l => x l [*] powT w (j * (l + (n - 1) * k))))).
  2:{ intros j Hj. rewrite <- sumZ_mul_r. apply sumZ_ext. intros l Hl.
      rewrite <- powT_mul by lia.
      replace (j * (l + (n - 1) * k)) with (l * j + (n - 1) * (j * k)) by lia.
      rewrite powT_add by nia. ring. }
  rewrite sumZ_swap.
  rewrite (sumZ_ext 0 (n - 1) _
    (fun l => x l [*] (if l =? k then castT n else r0))).
  2:{ intros l Hl. rewrite sumZ_mul_l. f_equal.
      rewrite root_sum by (auto; nia).
      replace (l + (n - 1) * k) with (l - k + k * n) by lia.
      rewrite Z.mod_add by lia.
      destruct (Z.eqb_spec l k) as [->|Nlk].
      - now rewrite Z.sub_diag, Z.mod_0_l by lia.
      - destruct (Z.eqb_spec ((l - k) mod n) 0) as [E|E]; [|reflexivity].
        exfalso. apply Z.mod_divide in E; [|lia]. destruct E as [q Eq].
        assert (-1 < q < 1) by nia. assert (q = 0) by lia. subst q. lia. }
  rewrite (sumZ_single 0 (n - 1) k).
  - rewrite Z.eqb_refl. ring.
  - lia.
  - intros l Hl Nlk. destruct (Z.eqb_spec l k); [lia|ring].
Qed.

(** A principal root of an even order with an invertible order: the
    half-turn power is [-1]. *)
Lemma principal_half h (w ninv : T) :
  0 < h -> principal_root (2 * h) w -> ninv [*] castT (2 * h) = r1 ->
  powT w h = [~] r1.
Proof.
  intros Hh [Hw Hs] Hinv.
  pose proof (Hs h ltac:(lia)) as E.
  replace (2 * h - 1) with (2 * h - 1) in E by lia.
  rewrite sumZ_parity in E by lia.
  assert (Hw2 : forall j, 0 <= j -> powT w (2 * j * h) = r1).
  { intros j Hj. replace (2 * j * h) with (2 * h * j) by lia.
    rewrite powT_mul by lia. rewrite Hw. apply powT_one. }
  rewrite (sumZ_ext 0 (h - 1) _ (fun _ => r1 [+] powT w h)) in E.
  2:{ intros j Hj. rewrite Hw2 by lia.
      replace ((2 * j + 1) * h) with (2 * j * h + h) by lia.
      rewrite powT_add by nia. rewrite Hw2 by lia. ring. }
  rewrite sumZ_const in E by lia.
  rewrite castT_mul in Hinv by lia.
  assert (E' : r1 [+] powT w h = r0).
  { replace (r1 [+] powT w h)
      with ((ninv [*] (castT 2 [*] castT h)) [*] (r1 [+] powT w h))
      by (rewrite Hinv; ring).
    replace ((ninv [*] (castT 2 [*] castT h)) [*] (r1 [+] powT w h))
      with ((ninv [*] castT 2) [*] (castT h [*] (r1 [+] powT w h))) by ring.
    rewrite E. ring. }
  replace (powT w h) with ((r1 [+] powT w h) [-] r1) by ring. rewrite E'. ring.
Qed.

Lemma principal_half_pow2 (K : nat) (w ninv : T) :
  principal_root (2 ^ Z.of_nat K) w -> ninv [*] castT (2 ^ Z.of_nat K) = r1 ->
  forall K', K = S K' -> powT w (2 ^ Z.of_nat K') = [~] r1.
Proof.
  intros Hw Hinv K' ->. rewrite pow2_S in *.
  eapply principal_half; eauto. apply pow2_pos.
Qed.

(** The reciprocal root [w ^ (n - 1)] has the same half-turn power. *)
Lemma reciprocal_half (K : nat) (w : T) :
  (forall K', K = S K' -> powT w (2 ^ Z.of_nat K') = [~] r1) ->
  forall K', K = S K' ->
    powT (powT w (2 ^ Z.of_nat K - 1)) (2 ^ Z.of_nat K') = [~] r1.
Proof.
  intros Hw K' ->. specialize (Hw K' eq_refl). pose proof (pow2_pos K') as HP.
  rewrite pow2_S. rewrite <- powT_mul by lia.
  rewrite Z.mul_comm. rewrite powT_mul by lia. rewrite Hw.
  replace (2 * 2 ^ Z.of_nat K' - 1) with (2 * (2 ^ Z.of_nat K' - 1) + 1) by lia.
  apply powT_opp_odd. lia.
Qed.

(** Forward transform, inverse transform, scaling: what is left of the
    values [x] of a buffer. *)
Lemma round_trip_values (K : nat) (w ninv : T) (x y z : list T) :
  let n := 2 ^ Z.of_nat K in
  Z.of_nat (length x) = n -> Z.of_nat (length z) = n ->
  principal_root n w -> ninv [*] castT n = r1 ->
  (forall k, 0 <= k < n -> bget y k = dft n w (bget x) k) ->
  (forall k, 0 <= k < n -> bget z k = dft n (powT w (n - 1)) (bget y) k) ->
  scale_isize z n (identityOf w) = x.
Proof.
  intros n Lx Lz Hw Hinv Hy Hz. pose proof (pow2_pos K) as HP. fold n in HP.
  destruct (scale_isize_spec z n (identityOf w)) as [L P]; [lia|].
  apply buffer_ext; [lia|]. intros k Hk. rewrite L in Hk.
  rewrite P by lia. rewrite Hz by lia.
  rewrite (dft_ext n _ (bget y) (dft n w (bget x))) by (intros; now apply Hy).
  rewrite dft_inverse by (auto; lia).
  rewrite (rdiv_unit _ _ ninv Hinv). unfold identityOf.
  replace (castT n [*] bget x k [*] (r1 [*] ninv))
    with ((ninv [*] castT n) [*] bget x k) by ring.
  rewrite Hinv. ring.
Qed.

End Recursive.

Import Poly.

Section Container.
Context {T : Type} `{CoeffLaws T}.
Add Ring coeff_ring_cont : coeff_ring.

Implicit Types (p : polynom T) (l : list T).

Lemma req_true (a b : T) : req a b = true -> a = b.
Proof. apply req_eq. Qed.

Lemma req_refl (a : T) : req a a = true.
Proof. now apply req_eq. Qed.

Lemma req_false (a b : T) : req a b = false -> a <> b.
Proof. intros E Hab. apply req_eq in Hab. congruence. Qed.

Lemma req_neq (a b : T) : a <> b -> req a b = false.
Proof. intros Hn. destruct (req a b) eqn:E; [|reflexivity]. apply req_eq in E. contradiction. Qed.

Lemma vresize_length l n v : 0 <= n -> length (vresize l n v) = Z.to_nat n.
Proof. intros. unfold vresize. rewrite length_app, length_take, length_replicate. lia. Qed.

Lemma vresize_lookup l n v (i : nat) :
  vresize l n v !! i =
  if (i <? Z.to_nat n)%nat then Some (default v (l !! i)) else None.
Proof.
  unfold vresize. destruct (Nat.ltb_spec i (Z.to_nat n)).
  - destruct (Nat.lt_ge_cases i (length l)).
    + rewrite lookup_app_l by (rewrite length_take; lia).
      rewrite lookup_take_lt by lia.
      destruct (lookup_lt_is_Some_2 l i) as [x ->]; [lia|]. reflexivity.
    + rewrite lookup_app_r by (rewrite length_take; lia).
      rewrite length_take. rewrite lookup_replicate_2 by lia.
      rewrite (lookup_ge_None_2 l i) by lia. reflexivity.
  - apply lookup_ge_None_2. rewrite length_app, length_take, length_replicate. lia.
Qed.

Lemma at_lookup p i :
  0 <= i -> at_ p i = default (ZERO_COEFF p) (c p !! Z.to_nat i).
Proof.
  intros Hi. unfold at_, size, vget.
  destruct (Z.leb_spec 0 i); [|lia]. destruct (Z.ltb_spec i (Z.of_nat (length (c p)))); simpl.
  - destruct (lookup_lt_is_Some_2 (c p) (Z.to_nat i)) as [x ->]; [lia|]. reflexivity.
  - rewrite lookup_ge_None_2 by lia. reflexivity.
Qed.

Lemma at_neg p i : i < 0 -> at_ p i = ZERO_COEFF p.
Proof. intros. unfold at_. destruct (Z.leb_spec 0 i); [lia|reflexivity]. Qed.

Lemma at_ge p i : size p <= i -> at_ p i = ZERO_COEFF p.
Proof.
  intros. unfold at_. destruct (Z.ltb_spec i (size p)); [lia|].
  now rewrite andb_false_r.
Qed.

Lemma at_in p i : 0 <= i < size p -> at_ p i = vget (c p) i.
Proof.
  intros. unfold at_. destruct (Z.leb_spec 0 i), (Z.ltb_spec i (size p)); try lia. reflexivity.
Qed.

Lemma size_nonneg p : 0 <= size p.
Proof. unfold size. lia. Qed.

(** [reserve] pads and keeps every stored coefficient. *)
Lemma reserve_c p sz :
  c (reserve p sz) = c p ++ replicate (Z.to_nat sz - length (c p)) (ZERO_COEFF p).
Proof.
  unfold reserve, size. destruct (Z.ltb_spec (Z.of_nat (length (c p))) sz); simpl.
  - unfold vresize. rewrite take_ge by lia. reflexivity.
  - replace (Z.to_nat sz - length (c p))%nat with 0%nat by lia. simpl.
    now rewrite app_nil_r.
Qed.

Lemma reserve_zero p sz : ZERO_COEFF (reserve p sz) = ZERO_COEFF p.
Proof. unfold reserve. destruct (size p <? sz); reflexivity. Qed.

Lemma reserve_size p sz : size (reserve p sz) = Z.max (size p) sz.
Proof.
  unfold size. rewrite reserve_c, length_app, length_replicate. lia.
Qed.

Lemma at_reserve p sz i : at_ (reserve p sz) i = at_ p i.
Proof.
  destruct (Z_lt_le_dec i 0); [rewrite !at_neg by lia; apply reserve_zero|].
  rewrite !at_lookup by lia. rewrite reserve_zero, reserve_c.
  destruct (Nat.lt_ge_cases (Z.to_nat i) (length (c p))).
  - now rewrite lookup_app_l by lia.
  - rewrite lookup_app_r by lia. rewrite (lookup_ge_None_2 (c p)) by lia. simpl.
    destruct (replicate _ _ !! _) eqn:E; [|reflexivity].
    apply lookup_replicate in E. simpl. tauto.
Qed.

(** [resize] to a size that is not negative: the first [sz] stored
    coefficients, padded with the contextual zero. *)
Lemma resize_c p (n : nat) :
  resize p (Z.of_nat n) =
  Some (Polynom (ZERO_COEFF p)
          (take n (c p) ++ replicate (n - length (c p)) (ZERO_COEFF p))).
Proof.
  unfold resize, size. destruct (Z.eqb_spec (Z.of_nat n) (Z.of_nat (length (c p)))) as [E|E].
  - apply Nat2Z.inj in E. subst n. rewrite take_ge by lia.
    replace (length (c p) - length (c p))%nat with 0%nat by lia. simpl.
    rewrite app_nil_r. now destruct p.
  - destruct (Z.ltb_spec (Z.of_nat n) 0); [lia|]. unfold vresize.
    now rewrite Nat2Z.id.
Qed.

Lemma resize_some p sz :
  0 <= sz -> exists p', resize p sz = Some p' /\ ZERO_COEFF p' = ZERO_COEFF p /\
    size p' = sz /\ forall i, at_ p' i = if i <? sz then at_ p i else ZERO_COEFF p.
Proof.
  intros Hsz. pose proof (resize_c p (Z.to_nat sz)) as E.
  rewrite Z2Nat.id in E by lia. rewrite E.
  eexists; split; [reflexivity|]. split; [reflexivity|]. split.
  - unfold size; simpl. rewrite length_app, length_take, length_replicate. lia.
  - intros i. destruct (Z_lt_le_dec i 0).
    + rewrite !at_neg by lia. simpl. destruct (Z.ltb_spec i sz); [reflexivity|lia].
    + rewrite !at_lookup by lia. simpl.
      destruct (Z.ltb_spec i sz).
      * destruct (Nat.lt_ge_cases (Z.to_nat i) (length (c p))).
        -- rewrite lookup_app_l by (rewrite length_take; lia).
           now rewrite lookup_take_lt by lia.
        -- rewrite lookup_app_r by (rewrite length_take; lia).
           rewrite length_take. rewrite lookup_replicate_2 by lia.
           now rewrite (lookup_ge_None_2 (c p)) by lia.
      * rewrite lookup_ge_None_2; [reflexivity|].
        rewrite length_app, length_take, length_replicate. lia.
Qed.

(** ** Degree *)

Lemma deg_loop_spec p (n : nat) :
  let d := deg_loop p n (Z.of_nat n) in
  0 <= d <= Z.of_nat n /\
  (forall j, d < j <= Z.of_nat n -> vget (c p) j = ZERO_COEFF p) /\
  (0 < d -> vget (c p) d <> ZERO_COEFF p).
Proof.
  induction n as [|n IH]; simpl deg_loop.
  - split; [lia|]. split; intros; lia.
  - destruct (req (vget (c p) (Z.of_nat (S n))) (ZERO_COEFF p)) eqn:E; simpl.
    + replace (Z.of_nat (S n) - 1) with (Z.of_nat n) by lia.
      destruct IH as (R & Hz & Hnz). split; [lia|]. split; [|exact Hnz].
      intros j Hj. destruct (Z.eq_dec j (Z.of_nat (S n))) as [->|Hne].
      * now apply req_true.
      * apply Hz. lia.
    + split; [lia|]. split; [intros; lia|]. intros _. now apply req_false.
Qed.

Lemma deg_spec p :
  1 <= size p ->
  0 <= deg p <= size p - 1 /\
  (forall j, deg p < j <= size p - 1 -> vget (c p) j = ZERO_COEFF p) /\
  (0 < deg p -> vget (c p) (deg p) <> ZERO_COEFF p).
Proof.
  intros Hs. unfold deg. pose proof (deg_loop_spec p (Z.to_nat (size p - 1))) as HS.
  cbv zeta in HS. rewrite Z2Nat.id in HS by lia. exact HS.
Qed.

Lemma deg_empty p : size p = 0 -> deg p = 0.
Proof. intros E. unfold deg. rewrite E. reflexivity. Qed.

Lemma deg_nonneg p : 0 <= deg p.
Proof.
  pose proof (size_nonneg p). destruct (Z.eq_dec (size p) 0) as [E|E].
  - rewrite deg_empty by assumption. lia.
  - apply deg_spec. lia.
Qed.

Lemma deg_lt_size p : 0 < size p -> deg p < size p.
Proof. intros Hs. pose proof (deg_spec p). lia. Qed.

Lemma deg_bound p : deg p <= Z.max 0 (size p - 1).
Proof.
  pose proof (size_nonneg p). destruct (Z.eq_dec (size p) 0) as [E|E].
  - rewrite deg_empty by assumption. lia.
  - pose proof (deg_lt_size p). lia.
Qed.

Lemma deg_above p j : deg p < j -> at_ p j = ZERO_COEFF p.
Proof.
  intros Hj. destruct (Z_lt_le_dec j (size p)); [|now apply at_ge].
  pose proof (deg_nonneg p). rewrite at_in by lia.
  apply deg_spec; lia.
Qed.

Lemma deg_nonzero p : 0 < deg p -> at_ p (deg p) <> ZERO_COEFF p.
Proof.
  intros Hd. pose proof (deg_bound p). rewrite at_in by lia.
  apply deg_spec; lia.
Qed.

Lemma shrink_to_fit_size p : size (shrink_to_fit p) = deg p + 1.
Proof.
  unfold shrink_to_fit, size at 1. simpl. pose proof (deg_nonneg p).
  rewrite vresize_length by lia. lia.
Qed.

End Container.

Import Poly.

Section Store.
Context {T : Type} `{CoeffLaws T}.
Add Ring coeff_ring_store : coeff_ring.

Implicit Types (p : polynom T) (s : pstore T).

Lemma runs_obj {A} s r p (k : polynom T -> M (pstore T) A) Q :
  s !! r = Some p -> runs (k p) s Q -> runs (bind (obj r) k) s Q.
Proof.
  intros E (a & s' & E' & HQ). exists a, s'. split; [|exact HQ].
  unfold bind, obj. now rewrite E.
Qed.

Lemma runs_set_obj s r p (Q : unit -> pstore T -> Prop) :
  (r < length s)%nat -> Q tt (<[r := p]> s) -> runs (set_obj r p) s Q.
Proof.
  intros L HQ. exists tt, (<[r := p]> s). split; [|exact HQ].
  unfold set_obj. destruct (Nat.ltb_spec r (length s)); [reflexivity|lia].
Qed.

Lemma runs_lift {A} (o : option A) a s (Q : A -> pstore T -> Prop) :
  o = Some a -> Q a s -> runs (lift o) s Q.
Proof. intros -> HQ. exists a, s. auto. Qed.

Lemma runs_at_ref s r p i (Q : T -> pstore T -> Prop) :
  s !! r = Some p -> Q (at_ p i) s -> runs (at_ref r i) s Q.
Proof.
  intros E HQ. unfold at_ref. eapply runs_obj; [exact E|]. now apply runs_ret.
Qed.

Lemma lookup_lt s r p : s !! r = Some p -> (r < length s)%nat.
Proof. apply lookup_lt_Some. Qed.

Lemma runs_subscript s r p i (Q : T -> pstore T -> Prop) :
  s !! r = Some p -> 0 <= i ->
  Q (at_ p i) (<[r := reserve p (i + 1)]> s) -> runs (subscript r i) s Q.
Proof.
  intros E Hi HQ. unfold subscript. eapply runs_obj; [exact E|].
  apply runs_bind, runs_set_obj; [eapply lookup_lt; eauto|].
  destruct (Z.ltb_spec i 0); [lia|]. apply runs_ret.
  rewrite <- (at_reserve p (i + 1) i) in HQ.
  rewrite at_in in HQ; [exact HQ|]. rewrite reserve_size.
  pose proof (size_nonneg p). lia.
Qed.

Lemma runs_assign s r p i v (Q : unit -> pstore T -> Prop) :
  s !! r = Some p -> 0 <= i ->
  Q tt (<[r := pset p i v]> s) -> runs (assign r i v) s Q.
Proof.
  intros E Hi HQ. unfold assign. eapply runs_obj; [exact E|].
  destruct (Z.ltb_spec i 0); [lia|].
  apply runs_set_obj; [eapply lookup_lt; eauto|].
  unfold pset in HQ. now rewrite reserve_zero.
Qed.

Lemma pset_zero p i v : ZERO_COEFF (pset p i v) = ZERO_COEFF p.
Proof. reflexivity. Qed.

Lemma pset_size p i v : size (pset p i v) = Z.max (size p) (i + 1).
Proof. unfold pset, size at 1. simpl. rewrite length_insert. apply reserve_size. Qed.

Lemma at_pset p i v j :
  0 <= i -> at_ (pset p i v) j = if j =? i then v else at_ p j.
Proof.
  intros Hi. destruct (Z_lt_le_dec j 0).
  - rewrite !at_neg by lia. destruct (Z.eqb_spec j i); [lia|reflexivity].
  - rewrite at_lookup by lia. unfold pset. simpl.
    destruct (Z.eqb_spec j i) as [->|Hne].
    + rewrite list_lookup_insert_eq; [reflexivity|].
      pose proof (reserve_size p (i + 1)). unfold size in *. lia.
    + rewrite list_lookup_insert_ne by lia.
      rewrite <- (at_reserve p (i + 1) j). rewrite at_lookup by lia.
      now rewrite reserve_zero.
Qed.

Lemma runs_resize_ref s r p sz z (Q : unit -> pstore T -> Prop) :
  s !! r = Some p -> 0 <= sz ->
  (forall p', ZERO_COEFF p' = z -> size p' = sz ->
     (forall i, at_ p' i =
        if (0 <=? i) && (i <? Z.min sz (size p)) then at_ p i else z) ->
     Q tt (<[r := p']> s)) ->
  runs (resize_ref r sz z) s Q.
Proof.
  intros E Hsz HQ. unfold resize_ref. eapply runs_obj; [exact E|].
  destruct (resize_some (Polynom z (c p)) sz Hsz) as (p' & E' & Hz & Hs & Ha).
  apply runs_bind. eapply runs_lift; [exact E'|].
  apply runs_set_obj; [eapply lookup_lt; eauto|].
  apply HQ; auto. intros i. rewrite Ha. simpl.
  destruct (Z.leb_spec 0 i), (Z.ltb_spec i sz), (Z.ltb_spec i (Z.min sz (size p)));
    simpl; try lia; try reflexivity.
  - rewrite !at_in by (unfold size in *; simpl; lia). reflexivity.
  - apply at_ge. unfold size in *; simpl; lia.
  - now rewrite at_neg by lia.
  - now rewrite at_neg by lia.
Qed.

Lemma runs_raw {A} (m : M (heap T) A) s (Q : A -> pstore T -> Prop) :
  runs m (c <$> s)
       (fun a h' => Q a (zip_with (fun p l => Polynom (ZERO_COEFF p) l) s h')) ->
  runs (raw m) s Q.
Proof.
  intros (a & h' & E & HQ). eexists _, _. split; [|exact HQ].
  unfold raw. now rewrite E.
Qed.

Lemma blen_fmap s r p : s !! r = Some p -> blen (c <$> s) r = size p.
Proof. intros E. unfold blen. rewrite list_lookup_fmap, E. reflexivity. Qed.

Lemma rda_fmap s r p n :
  s !! r = Some p -> 0 <= n < size p -> rda (c <$> s) r n = at_ p n.
Proof.
  intros E Hn. unfold rda. rewrite list_lookup_fmap, E. simpl.
  destruct (Z.leb_spec 0 n); [|lia]. rewrite at_in by lia. reflexivity.
Qed.

Lemma block_determined (l : list T) (len : Z) (V : Z -> T) :
  Z.of_nat (length l) = len ->
  (forall n, 0 <= n < len -> default r0 (l !! Z.to_nat n) = V n) ->
  l = (fun i : nat => V (Z.of_nat i)) <$> seq 0 (Z.to_nat len).
Proof.
  intros L E. apply list_eq. intros n. rewrite list_lookup_fmap.
  destruct (Nat.lt_ge_cases n (length l)).
  - rewrite lookup_seq_lt by lia. simpl.
    destruct (lookup_lt_is_Some_2 l n) as [x Ex]; [lia|].
    specialize (E (Z.of_nat n)). rewrite Nat2Z.id, Ex in E. simpl in E.
    rewrite Ex, E by lia. reflexivity.
  - rewrite lookup_ge_None_2 by lia.
    rewrite (lookup_ge_None_2 (seq _ _)) by (rewrite length_seq; lia). reflexivity.
Qed.

(** What a kernel did to the buffers, read back as objects. *)
Lemma raw_modifies s h' pr lo hi PR (V : Z -> T) :
  s !! pr = Some PR -> modifies (c <$> s) h' pr lo hi ->
  (forall n, 0 <= n < size PR -> rda h' pr n = V n) ->
  zip_with (fun p l => Polynom (ZERO_COEFF p) l) s h' =
  <[pr := Polynom (ZERO_COEFF PR)
            ((fun i : nat => V (Z.of_nat i)) <$> seq 0 (Z.to_nat (size PR)))]> s.
Proof.
  intros E [[L B] F] HV. rewrite length_fmap in L.
  apply list_eq. intros b. rewrite lookup_zip_with.
  destruct (s !! b) as [P|] eqn:Eb; simpl.
  2:{ rewrite list_lookup_insert_ne; [now rewrite Eb|].
      intros ->. congruence. }
  destruct (lookup_lt_is_Some_2 h' b) as [l El].
  { apply lookup_lt_Some in Eb. lia. }
  rewrite El. simpl.
  assert (Hl : Z.of_nat (length l) = size P).
  { specialize (B b). unfold blen in B. rewrite El, list_lookup_fmap, Eb in B. exact B. }
  destruct (decide (b = pr)) as [->|Hne].
  - rewrite list_lookup_insert_eq by (eapply lookup_lt; eauto).
    assert (P = PR) by congruence. subst P. do 2 f_equal.
    apply block_determined; [exact Hl|].
    intros n Hn. rewrite <- HV by lia. unfold rda. rewrite El.
    destruct (Z.leb_spec 0 n); [reflexivity|lia].
  - rewrite list_lookup_insert_ne by auto. rewrite Eb. destruct P as [z l0]. simpl in *.
    do 2 f_equal. apply list_eq. intros n.
    specialize (F b (Z.of_nat n) (or_introl Hne)). unfold rda in F.
    rewrite El, list_lookup_fmap, Eb in F. simpl in F.
    destruct (Z.leb_spec 0 (Z.of_nat n)); [|lia]. rewrite Nat2Z.id in F.
    unfold size in Hl. simpl in Hl.
    destruct (l !! n) as [x|] eqn:X, (l0 !! n) as [y|] eqn:Y; simpl in F.
    + congruence.
    + apply lookup_lt_Some in X. apply lookup_ge_None in Y. lia.
    + apply lookup_ge_None in X. apply lookup_lt_Some in Y. lia.
    + reflexivity.
Qed.

Lemma product_length p1 p2 n : 0 <= n -> Z.of_nat (length (product p1 p2 n)) = n.
Proof. intros. unfold product. rewrite length_fmap, length_seq. lia. Qed.

Lemma at_product z p1 p2 n i :
  at_ (Polynom z (product p1 p2 n)) i =
  if (0 <=? i) && (i <? n) then conv (at_ p1) (at_ p2) i else z.
Proof.
  destruct (Z.leb_spec 0 i); simpl; [|now rewrite at_neg by lia].
  rewrite at_lookup by lia. simpl. unfold product. rewrite list_lookup_fmap.
  destruct (Z.ltb_spec i n).
  - rewrite lookup_seq_lt by lia. simpl. now rewrite Z2Nat.id by lia.
  - rewrite (lookup_ge_None_2 (seq _ _)) by (rewrite length_seq; lia). reflexivity.
Qed.

(** The coefficients of a well-formed polynomial, as a sequence: zero
    outside the stored range. *)
Lemma at_outside p i : wf p -> (i < 0 \/ deg p < i) -> at_ p i = r0.
Proof.
  intros W [Hi|Hi].
  - rewrite at_neg by lia. exact W.
  - rewrite deg_above by lia. exact W.
Qed.

(** [mul(pr, p1, p2, lr)] stores the first [lr + 1] coefficients of the
    product in [pr], whichever of the three references coincide. *)
Lemma mul_spec s (pr p1 p2 : nat) lr PR P1 P2 :
  s !! pr = Some PR -> s !! p1 = Some P1 -> s !! p2 = Some P2 ->
  wf P1 -> wf P2 ->
  runs (mul pr p1 p2 lr) s (fun _ s' =>
    s' = <[pr := Polynom (ZERO_COEFF P1)
                   (product P1 P2 ((if lr <? 0 then deg P1 + deg P2 else lr) + 1))]> s).
Proof.
  intros Er E1 E2 W1 W2. unfold mul.
  eapply runs_obj; [exact E1|]. eapply runs_obj; [exact E2|].
  set (l1 := deg P1). set (l2 := deg P2).
  set (lr' := if lr <? 0 then l1 + l2 else lr).
  assert (Hl1 : 0 <= l1) by apply deg_nonneg.
  assert (Hl2 : 0 <= l2) by apply deg_nonneg.
  assert (Hlr : 0 <= lr') by (unfold lr'; destruct (Z.ltb_spec lr 0); lia).
  clearbody lr'.
  assert (Lr := lookup_lt _ _ _ Er). assert (L1 := lookup_lt _ _ _ E1).
  assert (L2 := lookup_lt _ _ _ E2).
  apply runs_bind. eapply runs_resize_ref; [exact Er|lia|].
  intros PR' Hz Hs Ha.
  set (s1 := <[pr := PR']> s).
  (* the inputs as they are after the resize of the output *)
  assert (X1 : exists P1', s1 !! p1 = Some P1' /\ ZERO_COEFF P1' = ZERO_COEFF P1 /\
            (p1 = pr -> P1' = PR') /\ (p1 <> pr -> P1' = P1) /\
            (forall j, 0 <= j <= lr' -> at_ P1' j = at_ P1 j)).
  { unfold s1. destruct (decide (p1 = pr)) as [->|Hne].
    - exists PR'. rewrite list_lookup_insert_eq by lia.
      assert (PR = P1) by congruence. subst PR.
      repeat split; auto; try congruence. intros j Hj. rewrite Ha.
      destruct (Z.leb_spec 0 j), (Z.ltb_spec j (Z.min (lr' + 1) (size P1)));
        simpl; try lia; try reflexivity.
      rewrite at_ge by lia. reflexivity.
    - exists P1. rewrite list_lookup_insert_ne by auto. repeat split; auto; congruence. }
  assert (X2 : exists P2', s1 !! p2 = Some P2' /\
            (p2 = pr -> P2' = PR') /\ (p2 <> pr -> P2' = P2) /\
            (forall j, 0 <= j <= lr' -> at_ P2' j = at_ P2 j)).
  { unfold s1. destruct (decide (p2 = pr)) as [->|Hne].
    - exists PR'. rewrite list_lookup_insert_eq by lia.
      assert (PR = P2) by congruence. subst PR.
      repeat split; auto; try congruence. intros j Hj. rewrite Ha.
      destruct (Z.leb_spec 0 j), (Z.ltb_spec j (Z.min (lr' + 1) (size P2)));
        simpl; try lia; try reflexivity.
      rewrite at_ge by lia. rewrite W1, W2. reflexivity.
    - exists P2. rewrite list_lookup_insert_ne by auto. repeat split; auto; congruence. }
  destruct X1 as (P1' & E1' & Z1' & A1e & A1n & A1).
  destruct X2 as (P2' & E2' & A2e & A2n & A2).
  eapply runs_obj; [exact E1'|]. eapply runs_obj; [exact E2'|].
  assert (Er' : s1 !! pr = Some PR') by (unfold s1; now rewrite list_lookup_insert_eq by lia).
  assert (Hfin : forall h' lo hi,
            modifies (c <$> s1) h' pr lo hi ->
            (forall n, 0 <= n <= lr' -> rda h' pr n = conv (at_ P1) (at_ P2) n) ->
            zip_with (fun p l => Polynom (ZERO_COEFF p) l) s1 h' =
            <[pr := Polynom (ZERO_COEFF P1) (product P1 P2 (lr' + 1))]> s).
  { intros h' lo hi Hm HV.
    rewrite (raw_modifies s1 h' pr lo hi PR' (conv (at_ P1) (at_ P2)) Er' Hm)
      by (intros; apply HV; lia).
    unfold s1. rewrite list_insert_insert_eq. rewrite Hz, Hs. reflexivity. }
  destruct ((size P1' =? 0) || (size P2' =? 0)) eqn:Esz.
  - (* an empty input: the product is zero *)
    apply runs_raw. eapply runs_wand.
    { apply _zero_spec. unfold valid. cbn [blk off]. rewrite (blen_fmap s1 pr PR') by auto. lia. }
    intros [] h' [Hm Hv]. cbn [blk off] in *.
    apply (Hfin h' _ _ Hm). intros n Hn.
    replace (rda h' pr n) with (rd h' (Ptr pr 0) n) by reflexivity.
    rewrite Hv by lia. rewrite Z1', W1.
    symmetry. unfold conv. apply sumZ_zero. intros j Hj.
    apply orb_true_iff in Esz. destruct Esz as [Esz|Esz]; apply Z.eqb_eq in Esz.
    + assert (p1 <> pr) by (intros Heq; rewrite (A1e Heq) in Esz; lia).
      rewrite A1n in Esz by auto. rewrite (at_ge P1 j) by lia. rewrite W1. ring.
    + assert (p2 <> pr) by (intros Heq; rewrite (A2e Heq) in Esz; lia).
      rewrite A2n in Esz by auto. rewrite (at_ge P2 (n - j)) by lia. rewrite W2. ring.
  - apply orb_false_iff in Esz. destruct Esz as [Es1 Es2].
    apply Z.eqb_neq in Es1, Es2.
    pose proof (size_nonneg P1'). pose proof (size_nonneg P2').
    assert (V1 : Z.min l1 lr' < size P1').
    { destruct (decide (p1 = pr)) as [Heq|Hne].
      - rewrite (A1e Heq). lia.
      - rewrite (A1n Hne) in *. pose proof (deg_lt_size P1). unfold l1. lia. }
    assert (V2 : Z.min l2 lr' < size P2').
    { destruct (decide (p2 = pr)) as [Heq|Hne].
      - rewrite (A2e Heq). lia.
      - rewrite (A2n Hne) in *. pose proof (deg_lt_size P2). unfold l2. lia. }
    apply runs_raw. eapply runs_wand.
    { apply _mul_spec. unfold mul_pre, valid, alias_ok. cbn [blk off].
      rewrite (blen_fmap s1 pr PR'), (blen_fmap s1 p1 P1'), (blen_fmap s1 p2 P2') by auto.
      repeat split; try lia.
      - destruct (decide (pr = p1)) as [->|]; [now right|now left].
      - destruct (decide (pr = p2)) as [->|]; [now right|now left]. }
    intros [] h' [Hm Hv]. cbn [blk off] in *.
    apply (Hfin h' _ _ Hm). intros n Hn.
    replace (rda h' pr n) with (rd h' (Ptr pr 0) n) by reflexivity.
    rewrite Hv by lia.
    apply conv_ext; intros j Hj; unfold ser, trunc, rd; cbn [blk off];
      replace (0 + j) with j by lia.
    + destruct (Z.leb_spec 0 j), (Z.leb_spec j l1); simpl; try lia.
      * rewrite (rda_fmap s1 p1 P1') by (auto; lia). apply A1; lia.
      * symmetry. apply at_outside; [exact W1|]. right. unfold l1 in *. lia.
    + destruct (Z.leb_spec 0 j), (Z.leb_spec j l2); simpl; try lia.
      * rewrite (rda_fmap s1 p2 P2') by (auto; lia). apply A2; lia.
      * symmetry. apply at_outside; [exact W2|]. right. unfold l2 in *. lia.
Qed.

End Store.

Import Poly.

Section Pointwise.
Context {T : Type} `{CoeffLaws T}.
Add Ring coeff_ring_pw : coeff_ring.

Implicit Types (s : pstore T).

Lemma size_tabulate z (g : Z -> T) n : 0 <= n -> size (tabulate z g n) = n.
Proof. intros. unfold tabulate, size. simpl. rewrite length_fmap, length_seq. lia. Qed.

Lemma at_tabulate z (g : Z -> T) n i :
  at_ (tabulate z g n) i = if (0 <=? i) && (i <? n) then g i else z.
Proof.
  destruct (Z.leb_spec 0 i); simpl; [|now rewrite at_neg by lia].
  rewrite at_lookup by lia. unfold tabulate. simpl. rewrite list_lookup_fmap.
  destruct (Z.ltb_spec i n).
  - rewrite lookup_seq_lt by lia. simpl. now rewrite Z2Nat.id by lia.
  - rewrite (lookup_ge_None_2 (seq _ _)) by (rewrite length_seq; lia). reflexivity.
Qed.

Lemma product_tabulate z (p1 p2 : polynom T) n :
  Polynom z (product p1 p2 n) = tabulate z (conv (at_ p1) (at_ p2)) n.
Proof. reflexivity. Qed.

(** A polynomial is its contextual zero, its size and its coefficients. *)
Lemma polynom_ext (p : polynom T) z (g : Z -> T) n :
  ZERO_COEFF p = z -> size p = n -> (forall i, 0 <= i < n -> at_ p i = g i) ->
  p = tabulate z g n.
Proof.
  intros Hz Hs Ha. destruct p as [z' l]. simpl in *. subst z'.
  unfold tabulate. f_equal. apply block_determined; [exact Hs|].
  intros i Hi. rewrite <- Ha by lia. rewrite at_in by lia. reflexivity.
Qed.

(** The loop [for (i = 0; i <= lr; i++) pr[i] = g(i)], where the right-hand
    side may read [pr] itself at positions not yet written. *)
Lemma tabulate_loop s (pr : nat) PR lr (k : Z -> M (pstore T) unit) (g : Z -> T) :
  s !! pr = Some PR -> size PR = lr + 1 -> 0 <= lr ->
  (forall i PRi, 0 <= i <= lr -> ZERO_COEFF PRi = ZERO_COEFF PR ->
     size PRi = lr + 1 -> (forall j, i <= j -> at_ PRi j = at_ PR j) ->
     runs (k i) (<[pr := PRi]> s) (fun _ s' => s' = <[pr := pset PRi i (g i)]> s)) ->
  runs (for_up 0 lr k) s (fun _ s' =>
    s' = <[pr := tabulate (ZERO_COEFF PR) g (lr + 1)]> s).
Proof.
  intros E Hs Hlr Hk.
  eapply runs_wand.
  - apply (for_up_rule (fun i s' => exists PRi,
      s' = <[pr := PRi]> s /\ ZERO_COEFF PRi = ZERO_COEFF PR /\ size PRi = lr + 1 /\
      (forall j, 0 <= j < i -> at_ PRi j = g j) /\
      (forall j, i <= j -> at_ PRi j = at_ PR j))).
    + exists PR. split; [now rewrite list_insert_id|]. repeat split; auto. intros; lia.
    + intros i s' Hi (PRi & -> & Hz & Hsz & Hlo & Hhi).
      eapply runs_wand; [apply Hk; auto|].
      intros [] s'' ->. exists (pset PRi i (g i)). split; [reflexivity|].
      split; [exact Hz|]. split; [rewrite pset_size; lia|]. split.
      * intros j Hj. rewrite at_pset by lia. destruct (Z.eqb_spec j i); [congruence|].
        apply Hlo. lia.
      * intros j Hj. rewrite at_pset by lia. destruct (Z.eqb_spec j i); [lia|].
        apply Hhi. lia.
  - simpl. intros [] s' (PRi & -> & Hz & Hsz & Hlo & _). f_equal.
    apply polynom_ext; auto. intros; apply Hlo. lia.
Qed.

Lemma lookup_insert_obj s (r r' : nat) (X P : polynom T) :
  s !! r' = Some P -> (r < length s)%nat ->
  <[r := X]> s !! r' = Some (if decide (r' = r) then X else P).
Proof.
  intros E L. destruct (decide (r' = r)) as [->|Hne].
  - now rewrite list_lookup_insert_eq.
  - now rewrite list_lookup_insert_ne.
Qed.

(** [pr = op(p1, p2)] coefficient by coefficient, up to the larger degree. *)
Lemma binop_spec (op : T -> T -> T) s (pr p1 p2 : nat) PR P1 P2 :
  s !! pr = Some PR -> s !! p1 = Some P1 -> s !! p2 = Some P2 ->
  ZERO_COEFF P2 = ZERO_COEFF P1 ->
  let lr := Z.max (deg P1) (deg P2) in
  runs (P1 <- obj p1 ;; P2 <- obj p2 ;;
        let l1 := deg P1 in let l2 := deg P2 in
        let lr := Z.max l1 l2 in
        resize_ref pr (lr + 1) (ZERO_COEFF P1) ;;
        for_up 0 lr (fun i =>
          a <- at_ref p1 i ;; b <- at_ref p2 i ;; assign pr i (op a b))) s
    (fun _ s' => s' = <[pr := tabulate (ZERO_COEFF P1)
                              (fun i => op (at_ P1 i) (at_ P2 i)) (lr + 1)]> s).
Proof.
  intros Er E1 E2 Hzz lr.
  eapply runs_obj; [exact E1|]. eapply runs_obj; [exact E2|]. cbv zeta. fold lr.
  pose proof (deg_nonneg P1). pose proof (deg_nonneg P2).
  assert (Lr := lookup_lt _ _ _ Er).
  apply runs_bind. eapply runs_resize_ref; [exact Er|lia|].
  intros PR' Hz Hs Ha.
  eapply runs_wand.
  - apply (tabulate_loop _ pr PR' lr _ (fun i => op (at_ P1 i) (at_ P2 i)));
      [now rewrite list_lookup_insert_eq|exact Hs|lia|].
    intros i PRi Hi Hzi Hsi Hai. rewrite !list_insert_insert_eq.
    assert (R : forall (q : nat) Q, s !! q = Some Q -> ZERO_COEFF Q = ZERO_COEFF P1 ->
              (q = pr -> Q = PR) ->
              at_ (if decide (q = pr) then PRi else Q) i = at_ Q i).
    { intros q Q Eq Zq Hq. destruct (decide (q = pr)) as [Heq|]; [|reflexivity].
      rewrite (Hq Heq). rewrite Hai, Ha by lia.
      destruct (Z.leb_spec 0 i), (Z.ltb_spec i (Z.min (lr + 1) (size PR)));
        simpl; try lia; try reflexivity.
      rewrite at_ge by lia. rewrite <- (Hq Heq). auto. }
    apply runs_bind. eapply runs_at_ref; [apply lookup_insert_obj; eauto|].
    apply runs_bind. eapply runs_at_ref; [apply lookup_insert_obj; eauto|].
    eapply runs_assign; [now rewrite list_lookup_insert_eq|lia|].
    rewrite list_insert_insert_eq.
    rewrite (R p1 P1), (R p2 P2) by (auto; congruence). reflexivity.
  - simpl. intros [] s' ->. rewrite list_insert_insert_eq. now rewrite Hz.
Qed.

Lemma unop_spec (op : T -> T) s (pr p1 : nat) PR P1 :
  s !! pr = Some PR -> s !! p1 = Some P1 ->
  runs (P1 <- obj p1 ;;
        let lr := deg P1 in
        resize_ref pr (lr + 1) (ZERO_COEFF P1) ;;
        for_up 0 lr (fun i => a <- at_ref p1 i ;; assign pr i (op a))) s
    (fun _ s' => s' = <[pr := tabulate (ZERO_COEFF P1)
                              (fun i => op (at_ P1 i)) (deg P1 + 1)]> s).
Proof.
  intros Er E1.
  eapply runs_obj; [exact E1|]. cbv zeta.
  pose proof (deg_nonneg P1).
  assert (Lr := lookup_lt _ _ _ Er).
  apply runs_bind. eapply runs_resize_ref; [exact Er|lia|].
  intros PR' Hz Hs Ha.
  eapply runs_wand.
  - apply (tabulate_loop _ pr PR' (deg P1) _ (fun i => op (at_ P1 i)));
      [now rewrite list_lookup_insert_eq|exact Hs|lia|].
    intros i PRi Hi Hzi Hsi Hai. rewrite !list_insert_insert_eq.
    apply runs_bind. eapply runs_at_ref; [apply lookup_insert_obj; eauto|].
    eapply runs_assign; [now rewrite list_lookup_insert_eq|lia|].
    rewrite list_insert_insert_eq. do 3 f_equal.
    destruct (decide (p1 = pr)) as [Heq|]; [|reflexivity].
    assert (PR = P1) by congruence. subst PR.
    rewrite Hai, Ha by lia.
    destruct (Z.leb_spec 0 i), (Z.ltb_spec i (Z.min (deg P1 + 1) (size P1)));
      simpl; try lia; try reflexivity.
    rewrite at_ge by lia. reflexivity.
  - simpl. intros [] s' ->. rewrite list_insert_insert_eq. now rewrite Hz.
Qed.

Lemma add_spec s (pr p1 p2 : nat) PR P1 P2 :
  s !! pr = Some PR -> s !! p1 = Some P1 -> s !! p2 = Some P2 ->
  ZERO_COEFF P2 = ZERO_COEFF P1 ->
  runs (add pr p1 p2) s (fun _ s' =>
    s' = <[pr := tabulate (ZERO_COEFF P1) (fun i => at_ P1 i [+] at_ P2 i)
                          (Z.max (deg P1) (deg P2) + 1)]> s).
Proof. apply (binop_spec radd). Qed.

Lemma sub_spec s (pr p1 p2 : nat) PR P1 P2 :
  s !! pr = Some PR -> s !! p1 = Some P1 -> s !! p2 = Some P2 ->
  ZERO_COEFF P2 = ZERO_COEFF P1 ->
  runs (sub pr p1 p2) s (fun _ s' =>
    s' = <[pr := tabulate (ZERO_COEFF P1) (fun i => at_ P1 i [-] at_ P2 i)
                          (Z.max (deg P1) (deg P2) + 1)]> s).
Proof. apply (binop_spec rsub). Qed.

Lemma neg_spec s (pr p1 : nat) PR P1 :
  s !! pr = Some PR -> s !! p1 = Some P1 ->
  runs (neg pr p1) s (fun _ s' =>
    s' = <[pr := tabulate (ZERO_COEFF P1) (fun i => [~] at_ P1 i) (deg P1 + 1)]> s).
Proof. apply (unop_spec ropp). Qed.

Lemma mul_scalar_spec s (pr p1 : nat) v PR P1 :
  s !! pr = Some PR -> s !! p1 = Some P1 ->
  runs (mul_scalar pr p1 v) s (fun _ s' =>
    s' = <[pr := tabulate (ZERO_COEFF P1) (fun i => at_ P1 i [*] v) (deg P1 + 1)]> s).
Proof. apply (unop_spec (fun a => a [*] v)). Qed.

Lemma div_scalar_spec s (pr p1 : nat) v PR P1 :
  s !! pr = Some PR -> s !! p1 = Some P1 ->
  runs (div_scalar pr p1 v) s (fun _ s' =>
    s' = <[pr := tabulate (ZERO_COEFF P1) (fun i => at_ P1 i [/] v) (deg P1 + 1)]> s).
Proof. apply (unop_spec (fun a => a [/] v)). Qed.

(** ** Calls on local objects *)

Lemma call_runs s (m : M (pstore T) unit) (r : nat) X :
  (r < length s)%nat -> runs m s (fun _ s' => s' = <[r := X]> s) ->
  call s m r = Some X.
Proof.
  intros L (a & s' & E & ->). unfold call. rewrite E.
  now apply list_lookup_insert_eq.
Qed.

Lemma op_mul_spec (x rhs : polynom T) :
  wf x -> wf rhs ->
  op_mul x rhs = Some (tabulate (ZERO_COEFF x) (conv (at_ x) (at_ rhs))
                                (deg x + deg rhs + 1)).
Proof.
  intros Wx Wr. apply call_runs; [simpl; lia|].
  eapply runs_wand; [apply (mul_spec [x; rhs] 0 0 1 (-1) x x rhs); auto|].
  intros [] s' ->. reflexivity.
Qed.

Lemma op_add_spec (x rhs : polynom T) :
  ZERO_COEFF rhs = ZERO_COEFF x ->
  op_add x rhs = Some (tabulate (ZERO_COEFF x) (fun i => at_ x i [+] at_ rhs i)
                                (Z.max (deg x) (deg rhs) + 1)).
Proof.
  intros Hz. apply call_runs; [simpl; lia|].
  apply (add_spec [x; rhs] 0 0 1 x x rhs); auto.
Qed.

Lemma op_sub_spec (x rhs : polynom T) :
  ZERO_COEFF rhs = ZERO_COEFF x ->
  op_sub x rhs = Some (tabulate (ZERO_COEFF x) (fun i => at_ x i [-] at_ rhs i)
                                (Z.max (deg x) (deg rhs) + 1)).
Proof.
  intros Hz. apply call_runs; [simpl; lia|].
  apply (sub_spec [x; rhs] 0 0 1 x x rhs); auto.
Qed.

Lemma op_div_scalar_spec (x : polynom T) v :
  op_div_scalar x v =
  Some (tabulate (ZERO_COEFF x) (fun i => at_ x i [/] v) (deg x + 1)).
Proof.
  apply call_runs; [simpl; lia|].
  apply (div_scalar_spec [x] 0 0 v x x); auto.
Qed.

(** ** Comparison *)

Lemma cmp_loop_zero (p1 p2 : polynom T) (n : nat) :
  cmp_loop p1 p2 n (Z.of_nat n - 1) = 0 <->
  forall i, 0 <= i < Z.of_nat n -> at_ p1 i = at_ p2 i.
Proof.
  induction n as [|n IH].
  - simpl. split; [intros; lia|reflexivity].
  - cbn [cmp_loop]. replace (Z.of_nat (S n) - 1) with (Z.of_nat n) by lia.
    destruct (rlt (at_ p1 (Z.of_nat n)) (at_ p2 (Z.of_nat n))) eqn:E1.
    { split; [discriminate|]. intros E. rewrite E in E1 by lia.
      rewrite rlt_irrefl in E1. discriminate. }
    destruct (rlt (at_ p2 (Z.of_nat n)) (at_ p1 (Z.of_nat n))) eqn:E2.
    { split; [discriminate|]. intros E. rewrite E in E2 by lia.
      rewrite rlt_irrefl in E2. discriminate. }
    rewrite IH. split.
    + intros E i Hi. destruct (Z.eq_dec i (Z.of_nat n)) as [->|Hne].
      * now apply rlt_total.
      * apply E. lia.
    + intros E i Hi. apply E. lia.
Qed.

(** [operator ==] holds exactly when all coefficients agree. *)
Lemma eqb_spec (p1 p2 : polynom T) :
  wf p1 -> wf p2 ->
  (eqb p1 p2 = true <-> forall i, at_ p1 i = at_ p2 i).
Proof.
  intros W1 W2. unfold eqb, cmp. rewrite Z.eqb_eq.
  pose proof (deg_nonneg p1). pose proof (deg_nonneg p2).
  set (l := Z.max (deg p1) (deg p2)).
  pose proof (cmp_loop_zero p1 p2 (Z.to_nat (l + 1))) as E.
  replace (Z.of_nat (Z.to_nat (l + 1)) - 1) with l in E by lia.
  rewrite E. split.
  - intros Hi i. destruct (Z_lt_le_dec i 0); [|destruct (Z_le_gt_dec i l)].
    + now rewrite !at_outside by (auto; lia).
    + apply Hi. lia.
    + now rewrite !at_outside by (auto; lia).
  - intros Hi i _. apply Hi.
Qed.

End Pointwise.

Import Poly.

Section Newton.
Context {T : Type} `{CoeffLaws T}.
Add Ring coeff_ring_newton : coeff_ring.

Implicit Types (s : pstore T).

Lemma delta_pos i : i <> 0 -> delta i = r0.
Proof. intros. unfold delta. destruct (Z.eqb_spec i 0); [lia|reflexivity]. Qed.

Lemma delta_0 : delta 0 = r1.
Proof. reflexivity. Qed.

(** In the ring with [0 = 1] all elements are equal. *)
Lemma trivial_ring (a b : T) : r0 = r1 -> a = b.
Proof.
  intros E. transitivity (a [*] r0); [rewrite E; ring|].
  transitivity (b [*] r0); [ring|rewrite E; ring].
Qed.

(** One Newton round on coefficient sequences: from an inverse of [P] modulo
    [x^k] to one modulo [x^(m+1)], where [m + 1 <= 2k]. *)
Lemma newton_refine (P R e R' : Z -> T) k m :
  1 <= k -> m + 1 <= 2 * k ->
  (forall i, 0 <= i < k -> conv P R i = delta i) ->
  (forall i, k <= i -> R i = r0) ->
  (forall j, 0 <= j <= m - k -> e j = conv P R (j + k)) ->
  (forall j, R' j = if (k <=? j) && (j <=? m) then [~] conv e R (j - k) else R j) ->
  forall i, 0 <= i <= m -> conv P R' i = delta i.
Proof.
  intros Hk Hm Hinv Hz He HR' i Hi.
  set (u := conv e R).
  assert (E : forall j, R' j = ssub R (shift k (trunc (m - k) u)) j).
  { intros j. rewrite HR'. unfold ssub, shift, trunc.
    destruct (Z.leb_spec k j), (Z.leb_spec j m), (Z.ltb_spec j k),
      (Z.leb_spec 0 (j - k)), (Z.leb_spec (j - k) (m - k)); simpl; try lia; try ring.
    rewrite Hz by lia. unfold u. ring. }
  rewrite (conv_ext P P R' _ i) by (intros; auto).
  rewrite conv_sub_r, conv_shift_r by lia.
  destruct (Z_lt_le_dec i k).
  - rewrite (conv_neg _ _ (i - k)) by lia. rewrite Hinv by lia. ring.
  - rewrite conv_trunc_r by lia. unfold u.
    rewrite (conv_comm P (conv e R)), conv_assoc.
    rewrite (conv_ext e e (conv R P) delta (i - k)); [|reflexivity|].
    2:{ intros j Hj. rewrite conv_comm. apply Hinv. lia. }
    rewrite conv_delta_r by lia. rewrite He by lia.
    replace (i - k + k) with i by lia. rewrite delta_pos by lia. ring.
Qed.

Lemma newton_step_spec (p R Tt : polynom T) L l k :
  wf p -> wf Tt -> 1 <= l -> l < L * 2 -> 2 * (k - 1) <= l <= 2 * (k - 1) + 1 ->
  inv_upto p R k ->
  runs (newton_step p L l) [R; Tt] (fun _ s' =>
    exists R' T', s' = [R'; T'] /\ wf T' /\ inv_upto p R' (Z.min (L - 1) l + 1)).
Proof.
  intros Wp Wt Hl HlL Hk (WR & Rz & Rinv).
  unfold newton_step. rewrite Z.quot_div_nonneg by lia.
  replace (l / 2 + 1) with k by (Z.div_mod_to_equations; lia).
  set (m := Z.min (L - 1) l).
  assert (Hkm : 1 <= k <= m + 1) by lia.
  eapply runs_obj; [reflexivity|].
  apply runs_bind, runs_set_obj; [simpl; lia|]. cbn [list_insert insert].
  set (t0 := Polynom (ZERO_COEFF Tt) (take (Z.to_nat (Z.min (m + 1) (size p))) (c p))).
  assert (Wt0 : wf t0) by exact Wt.
  assert (At0 : forall j, at_ t0 j = trunc m (at_ p) j).
  { intros j. unfold trunc.
    destruct (Z.leb_spec 0 j); simpl; [|rewrite at_neg by lia; exact Wt].
    rewrite at_lookup by lia. unfold t0. cbn [c ZERO_COEFF].
    destruct (Z.leb_spec j m).
    - destruct (Z_lt_le_dec j (size p)).
      + rewrite lookup_take_lt by lia. rewrite at_lookup by lia.
        destruct (c p !! Z.to_nat j) eqn:E; [reflexivity|].
        apply lookup_ge_None in E. unfold size in *. lia.
      + rewrite lookup_take_ge by lia. rewrite at_ge by lia. simpl.
        now rewrite Wt, Wp.
    - rewrite lookup_take_ge by lia. exact Wt. }
  apply runs_bind. eapply runs_wand.
  { apply (mul_spec [R; t0] 1 1 0 (l + 1) t0 t0 R); auto. }
  intros [] s1 ->. cbn [list_insert insert].
  destruct (Z.ltb_spec (l + 1) 0); [lia|].
  set (t1 := Polynom (ZERO_COEFF t0) (product t0 R (l + 1 + 1))).
  eapply runs_obj; [reflexivity|].
  assert (St1 : size t1 = l + 2).
  { unfold t1, size. cbn [c]. rewrite product_length by lia. lia. }
  apply runs_bind. destruct (Z.ltb_spec (size t1) k); [lia|].
  apply runs_set_obj; [simpl; lia|]. cbn [list_insert insert].
  set (t2 := Polynom (ZERO_COEFF t1) (drop (Z.to_nat k) (c t1))).
  assert (Wt2 : wf t2) by exact Wt.
  assert (At2 : forall j, 0 <= j <= l + 1 - k ->
            at_ t2 j = conv (at_ p) (at_ R) (j + k) \/ m < j + k).
  { intros j Hj. rewrite at_lookup by lia. unfold t2. cbn [c ZERO_COEFF].
    rewrite lookup_drop. unfold t1 at 2. cbn [c]. unfold product.
    rewrite list_lookup_fmap, lookup_seq_lt by lia. simpl.
    destruct (Z_le_gt_dec (j + k) m); [left|right; lia].
    replace (Z.of_nat (Z.to_nat k + Z.to_nat j)) with (j + k) by lia.
    rewrite (conv_ext _ (trunc m (at_ p)) _ (at_ R) (j + k)) by (intros; auto).
    now rewrite conv_trunc_l by lia. }
  apply runs_bind. eapply runs_wand.
  { apply (mul_spec [R; t2] 1 1 0 (l - k) t2 t2 R); auto. }
  intros [] s2 ->. cbn [list_insert insert].
  destruct (Z.ltb_spec (l - k) 0); [lia|].
  set (t3 := Polynom (ZERO_COEFF t2) (product t2 R (l - k + 1))).
  assert (St3 : size t3 = l - k + 1).
  { unfold t3, size. cbn [c]. rewrite product_length by lia. lia. }
  assert (At3 : forall j, 0 <= j <= l - k -> at_ t3 j = conv (at_ t2) (at_ R) j).
  { intros j Hj. unfold t3. rewrite at_product.
    destruct (Z.leb_spec 0 j), (Z.ltb_spec j (l - k + 1)); simpl; try lia. reflexivity. }
  eapply runs_wand.
  - apply (for_down_rule (fun i s' => exists Ri,
      s' = [Ri; t3] /\ wf Ri /\
      forall j, at_ Ri j =
        if (i <? j) && (j <=? m) then [~] conv (at_ t2) (at_ R) (j - k) else at_ R j)).
    + exists R. split; [reflexivity|]. split; [exact WR|]. intros j.
      destruct (Z.ltb_spec m j), (Z.leb_spec j m); simpl; try lia; reflexivity.
    + intros i s' Hi (Ri & -> & WRi & ARi).
      apply runs_bind. eapply runs_subscript; [reflexivity|lia|].
      cbn [list_insert insert].
      replace (reserve t3 (i - k + 1)) with t3
        by (unfold reserve; destruct (Z.ltb_spec (size t3) (i - k + 1)); [lia|reflexivity]).
      eapply runs_assign; [reflexivity|lia|]. cbn [list_insert insert].
      exists (pset Ri i ([~] at_ t3 (i - k))). split; [reflexivity|].
      split; [exact WRi|]. intros j. rewrite at_pset by lia.
      destruct (Z.eqb_spec j i) as [->|Hne].
      * rewrite At3 by lia.
        destruct (Z.ltb_spec (i - 1) i), (Z.leb_spec i m); simpl; try lia. reflexivity.
      * rewrite ARi.
        destruct (Z.ltb_spec i j), (Z.ltb_spec (i - 1) j), (Z.leb_spec j m);
          simpl; try lia; reflexivity.
  - simpl. intros [] s' (R' & -> & WR' & AR').
    replace (Z.min m (k - 1)) with (k - 1) in AR' by lia.
    exists R', t3. split; [reflexivity|]. split; [exact Wt|].
    split; [exact WR'|]. split.
    + intros i Hi. rewrite AR'.
      destruct (Z.ltb_spec (k - 1) i), (Z.leb_spec i m); simpl; try lia; apply Rz; lia.
    + intros i Hi.
      apply (newton_refine (at_ p) (at_ R) (at_ t2) (at_ R') k m); auto; try lia.
      * intros j Hj. destruct (At2 j) as [E|E]; [lia|exact E|lia].
      * intros j. rewrite AR'.
        destruct (Z.ltb_spec (k - 1) j), (Z.leb_spec k j), (Z.leb_spec j m);
          simpl; try lia; reflexivity.
Qed.

Lemma newton_loop_spec (p : polynom T) L (fuel : nat) : forall l k R Tt,
  wf p -> wf Tt -> 1 <= l -> 2 * (k - 1) <= l <= 2 * (k - 1) + 1 ->
  Z.max 0 (2 * L - l) < Z.of_nat fuel ->
  inv_upto p R (Z.min L k) ->
  runs (newton_loop fuel p L l) [R; Tt] (fun _ s' =>
    exists R' T', s' = [R'; T'] /\ inv_upto p R' L).
Proof.
  induction fuel as [|fuel IH]; intros l k R Tt Wp Wt Hl Hk Hfuel Hinv; [lia|].
  cbn [newton_loop]. destruct (Z.ltb_spec l (L * 2)).
  - apply runs_bind. eapply runs_wand.
    { apply (newton_step_spec p R Tt L l k); auto.
      now replace (Z.min L k) with k in Hinv by lia. }
    intros [] s' (R' & T' & -> & WT' & Hinv').
    apply (IH (l * 2) (l + 1)); auto; try lia.
    now replace (Z.min L (l + 1)) with (Z.min (L - 1) l + 1) by lia.
  - apply runs_ret. exists R, Tt. split; [reflexivity|].
    now replace (Z.min L k) with L in Hinv by lia.
Qed.

Lemma at_cons0 (p : polynom T) c0 : c p !! 0%nat = Some c0 -> at_ p 0 = c0.
Proof. intros E. rewrite at_lookup by lia. change (Z.to_nat 0) with 0%nat. now rewrite E. Qed.

Lemma at_single z (x : T) i : at_ (Polynom z [x]) i = if i =? 0 then x else z.
Proof.
  destruct (Z_lt_le_dec i 0); [rewrite at_neg by lia; destruct (Z.eqb_spec i 0); [lia|reflexivity]|].
  rewrite at_lookup by lia. simpl. destruct (Z.eqb_spec i 0) as [->|Hne]; [reflexivity|].
  destruct (Z.to_nat i) eqn:E; [lia|reflexivity].
Qed.

Lemma newton_spec (p : polynom T) L :
  wf p -> c p !! 0%nat = Some r1 -> 1 <= L ->
  exists R, newton p L = Some R /\ inv_upto p R L.
Proof.
  intros Wp E0 HL. unfold newton.
  destruct (newton_loop_spec p L (Z.to_nat (2 * L) + 1) 1 1
              (of_list [id_coeff p]) default_polynom) as ([] & s' & E & R' & T' & -> & Hinv);
    auto; try lia; try reflexivity.
  - replace (Z.min L 1) with 1 by lia. split; [reflexivity|]. split.
    + intros i Hi. unfold of_list. rewrite at_single.
      destruct (Z.eqb_spec i 0); [lia|reflexivity].
    + intros i Hi. assert (i = 0) by lia. subst i.
      unfold conv. rewrite sumZ_one. replace (0 - 0) with 0 by lia.
      rewrite (at_cons0 p r1 E0). unfold of_list. rewrite at_single. simpl.
      unfold id_coeff, identityOf. rewrite delta_0. ring.
  - exists R'. split; [|exact Hinv]. unfold call. rewrite E. reflexivity.
Qed.

Lemma inverse_fuel_S (fuel : nat) (p : polynom T) L :
  inverse_fuel (S fuel) p L =
  match c p !! 0%nat with
  | None => None
  | Some c0 =>
      if req c0 (ZERO_COEFF p) then Some (of_list [ZERO_COEFF p])
      else if negb (req c0 (id_coeff p)) then
        match op_div_scalar p c0 with
        | Some q =>
            match inverse_fuel fuel q L with
            | Some r => op_div_scalar r c0
            | None => None
            end
        | None => None
        end
      else newton p L
  end.
Proof. reflexivity. Qed.

Lemma inverse_one (p : polynom T) L (n : nat) :
  wf p -> c p !! 0%nat = Some r1 -> 1 <= L ->
  exists R, inverse_fuel (S n) p L = Some R /\ wf R /\
    forall i, 0 <= i < L -> conv (at_ p) (at_ R) i = delta i.
Proof.
  intros Wp E0 HL. rewrite inverse_fuel_S, E0.
  destruct (req r1 (ZERO_COEFF p)) eqn:Ez.
  - apply req_true in Ez. rewrite Wp in Ez.
    eexists; split; [reflexivity|]. split; [reflexivity|].
    intros; now apply trivial_ring.
  - unfold id_coeff, identityOf. rewrite req_refl. simpl.
    destruct (newton_spec p L Wp E0 HL) as (R & E & WR & _ & HR). eauto.
Qed.

(** [inverse(L)] of a polynomial whose constant term is a unit. *)
Lemma inverse_unit (p : polynom T) L c0 d (n : nat) :
  wf p -> c p !! 0%nat = Some c0 -> d [*] c0 = r1 -> 1 <= L ->
  exists R, inverse_fuel (S (S n)) p L = Some R /\ wf R /\
    forall i, 0 <= i < L -> conv (at_ p) (at_ R) i = delta i.
Proof.
  intros Wp E0 Hd HL. rewrite inverse_fuel_S, E0.
  destruct (req c0 (ZERO_COEFF p)) eqn:Ez.
  { apply req_true in Ez. rewrite Wp in Ez. subst c0.
    assert (r0 = r1) by (rewrite <- Hd; ring).
    eexists; split; [reflexivity|]. split; [reflexivity|].
    intros; now apply trivial_ring. }
  destruct (req c0 (id_coeff p)) eqn:E1; cbn [negb].
  { apply req_true in E1. unfold id_coeff, identityOf in E1. subst c0.
    destruct (newton_spec p L Wp E0 HL) as (R & E & WR & _ & HR). eauto. }
  rewrite op_div_scalar_spec.
  set (q := tabulate (ZERO_COEFF p) (fun i => at_ p i [/] c0) (deg p + 1)).
  pose proof (deg_nonneg p) as Hdeg.
  assert (Aq : forall i, at_ q i = sscal d (at_ p) i).
  { intros i. unfold q, sscal. rewrite at_tabulate.
    destruct (Z.leb_spec 0 i), (Z.ltb_spec i (deg p + 1)); simpl.
    - now apply rdiv_unit.
    - rewrite Wp, at_outside by (auto; lia). ring.
    - rewrite Wp, at_outside by (auto; lia). ring.
    - rewrite Wp, at_outside by (auto; lia). ring. }
  assert (Eq0 : c q !! 0%nat = Some r1).
  { unfold q, tabulate. cbn [c]. rewrite list_lookup_fmap, lookup_seq_lt by lia.
    simpl. change (Z.of_nat 0) with 0. rewrite (at_cons0 p c0 E0). rewrite (rdiv_unit c0 c0 d Hd).
    f_equal. rewrite <- Hd. ring. }
  destruct (inverse_one q L n Wp Eq0 HL) as (R' & -> & WR' & HR').
  rewrite op_div_scalar_spec. eexists; split; [reflexivity|]. split; [exact WR'|].
  intros i Hi.
  rewrite (conv_ext _ (at_ p) _ (sscal d (at_ R')) i); [|reflexivity|].
  - rewrite conv_scal_r, <- (conv_scal_l d).
    rewrite <- HR' by lia. apply conv_ext; intros; [symmetry; apply Aq|reflexivity].
  - intros j Hj. unfold sscal. rewrite at_tabulate.
    pose proof (deg_nonneg R').
    destruct (Z.leb_spec 0 j), (Z.ltb_spec j (deg R' + 1)); simpl; try lia.
    + now apply rdiv_unit.
    + rewrite WR', at_outside by (auto; lia). ring.
Qed.

End Newton.

Import Poly.

Section LongDivision.
Context {T : Type} `{CoeffLaws T}.
Add Ring coeff_ring_ldiv : coeff_ring.

Implicit Types (s : pstore T).

Lemma lowest_loop_spec (p : polynom T) (n : nat) : forall i0,
  let x := lowest_loop p n i0 in
  (i0 <= x < i0 + Z.of_nat n /\ vget (c p) x <> ZERO_COEFF p /\
   forall j, i0 <= j < x -> vget (c p) j = ZERO_COEFF p) \/
  (x = 0 /\ forall j, i0 <= j < i0 + Z.of_nat n -> vget (c p) j = ZERO_COEFF p).
Proof.
  induction n as [|n IH]; intros i0; cbn [lowest_loop].
  - right. split; [reflexivity|]. intros; lia.
  - destruct (req (vget (c p) i0) (ZERO_COEFF p)) eqn:E; cbn [negb].
    + apply req_true in E. destruct (IH (i0 + 1)) as [(R & Hnz & Hz)|(R & Hz)].
      * left. split; [lia|]. split; [exact Hnz|]. intros j Hj.
        destruct (Z.eq_dec j i0) as [->|]; [exact E|apply Hz; lia].
      * right. split; [exact R|]. intros j Hj.
        destruct (Z.eq_dec j i0) as [->|]; [exact E|apply Hz; lia].
    + apply req_false in E. left. split; [lia|]. split; [exact E|]. intros; lia.
Qed.

(** [is_power()]: the polynomial is [x^deg]. *)
Lemma is_power_spec (p : polynom T) :
  wf p -> is_power p = true ->
  forall i, at_ p i = if i =? deg p then r1 else r0.
Proof.
  intros W Hp i. unfold is_power in Hp. apply andb_true_iff in Hp.
  destruct Hp as [Hl Hc]. apply Z.eqb_eq in Hl. apply req_true in Hc.
  unfold leading_coeff, id_coeff, identityOf in Hc.
  destruct (Z.eqb_spec i (deg p)) as [->|Hne]; [exact Hc|].
  pose proof (deg_nonneg p) as Hd.
  destruct (Z_lt_le_dec i 0); [now apply at_outside; auto|].
  destruct (Z_lt_le_dec (deg p) i); [now apply at_outside; auto|].
  assert (Hi : 0 <= i < deg p) by lia.
  pose proof (deg_bound p) as Hb.
  rewrite at_in by lia. rewrite <- W.
  destruct (lowest_loop_spec p (Z.to_nat (size p)) 0) as [(R & Hnz & Hz)|(R & Hz)].
  - apply Hz. fold (lowest p). lia.
  - apply Hz. lia.
Qed.

Lemma ld_step (A B : Z -> T) l1 l2 i d (X X' : polynom T) :
  l2 <= i <= l1 -> 0 <= l2 ->
  (forall j, (j < 0 \/ l2 < j) -> B j = r0) ->
  d [*] B l2 = r1 ->
  ld_inv A B l1 l2 i X -> wf X' ->
  (forall n, at_ X' n =
     if n =? i then at_ X i [*] d
     else if (i - l2 <=? n) && (n <? i)
          then at_ X n [-] (at_ X i [*] d) [*] B (l2 - (i - n))
          else at_ X n) ->
  ld_inv A B l1 l2 (i - 1) X'.
Proof.
  intros Hi Hl2 HB Hd (WX & Xz & Xinv) WX' HX'.
  split; [exact WX'|]. split.
  { intros n Hn. rewrite HX'. destruct (Z.eqb_spec n i); [lia|].
    destruct (Z.leb_spec (i - l2) n), (Z.ltb_spec n i); simpl; try lia; apply Xz; lia. }
  intros n. rewrite Xinv.
  replace (i - 1 + 1) with i by lia.
  rewrite (sumZ_first i l1) by lia.
  rewrite (sumZ_ext (i + 1) l1 (fun m => at_ X' m [*] B (n - m + l2))
             (fun m => at_ X m [*] B (n - m + l2))).
  2:{ intros m Hm. rewrite HX'. destruct (Z.eqb_spec m i); [lia|].
      destruct (Z.leb_spec (i - l2) m), (Z.ltb_spec m i); simpl; try lia; reflexivity. }
  rewrite (HX' i), Z.eqb_refl. rewrite (HX' n).
  destruct (Z.eqb_spec n i) as [->|Hne].
  - destruct (Z.leb_spec i i), (Z.leb_spec i (i - 1)); try lia.
    replace (i - i + l2) with l2 by lia.
    transitivity (sumZ (i + 1) l1 (fun m => at_ X m [*] B (i - m + l2))
                  [+] at_ X i [*] (d [*] B l2)); [rewrite Hd; ring|ring].
  - destruct (Z.leb_spec n i), (Z.leb_spec n (i - 1)), (Z.leb_spec (i - l2) n),
      (Z.ltb_spec n i); simpl; try lia.
    + replace (l2 - (i - n)) with (n - i + l2) by lia. ring.
    + rewrite (HB (n - i + l2)) by lia. ring.
    + rewrite (HB (n - i + l2)) by lia. ring.
Qed.

Lemma reserve_noop_at (X : polynom T) sz n : at_ (reserve X sz) n = at_ X n.
Proof. apply at_reserve. Qed.

Lemma wf_pset (X : polynom T) i v : wf X -> wf (pset X i v).
Proof. intros W. exact W. Qed.

Lemma wf_reserve (X : polynom T) sz : wf X -> wf (reserve X sz).
Proof. intros W. unfold wf. now rewrite reserve_zero. Qed.

Lemma wf_pset_reserve (X : polynom T) sz i v : wf X -> wf (pset (reserve X sz) i v).
Proof. intros W. now apply wf_pset, wf_reserve. Qed.

(** When the dividend is shorter than the divisor, both division engines
    only copy it. *)
Lemma quot_rem_long_lt s (pr p1 p2 : nat) PR P1 P2 :
  s !! pr = Some PR -> s !! p1 = Some P1 -> s !! p2 = Some P2 ->
  deg P1 < deg P2 ->
  runs (quot_rem_long pr p1 p2) s (fun _ s' => s' = <[pr := P1]> s).
Proof.
  intros Er E1 E2 Hlt. unfold quot_rem_long.
  eapply runs_obj; [exact E1|]. eapply runs_obj; [exact E2|].
  assert (Lr := lookup_lt _ _ _ Er).
  apply runs_bind, runs_set_obj; [exact Lr|].
  eapply runs_obj; [apply lookup_insert_obj; eauto|].
  destruct (Z.ltb_spec (deg P1 - deg P2) 0); [|lia]. simpl.
  now apply runs_ret.
Qed.

Lemma quot_rem_hensel_lt s (pr p1 p2 : nat) PR P1 P2 :
  s !! pr = Some PR -> s !! p1 = Some P1 -> s !! p2 = Some P2 ->
  deg P1 < deg P2 ->
  runs (quot_rem_hensel pr p1 p2) s (fun _ s' => s' = <[pr := P1]> s).
Proof.
  intros Er E1 E2 Hlt. unfold quot_rem_hensel.
  eapply runs_obj; [exact E1|]. eapply runs_obj; [exact E2|].
  assert (Lr := lookup_lt _ _ _ Er).
  apply runs_bind, runs_set_obj; [exact Lr|].
  eapply runs_obj; [apply lookup_insert_obj; eauto|].
  destruct (Z.ltb_spec (deg P1 - deg P2) 0); [|lia]. simpl.
  now apply runs_ret.
Qed.

(** When the divisor is a power of [x], the dividend already is the
    combined buffer. *)
Lemma qr_buffer_power (P1 P2 : polynom T) :
  wf P1 -> wf P2 -> deg P2 <= deg P1 -> is_power P2 = true ->
  qr_buffer P1 P2 P1.
Proof.
  intros W1 W2 Hle Hp. pose proof (is_power_spec P2 W2 Hp) as HB.
  pose proof (deg_nonneg P2) as Hd2.
  split; [exact W1|]. split; [intros; apply at_outside; auto|].
  intros n.
  destruct (Z_lt_le_dec n (deg P2)) as [Hn|Hn]; [|destruct (Z_le_gt_dec n (deg P1))].
  - rewrite sumZ_zero.
    2:{ intros j Hj. rewrite HB. destruct (Z.eqb_spec (n - j) (deg P2)); [lia|ring]. }
    destruct (Z.leb_spec 0 n), (Z.ltb_spec n (deg P2)); simpl; try lia; [ring|].
    rewrite at_outside by (auto; lia). ring.
  - rewrite (sumZ_single 0 (deg P1 - deg P2) (n - deg P2)); [|lia|].
    2:{ intros j Hj Hne. rewrite HB. destruct (Z.eqb_spec (n - j) (deg P2)); [lia|ring]. }
    rewrite HB. replace (n - (n - deg P2)) with (deg P2) by lia. rewrite Z.eqb_refl.
    replace (n - deg P2 + deg P2) with n by lia.
    destruct (Z.leb_spec 0 n), (Z.ltb_spec n (deg P2)); simpl; try lia; ring.
  - rewrite sumZ_zero.
    2:{ intros j Hj. rewrite HB. destruct (Z.eqb_spec (n - j) (deg P2)); [lia|ring]. }
    destruct (Z.leb_spec 0 n), (Z.ltb_spec n (deg P2)); simpl; try lia.
    rewrite at_outside by (auto; lia). ring.
Qed.

Lemma ld_inv_final (P1 P2 X : polynom T) :
  0 <= deg P2 <= deg P1 ->
  ld_inv (at_ P1) (at_ P2) (deg P1) (deg P2) (deg P2 - 1) X ->
  qr_buffer P1 P2 X.
Proof.
  intros Hd (WX & Xz & Xinv). split; [exact WX|]. split; [exact Xz|].
  intros n. rewrite Xinv. replace (deg P2 - 1 + 1) with (deg P2) by lia.
  rewrite (sumZ_shift (- deg P2) (deg P2) (deg P1)).
  replace (deg P2 + - deg P2) with 0 by lia.
  replace (deg P1 + - deg P2) with (deg P1 - deg P2) by lia.
  f_equal.
  - apply sumZ_ext. intros j Hj.
    replace (j - - deg P2) with (j + deg P2) by lia.
    replace (n - (j + deg P2) + deg P2) with (n - j) by lia. reflexivity.
  - destruct (Z.leb_spec n (deg P2 - 1)), (Z.leb_spec 0 n), (Z.ltb_spec n (deg P2));
      simpl; try lia; try reflexivity.
    rewrite at_neg by lia. exact WX.
Qed.

Lemma quot_rem_long_spec s (pr p1 p2 : nat) PR P1 P2 d :
  s !! pr = Some PR -> s !! p1 = Some P1 -> s !! p2 = Some P2 ->
  pr <> p2 -> wf P1 -> wf P2 -> deg P2 <= deg P1 ->
  d [*] at_ P2 (deg P2) = r1 ->
  runs (quot_rem_long pr p1 p2) s (fun _ s' =>
    exists X, s' = <[pr := X]> s /\ qr_buffer P1 P2 X).
Proof.
  intros Er E1 E2 Hne W1 W2 Hle Hd. unfold quot_rem_long.
  eapply runs_obj; [exact E1|]. eapply runs_obj; [exact E2|].
  assert (Lr := lookup_lt _ _ _ Er).
  pose proof (deg_nonneg P2) as Hd2.
  set (l1 := deg P1) in *. set (l2 := deg P2) in *.
  apply runs_bind, runs_set_obj; [exact Lr|].
  eapply runs_obj; [lookup_obj|].
  destruct (Z.ltb_spec (l1 - l2) 0); [lia|]. cbn [orb].
  destruct (is_power P2) eqn:Hp.
  { apply runs_ret. exists P1. split; [reflexivity|]. now apply qr_buffer_power. }
  assert (HB : forall j, j < 0 \/ l2 < j -> at_ P2 j = r0).
  { intros j Hj. apply at_outside; auto. }
  eapply runs_wand.
  - apply (for_down_rule (fun i s' => exists X,
      s' = <[pr := X]> s /\ ld_inv (at_ P1) (at_ P2) l1 l2 i X)).
    + exists P1. split; [reflexivity|]. split; [exact W1|].
      split; [intros; apply at_outside; auto|].
      intros n. rewrite sumZ_empty by lia.
      destruct (Z.leb_spec n l1); [ring|]. rewrite at_outside by (auto; lia). ring.
    + intros i s' Hi (X & -> & HX).
      assert (WX := proj1 HX).
      apply runs_bind. eapply runs_at_ref; [lookup_obj|].
      apply runs_bind. eapply runs_subscript; [lookup_obj|lia|].
      rewrite list_insert_insert_eq.
      rewrite (rdiv_unit (at_ X i) (at_ P2 l2) d Hd).
      set (sq := at_ X i [*] d).
      apply runs_bind. eapply runs_assign; [lookup_obj|lia|].
      rewrite list_insert_insert_eq.
      set (X0 := pset (reserve X (i + 1)) i sq).
      assert (AX0 : forall n, at_ X0 n = if n =? i then sq else at_ X n).
      { intros n. unfold X0. rewrite at_pset by lia. now rewrite at_reserve. }
      assert (WX0 : wf X0) by now apply wf_pset_reserve.
      assert (Ez : exists P1', <[pr := X0]> s !! p1 = Some P1' /\ ZERO_COEFF P1' = r0).
      { destruct (decide (p1 = pr)) as [->|Hn1].
        - exists X0. split; [lookup_obj|exact WX0].
        - exists P1. split; [lookup_obj|exact W1]. }
      destruct Ez as (P1' & E1' & Z1').
      eapply runs_obj; [exact E1'|]. rewrite Z1'.
      destruct (req sq r0) eqn:Esq.
      * apply req_true in Esq. apply runs_ret. exists X0. split; [reflexivity|].
        apply (ld_step (at_ P1) (at_ P2) l1 l2 i d X X0); auto; try lia.
        intros n. rewrite AX0. fold sq. rewrite Esq.
        destruct (Z.eqb_spec n i); [reflexivity|].
        destruct ((i - l2 <=? n) && (n <? i)); [ring|reflexivity].
      * eapply runs_wand.
        -- apply (for_up_rule (fun j s'' => exists Y,
             s'' = <[pr := Y]> s /\ wf Y /\
             forall n, at_ Y n =
               if n =? i then sq
               else if (i - j <? n) && (n <? i)
                    then at_ X n [-] sq [*] at_ P2 (l2 - (i - n))
                    else at_ X n)).
           ++ exists X0. split; [reflexivity|]. split; [exact WX0|].
              intros n. rewrite AX0. destruct (Z.eqb_spec n i); [reflexivity|].
              destruct (Z.ltb_spec (i - 1) n), (Z.ltb_spec n i); simpl; try lia; reflexivity.
           ++ intros j s'' Hj (Y & -> & WY & AY).
              apply runs_bind. eapply runs_subscript; [lookup_obj|lia|].
              rewrite list_insert_insert_eq.
              apply runs_bind. eapply runs_at_ref; [lookup_obj|].
              eapply runs_assign; [lookup_obj|lia|].
              rewrite list_insert_insert_eq.
              eexists. split; [reflexivity|]. split; [now apply wf_pset_reserve|].
              intros n. rewrite at_pset by lia. rewrite at_reserve.
              destruct (Z.eqb_spec n (i - j)) as [->|Hn].
              ** rewrite AY. destruct (Z.eqb_spec (i - j) i); [lia|].
                 destruct (Z.ltb_spec (i - j) (i - j)), (Z.ltb_spec (i - (j + 1)) (i - j)),
                   (Z.ltb_spec (i - j) i); simpl; try lia.
                 replace (l2 - (i - (i - j))) with (l2 - j) by lia. reflexivity.
              ** rewrite AY. destruct (Z.eqb_spec n i); [reflexivity|].
                 destruct (Z.ltb_spec (i - j) n), (Z.ltb_spec (i - (j + 1)) n),
                   (Z.ltb_spec n i); simpl; try lia; reflexivity.
        -- simpl. intros [] s'' (Y & -> & WY & AY).
           replace (Z.max 1 (l2 + 1)) with (l2 + 1) in AY by lia.
           exists Y. split; [reflexivity|].
           apply (ld_step (at_ P1) (at_ P2) l1 l2 i d X Y); auto; try lia.
           intros n. rewrite AY. fold sq.
           destruct (Z.eqb_spec n i); [reflexivity|].
           destruct (Z.ltb_spec (i - (l2 + 1)) n), (Z.leb_spec (i - l2) n), (Z.ltb_spec n i);
             simpl; try lia; reflexivity.
  - simpl. intros [] s' (X & -> & HX).
    replace (Z.min l1 (l2 - 1)) with (l2 - 1) in HX by lia.
    exists X. split; [reflexivity|]. apply ld_inv_final; [unfold l1, l2 in *; lia|exact HX].
Qed.

End LongDivision.

Import Poly.

Section Hensel.
Context {T : Type} `{CoeffLaws T}.
Add Ring coeff_ring_hensel : coeff_ring.

Implicit Types (s : pstore T).

Lemma sumZ_extend L U lo hi (f : Z -> T) :
  L <= lo -> hi <= U ->
  sumZ lo hi f = sumZ L U (fun j => if (lo <=? j) && (j <=? hi) then f j else r0).
Proof.
  intros HL HU. destruct (Z_lt_le_dec hi lo).
  - rewrite sumZ_empty by lia. symmetry. apply sumZ_zero. intros j Hj.
    destruct (Z.leb_spec lo j), (Z.leb_spec j hi); simpl; try lia; reflexivity.
  - rewrite (sumZ_split L (lo - 1) U) by lia.
    replace (lo - 1 + 1) with lo by lia.
    rewrite (sumZ_split lo hi U) by lia.
    rewrite (sumZ_zero L), (sumZ_zero (hi + 1)).
    + rewrite (sumZ_ext lo hi f (fun j => if (lo <=? j) && (j <=? hi) then f j else r0));
        [ring|]. intros j Hj.
      destruct (Z.leb_spec lo j), (Z.leb_spec j hi); simpl; try lia; reflexivity.
    + intros j Hj. destruct (Z.leb_spec lo j), (Z.leb_spec j hi); simpl; try lia; reflexivity.
    + intros j Hj. destruct (Z.leb_spec lo j), (Z.leb_spec j hi); simpl; try lia; reflexivity.
Qed.

(** Two ranges outside of whose intersection [f] vanishes give the same sum. *)
Lemma sumZ_restrict lo hi lo' hi' (f : Z -> T) :
  (forall j, lo <= j <= hi -> ~ (lo' <= j <= hi') -> f j = r0) ->
  (forall j, lo' <= j <= hi' -> ~ (lo <= j <= hi) -> f j = r0) ->
  sumZ lo hi f = sumZ lo' hi' f.
Proof.
  intros H1 H2.
  rewrite (sumZ_extend (Z.min lo lo') (Z.max hi hi') lo hi) by lia.
  rewrite (sumZ_extend (Z.min lo lo') (Z.max hi hi') lo' hi') by lia.
  apply sumZ_ext. intros j Hj.
  destruct (Z.leb_spec lo j), (Z.leb_spec j hi), (Z.leb_spec lo' j), (Z.leb_spec j hi');
    simpl; try reflexivity; first [apply H1; lia | symmetry; apply H2; lia].
Qed.

(** Division by reversal: if [IV] inverts the reversed divisor modulo
    [x^(lq+1)] and [q1] is the reversal of [IV * rev(A)] truncated there, then
    [q1 * B] agrees with [A] from [l2] up. *)
Lemma hensel_exact (A B IV q1 : Z -> T) l1 l2 :
  0 <= l2 <= l1 ->
  (forall j, j < 0 \/ l2 < j -> B j = r0) ->
  (forall i, 0 <= i <= l1 - l2 -> conv (fun a => B (l2 - a)) IV i = delta i) ->
  (forall j, 0 <= j <= l1 - l2 ->
     q1 j = conv IV (fun a => A (l1 - a)) (l1 - l2 - j)) ->
  (forall j, j < 0 \/ l1 - l2 < j -> q1 j = r0) ->
  forall n, l2 <= n <= l1 -> conv q1 B n = A n.
Proof.
  intros Hl HB Hinv Hq Hqz n Hn.
  set (lq := l1 - l2) in *. set (i' := l1 - n).
  set (rev1 := fun a => A (l1 - a)). set (rev2 := fun a => B (l2 - a)).
  transitivity (conv rev2 (conv IV rev1) i').
  - unfold conv at 1.
    rewrite (sumZ_restrict 0 n (n - l2) lq).
    2:{ intros j Hj Hout. destruct (Z_lt_le_dec j (n - l2)).
        - rewrite (HB (n - j)) by lia. ring.
        - rewrite (Hqz j) by lia. ring. }
    2:{ intros j Hj Hout. rewrite (HB (n - j)) by lia. ring. }
    rewrite (sumZ_shift (- (n - l2)) (n - l2) lq).
    replace (n - l2 + - (n - l2)) with 0 by lia.
    replace (lq + - (n - l2)) with i' by (unfold lq, i'; lia).
    unfold conv at 1. apply sumZ_ext. intros a Ha.
    rewrite Hq by (unfold i', lq in *; lia). unfold rev2, rev1.
    replace (n - (a - - (n - l2))) with (l2 - a) by lia.
    replace (lq - (a - - (n - l2))) with (i' - a) by (unfold lq, i'; lia).
    ring.
  - rewrite <- conv_assoc.
    rewrite (conv_ext (conv rev2 IV) delta rev1 rev1 i'); [|
      intros j Hj; apply Hinv; unfold i', lq in *; lia|reflexivity].
    rewrite conv_delta_l by (unfold i'; lia). unfold rev1, i'. f_equal. lia.
Qed.

Lemma sum_to_conv (q B : Z -> T) lq n :
  (forall j, j < 0 \/ lq < j -> q j = r0) -> (forall j, j < 0 -> B j = r0) ->
  sumZ 0 lq (fun j => q j [*] B (n - j)) = conv q B n.
Proof.
  intros Hq HB. unfold conv. apply sumZ_restrict.
  - intros j Hj Hout. rewrite (HB (n - j)) by lia. ring.
  - intros j Hj Hout. rewrite (Hq j) by lia. ring.
Qed.

Lemma wf_trunc (a : polynom T) j : wf a -> at_ a j = trunc (deg a) (at_ a) j.
Proof.
  intros W. unfold trunc.
  destruct (Z.leb_spec 0 j), (Z.leb_spec j (deg a)); simpl; try reflexivity;
    apply at_outside; auto; lia.
Qed.

Lemma conv_beyond (a b : polynom T) n :
  wf a -> wf b -> deg a + deg b < n -> conv (at_ a) (at_ b) n = r0.
Proof.
  intros Wa Wb Hn.
  rewrite (conv_ext _ (trunc (deg a) (at_ a)) _ (trunc (deg b) (at_ b)) n)
    by (intros; now apply wf_trunc).
  now apply conv_high.
Qed.

(** The full product, read at any index. *)
Lemma at_full_product (a b : polynom T) n :
  wf a -> wf b ->
  at_ (tabulate r0 (conv (at_ a) (at_ b)) (deg a + deg b + 1)) n =
  conv (at_ a) (at_ b) n.
Proof.
  intros Wa Wb. rewrite at_tabulate.
  destruct (Z.leb_spec 0 n), (Z.ltb_spec n (deg a + deg b + 1)); simpl; try reflexivity.
  - symmetry. apply conv_beyond; auto; lia.
  - symmetry. now apply conv_neg.
  - symmetry. now apply conv_neg.
Qed.

Lemma at_binop (op : T -> T -> T) (a b : polynom T) n :
  wf a -> wf b -> op r0 r0 = r0 ->
  at_ (tabulate r0 (fun i => op (at_ a i) (at_ b i)) (Z.max (deg a) (deg b) + 1)) n =
  op (at_ a n) (at_ b n).
Proof.
  intros Wa Wb Hop. rewrite at_tabulate.
  destruct (Z.leb_spec 0 n), (Z.ltb_spec n (Z.max (deg a) (deg b) + 1)); simpl;
    try reflexivity; rewrite !at_outside by (auto; lia); auto.
Qed.

Lemma at_std_reverse z (l : list T) n j :
  0 <= n <= Z.of_nat (length l) ->
  at_ (Polynom z (std_reverse l n)) j =
  if (0 <=? j) && (j <? n) then at_ (Polynom z l) (n - 1 - j) else at_ (Polynom z l) j.
Proof.
  intros Hn. destruct (Z.leb_spec 0 j); simpl; [|now rewrite !at_neg by lia].
  rewrite at_lookup by lia. cbn [c ZERO_COEFF]. unfold std_reverse.
  destruct (Z.ltb_spec j n).
  - rewrite lookup_app_l by (rewrite length_reverse, length_take; lia).
    rewrite reverse_lookup by (rewrite length_take; lia).
    rewrite length_take. rewrite lookup_take_lt by lia.
    rewrite at_lookup by lia. cbn [c ZERO_COEFF]. do 2 f_equal. lia.
  - rewrite lookup_app_r by (rewrite length_reverse, length_take; lia).
    rewrite length_reverse, length_take, lookup_drop.
    rewrite at_lookup by lia. cbn [c ZERO_COEFF]. do 2 f_equal. lia.
Qed.

Lemma wf_reverse (p : polynom T) : wf p -> wf (reverse p).
Proof. intros W. unfold reverse. destruct (0 <? size p); exact W. Qed.

Lemma at_reverse (p : polynom T) j :
  wf p -> 0 <= j -> at_ (reverse p) j = at_ p (deg p - j).
Proof.
  intros W Hj. unfold reverse. pose proof (size_nonneg p). pose proof (deg_nonneg p).
  destruct (Z.ltb_spec 0 (size p)).
  - pose proof (deg_lt_size p). rewrite at_std_reverse by (unfold size in *; lia).
    destruct p as [z l]. cbn [c ZERO_COEFF] in *.
    destruct (Z.leb_spec 0 j), (Z.ltb_spec j (deg (Polynom z l) + 1)); simpl; try lia.
    + f_equal. lia.
    + rewrite !at_outside by (auto; lia). reflexivity.
  - rewrite at_ge by lia. symmetry.
    destruct (Z_lt_le_dec (deg p - j) 0); [apply at_neg|apply at_ge]; lia.
Qed.

Lemma reverse_head (p : polynom T) :
  0 < size p -> c (reverse p) !! 0%nat = Some (at_ p (deg p)).
Proof.
  intros Hs. pose proof (deg_nonneg p). pose proof (deg_lt_size p Hs).
  assert (E : at_ (reverse p) 0 = at_ p (deg p)).
  { unfold reverse. destruct (Z.ltb_spec 0 (size p)); [|lia].
    rewrite at_std_reverse by (unfold size in *; lia).
    destruct p as [z l]. cbn [c ZERO_COEFF] in *.
    destruct (Z.leb_spec 0 0), (Z.ltb_spec 0 (deg (Polynom z l) + 1)); simpl; try lia.
    f_equal. lia. }
  rewrite at_lookup in E by lia. change (Z.to_nat 0) with 0%nat in E.
  destruct (c (reverse p) !! 0%nat) eqn:E0; [simpl in E; congruence|].
  apply lookup_ge_None in E0. exfalso.
  unfold reverse in E0. destruct (Z.ltb_spec 0 (size p)); [|lia].
  cbn [c] in E0. unfold std_reverse in E0.
  rewrite length_app, length_reverse, length_take, length_drop in E0.
  unfold size in *. lia.
Qed.

Lemma runs_with_temp {A} (x : polynom T) (f : nat -> M (pstore T) A) s
    (Q : A -> pstore T -> Prop) :
  runs (f (length s)) (s ++ [x])
       (fun a s' => Q a (take (length s) s')) ->
  runs (with_temp x f) s Q.
Proof.
  intros (a & s' & E & HQ). exists a, (take (length s) s'). split; [|exact HQ].
  unfold with_temp. now rewrite E.
Qed.

Lemma take_insert_temp s (x X : polynom T) (r : nat) :
  (r < length s)%nat -> take (length s) (<[r := X]> (s ++ [x])) = <[r := X]> s.
Proof.
  intros L. rewrite insert_app_l by lia. now rewrite take_app_length'
    by (rewrite length_insert; lia).
Qed.

Lemma quot_rem_hensel_spec s (pr p1 p2 : nat) PR P1 P2 d :
  s !! pr = Some PR -> s !! p1 = Some P1 -> s !! p2 = Some P2 ->
  pr <> p2 -> wf P1 -> wf P2 -> 1 <= deg P2 <= deg P1 ->
  d [*] at_ P2 (deg P2) = r1 ->
  runs (quot_rem_hensel pr p1 p2) s (fun _ s' =>
    exists X, s' = <[pr := X]> s /\ qr_buffer P1 P2 X).
Proof.
  intros Er E1 E2 Hne W1 W2 Hle Hd. unfold quot_rem_hensel.
  eapply runs_obj; [exact E1|]. eapply runs_obj; [exact E2|].
  assert (Lr := lookup_lt _ _ _ Er).
  set (l1 := deg P1) in *. set (l2 := deg P2) in *. set (lq := l1 - l2).
  assert (Hlq : 0 <= lq) by (unfold lq; lia).
  apply runs_bind, runs_set_obj; [exact Lr|].
  eapply runs_obj; [lookup_obj|].
  destruct (Z.ltb_spec lq 0); [lia|]. cbn [orb].
  destruct (is_power P2) eqn:Hp.
  { apply runs_ret. exists P1. split; [reflexivity|]. apply qr_buffer_power; auto.
    fold l1 l2. lia. }
  assert (E1' : <[pr := P1]> s !! p1 = Some P1).
  { destruct (decide (p1 = pr)) as [->|]; lookup_obj. }
  eapply runs_obj; [exact E1'|].
  assert (Hs2 : 0 < size P2) by (pose proof (deg_bound P2); unfold l2 in *; lia).
  assert (Hs1 : 0 < size P1) by (pose proof (deg_bound P1); unfold l1, l2 in *; lia).
  (* the inverse of the reversed divisor *)
  destruct (inverse_unit (reverse P2) (lq + 1) (at_ P2 l2) d 0) as (IV & EIV & WIV & HIV);
    [now apply wf_reverse|now apply reverse_head|exact Hd|lia|].
  apply runs_bind. eapply runs_lift; [exact EIV|].
  (* q = inverse * reversed dividend, truncated *)
  set (q0 := tabulate (ZERO_COEFF IV) (conv (at_ IV) (at_ (reverse P1))) (lq + 1)).
  assert (Eq0 : call [default_polynom; IV; reverse P1] (mul 0 1 2 lq) 0 = Some q0).
  { apply call_runs; [simpl; lia|].
    eapply runs_wand;
      [apply (mul_spec [default_polynom; IV; reverse P1] 0 1 2 lq
                default_polynom IV (reverse P1)); auto; now apply wf_reverse|].
    intros [] s' ->. destruct (Z.ltb_spec lq 0); [lia|]. reflexivity. }
  apply runs_bind. eapply runs_lift; [exact Eq0|].
  assert (Sq0 : size q0 = lq + 1) by (apply size_tabulate; lia).
  apply runs_bind. destruct (Z.ltb_spec (size q0) (lq + 1)); [lia|]. apply runs_ret.
  set (q1 := Polynom (ZERO_COEFF q0) (std_reverse (c q0) (lq + 1))).
  assert (Wq1 : wf q1) by exact WIV.
  assert (Aq1 : forall j, at_ q1 j =
            if (0 <=? j) && (j <=? lq)
            then conv (at_ IV) (fun a => at_ P1 (l1 - a)) (lq - j) else r0).
  { intros j. unfold q1. rewrite at_std_reverse by (unfold size in Sq0; lia).
    replace (Polynom (ZERO_COEFF q0) (c q0)) with q0 by (now destruct q0).
    unfold q0. rewrite !at_tabulate. rewrite WIV.
    destruct (Z.leb_spec 0 j), (Z.ltb_spec j (lq + 1)), (Z.leb_spec j lq),
      (Z.leb_spec 0 (lq + 1 - 1 - j)), (Z.ltb_spec (lq + 1 - 1 - j) (lq + 1));
      simpl; try lia; try reflexivity; try exact WIV.
    replace (lq + 1 - 1 - j) with (lq - j) by lia.
    apply conv_ext; [reflexivity|]. intros a Ha. now apply at_reverse. }
  eapply runs_obj; [lookup_obj|].
  rewrite (op_mul_spec q1 P2 Wq1 W2). rewrite Wq1.
  apply runs_bind. eapply runs_lift; [reflexivity|].
  set (qp := tabulate r0 (conv (at_ q1) (at_ P2)) (deg q1 + deg P2 + 1)).
  assert (Aqp : forall n, at_ qp n = conv (at_ q1) (at_ P2) n)
    by (intros; now apply at_full_product).
  (* pr -= q * p2 *)
  apply runs_bind. apply runs_with_temp. eapply runs_wand.
  { apply (sub_spec _ pr pr (length (<[pr := P1]> s)) P1 P1 qp).
    - rewrite lookup_app_l by (rewrite length_insert; lia). lookup_obj.
    - rewrite lookup_app_l by (rewrite length_insert; lia). lookup_obj.
    - now rewrite list_lookup_middle.
    - now rewrite W1. }
  intros [] s' ->. rewrite take_insert_temp by (rewrite length_insert; lia).
  rewrite list_insert_insert_eq. rewrite W1.
  set (X1 := tabulate r0 (fun i => at_ P1 i [-] at_ qp i) (Z.max (deg P1) (deg qp) + 1)).
  assert (AX1 : forall n, at_ X1 n = at_ P1 n [-] conv (at_ q1) (at_ P2) n).
  { intros n. unfold X1. rewrite (at_binop rsub) by (auto; try reflexivity; ring).
    now rewrite Aqp. }
  (* pr += q shifted by l2 *)
  set (q2 := Polynom (ZERO_COEFF q1)
               (replicate (Z.to_nat l2) (ZERO_COEFF q1) ++ c q1)).
  assert (Wq2 : wf q2) by exact Wq1.
  assert (Aq2 : forall n, at_ q2 n = if l2 <=? n then at_ q1 (n - l2) else r0).
  { intros n. destruct (Z_lt_le_dec n 0).
    - rewrite at_neg by lia. destruct (Z.leb_spec l2 n); [lia|exact Wq2].
    - rewrite at_lookup by lia. unfold q2. cbn [c ZERO_COEFF].
      destruct (Z.leb_spec l2 n).
      + rewrite lookup_app_r by (rewrite length_replicate; lia).
        rewrite length_replicate. rewrite at_lookup by lia. do 2 f_equal. lia.
      + rewrite lookup_app_l by (rewrite length_replicate; lia).
        rewrite lookup_replicate_2 by lia. exact Wq1. }
  apply runs_with_temp. eapply runs_wand.
  { apply (add_spec _ pr pr (length (<[pr := X1]> s)) X1 X1 q2).
    - rewrite lookup_app_l by (rewrite length_insert; lia). lookup_obj.
    - rewrite lookup_app_l by (rewrite length_insert; lia). lookup_obj.
    - now rewrite list_lookup_middle.
    - exact Wq2. }
  intros [] s' ->. rewrite take_insert_temp by (rewrite length_insert; lia).
  rewrite list_insert_insert_eq. cbn [ZERO_COEFF X1 tabulate].
  set (X2 := tabulate r0 (fun i => at_ X1 i [+] at_ q2 i) (Z.max (deg X1) (deg q2) + 1)).
  assert (WX1 : wf X1) by reflexivity.
  assert (AX2 : forall n, at_ X2 n =
            at_ P1 n [-] conv (at_ q1) (at_ P2) n
            [+] (if l2 <=? n then at_ q1 (n - l2) else r0)).
  { intros n. unfold X2. rewrite (at_binop radd) by (auto; ring).
    now rewrite AX1, Aq2. }
  exists X2. split; [reflexivity|].
  (* the algebra *)
  assert (HB : forall j, j < 0 \/ l2 < j -> at_ P2 j = r0)
    by (intros; now apply at_outside).
  assert (Hq1z : forall j, j < 0 \/ lq < j -> at_ q1 j = r0).
  { intros j Hj. rewrite Aq1.
    destruct (Z.leb_spec 0 j), (Z.leb_spec j lq); simpl; try lia; reflexivity. }
  assert (Hex : forall n, l2 <= n <= l1 -> conv (at_ q1) (at_ P2) n = at_ P1 n).
  { apply (hensel_exact (at_ P1) (at_ P2) (at_ IV) (at_ q1) l1 l2); auto; try lia.
    - intros i Hi. rewrite <- HIV by (fold lq; lia).
      apply conv_ext; [|reflexivity]. intros a Ha.
      symmetry. now apply at_reverse.
    - intros j Hj. rewrite Aq1. fold lq.
      destruct (Z.leb_spec 0 j), (Z.leb_spec j lq); simpl; try (fold lq in Hj; lia).
      reflexivity. }
  assert (Hhigh : forall n, l1 < n -> conv (at_ q1) (at_ P2) n = r0).
  { intros n Hn.
    rewrite (conv_ext _ (trunc lq (at_ q1)) _ (trunc l2 (at_ P2)) n).
    - apply conv_high. unfold lq. lia.
    - intros j Hj. unfold trunc.
      destruct (Z.leb_spec 0 j), (Z.leb_spec j lq); simpl; try reflexivity;
        apply Hq1z; lia.
    - intros j Hj. now apply wf_trunc. }
  split; [reflexivity|]. split.
  - intros n Hn. fold l1 in Hn. rewrite AX2, Hhigh by lia.
    rewrite at_outside by (auto; fold l1; lia).
    destruct (Z.leb_spec l2 n); [|ring]. rewrite Hq1z by (unfold lq; lia). ring.
  - intros n. fold l1 l2 lq.
    rewrite (sumZ_ext 0 lq _ (fun j => at_ q1 j [*] at_ P2 (n - j))).
    2:{ intros j Hj. rewrite AX2, Hex by (unfold lq in *; lia).
        destruct (Z.leb_spec l2 (j + l2)); [|lia].
        replace (j + l2 - l2) with j by lia. ring. }
    rewrite sum_to_conv by (auto; intros; apply HB; lia).
    destruct (Z_lt_le_dec n 0); [|destruct (Z_lt_le_dec n l2); [|destruct (Z_le_gt_dec n l1)]].
    + destruct (Z.leb_spec 0 n); [lia|]. simpl.
      rewrite conv_neg by lia. rewrite at_outside by (auto; lia). ring.
    + destruct (Z.leb_spec 0 n), (Z.ltb_spec n l2); try lia. simpl.
      rewrite AX2. destruct (Z.leb_spec l2 n); [lia|]. ring.
    + destruct (Z.ltb_spec n l2); [lia|]. rewrite andb_false_r.
      rewrite Hex by lia. ring.
    + destruct (Z.ltb_spec n l2); [lia|]. rewrite andb_false_r.
      rewrite Hhigh by lia. rewrite at_outside by (auto; fold l1; lia). ring.
Qed.

End Hensel.

Import Poly.

Section Division.
Context {T : Type} `{CoeffLaws T}.
Add Ring coeff_ring_division : coeff_ring.

(** ** The dispatch *)

Lemma quot_rem_spec s (pr p1 p2 : nat) PR P1 P2 d :
  s !! pr = Some PR -> s !! p1 = Some P1 -> s !! p2 = Some P2 ->
  pr <> p2 -> wf P1 -> wf P2 -> deg P2 <= deg P1 ->
  d [*] at_ P2 (deg P2) = r1 ->
  runs (quot_rem pr p1 p2) s (fun _ s' =>
    exists X, s' = <[pr := X]> s /\ qr_buffer P1 P2 X).
Proof.
  intros Er E1 E2 Hne W1 W2 Hle Hd. unfold quot_rem.
  eapply runs_obj; [exact E1|]. eapply runs_obj; [exact E2|].
  destruct (_ || _ || _ || _) eqn:Hc.
  - eapply quot_rem_long_spec; eauto.
  - apply orb_false_iff in Hc. destruct Hc as [Hc _].
    apply orb_false_iff in Hc. destruct Hc as [Hc _].
    apply orb_false_iff in Hc. destruct Hc as [_ Hc].
    apply Z.ltb_ge in Hc.
    eapply quot_rem_hensel_spec; eauto. lia.
Qed.

Lemma quot_rem_lt s (pr p1 p2 : nat) PR P1 P2 :
  s !! pr = Some PR -> s !! p1 = Some P1 -> s !! p2 = Some P2 ->
  deg P1 < deg P2 ->
  runs (quot_rem pr p1 p2) s (fun _ s' => s' = <[pr := P1]> s).
Proof.
  intros Er E1 E2 Hlt. unfold quot_rem.
  eapply runs_obj; [exact E1|]. eapply runs_obj; [exact E2|].
  destruct (_ || _ || _ || _).
  - eapply quot_rem_long_lt; eauto.
  - eapply quot_rem_hensel_lt; eauto.
Qed.

(** ** Extraction of the quotient and of the remainder *)

Lemma runs_resize_ref' s (r : nat) (p : polynom T) sz (Q : unit -> pstore T -> Prop) :
  s !! r = Some p -> 0 <= sz ->
  Q tt (<[r := tabulate (ZERO_COEFF p) (at_ p) sz]> s) ->
  runs (resize_ref' r sz) s Q.
Proof.
  intros E Hsz HQ. unfold resize_ref'. eapply runs_obj; [exact E|].
  destruct (resize_some p sz Hsz) as (p' & E' & Hz & Hs & Ha).
  apply runs_bind. eapply runs_lift; [exact E'|].
  apply runs_set_obj; [eapply lookup_lt; eauto|].
  replace p' with (tabulate (ZERO_COEFF p) (at_ p) sz); [exact HQ|].
  symmetry. apply polynom_ext; auto.
  intros i Hi. rewrite Ha. destruct (Z.ltb_spec i sz); [reflexivity|lia].
Qed.

Lemma shift_loop s (pr : nat) (X : polynom T) l2 lr :
  (pr < length s)%nat -> 0 <= l2 -> 0 <= lr ->
  runs (for_up 0 lr (fun i => v <- subscript pr (i + l2) ;; assign pr i v))
    (<[pr := X]> s)
    (fun _ s' => exists Y, s' = <[pr := Y]> s /\ ZERO_COEFF Y = ZERO_COEFF X /\
       forall j, at_ Y j =
         if (0 <=? j) && (j <=? lr) then at_ X (j + l2) else at_ X j).
Proof.
  intros L Hl2 Hlr. eapply runs_wand.
  - apply (for_up_rule (fun i s' => exists Y,
      s' = <[pr := Y]> s /\ ZERO_COEFF Y = ZERO_COEFF X /\
      forall j, at_ Y j =
        if (0 <=? j) && (j <? i) then at_ X (j + l2) else at_ X j)).
    + exists X. split; [reflexivity|]. split; [reflexivity|]. intros j.
      destruct (Z.leb_spec 0 j), (Z.ltb_spec j 0); simpl; try lia; reflexivity.
    + intros i h Hi (Y & -> & HZ & HY).
      apply runs_bind. eapply runs_subscript;
        [now apply list_lookup_insert_eq|lia|].
      rewrite list_insert_insert_eq.
      eapply runs_assign; [now apply list_lookup_insert_eq|lia|].
      rewrite list_insert_insert_eq.
      eexists. split; [reflexivity|]. split.
      { rewrite pset_zero, reserve_zero. exact HZ. }
      intros j. rewrite at_pset by lia. rewrite at_reserve.
      destruct (Z.eqb_spec j i) as [->|Hne].
      * rewrite HY.
        destruct (Z.leb_spec 0 i), (Z.ltb_spec i (i + 1)),
          (Z.leb_spec 0 (i + l2)), (Z.ltb_spec (i + l2) i); simpl; try lia.
        reflexivity.
      * rewrite HY.
        destruct (Z.leb_spec 0 j), (Z.ltb_spec j i), (Z.ltb_spec j (i + 1));
          simpl; try lia; reflexivity.
  - intros [] s' (Y & -> & HZ & HY). exists Y. split; [reflexivity|].
    split; [exact HZ|]. intros j. rewrite HY.
    replace (Z.max 0 (lr + 1)) with (lr + 1) by lia.
    destruct (Z.leb_spec 0 j), (Z.ltb_spec j (lr + 1)), (Z.leb_spec j lr);
      simpl; try lia; reflexivity.
Qed.

(** [div] after [quot_rem] has left the buffer [X] in [pr]. *)
Lemma div_extract s (pr p1 p2 : nat) PR P1 P2 X :
  s !! pr = Some PR -> s !! p1 = Some P1 -> s !! p2 = Some P2 ->
  deg P2 <= deg P1 ->
  runs (quot_rem pr p1 p2) s (fun _ s' => s' = <[pr := X]> s) ->
  runs (div pr p1 p2) s (fun _ s' =>
    s' = <[pr := tabulate (ZERO_COEFF X) (fun i => at_ X (i + deg P2))
                   (deg P1 - deg P2 + 1)]> s).
Proof.
  intros Er E1 E2 Hle HX. unfold div.
  eapply runs_obj; [exact E1|]. eapply runs_obj; [exact E2|].
  assert (Lr := lookup_lt _ _ _ Er). pose proof (deg_nonneg P2).
  destruct (Z.ltb_spec (deg P1 - deg P2) 0); [lia|].
  apply runs_bind. eapply runs_wand; [exact HX|]. intros [] s' ->.
  apply runs_bind. eapply runs_wand; [apply shift_loop; auto|].
  intros [] s' (Y & -> & HZ & HY).
  eapply runs_resize_ref'; [now apply list_lookup_insert_eq|lia|].
  rewrite list_insert_insert_eq. f_equal. rewrite HZ. symmetry.
  apply polynom_ext.
  - reflexivity.
  - apply size_tabulate. lia.
  - intros i Hi. rewrite at_tabulate, HY.
    destruct (Z.leb_spec 0 i), (Z.ltb_spec i (deg P1 - deg P2 + 1)),
      (Z.leb_spec i (deg P1 - deg P2)); simpl; try lia. reflexivity.
Qed.

Lemma div_lt s (pr p1 p2 : nat) PR P1 P2 :
  s !! pr = Some PR -> s !! p1 = Some P1 -> s !! p2 = Some P2 ->
  deg P1 < deg P2 ->
  runs (div pr p1 p2) s (fun _ s' => s' = <[pr := Polynom (ZERO_COEFF PR) []]> s).
Proof.
  intros Er E1 E2 Hlt. unfold div.
  eapply runs_obj; [exact E1|]. eapply runs_obj; [exact E2|].
  destruct (Z.ltb_spec (deg P1 - deg P2) 0); [|lia].
  eapply runs_obj; [exact Er|].
  apply runs_set_obj; [eapply lookup_lt; eauto|reflexivity].
Qed.

(** [mod] after [quot_rem] has left the buffer [X] in [pr]. *)
Lemma mod_extract s (pr p1 p2 : nat) PR P1 P2 X :
  s !! pr = Some PR -> s !! p1 = Some P1 -> s !! p2 = Some P2 ->
  deg P2 <= deg P1 ->
  runs (quot_rem pr p1 p2) s (fun _ s' => s' = <[pr := X]> s) ->
  runs (mod_ pr p1 p2) s (fun _ s' =>
    s' = <[pr := tabulate (ZERO_COEFF X) (at_ X) (deg P2)]> s).
Proof.
  intros Er E1 E2 Hle HX. unfold mod_.
  eapply runs_obj; [exact E1|]. eapply runs_obj; [exact E2|].
  assert (Lr := lookup_lt _ _ _ Er). pose proof (deg_nonneg P2).
  apply runs_bind. eapply runs_wand; [exact HX|]. intros [] s' ->.
  destruct (Z.ltb_spec (deg P2 - 1) (deg P1)); [|lia].
  eapply runs_resize_ref'; [now apply list_lookup_insert_eq|lia|].
  rewrite list_insert_insert_eq. now replace (deg P2 - 1 + 1) with (deg P2) by lia.
Qed.

Lemma mod_lt s (pr p1 p2 : nat) PR P1 P2 :
  s !! pr = Some PR -> s !! p1 = Some P1 -> s !! p2 = Some P2 ->
  deg P1 < deg P2 ->
  runs (mod_ pr p1 p2) s (fun _ s' => s' = <[pr := P1]> s).
Proof.
  intros Er E1 E2 Hlt. unfold mod_.
  eapply runs_obj; [exact E1|]. eapply runs_obj; [exact E2|].
  apply runs_bind. eapply runs_wand; [eapply quot_rem_lt; eauto|].
  intros [] s' ->.
  destruct (Z.ltb_spec (deg P2 - 1) (deg P1)); [lia|]. now apply runs_ret.
Qed.

(** The buffer of [quot_rem], as a function of the run. *)
Lemma quot_rem_buffer s (pr p1 p2 : nat) PR P1 P2 d :
  s !! pr = Some PR -> s !! p1 = Some P1 -> s !! p2 = Some P2 ->
  pr <> p2 -> wf P1 -> wf P2 -> deg P2 <= deg P1 ->
  d [*] at_ P2 (deg P2) = r1 ->
  exists X, qr_buffer P1 P2 X /\
    runs (quot_rem pr p1 p2) s (fun _ s' => s' = <[pr := X]> s).
Proof.
  intros Er E1 E2 Hne W1 W2 Hle Hd.
  destruct (quot_rem_spec s pr p1 p2 PR P1 P2 d) as (a & s' & E & X & -> & HX); auto.
  exists X. split; [exact HX|]. exists a, (<[pr := X]> s). auto.
Qed.

(** ** The operators *)

Lemma op_div_mod_spec (a b : polynom T) d :
  wf a -> wf b -> deg b <= deg a -> d [*] at_ b (deg b) = r1 ->
  exists X, qr_buffer a b X /\
    op_div a b = Some (tabulate r0 (fun i => at_ X (i + deg b)) (deg a - deg b + 1)) /\
    op_mod a b = Some (tabulate r0 (at_ X) (deg b)).
Proof.
  intros Wa Wb Hle Hd.
  destruct (quot_rem_buffer [a; b] 0 0 1 a a b d) as (X & HX & HR); auto.
  exists X. split; [exact HX|]. destruct HX as (WX & _). split.
  - apply call_runs; [simpl; lia|]. rewrite <- WX.
    eapply (div_extract [a; b] 0 0 1 a a b X); auto.
  - apply call_runs; [simpl; lia|]. rewrite <- WX.
    eapply (mod_extract [a; b] 0 0 1 a a b X); auto.
Qed.

Lemma op_div_mod_lt (a b : polynom T) :
  deg a < deg b ->
  op_div a b = Some (Polynom (ZERO_COEFF a) []) /\ op_mod a b = Some a.
Proof.
  intros Hlt. split.
  - apply call_runs; [simpl; lia|]. eapply (div_lt [a; b] 0 0 1 a a b); auto.
  - apply call_runs; [simpl; lia|]. eapply (mod_lt [a; b] 0 0 1 a a b); auto.
Qed.

Lemma deg_tabulate_lt z (g : Z -> T) n : 0 < n -> deg (tabulate z g n) < n.
Proof.
  intros Hn. pose proof (deg_bound (tabulate z g n)) as Hb.
  rewrite size_tabulate in Hb by lia. lia.
Qed.

(** [a == q * b + r] for the operands of a division with buffer [X]. *)
Lemma division_identity (a b X : polynom T) :
  wf a -> wf b -> deg b <= deg a -> qr_buffer a b X ->
  let q := tabulate r0 (fun i => at_ X (i + deg b)) (deg a - deg b + 1) in
  let r := tabulate r0 (at_ X) (deg b) in
  exists qb s, op_mul q b = Some qb /\ op_add qb r = Some s /\ eqb a s = true.
Proof.
  intros Wa Wb Hle (WX & Hhi & HX) q r.
  assert (Wq : wf q) by reflexivity. assert (Wr : wf r) by reflexivity.
  pose proof (deg_nonneg b) as Hb.
  rewrite (op_mul_spec q b Wq Wb). eexists. eexists. split; [reflexivity|].
  rewrite op_add_spec by reflexivity. split; [reflexivity|].
  cbn [ZERO_COEFF tabulate]. apply eqb_spec; [exact Wa|reflexivity|].
  intros n. rewrite Wq.
  rewrite (at_binop radd) by (auto; try reflexivity; ring).
  rewrite at_full_product by auto.
  rewrite HX. f_equal.
  - rewrite <- (sum_to_conv (at_ q) (at_ b) (deg a - deg b) n).
    + apply sumZ_ext. intros j Hj. unfold q. rewrite at_tabulate.
      destruct (Z.leb_spec 0 j), (Z.ltb_spec j (deg a - deg b + 1)); simpl; try lia.
      reflexivity.
    + intros j Hj. unfold q. rewrite at_tabulate.
      destruct (Z.leb_spec 0 j), (Z.ltb_spec j (deg a - deg b + 1)); simpl;
        try lia; reflexivity.
    + intros j Hj. apply at_outside; auto.
  - unfold r. rewrite at_tabulate. reflexivity.
Qed.

End Division.

Import Poly.

(** * The rings of the examples *)

Lemma ZCoeffLaws : CoeffLaws Z.
Proof.
  split.
  - exact Zth.
  - intros a b. apply Z.eqb_eq.
  - intros x c d Hdc. cbn in *.
    destruct (Z.mul_eq_1 d c Hdc) as [-> | ->].
    + assert (c = 1) as -> by lia. rewrite Z.quot_1_r. lia.
    + assert (c = -1) as -> by lia. change (-1) with (- (1)).
      rewrite Z.quot_opp_r, Z.quot_1_r by lia. lia.
  - intros a. apply Z.ltb_irrefl.
  - intros a b Hab Hba. cbn in *. lia.
Qed.

Lemma Zmod17_laws : CoeffLaws (Zmod 17).
Proof.
  split.
  - apply Zmod.ring_theory.
  - intros a b. apply Zmod.eqb_eq.
  - intros x c d Hdc. cbn in *.
    rewrite <- Zmod.mul_inv_r. f_equal.
    assert (Hg : Z.gcd (Zmod.to_Z c) 17 = 1).
    { apply (f_equal Zmod.to_Z) in Hdc. rewrite Zmod.to_Z_mul in Hdc.
      change (Zmod.to_Z Zmod.one) with 1 in Hdc.
      apply Z.bezout_1_gcd.
      exists (Zmod.to_Z d), (- (Zmod.to_Z d * Zmod.to_Z c / 17)).
      pose proof (Z.div_mod (Zmod.to_Z d * Zmod.to_Z c) 17). lia. }
    pose proof (Zmod.mul_inv_same_l_coprime c Hg) as Hi.
    transitivity (Zmod.mul (Zmod.inv c) (Zmod.mul d c)).
    + rewrite Hdc. now rewrite Zmod.mul_1_r.
    + rewrite (Zmod.mul_comm d c), Zmod.mul_assoc, Hi. apply Zmod.mul_1_l.
  - intros a. cbn. apply Z.ltb_irrefl.
  - intros a b Hab Hba. cbn in *. apply Zmod.unsigned_inj. lia.
Qed.

Lemma three_not_pow2 (K : nat) : 3 <> 2 ^ Z.of_nat K.
Proof.
  destruct K as [|[|K]]; [simpl; lia|simpl; lia|].
  rewrite !pow2_S. pose proof (pow2_pos K). lia.
Qed.

Lemma to_Z_map_inj (l1 l2 : list (Zmod 17)) :
  map Zmod.to_Z l1 = map Zmod.to_Z l2 -> l1 = l2.
Proof.
  revert l2. induction l1 as [|a l1 IH]; intros [|b l2] E; try discriminate; [reflexivity|].
  simpl in E. injection E as Eab El. f_equal; [now apply Zmod.unsigned_inj|now apply IH].
Qed.

Lemma F17_result (o : option (list (Zmod 17))) (l : list (Zmod 17)) :
  option_map (map Zmod.to_Z) o = Some (map Zmod.to_Z l) -> o = Some l.
Proof.
  destruct o as [l'|]; simpl; [|discriminate]. intros E. injection E as E.
  f_equal. now apply to_Z_map_inj.
Qed.

Section Claims.
Context {T : Type} `{CoeffLaws T}.
Add Ring coeff_ring_claims : coeff_ring.

(** ** Division *)

Lemma division_identity_lt (a b : polynom T) :
  wf a -> wf b ->
  exists qb s, op_mul (Polynom (ZERO_COEFF a) []) b = Some qb /\
    op_add qb a = Some s /\ eqb a s = true.
Proof.
  intros Wa Wb. rewrite Wa.
  assert (Wq : wf (Polynom r0 [])) by reflexivity.
  rewrite (op_mul_spec _ b Wq Wb). eexists. eexists. split; [reflexivity|].
  rewrite op_add_spec by exact Wa.
  split; [reflexivity|]. cbn [ZERO_COEFF tabulate].
  apply eqb_spec; [exact Wa|reflexivity|]. intros n.
  rewrite (at_binop radd) by (auto; try reflexivity; ring).
  rewrite at_full_product by auto.
  unfold conv. rewrite sumZ_zero; [ring|].
  intros j Hj. rewrite at_ge by (unfold size; simpl; lia).
  cbn [ZERO_COEFF]. ring.
Qed.

(** C1 (amended): for polynomials [a] and [b] whose contextual zero is the
    ring's zero, with the leading coefficient of [b] invertible, the
    quotient [q = a / b] and the remainder [r = a % b] that [div] and [mod]
    extract from [quot_rem] satisfy [a == q * b + r]; the degree of [r] is
    below the degree of [b] when [b] is not constant, and [r] has no
    coefficients at all when [b] is constant, where [deg r = 0 = deg b]. *)
Theorem quot_rem_division_identity (a b : polynom T) (d : T) :
  wf a -> wf b -> d [*] leading_coeff b = r1 ->
  exists q r qb s,
    op_div a b = Some q /\ op_mod a b = Some r /\
    op_mul q b = Some qb /\ op_add qb r = Some s /\ eqb a s = true /\
    (0 < deg b -> deg r < deg b) /\
    (deg b = 0 -> size r = 0 /\ deg r = 0).
Proof.
  intros Wa Wb Hd. pose proof (deg_nonneg b) as Hb. pose proof (deg_nonneg a) as Ha.
  destruct (Z_lt_le_dec (deg a) (deg b)) as [Hlt|Hge].
  - destruct (op_div_mod_lt a b Hlt) as [Eq Er].
    destruct (division_identity_lt a b Wa Wb) as (qb & s & Em & Ea & Ee).
    exists (Polynom (ZERO_COEFF a) []), a, qb, s.
    repeat split; auto; lia.
  - destruct (op_div_mod_spec a b d Wa Wb Hge Hd) as (X & HX & Eq & Er).
    destruct (division_identity a b X Wa Wb Hge HX) as (qb & s & Em & Ea & Ee).
    eexists _, _, qb, s. split; [exact Eq|]. split; [exact Er|].
    split; [exact Em|]. split; [exact Ea|]. split; [exact Ee|]. split.
    + intros Hpos. now apply deg_tabulate_lt.
    + intros E0. rewrite E0. split; [now apply size_tabulate|].
      apply deg_empty. now apply size_tabulate.
Qed.

(** C9: when [deg p1 < deg p2], [div] leaves the output without any
    coefficient, which reads as zero at every index, and [mod] leaves a copy
    of [p1] in the output; this for any aliasing of the three objects. *)
Theorem division_by_larger_degree (s : pstore T) (pr p1 p2 : nat) PR P1 P2 :
  s !! pr = Some PR -> s !! p1 = Some P1 -> s !! p2 = Some P2 ->
  deg P1 < deg P2 ->
  runs (div pr p1 p2) s (fun _ s' => s' = <[pr := Polynom (ZERO_COEFF PR) []]> s) /\
  runs (mod_ pr p1 p2) s (fun _ s' => s' = <[pr := P1]> s) /\
  (forall i, at_ (Polynom (ZERO_COEFF PR) []) i = ZERO_COEFF PR) /\
  op_div P1 P2 = Some (Polynom (ZERO_COEFF P1) []) /\ op_mod P1 P2 = Some P1.
Proof.
  intros Er E1 E2 Hlt. split; [eapply div_lt; eauto|].
  split; [eapply mod_lt; eauto|]. split.
  - intros i. unfold at_, size. cbn [c ZERO_COEFF length].
    destruct (Z.ltb_spec i (Z.of_nat 0)); [|now rewrite andb_false_r].
    destruct (Z.leb_spec 0 i); [lia|reflexivity].
  - now apply op_div_mod_lt.
Qed.

(** C10: when [deg p2 <= deg p1] and the leading coefficient of [p2] is
    invertible, [quot_rem] leaves one buffer [X] in [pr] with
    [p1 = Q * p2 + R], where [Q] has the coefficients [X[l2 .. l1]] and [R]
    the coefficients [X[0 .. l2 - 1]]; [div] returns exactly [Q], the buffer
    shifted down by [l2] places, and [mod] returns exactly [R], the buffer
    resized to [l2] coefficients. *)
Theorem quot_rem_combined_buffer (s : pstore T) (pr p1 p2 : nat) PR P1 P2 d :
  s !! pr = Some PR -> s !! p1 = Some P1 -> s !! p2 = Some P2 -> pr <> p2 ->
  wf P1 -> wf P2 -> deg P2 <= deg P1 -> d [*] leading_coeff P2 = r1 ->
  exists X,
    runs (quot_rem pr p1 p2) s (fun _ s' => s' = <[pr := X]> s) /\
    qr_buffer P1 P2 X /\
    runs (div pr p1 p2) s (fun _ s' =>
      s' = <[pr := tabulate r0 (fun i => at_ X (i + deg P2)) (deg P1 - deg P2 + 1)]> s) /\
    runs (mod_ pr p1 p2) s (fun _ s' =>
      s' = <[pr := tabulate r0 (at_ X) (deg P2)]> s).
Proof.
  intros Er E1 E2 Hne W1 W2 Hle Hd.
  destruct (quot_rem_buffer s pr p1 p2 PR P1 P2 d) as (X & HX & HR); auto.
  exists X. split; [exact HR|]. split; [exact HX|].
  destruct HX as (WX & _). rewrite <- WX. split.
  - eapply div_extract; eauto.
  - eapply mod_extract; eauto.
Qed.

(** ** Power series inverse *)

(** C2: for a polynomial [p] whose constant term [c0] is invertible and a
    bound [L >= 1], [p.inverse(L)] returns [R] with
    [(p * R)[i] = [i = 0]] for all [0 <= i < L]; the product [R * p] resized
    to [L] coefficients compares equal to the constant polynomial 1. *)
Theorem inverse_is_series_inverse (p : polynom T) (L : Z) (c0 d : T) :
  wf p -> c p !! 0%nat = Some c0 -> d [*] c0 = r1 -> 1 <= L ->
  exists R prod low,
    inverse p L = Some R /\
    (forall i, 0 <= i < L -> conv (at_ p) (at_ R) i = delta i) /\
    op_mul R p = Some prod /\ resize prod L = Some low /\
    eqb low (of_scalar r1) = true.
Proof.
  intros Wp E0 Hd HL.
  destruct (inverse_unit p L c0 d 0 Wp E0 Hd HL) as (R & ER & WR & HR).
  destruct (resize_some (tabulate (ZERO_COEFF R) (conv (at_ R) (at_ p)) (deg R + deg p + 1)) L)
    as (low & El & Zl & Sl & Al); [lia|].
  exists R, (tabulate (ZERO_COEFF R) (conv (at_ R) (at_ p)) (deg R + deg p + 1)), low.
  split; [exact ER|]. split; [exact HR|].
  split; [now apply op_mul_spec|]. split; [exact El|].
  cbn [ZERO_COEFF tabulate] in Zl, Al. rewrite WR in *.
  apply eqb_spec; [exact Zl|reflexivity|].
  intros i. rewrite Al. unfold of_scalar, zeroOf. rewrite at_single.
  rewrite at_full_product by auto.
  destruct (Z.ltb_spec i L).
  - destruct (Z_lt_le_dec i 0).
    + rewrite conv_neg by lia. destruct (Z.eqb_spec i 0); [lia|reflexivity].
    + rewrite conv_comm, HR by lia. reflexivity.
  - destruct (Z.eqb_spec i 0); [lia|reflexivity].
Qed.

(** When [p] stores a constant term and that term is the contextual zero,
    the first test of [inverse] returns, for every bound, the
    one-coefficient polynomial made of that zero; all its coefficients are
    the ring's zero when the contextual zero is. *)
Lemma inverse_zero_constant_term (p : polynom T) (L : Z) :
  c p !! 0%nat = Some (ZERO_COEFF p) ->
  inverse p L = Some (of_list [ZERO_COEFF p]) /\
  (wf p -> forall i, at_ (of_list [ZERO_COEFF p]) i = r0).
Proof.
  intros E0. split.
  - unfold inverse. rewrite inverse_fuel_S, E0. now rewrite req_refl.
  - intros Wp i. unfold of_list, make_zero, zeroOf. rewrite at_single, Wp.
    now destruct (i =? 0).
Qed.

(** C8: a polynomial without stored coefficients, as [div] returns for a
    dividend of lower degree and [mod] for a constant divisor, has a
    constant term that reads as the contextual zero; [inverse] tests
    [c[0]] all the same, an element that does not exist, and returns no
    result for any bound, where [eval], [derivative], [integral],
    [reverse] and [mul] test for the empty vector first. *)
Theorem inverse_of_empty_polynomial (p : polynom T) (L : Z) :
  c p = [] -> at_ p 0 = ZERO_COEFF p /\ inverse p L = None.
Proof.
  intros E. split.
  - unfold at_, size. rewrite E. reflexivity.
  - unfold inverse. cbn [inverse_fuel]. rewrite E. reflexivity.
Qed.

(** ** Multiplication *)

(** C3: on valid operand arrays [p1[0..l1]], [p2[0..l2]] and an output
    [pr[0..lr]] that lies in another buffer or coincides with an operand,
    with [0 <= l2 <= l1 <= lr <= l1 + l2], [_mul_karatsuba] (recursing
    through [_mul]) and [_mul_long] both return and leave the same store:
    [pr[0..lr]] holds the first [lr + 1] coefficients of the product. *)
Theorem karatsuba_agrees_with_long (h : heap T) pr lr p1 l1 p2 l2 :
  mul_pre h pr lr p1 l1 p2 l2 -> 0 <= l2 <= l1 -> l1 <= lr <= l1 + l2 ->
  exists h',
    _mul_karatsuba _mul pr lr p1 l1 p2 l2 h = Some (tt, h') /\
    _mul_long pr lr p1 l1 p2 l2 h = Some (tt, h') /\
    forall i, 0 <= i <= lr -> rd h' pr i = conv (ser h p1 l1) (ser h p2 l2) i.
Proof.
  intros Hpre H12 Hr.
  destruct (_mul_karatsuba_spec _mul h pr lr p1 l1 p2 l2 (_mul_spec_below l1) Hpre H12 Hr)
    as ([] & hk & Ek & Hk).
  destruct (_mul_long_spec h pr lr p1 l1 p2 l2 Hpre) as ([] & hl & El & Hl).
  assert (hk = hl) by (eapply mul_post_unique; eauto). subst hk.
  exists hl. split; [exact Ek|]. split; [exact El|]. apply Hl.
Qed.

(** C6: [mul(pr, p1, p2, lr)] gives the same polynomial, the first
    coefficients of the product, whether the output is a distinct object,
    the object [p1], the object [p2], or, for a square, both. *)
Theorem mul_alias_safe (PR P1 P2 : polynom T) (lr : Z) :
  wf P1 -> wf P2 ->
  let R := Polynom (ZERO_COEFF P1)
             (product P1 P2 ((if lr <? 0 then deg P1 + deg P2 else lr) + 1)) in
  call [PR; P1; P2] (mul 0 1 2 lr) 0 = Some R /\
  call [P1; P2] (mul 0 0 1 lr) 0 = Some R /\
  call [P1; P2] (mul 1 0 1 lr) 1 = Some R /\
  (P1 = P2 -> call [P1] (mul 0 0 0 lr) 0 = Some R).
Proof.
  intros W1 W2 R. repeat split.
  - apply call_runs; [simpl; lia|].
    apply (mul_spec [PR; P1; P2] 0 1 2 lr PR P1 P2); auto.
  - apply call_runs; [simpl; lia|].
    apply (mul_spec [P1; P2] 0 0 1 lr P1 P1 P2); auto.
  - apply call_runs; [simpl; lia|].
    apply (mul_spec [P1; P2] 1 0 1 lr P2 P1 P2); auto.
  - intros <-. apply call_runs; [simpl; lia|].
    apply (mul_spec [P1] 0 0 0 lr P1 P1 P1); auto.
Qed.

(** ** The container *)

(** C5 (amended): [reserve(sz)] only appends contextual zeros to the stored
    coefficients; [resize(sz)], for a size that is not negative, keeps the
    first [sz] stored coefficients and drops the others, padding with the
    contextual zero when there are fewer; [shrink_to_fit] leaves exactly
    [deg() + 1] coefficients. *)
Theorem reserve_pads_resize_cuts (p : polynom T) (n : nat) :
  c (reserve p (Z.of_nat n)) =
    c p ++ replicate (n - length (c p)) (ZERO_COEFF p) /\
  resize p (Z.of_nat n) =
    Some (Polynom (ZERO_COEFF p)
            (take n (c p) ++ replicate (n - length (c p)) (ZERO_COEFF p))) /\
  size (shrink_to_fit p) = deg p + 1.
Proof.
  split; [|split].
  - rewrite reserve_c. now rewrite Nat2Z.id.
  - apply resize_c.
  - apply shrink_to_fit_size.
Qed.

(** ** Fourier transforms *)

(** C7 (amended): the in-place [fft] called with a size that is not a power
    of two returns at once and leaves the buffer as it was. *)
Theorem fft_not_power_of_two_unchanged (data : list T) (size : Z) (root : T) :
  0 <= size -> (forall K : nat, size <> 2 ^ Z.of_nat K) ->
  fft data size root = Some data.
Proof.
  intros Hs Hn. destruct (Z.eq_dec size 0) as [->|Hne]; [reflexivity|].
  apply fft_not_pow2; [lia|exact Hn].
Qed.

(** C4 (amended): for a buffer [x] of length [n = 2 ^ K], a principal
    [n]-th root of unity [w] and an inverse [ninv] of [n] in the ring, the
    forward transform with [w], then the transform with the reciprocal root
    [w ^ (n - 1)], then the multiplication of every element by
    [1 / n] give back [x]; this holds for the in-place [fft] and for
    [fft_rec] with buffers of its own. *)
Theorem fft_round_trip (K : nat) (x dest dest' : list T) (w ninv : T) :
  let n := 2 ^ Z.of_nat K in
  Z.of_nat (length x) = n -> Z.of_nat (length dest) = n ->
  Z.of_nat (length dest') = n ->
  principal_root n w -> ninv [*] castT n = r1 ->
  (exists y z, fft x n w = Some y /\ fft y n (powT w (n - 1)) = Some z /\
     scale_isize z n (identityOf w) = x) /\
  (exists y z, fft_rec dest 0 x 0 n w 1 = Some y /\
     fft_rec dest' 0 y 0 n (powT w (n - 1)) 1 = Some z /\
     scale_isize z n (identityOf w) = x).
Proof.
  intros n Lx Ld Ld' Hw Hinv.
  pose proof (principal_half_pow2 K w ninv Hw Hinv) as Hh.
  pose proof (reciprocal_half K w Hh) as Hh'.
  split.
  - destruct (fft_spec K x w Lx Hh) as (y & Ey & Ly & Py).
    destruct (fft_spec K y (powT w (n - 1))) as (z & Ez & Lz & Pz); [lia|exact Hh'|].
    exists y, z. split; [exact Ey|]. split; [exact Ez|].
    apply (round_trip_values K w ninv x y z); auto. lia.
  - destruct (fft_rec_spec K dest x w Ld Hh) as (y & Ey & Ly & Py).
    destruct (fft_rec_spec K dest' y (powT w (n - 1)) Ld' Hh') as (z & Ez & Lz & Pz).
    exists y, z. split; [exact Ey|]. split; [exact Ez|].
    apply (round_trip_values K w ninv x y z); auto. lia.
Qed.

End Claims.

(** * The claims on concrete inputs *)

(** [x^3 + 1] divided by [x + 1] over the integers. *)
Lemma quot_rem_division_identity_witness :
  let a : polynom Z := of_list [1; 0; 0; 1] in
  let b : polynom Z := of_list [1; 1] in
  wf a /\ wf b /\ 1 [*] leading_coeff b = r1 /\
  exists q r qb s,
    op_div a b = Some q /\ op_mod a b = Some r /\
    op_mul q b = Some qb /\ op_add qb r = Some s /\ eqb a s = true /\
    (0 < deg b -> deg r < deg b) /\
    (deg b = 0 -> size r = 0 /\ deg r = 0).
Proof.
  cbv zeta. split; [reflexivity|]. split; [reflexivity|]. split; [reflexivity|].
  apply (@quot_rem_division_identity Z ZCoeff ZCoeffLaws
           (of_list [1; 0; 0; 1]) (of_list [1; 1]) 1); reflexivity.
Defined.

(** The constant [5] divided by the constant [1]: the remainder is empty,
    and its degree, 0, is not below the degree of the divisor, 0. *)
Lemma remainder_degree_counterexample :
  let a : polynom Z := of_list [5] in
  let b : polynom Z := of_list [1] in
  wf a /\ wf b /\ 1 [*] leading_coeff b = r1 /\
  exists r, op_mod a b = Some r /\ ~ deg r < deg b.
Proof.
  cbv zeta. split; [reflexivity|]. split; [reflexivity|]. split; [reflexivity|].
  exists (Polynom 0 []). split; [reflexivity|]. vm_compute. discriminate.
Defined.

(** The inverse of [-1 + 2x + 3x^2] to four terms. *)
Lemma inverse_is_series_inverse_witness :
  let p : polynom Z := of_list [-1; 2; 3] in
  wf p /\ c p !! 0%nat = Some (-1) /\ (-1) [*] (-1) = r1 /\ 1 <= 4 /\
  exists R prod low,
    inverse p 4 = Some R /\
    (forall i, 0 <= i < 4 -> conv (at_ p) (at_ R) i = delta i) /\
    op_mul R p = Some prod /\ resize prod 4 = Some low /\
    eqb low (of_scalar r1) = true.
Proof.
  cbv zeta. split; [reflexivity|]. split; [reflexivity|]. split; [reflexivity|].
  split; [lia|].
  apply (@inverse_is_series_inverse Z ZCoeff ZCoeffLaws
           (of_list [-1; 2; 3]) 4 (-1) (-1)); try reflexivity. lia.
Defined.

(** Two random polynomials of degree 200 over the integers, with the full
    output length 400. *)
Lemma karatsuba_agrees_with_long_witness :
  let h : heap Z := [replicate 401 0; sample 201 1; sample 201 7] in
  mul_pre h (Ptr 0 0) 400 (Ptr 1 0) 200 (Ptr 2 0) 200 /\
  exists h',
    _mul_karatsuba _mul (Ptr 0 0) 400 (Ptr 1 0) 200 (Ptr 2 0) 200 h = Some (tt, h') /\
    _mul_long (Ptr 0 0) 400 (Ptr 1 0) 200 (Ptr 2 0) 200 h = Some (tt, h') /\
    forall i, 0 <= i <= 400 ->
      rd h' (Ptr 0 0) i = conv (ser h (Ptr 1 0) 200) (ser h (Ptr 2 0) 200) i.
Proof.
  cbv zeta.
  assert (Hpre : mul_pre ([replicate 401 0; sample 201 1; sample 201 7] : heap Z)
                   (Ptr 0 0) 400 (Ptr 1 0) 200 (Ptr 2 0) 200).
  { unfold mul_pre, valid, alias_ok.
    repeat split; try lia; try (vm_compute; congruence);
      try (left; cbn; congruence). }
  split; [exact Hpre|].
  apply (@karatsuba_agrees_with_long Z ZCoeff ZCoeffLaws _ _ _ _ _ _ _ Hpre); lia.
Defined.

(** The round trip of [1, 2, 3, 4] modulo 17 with the root 4 of order 4. *)
Lemma fft_round_trip_witness :
  let x := F17 [1; 2; 3; 4] in
  let w := Zmod.of_Z 17 4 in
  let ninv := Zmod.of_Z 17 13 in
  Z.of_nat (length x) = 2 ^ Z.of_nat 2 /\
  principal_root (2 ^ Z.of_nat 2) w /\ ninv [*] castT (2 ^ Z.of_nat 2) = r1 /\
  (exists y z, fft x (2 ^ Z.of_nat 2) w = Some y /\
     fft y (2 ^ Z.of_nat 2) (powT w (2 ^ Z.of_nat 2 - 1)) = Some z /\
     scale_isize z (2 ^ Z.of_nat 2) (identityOf w) = x) /\
  (exists y z, fft_rec x 0 x 0 (2 ^ Z.of_nat 2) w 1 = Some y /\
     fft_rec x 0 y 0 (2 ^ Z.of_nat 2) (powT w (2 ^ Z.of_nat 2 - 1)) 1 = Some z /\
     scale_isize z (2 ^ Z.of_nat 2) (identityOf w) = x).
Proof.
  cbv zeta.
  assert (Hw : principal_root (2 ^ Z.of_nat 2) (Zmod.of_Z 17 4)).
  { split; [apply Zmod.unsigned_inj; vm_compute; reflexivity|].
    intros e He. change (2 ^ Z.of_nat 2) with 4 in He.
    assert (e = 1 \/ e = 2 \/ e = 3) as [-> | [-> | ->]] by lia;
      apply Zmod.unsigned_inj; vm_compute; reflexivity. }
  assert (Hn : Zmod.of_Z 17 13 [*] castT (2 ^ Z.of_nat 2) = r1)
    by (apply Zmod.unsigned_inj; vm_compute; reflexivity).
  split; [reflexivity|]. split; [exact Hw|]. split; [exact Hn|].
  apply (@fft_round_trip (Zmod 17) (ZmodCoeff 17) Zmod17_laws 2
           (F17 [1; 2; 3; 4]) (F17 [1; 2; 3; 4]) (F17 [1; 2; 3; 4])
           (Zmod.of_Z 17 4) (Zmod.of_Z 17 13)); auto.
Defined.

(** The round trip of [1, 2, 3, 4] modulo 17 with the root 2, a principal
    root of unity of order 8: the result is [1, 4, 3, 2]. *)
Lemma fft_round_trip_counterexample :
  let x := F17 [1; 2; 3; 4] in
  let w := Zmod.of_Z 17 2 in
  Z.of_nat (length x) = 4 /\ principal_root 8 w /\ 4 <= 8 /\
  Zmod.of_Z 17 13 [*] castT 4 = r1 /\
  exists y z, fft x 4 w = Some y /\ fft y 4 (powT w (4 - 1)) = Some z /\
    map Zmod.to_Z (scale_isize z 4 (identityOf w)) = [1; 4; 3; 2] /\
    scale_isize z 4 (identityOf w) <> x.
Proof.
  cbv zeta. split; [reflexivity|]. split.
  { split; [apply Zmod.unsigned_inj; vm_compute; reflexivity|].
    intros e He.
    assert (e = 1 \/ e = 2 \/ e = 3 \/ e = 4 \/ e = 5 \/ e = 6 \/ e = 7)
      as [-> | [-> | [-> | [-> | [-> | [-> | ->]]]]]] by lia;
      apply Zmod.unsigned_inj; vm_compute; reflexivity. }
  split; [lia|]. split; [apply Zmod.unsigned_inj; vm_compute; reflexivity|].
  exists (F17 [10; 11; 15; 2]), (F17 [4; 16; 12; 8]).
  split; [apply F17_result; vm_compute; reflexivity|].
  split; [apply F17_result; vm_compute; reflexivity|].
  split; [vm_compute; reflexivity|].
  intros Heq. apply (f_equal (map Zmod.to_Z)) in Heq.
  vm_compute in Heq. discriminate.
Defined.

(** [reserve] and [resize] to five coefficients, and [shrink_to_fit], on
    [1 + 2x + 3x^2]. *)
Lemma reserve_pads_resize_cuts_witness :
  let p : polynom Z := of_list [1; 2; 3] in
  c (reserve p (Z.of_nat 5)) =
    c p ++ replicate (5 - length (c p)) (ZERO_COEFF p) /\
  resize p (Z.of_nat 5) =
    Some (Polynom (ZERO_COEFF p)
            (take 5 (c p) ++ replicate (5 - length (c p)) (ZERO_COEFF p))) /\
  size (shrink_to_fit p) = deg p + 1.
Proof.
  cbv zeta.
  exact (@reserve_pads_resize_cuts Z ZCoeff ZCoeffLaws (of_list [1; 2; 3]) 5).
Defined.

(** [resize(1)] on [1 + 2x + 3x^2] removes the stored coefficients 2 and 3. *)
Lemma resize_removes_coefficients_counterexample :
  let p : polynom Z := of_list [1; 2; 3] in
  c p = [1; 2; 3] /\ resize p 1 = Some (of_list [1]) /\
  c (of_list [1] : polynom Z) = [1].
Proof. cbv zeta. repeat split. Defined.

(** The square of [1 + x] and the product of [1 + x] and [1 + 2x]. *)
Lemma mul_alias_safe_witness :
  let P1 : polynom Z := of_list [1; 1] in
  let P2 : polynom Z := of_list [1; 2] in
  let R := Polynom (ZERO_COEFF P1)
             (product P1 P2 ((if -1 <? 0 then deg P1 + deg P2 else -1) + 1)) in
  wf P1 /\ wf P2 /\
  call [default_polynom; P1; P2] (mul 0 1 2 (-1)) 0 = Some R /\
  call [P1; P2] (mul 0 0 1 (-1)) 0 = Some R /\
  call [P1; P2] (mul 1 0 1 (-1)) 1 = Some R /\
  (P1 = P2 -> call [P1] (mul 0 0 0 (-1)) 0 = Some R).
Proof.
  cbv zeta. split; [reflexivity|]. split; [reflexivity|].
  apply (@mul_alias_safe Z ZCoeff ZCoeffLaws default_polynom
           (of_list [1; 1]) (of_list [1; 2]) (-1)); reflexivity.
Defined.

(** A buffer of three elements. *)
Lemma fft_not_power_of_two_unchanged_witness :
  0 <= 3 /\ (forall K : nat, 3 <> 2 ^ Z.of_nat K) /\
  fft [1; 2; 3] 3 2 = Some [1; 2; 3].
Proof.
  split; [lia|]. split; [exact three_not_pow2|].
  apply (@fft_not_power_of_two_unchanged Z ZCoeff [1; 2; 3] 3 2);
    [lia|exact three_not_pow2].
Defined.

(** [fft_rec] on three elements writes into the destination. *)
Lemma fft_rec_writes_counterexample :
  (forall K : nat, 3 <> 2 ^ Z.of_nat K) /\
  fft_rec [0; 0; 0] 0 [1; 2; 3] 0 3 1 1 = Some [3; -1; 0].
Proof. split; [exact three_not_pow2|reflexivity]. Defined.

(** The quotient of [1] by [x] and the remainder of [5] by [1] store no
    coefficient; [inverse] of that polynomial has no result. *)
Lemma inverse_of_empty_polynomial_witness :
  let p : polynom Z := Polynom 0 [] in
  op_div (of_list [1]) (of_list [0; 1]) = Some p /\
  op_mod (of_list [5]) (of_list [1]) = Some p /\
  c p = [] /\ at_ p 0 = ZERO_COEFF p /\ inverse p 3 = None.
Proof.
  cbv zeta. split; [reflexivity|]. split; [reflexivity|]. split; [reflexivity|].
  apply (@inverse_of_empty_polynomial Z ZCoeff (Polynom 0 []) 3). reflexivity.
Defined.

(** The inverse of [2x + 3x^2]. *)
Lemma inverse_zero_constant_term_witness :
  let p : polynom Z := of_list [0; 2; 3] in
  c p !! 0%nat = Some (ZERO_COEFF p) /\
  inverse p 4 = Some (of_list [ZERO_COEFF p]) /\
  (wf p -> forall i, at_ (of_list [ZERO_COEFF p]) i = r0).
Proof.
  cbv zeta. split; [reflexivity|].
  apply (@inverse_zero_constant_term Z ZCoeff ZCoeffLaws (of_list [0; 2; 3]) 4).
  reflexivity.
Defined.

(** [1 + 2x] divided by [1 + 2x + 3x^2], into a third object. *)
Lemma division_by_larger_degree_witness :
  let P1 : polynom Z := of_list [1; 2] in
  let P2 : polynom Z := of_list [1; 2; 3] in
  let s := [default_polynom; P1; P2] in
  deg P1 < deg P2 /\
  runs (div 0 1 2) s (fun _ s' => s' = <[0%nat := Polynom (ZERO_COEFF default_polynom) []]> s) /\
  runs (mod_ 0 1 2) s (fun _ s' => s' = <[0%nat := P1]> s) /\
  (forall i, at_ (Polynom (ZERO_COEFF (default_polynom : polynom Z)) []) i
             = ZERO_COEFF (default_polynom : polynom Z)) /\
  op_div P1 P2 = Some (Polynom (ZERO_COEFF P1) []) /\ op_mod P1 P2 = Some P1.
Proof.
  cbv zeta. split; [reflexivity|].
  apply (@division_by_larger_degree Z ZCoeff
           [default_polynom; of_list [1; 2]; of_list [1; 2; 3]] 0 1 2
           default_polynom (of_list [1; 2]) (of_list [1; 2; 3])); reflexivity.
Defined.

(** [x^3 + 1] divided by [x + 1], into a third object. *)
Lemma quot_rem_combined_buffer_witness :
  let P1 : polynom Z := of_list [1; 0; 0; 1] in
  let P2 : polynom Z := of_list [1; 1] in
  let s := [default_polynom; P1; P2] in
  wf P1 /\ wf P2 /\ deg P2 <= deg P1 /\ 1 [*] leading_coeff P2 = r1 /\
  exists X,
    runs (quot_rem 0 1 2) s (fun _ s' => s' = <[0%nat := X]> s) /\
    qr_buffer P1 P2 X /\
    runs (div 0 1 2) s (fun _ s' =>
      s' = <[0%nat := tabulate r0 (fun i => at_ X (i + deg P2)) (deg P1 - deg P2 + 1)]> s) /\
    runs (mod_ 0 1 2) s (fun _ s' =>
      s' = <[0%nat := tabulate r0 (at_ X) (deg P2)]> s).
Proof.
  cbv zeta. split; [reflexivity|]. split; [reflexivity|].
  split; [vm_compute; congruence|]. split; [reflexivity|].
  apply (@quot_rem_combined_buffer Z ZCoeff ZCoeffLaws
           [default_polynom; of_list [1; 0; 0; 1]; of_list [1; 1]] 0 1 2
           default_polynom (of_list [1; 0; 0; 1]) (of_list [1; 1]) 1);
    try reflexivity; try (vm_compute; congruence).
Defined.

Import Poly.

(** * Further properties of the polynomial operations *)

Section PolynomialAlgebra.
Context {T : Type} `{CoeffLaws T}.
Add Ring coeff_ring_algebra : coeff_ring.

Lemma tabulate_ext z (g g' : Z -> T) n :
  (forall i, 0 <= i < n -> g i = g' i) -> tabulate z g n = tabulate z g' n.
Proof.
  intros E. unfold tabulate. f_equal. apply list_eq. intros i.
  rewrite !list_lookup_fmap.
  destruct (Nat.lt_ge_cases i (Z.to_nat n)) as [Hi|Hi].
  - rewrite lookup_seq_lt by lia. simpl. f_equal. apply E. lia.
  - rewrite lookup_seq_ge by lia. reflexivity.
Qed.

(** The degree is determined by the coefficients. *)
Lemma deg_unique (p : polynom T) d :
  0 <= d -> (forall j, d < j -> at_ p j = ZERO_COEFF p) ->
  (0 < d -> at_ p d <> ZERO_COEFF p) -> deg p = d.
Proof.
  intros Hd Hz Hn. pose proof (deg_nonneg p) as Hp.
  destruct (Z.lt_trichotomy (deg p) d) as [Hlt|[E|Hgt]]; [|exact E|].
  - exfalso. apply Hn; [lia|]. now apply deg_above.
  - exfalso. apply (deg_nonzero p); [lia|]. now apply Hz.
Qed.

Lemma deg_ext (p q : polynom T) :
  ZERO_COEFF p = ZERO_COEFF q -> (forall i, at_ p i = at_ q i) -> deg p = deg q.
Proof.
  intros Hz E. apply deg_unique.
  - apply deg_nonneg.
  - intros j Hj. rewrite E, Hz. now apply deg_above.
  - intros Hd. rewrite E, Hz. now apply deg_nonzero.
Qed.

Lemma deg_zero_poly (p : polynom T) :
  (forall j, 0 < j -> at_ p j = ZERO_COEFF p) -> deg p = 0.
Proof. intros Hz. apply deg_unique; [lia|exact Hz|lia]. Qed.

Lemma at_shrink_to_fit (p : polynom T) i : at_ (shrink_to_fit p) i = at_ p i.
Proof.
  pose proof (deg_nonneg p) as Hd.
  destruct (Z_lt_le_dec i 0); [now rewrite !at_neg by lia|].
  rewrite (at_lookup (shrink_to_fit p)) by lia. unfold shrink_to_fit. cbn [c ZERO_COEFF].
  rewrite vresize_lookup.
  destruct (Nat.ltb_spec (Z.to_nat i) (Z.to_nat (deg p + 1))).
  - rewrite at_lookup by lia. reflexivity.
  - simpl. symmetry. apply deg_above. lia.
Qed.

Lemma deg_shrink_to_fit (p : polynom T) : deg (shrink_to_fit p) = deg p.
Proof. apply deg_ext; [reflexivity|apply at_shrink_to_fit]. Qed.

Lemma at_op_add (a b : polynom T) :
  wf a -> wf b ->
  exists s, op_add a b = Some s /\ wf s /\ forall i, at_ s i = at_ a i [+] at_ b i.
Proof.
  intros Wa Wb. rewrite op_add_spec by (now rewrite Wa, Wb). rewrite Wa.
  eexists. split; [reflexivity|]. split; [reflexivity|].
  intros i. apply (at_binop radd); auto. ring.
Qed.

Lemma at_op_sub (a b : polynom T) :
  wf a -> wf b ->
  exists s, op_sub a b = Some s /\ wf s /\ forall i, at_ s i = at_ a i [-] at_ b i.
Proof.
  intros Wa Wb. rewrite op_sub_spec by (now rewrite Wa, Wb). rewrite Wa.
  eexists. split; [reflexivity|]. split; [reflexivity|].
  intros i. apply (at_binop rsub); auto. ring.
Qed.

Lemma at_op_mul (a b : polynom T) :
  wf a -> wf b ->
  exists m, op_mul a b = Some m /\ wf m /\ size m = deg a + deg b + 1 /\
    forall i, at_ m i = conv (at_ a) (at_ b) i.
Proof.
  intros Wa Wb. rewrite op_mul_spec by auto. rewrite Wa.
  pose proof (deg_nonneg a). pose proof (deg_nonneg b).
  eexists. split; [reflexivity|]. split; [reflexivity|].
  split; [apply size_tabulate; lia|].
  intros i. now apply at_full_product.
Qed.

Lemma shrink_tabulate (p : polynom T) :
  shrink_to_fit p = tabulate (ZERO_COEFF p) (at_ p) (deg p + 1).
Proof.
  apply polynom_ext; [reflexivity|apply shrink_to_fit_size|].
  intros i Hi. apply at_shrink_to_fit.
Qed.

(** X1: [deg()] is the highest index that holds a coefficient other than the
    contextual zero, and 0 when there is none: it lies within the stored
    coefficients, everything above it reads as the contextual zero, the
    coefficient at a positive degree is not the contextual zero, and any
    index with these properties is the degree. *)
Theorem deg_is_highest_nonzero (p : polynom T) :
  0 <= deg p <= Z.max 0 (size p - 1) /\
  (forall j, deg p < j -> at_ p j = ZERO_COEFF p) /\
  (0 < deg p -> at_ p (deg p) <> ZERO_COEFF p) /\
  (forall d, 0 <= d -> (forall j, d < j -> at_ p j = ZERO_COEFF p) ->
     (0 < d -> at_ p d <> ZERO_COEFF p) -> deg p = d).
Proof.
  split; [split; [apply deg_nonneg|apply deg_bound]|].
  split; [apply deg_above|]. split; [apply deg_nonzero|].
  intros d. apply deg_unique.
Qed.

(** X2: [operator ==], through [cmp], holds exactly when the two
    polynomials have the same coefficient at every index: stored trailing
    zeros and the sizes play no part. *)
Theorem equality_is_coefficientwise (p1 p2 : polynom T) :
  wf p1 -> wf p2 ->
  (eqb p1 p2 = true <-> forall i, at_ p1 i = at_ p2 i).
Proof. apply eqb_spec. Qed.

(** X3: [shrink_to_fit()] changes no coefficient and not the degree; the
    result compares equal to the polynomial, and shrinking again changes
    nothing. *)
Theorem shrink_to_fit_keeps_value (p : polynom T) :
  (forall i, at_ (shrink_to_fit p) i = at_ p i) /\
  deg (shrink_to_fit p) = deg p /\
  shrink_to_fit (shrink_to_fit p) = shrink_to_fit p /\
  (wf p -> eqb p (shrink_to_fit p) = true).
Proof.
  split; [apply at_shrink_to_fit|]. split; [apply deg_shrink_to_fit|]. split.
  - rewrite (shrink_tabulate (shrink_to_fit p)), deg_shrink_to_fit.
    change (ZERO_COEFF (shrink_to_fit p)) with (ZERO_COEFF p).
    symmetry. rewrite (shrink_tabulate p) at 1. apply tabulate_ext.
    intros i Hi. symmetry. apply at_shrink_to_fit.
  - intros W. apply eqb_spec; [exact W|exact W|].
    intros i. symmetry. apply at_shrink_to_fit.
Qed.

(** X4: [add(pr, p1, p2)] and [sub(pr, p1, p2)] give the same polynomial,
    the coefficientwise sum or difference with [max(l1, l2) + 1]
    coefficients, whether the output is a distinct object, the object [p1],
    the object [p2], or both. *)
Theorem add_sub_alias_safe (PR P1 P2 : polynom T) :
  ZERO_COEFF P2 = ZERO_COEFF P1 ->
  let n := Z.max (deg P1) (deg P2) + 1 in
  let S := tabulate (ZERO_COEFF P1) (fun i => at_ P1 i [+] at_ P2 i) n in
  let D := tabulate (ZERO_COEFF P1) (fun i => at_ P1 i [-] at_ P2 i) n in
  (call [PR; P1; P2] (add 0 1 2) 0 = Some S /\
   call [P1; P2] (add 0 0 1) 0 = Some S /\
   call [P1; P2] (add 1 0 1) 1 = Some S /\
   (P1 = P2 -> call [P1] (add 0 0 0) 0 = Some S)) /\
  (call [PR; P1; P2] (sub 0 1 2) 0 = Some D /\
   call [P1; P2] (sub 0 0 1) 0 = Some D /\
   call [P1; P2] (sub 1 0 1) 1 = Some D /\
   (P1 = P2 -> call [P1] (sub 0 0 0) 0 = Some D)).
Proof.
  intros Hz n S D. split; repeat split.
  - apply call_runs; [simpl; lia|]. apply (add_spec [PR; P1; P2] 0 1 2 PR P1 P2); auto.
  - apply call_runs; [simpl; lia|]. apply (add_spec [P1; P2] 0 0 1 P1 P1 P2); auto.
  - apply call_runs; [simpl; lia|]. apply (add_spec [P1; P2] 1 0 1 P2 P1 P2); auto.
  - intros <-. apply call_runs; [simpl; lia|]. apply (add_spec [P1] 0 0 0 P1 P1 P1); auto.
  - apply call_runs; [simpl; lia|]. apply (sub_spec [PR; P1; P2] 0 1 2 PR P1 P2); auto.
  - apply call_runs; [simpl; lia|]. apply (sub_spec [P1; P2] 0 0 1 P1 P1 P2); auto.
  - apply call_runs; [simpl; lia|]. apply (sub_spec [P1; P2] 1 0 1 P2 P1 P2); auto.
  - intros <-. apply call_runs; [simpl; lia|]. apply (sub_spec [P1] 0 0 0 P1 P1 P1); auto.
Qed.

(** X5: [operator *] is commutative, with the very same result object, and
    associative up to [operator ==]. *)
Theorem mul_commutative_associative (a b x : polynom T) :
  wf a -> wf b -> wf x ->
  op_mul a b = op_mul b a /\
  exists ab bx l r,
    op_mul a b = Some ab /\ op_mul ab x = Some l /\
    op_mul b x = Some bx /\ op_mul a bx = Some r /\ eqb l r = true.
Proof.
  intros Wa Wb Wx. split.
  - rewrite !op_mul_spec by auto. rewrite Wa, Wb. f_equal.
    replace (deg b + deg a + 1) with (deg a + deg b + 1) by lia.
    apply tabulate_ext. intros i Hi. apply conv_comm.
  - destruct (at_op_mul a b Wa Wb) as (ab & Eab & Wab & _ & Aab).
    destruct (at_op_mul ab x Wab Wx) as (l & El & Wl & _ & Al).
    destruct (at_op_mul b x Wb Wx) as (bx & Ebx & Wbx & _ & Abx).
    destruct (at_op_mul a bx Wa Wbx) as (r & Er & Wr & _ & Ar).
    exists ab, bx, l, r. repeat split; auto.
    apply eqb_spec; auto. intros i. rewrite Al, Ar.
    rewrite (conv_ext (at_ ab) (conv (at_ a) (at_ b)) (at_ x) (at_ x) i)
      by (intros; auto).
    rewrite (conv_ext (at_ a) (at_ a) (at_ bx) (conv (at_ b) (at_ x)) i)
      by (intros; auto).
    apply conv_assoc.
Qed.

(** X6: [operator *] distributes over [operator +] up to [operator ==]:
    [a * (b + x) == a * b + a * x]. *)
Theorem mul_distributes_over_add (a b x : polynom T) :
  wf a -> wf b -> wf x ->
  exists s l ab ax r,
    op_add b x = Some s /\ op_mul a s = Some l /\
    op_mul a b = Some ab /\ op_mul a x = Some ax /\ op_add ab ax = Some r /\
    eqb l r = true.
Proof.
  intros Wa Wb Wx.
  destruct (at_op_add b x Wb Wx) as (s & Es & Ws & As).
  destruct (at_op_mul a s Wa Ws) as (l & El & Wl & _ & Al).
  destruct (at_op_mul a b Wa Wb) as (ab & Eab & Wab & _ & Aab).
  destruct (at_op_mul a x Wa Wx) as (ax & Eax & Wax & _ & Aax).
  destruct (at_op_add ab ax Wab Wax) as (r & Er & Wr & Ar).
  exists s, l, ab, ax, r. repeat split; auto.
  apply eqb_spec; auto. intros i. rewrite Al, Ar, Aab, Aax.
  rewrite (conv_ext (at_ a) (at_ a) (at_ s) (sadd (at_ b) (at_ x)) i)
    by (intros; unfold sadd; auto).
  apply conv_add_r.
Qed.

Lemma deg_op_mul (a b : polynom T) :
  wf a -> wf b ->
  exists m, op_mul a b = Some m /\ size m = deg a + deg b + 1 /\
    deg m <= deg a + deg b /\
    at_ m (deg a + deg b) = leading_coeff a [*] leading_coeff b /\
    (leading_coeff a [*] leading_coeff b <> r0 -> deg m = deg a + deg b).
Proof.
  intros Wa Wb. destruct (at_op_mul a b Wa Wb) as (m & Em & Wm & Sm & Am).
  pose proof (deg_nonneg a) as Ha. pose proof (deg_nonneg b) as Hb.
  exists m. split; [exact Em|]. split; [exact Sm|].
  assert (Htop : at_ m (deg a + deg b) = leading_coeff a [*] leading_coeff b).
  { rewrite Am. unfold conv, leading_coeff.
    rewrite (sumZ_single 0 (deg a + deg b) (deg a)); [|lia|].
    - do 2 f_equal. lia.
    - intros j Hj Hne. destruct (Z_lt_le_dec (deg a) j).
      + rewrite (at_outside a j) by (auto; lia). ring.
      + rewrite (at_outside b (deg a + deg b - j)) by (auto; lia). ring. }
  split; [pose proof (deg_bound m); lia|]. split; [exact Htop|].
  intros Hnz. apply deg_unique; [lia| |].
  - intros j Hj. rewrite Wm, Am. apply conv_beyond; auto.
  - intros _. rewrite Htop, Wm. exact Hnz.
Qed.

(** X7: the product [a * b] has [deg a + deg b + 1] coefficients, so its
    degree is at most [deg a + deg b]; its coefficient at [deg a + deg b] is
    the product of the leading coefficients, and where that product is not
    zero the degree is exactly [deg a + deg b]. *)
Theorem product_degree (a b : polynom T) :
  wf a -> wf b ->
  exists m, op_mul a b = Some m /\ size m = deg a + deg b + 1 /\
    deg m <= deg a + deg b /\
    at_ m (deg a + deg b) = leading_coeff a [*] leading_coeff b /\
    (leading_coeff a [*] leading_coeff b <> r0 -> deg m = deg a + deg b).
Proof. apply deg_op_mul. Qed.

(** X8: on operand arrays [p1[0..l1]], [p2[0..l2]] of any two lengths and an
    output [pr[0..lr]] of any length that lies in another buffer or
    coincides with an operand, [_mul] returns, leaves in [pr[0..lr]] the
    first [lr + 1] coefficients of the product, zero above [l1 + l2], and
    changes nothing else in memory. *)
Theorem mul_kernel_contract (h : heap T) pr lr p1 l1 p2 l2 :
  mul_pre h pr lr p1 l1 p2 l2 ->
  exists h', _mul pr lr p1 l1 p2 l2 h = Some (tt, h') /\
    (forall i, 0 <= i <= lr -> rd h' pr i = conv (ser h p1 l1) (ser h p2 l2) i) /\
    (forall i, l1 + l2 < i <= lr -> rd h' pr i = r0) /\
    modifies h h' (blk pr) (off pr) (off pr + lr).
Proof.
  intros Hpre.
  destruct (_mul_spec _ _ _ _ _ _ _ Hpre) as ([] & h' & E & Hm & Hv).
  exists h'. split; [exact E|]. split; [exact Hv|]. split; [|exact Hm].
  intros i Hi. destruct Hpre as (_ & Hl1 & Hl2 & _).
  rewrite Hv by lia. apply conv_high. lia.
Qed.

Lemma at_op_mul_scalar (p : polynom T) (v : T) :
  wf p ->
  exists m, op_mul_scalar p v = Some m /\ wf m /\ size m = deg p + 1 /\
    forall i, at_ m i = at_ p i [*] v.
Proof.
  intros Wp. pose proof (deg_nonneg p) as Hd.
  exists (tabulate (ZERO_COEFF p) (fun i => at_ p i [*] v) (deg p + 1)).
  split.
  { unfold op_mul_scalar. apply call_runs; [simpl; lia|].
    apply (mul_scalar_spec [p] 0 0 v p p); reflexivity. }
  split; [exact Wp|]. split; [apply size_tabulate; lia|].
  intros i. rewrite at_tabulate, Wp.
  destruct (Z.leb_spec 0 i), (Z.ltb_spec i (deg p + 1)); simpl; try reflexivity;
    rewrite at_outside by (auto; lia); ring.
Qed.

Lemma at_op_div_scalar (p : polynom T) (v d : T) :
  wf p -> d [*] v = r1 ->
  exists q, op_div_scalar p v = Some q /\ wf q /\ size q = deg p + 1 /\
    forall i, at_ q i = at_ p i [*] d.
Proof.
  intros Wp Hd. pose proof (deg_nonneg p) as Hdeg.
  rewrite op_div_scalar_spec. eexists. split; [reflexivity|].
  split; [exact Wp|]. split; [apply size_tabulate; lia|].
  intros i. rewrite at_tabulate, Wp.
  destruct (Z.leb_spec 0 i), (Z.ltb_spec i (deg p + 1)); simpl;
    try (rewrite at_outside by (auto; lia); ring).
  now apply rdiv_unit.
Qed.

(** X9: multiplying a polynomial by an invertible scalar and dividing the
    result by the same scalar gives back every coefficient: the round trip
    compares equal to the polynomial. *)
Theorem scalar_mul_div_round_trip (p : polynom T) (v d : T) :
  wf p -> d [*] v = r1 ->
  exists m q, op_mul_scalar p v = Some m /\ op_div_scalar m v = Some q /\
    (forall i, at_ m i = at_ p i [*] v) /\
    (forall i, at_ q i = at_ p i) /\ eqb q p = true.
Proof.
  intros Wp Hd.
  destruct (at_op_mul_scalar p v Wp) as (m & Em & Wm & _ & Am).
  destruct (at_op_div_scalar m v d Wm Hd) as (q & Eq & Wq & _ & Aq).
  exists m, q. split; [exact Em|]. split; [exact Eq|]. split; [exact Am|].
  assert (A : forall i, at_ q i = at_ p i).
  { intros i. rewrite Aq, Am.
    transitivity (at_ p i [*] (d [*] v)); [ring|]. rewrite Hd. ring. }
  split; [exact A|]. now apply eqb_spec.
Qed.

Lemma std_reverse_involutive {A} (l : list A) n :
  0 <= n <= Z.of_nat (length l) -> std_reverse (std_reverse l n) n = l.
Proof.
  intros Hn. unfold std_reverse.
  assert (L : length (list.reverse (take (Z.to_nat n) l)) = Z.to_nat n).
  { rewrite length_reverse, length_take. lia. }
  rewrite take_app_length' by (symmetry; exact L). rewrite drop_app_length' by (symmetry; exact L).
  rewrite reverse_involutive. apply take_drop.
Qed.

(** X10: [reverse()] mirrors the coefficients [0 .. deg]: it keeps the
    number of stored coefficients and puts the coefficient [deg - j] at
    [j]; when the constant term is not zero the degree is kept and
    reversing twice gives the polynomial back. *)
Theorem reverse_mirrors_coefficients (p : polynom T) :
  wf p ->
  size (reverse p) = size p /\
  (forall j, 0 <= j -> at_ (reverse p) j = at_ p (deg p - j)) /\
  (at_ p 0 <> r0 -> deg (reverse p) = deg p /\ reverse (reverse p) = p).
Proof.
  intros Wp. pose proof (deg_nonneg p) as Hd. pose proof (size_nonneg p) as Hs.
  assert (Hsz : size (reverse p) = size p).
  { unfold reverse. destruct (Z.ltb_spec 0 (size p)); [|reflexivity].
    pose proof (deg_lt_size p ltac:(lia)) as Hlt.
    unfold size in *. cbn [c]. unfold std_reverse.
    rewrite length_app, length_reverse, length_take, length_drop. lia. }
  split; [exact Hsz|]. split; [intros j Hj; now apply at_reverse|].
  intros Hnz.
  assert (Hpos : 0 < size p).
  { destruct (Z.ltb_spec 0 (size p)); [assumption|].
    exfalso. apply Hnz. rewrite at_ge by lia. exact Wp. }
  pose proof (deg_lt_size p Hpos) as Hlt.
  assert (Hdeg : deg (reverse p) = deg p).
  { apply deg_unique; [lia| |].
    - intros j Hj. rewrite at_reverse by (auto; lia).
      rewrite (wf_reverse p Wp). rewrite at_neg by lia. exact Wp.
    - intros _. rewrite at_reverse by (auto; lia).
      rewrite (wf_reverse p Wp). now replace (deg p - deg p) with 0 by lia. }
  split; [exact Hdeg|].
  unfold reverse at 1. rewrite Hsz.
  destruct (Z.ltb_spec 0 (size p)); [|lia]. rewrite Hdeg.
  unfold reverse. destruct (Z.ltb_spec 0 (size p)); [|lia]. cbn [c ZERO_COEFF].
  rewrite std_reverse_involutive by (unfold size in *; lia).
  now destruct p.
Qed.

(** X11: [is_power()] holds exactly for the monomials [x^k] with
    coefficient 1: the polynomials with a 1 at one index and zero at every
    other index. *)
Theorem is_power_iff_monomial (p : polynom T) :
  wf p ->
  (is_power p = true <->
   exists k, 0 <= k /\ forall i, at_ p i = if i =? k then r1 else r0).
Proof.
  intros Wp. pose proof (deg_nonneg p) as Hd. pose proof (size_nonneg p) as Hs. split.
  - intros Hp. exists (deg p). split; [exact Hd|]. now apply is_power_spec.
  - intros (k & Hk & A).
    assert (Hlow : lowest p = 0 \/
              (0 <= lowest p < size p /\ at_ p (lowest p) <> r0 /\
               forall j, 0 <= j < lowest p -> at_ p j = r0)).
    { unfold lowest.
      destruct (lowest_loop_spec p (Z.to_nat (size p)) 0) as [(Hr & Hn & Hz)|(E & _)].
      - right. rewrite Z2Nat.id in Hr by lia. split; [lia|]. split.
        + rewrite at_in by lia. now rewrite <- Wp.
        + intros j Hj. rewrite at_in by lia. rewrite <- Wp. apply Hz. lia.
      - now left. }
    unfold is_power, leading_coeff, id_coeff, identityOf.
    destruct (req r0 r1) eqn:E01.
    + apply req_true in E01.
      assert (Hdz : deg p = 0).
      { apply deg_zero_poly. intros; now apply trivial_ring. }
      assert (Hlz : lowest p = 0).
      { destruct Hlow as [E|(_ & Hn & _)]; [exact E|].
        exfalso. apply Hn. now apply trivial_ring. }
      rewrite Hlz, Hdz. simpl. rewrite (trivial_ring (at_ p 0) r1 E01). apply req_refl.
    + apply req_false in E01.
      assert (Hdk : deg p = k).
      { apply deg_unique; [exact Hk| |].
        - intros j Hj. rewrite A, Wp. destruct (Z.eqb_spec j k); [lia|reflexivity].
        - intros _. rewrite A, Z.eqb_refl, Wp. congruence. }
      assert (Hlk : lowest p = k).
      { assert (Hks : k < size p).
        { destruct (Z_lt_le_dec k (size p)); [assumption|].
          exfalso. pose proof (A k) as Ak. rewrite Z.eqb_refl, at_ge, Wp in Ak by lia.
          congruence. }
        destruct Hlow as [E|(Hr & Hn & Hz)].
        - destruct (Z.eq_dec k 0) as [->|Hk0]; [exact E|].
          exfalso. destruct (lowest_loop_spec p (Z.to_nat (size p)) 0)
            as [(Hr & Hn & Hz)|(_ & Hall)].
          + fold (lowest p) in *. rewrite E in *.
            apply Hn. rewrite <- at_in by lia. rewrite A, Wp.
            destruct (Z.eqb_spec 0 k); [lia|reflexivity].
          + specialize (Hall k ltac:(lia)). rewrite <- at_in in Hall by lia.
            rewrite A, Z.eqb_refl, Wp in Hall. congruence.
        - destruct (Z.lt_trichotomy (lowest p) k) as [Hlt|[E|Hgt]]; [|exact E|].
          + exfalso. apply Hn. rewrite A. destruct (Z.eqb_spec (lowest p) k); [lia|reflexivity].
          + exfalso. specialize (Hz k ltac:(lia)). rewrite A, Z.eqb_refl in Hz. congruence. }
      rewrite Hlk, Hdk, Z.eqb_refl, A, Z.eqb_refl. simpl. apply req_refl.
Qed.

(** X12: the element access [p[i]] on a polynomial that is not const first
    grows the storage to [i + 1] coefficients with contextual zeros.  After
    [p[i] = v] a read of [p[j]] gives [v] at [j = i] and the former
    coefficient elsewhere; a mere read [p[i]] of an index beyond the
    storage returns the contextual zero and leaves [max(size, i + 1)] stored
    coefficients with all values unchanged. *)
Theorem element_write_then_read (s : pstore T) (r : nat) (p : polynom T) i j v :
  s !! r = Some p -> 0 <= i ->
  runs (assign r i v ;; at_ref r j) s (fun x s' =>
    x = (if j =? i then v else at_ p j) /\
    exists p', s' = <[r := p']> s /\ size p' = Z.max (size p) (i + 1) /\
      forall n, at_ p' n = if n =? i then v else at_ p n) /\
  runs (subscript r i) s (fun x s' =>
    x = at_ p i /\
    exists p', s' = <[r := p']> s /\ size p' = Z.max (size p) (i + 1) /\
      forall n, at_ p' n = at_ p n).
Proof.
  intros Hr Hi. pose proof (lookup_lt s r p Hr) as Hlen. split.
  - apply runs_bind. eapply runs_assign; eauto.
    eapply runs_at_ref.
    + apply list_lookup_insert_eq. exact Hlen.
    + split; [now apply at_pset|].
      exists (pset p i v). split; [reflexivity|]. split; [apply pset_size|].
      intros n. now apply at_pset.
  - eapply runs_subscript; eauto. split; [reflexivity|].
    exists (reserve p (i + 1)). split; [reflexivity|]. split; [apply reserve_size|].
    intros n. apply at_reserve.
Qed.

Lemma at_op_neg (a : polynom T) :
  wf a -> exists n, op_neg a = Some n /\ wf n /\ forall i, at_ n i = [~] at_ a i.
Proof.
  intros Wa. pose proof (deg_nonneg a) as Hd.
  exists (tabulate (ZERO_COEFF a) (fun i => [~] at_ a i) (deg a + 1)). split.
  { unfold op_neg. apply call_runs; [simpl; lia|].
    apply (neg_spec [a] 0 0 a a); reflexivity. }
  split; [exact Wa|].
  intros i. rewrite at_tabulate, Wa.
  destruct (Z.leb_spec 0 i), (Z.ltb_spec i (deg a + 1)); simpl; try reflexivity;
    rewrite at_outside by (auto; lia); ring.
Qed.

(** X13: unary minus gives the additive inverse: [a + (-a)] has every
    coefficient zero, [-(-a) == a], and [a - b == a + (-b)]. *)
Theorem neg_is_additive_inverse (a b : polynom T) :
  wf a -> wf b ->
  exists na z nna nb s d,
    op_neg a = Some na /\ op_add a na = Some z /\ (forall i, at_ z i = r0) /\
    op_neg na = Some nna /\ eqb nna a = true /\
    op_neg b = Some nb /\ op_add a nb = Some s /\ op_sub a b = Some d /\
    eqb d s = true.
Proof.
  intros Wa Wb.
  destruct (at_op_neg a Wa) as (na & Ena & Wna & Ana).
  destruct (at_op_add a na Wa Wna) as (z & Ez & Wz & Az).
  destruct (at_op_neg na Wna) as (nna & Enna & Wnna & Anna).
  destruct (at_op_neg b Wb) as (nb & Enb & Wnb & Anb).
  destruct (at_op_add a nb Wa Wnb) as (s & Es & Ws & As).
  destruct (at_op_sub a b Wa Wb) as (d & Ed & Wd & Ad).
  exists na, z, nna, nb, s, d. repeat split; auto.
  - intros i. rewrite Az, Ana. ring.
  - apply eqb_spec; auto. intros i. rewrite Anna, Ana. ring.
  - apply eqb_spec; auto. intros i. rewrite Ad, As, Anb. ring.
Qed.

Lemma div_scalar_single (z x v : T) :
  op_div_scalar (Polynom z [x]) v = Some (Polynom z [x [/] v]).
Proof. rewrite op_div_scalar_spec. reflexivity. Qed.

Lemma newton_nonpositive (p : polynom T) L :
  L <= 0 -> newton p L = Some (Polynom r0 [r1]).
Proof.
  intros HL. unfold newton. replace (Z.to_nat (2 * L)) with 0%nat by lia.
  cbn [Nat.add newton_loop]. destruct (Z.ltb_spec 1 (L * 2)); [lia|]. reflexivity.
Qed.

(** X14: with a bound [L <= 0] the loop of [inverse] does not run: for a
    polynomial with an invertible constant term [c0] the result is the one
    coefficient [1 / c0]. *)
Theorem inverse_nonpositive_bound (p : polynom T) (L : Z) (c0 d : T) :
  wf p -> c p !! 0%nat = Some c0 -> d [*] c0 = r1 -> L <= 0 ->
  inverse p L = Some (Polynom r0 [d]).
Proof.
  intros Wp E0 Hd HL. unfold inverse. rewrite inverse_fuel_S, E0.
  destruct (req c0 (ZERO_COEFF p)) eqn:Ez.
  { apply req_true in Ez. rewrite Wp in Ez. subst c0.
    assert (E01 : r0 = r1) by (rewrite <- Hd; ring).
    unfold of_list, make_zero, zeroOf. do 3 f_equal. now apply trivial_ring. }
  destruct (req c0 (id_coeff p)) eqn:E1; cbn [negb].
  { apply req_true in E1. unfold id_coeff, identityOf in E1. subst c0.
    rewrite newton_nonpositive by exact HL. do 3 f_equal.
    rewrite <- Hd. ring. }
  rewrite op_div_scalar_spec.
  set (q := tabulate (ZERO_COEFF p) (fun i => at_ p i [/] c0) (deg p + 1)).
  pose proof (deg_nonneg p) as Hdeg.
  assert (Eq0 : c q !! 0%nat = Some r1).
  { unfold q, tabulate. cbn [c]. rewrite list_lookup_fmap, lookup_seq_lt by lia.
    simpl. change (Z.of_nat 0) with 0. rewrite (at_cons0 p c0 E0).
    rewrite (rdiv_unit c0 c0 d Hd). f_equal. rewrite <- Hd. ring. }
  rewrite inverse_fuel_S, Eq0.
  change (ZERO_COEFF q) with (ZERO_COEFF p). rewrite Wp.
  destruct (req r1 r0) eqn:E10.
  { apply req_true in E10. unfold of_list, make_zero, zeroOf.
    rewrite div_scalar_single. do 3 f_equal. now apply trivial_ring. }
  unfold id_coeff, identityOf. rewrite req_refl. cbn [negb].
  rewrite newton_nonpositive by exact HL. rewrite div_scalar_single.
  do 3 f_equal. rewrite (rdiv_unit r1 c0 d Hd). ring.
Qed.

Lemma inverse_one_upto (p : polynom T) L (n : nat) :
  wf p -> c p !! 0%nat = Some r1 -> 1 <= L ->
  exists R, inverse_fuel (S n) p L = Some R /\ inv_upto p R L.
Proof.
  intros Wp E0 HL. rewrite inverse_fuel_S, E0.
  destruct (req r1 (ZERO_COEFF p)) eqn:Ez.
  - apply req_true in Ez. rewrite Wp in Ez.
    eexists; split; [reflexivity|]. split; [reflexivity|].
    split; intros; now apply trivial_ring.
  - unfold id_coeff, identityOf. rewrite req_refl. simpl.
    apply (newton_spec p L Wp E0 HL).
Qed.

Lemma inverse_unit_upto (p : polynom T) L c0 d :
  wf p -> c p !! 0%nat = Some c0 -> d [*] c0 = r1 -> 1 <= L ->
  exists R, inverse p L = Some R /\ inv_upto p R L.
Proof.
  intros Wp E0 Hd HL. unfold inverse. rewrite inverse_fuel_S, E0.
  destruct (req c0 (ZERO_COEFF p)) eqn:Ez.
  { apply req_true in Ez. rewrite Wp in Ez. subst c0.
    assert (r0 = r1) by (rewrite <- Hd; ring).
    eexists; split; [reflexivity|]. split; [reflexivity|].
    split; intros; now apply trivial_ring. }
  destruct (req c0 (id_coeff p)) eqn:E1; cbn [negb].
  { apply req_true in E1. unfold id_coeff, identityOf in E1. subst c0.
    apply (newton_spec p L Wp E0 HL). }
  rewrite op_div_scalar_spec.
  set (q := tabulate (ZERO_COEFF p) (fun i => at_ p i [/] c0) (deg p + 1)).
  pose proof (deg_nonneg p) as Hdeg.
  assert (Aq : forall i, at_ q i = sscal d (at_ p) i).
  { intros i. unfold q, sscal. rewrite at_tabulate.
    destruct (Z.leb_spec 0 i), (Z.ltb_spec i (deg p + 1)); simpl.
    - now apply rdiv_unit.
    - rewrite Wp, at_outside by (auto; lia). ring.
    - rewrite Wp, at_outside by (auto; lia). ring.
    - rewrite Wp, at_outside by (auto; lia). ring. }
  assert (Eq0 : c q !! 0%nat = Some r1).
  { unfold q, tabulate. cbn [c]. rewrite list_lookup_fmap, lookup_seq_lt by lia.
    simpl. change (Z.of_nat 0) with 0. rewrite (at_cons0 p c0 E0).
    rewrite (rdiv_unit c0 c0 d Hd). f_equal. rewrite <- Hd. ring. }
  destruct (inverse_one_upto q L 0 Wp Eq0 HL) as (R' & -> & WR' & BR' & HR').
  destruct (at_op_div_scalar R' c0 d WR' Hd) as (R & -> & WR & _ & AR).
  exists R. split; [reflexivity|]. split; [exact WR|]. split.
  - intros i Hi. rewrite AR, BR' by exact Hi. ring.
  - intros i Hi.
    rewrite (conv_ext _ (at_ p) _ (sscal d (at_ R')) i); [|reflexivity|].
    + rewrite conv_scal_r, <- (conv_scal_l d).
      rewrite <- HR' by lia. apply conv_ext; intros; [symmetry; apply Aq|reflexivity].
    + intros j Hj. apply AR.
Qed.

(** X15: for an invertible constant term and [L >= 1], [inverse(L)]
    returns a polynomial of degree below [L], with no coefficient from
    index [L] on, and its coefficients below [L] are those of every series
    [S] with [(p * S)[i] = [i = 0]] for [i < L]: the truncated inverse is
    unique. *)
Theorem inverse_is_the_truncated_inverse (p : polynom T) (L : Z) (c0 d : T) :
  wf p -> c p !! 0%nat = Some c0 -> d [*] c0 = r1 -> 1 <= L ->
  exists R, inverse p L = Some R /\
    (forall i, L <= i -> at_ R i = r0) /\ deg R < L /\
    forall S : Z -> T,
      (forall i, 0 <= i < L -> conv (at_ p) S i = delta i) ->
      forall i, 0 <= i < L -> S i = at_ R i.
Proof.
  intros Wp E0 Hd HL.
  destruct (inverse_unit_upto p L c0 d Wp E0 Hd HL) as (R & ER & WR & BR & HR).
  exists R. split; [exact ER|]. split; [exact BR|]. split.
  - destruct (Z_lt_le_dec (deg R) L) as [Hlt|Hge]; [exact Hlt|].
    exfalso. apply (deg_nonzero R); [lia|]. rewrite WR. apply BR. lia.
  - intros S HS i Hi.
    rewrite <- (conv_delta_r S i) by lia.
    rewrite (conv_ext S S delta (conv (at_ p) (at_ R)) i);
      [|reflexivity|intros j Hj; symmetry; apply HR; lia].
    rewrite <- conv_assoc.
    rewrite (conv_ext (conv S (at_ p)) delta (at_ R) (at_ R) i);
      [|intros j Hj; rewrite conv_comm; apply HS; lia|reflexivity].
    apply conv_delta_l. lia.
Qed.

(** The combined buffer of a division is determined by the operands. *)
Lemma qr_buffer_unique (P1 P2 X X' : polynom T) d :
  wf P2 -> deg P2 <= deg P1 -> d [*] at_ P2 (deg P2) = r1 ->
  qr_buffer P1 P2 X -> qr_buffer P1 P2 X' ->
  forall n, at_ X n = at_ X' n.
Proof.
  intros W2 Hle Hd (WX & BX & EX) (WX' & BX' & EX').
  pose proof (deg_nonneg P2) as H2.
  set (l1 := deg P1) in *. set (l2 := deg P2) in *.
  assert (Diff : forall n,
    sumZ 0 (l1 - l2) (fun j => (at_ X (j + l2) [-] at_ X' (j + l2)) [*] at_ P2 (n - j))
    [+] ((if (0 <=? n) && (n <? l2) then at_ X n else r0)
         [-] (if (0 <=? n) && (n <? l2) then at_ X' n else r0)) = r0).
  { intros n.
    rewrite (sumZ_ext _ _ _ (fun j => at_ X (j + l2) [*] at_ P2 (n - j)
                                      [-] at_ X' (j + l2) [*] at_ P2 (n - j)))
      by (intros; ring).
    rewrite sumZ_sub. pose proof (EX n) as E1. pose proof (EX' n) as E2.
    rewrite E1 in E2.
    match goal with
    | |- ?a [-] ?b [+] (?u [-] ?v) = _ =>
        transitivity ((a [+] u) [-] (b [+] v)); [ring|]
    end.
    rewrite E2. ring. }
  assert (Hi : forall k : nat, forall m, l1 - Z.of_nat k < m -> l2 <= m ->
             at_ X m = at_ X' m).
  { induction k as [|k IH]; intros m Hm Hm2.
    - rewrite BX, BX' by lia. reflexivity.
    - destruct (Z_lt_le_dec (l1 - Z.of_nat k) m) as [Hgt|Hle']; [now apply IH|].
      pose proof (Diff m) as Dm.
      destruct (Z.ltb_spec m l2); [lia|]. rewrite andb_false_r in Dm.
      rewrite (sumZ_single 0 (l1 - l2) (m - l2)) in Dm; [|lia|].
      + replace (m - l2 + l2) with m in Dm by lia.
        replace (m - (m - l2)) with l2 in Dm by lia.
        assert (Ez : at_ X m [-] at_ X' m = r0).
        { transitivity ((at_ X m [-] at_ X' m) [*] (d [*] at_ P2 l2)).
          - rewrite Hd. ring.
          - transitivity (d [*] ((at_ X m [-] at_ X' m) [*] at_ P2 l2 [+] (r0 [-] r0)));
              [ring|]. rewrite Dm. ring. }
        transitivity (at_ X m [-] at_ X' m [+] at_ X' m); [ring|]. rewrite Ez. ring.
      + intros j Hj Hne. destruct (Z_lt_le_dec (m - l2) j).
        * rewrite (IH (j + l2)) by lia. ring.
        * rewrite (at_outside P2 (m - j)) by (auto; fold l2; lia). ring. }
  assert (Hq : forall m, l2 <= m -> at_ X m = at_ X' m).
  { intros m Hm. apply (Hi (Z.to_nat (l1 - m + 1))); lia. }
  intros n. destruct (Z_lt_le_dec n 0) as [Hn|Hn].
  { rewrite !at_neg by lia. now rewrite WX, WX'. }
  destruct (Z_lt_le_dec n l2) as [Hlt|Hge]; [|now apply Hq].
  pose proof (Diff n) as Dn.
  destruct (Z.leb_spec 0 n); [|lia]. destruct (Z.ltb_spec n l2); [|lia].
  cbn [andb] in Dn. rewrite sumZ_zero in Dn.
  - transitivity (r0 [+] (at_ X n [-] at_ X' n) [+] at_ X' n); [ring|]. rewrite Dn. ring.
  - intros j Hj. rewrite (Hq (j + l2)) by lia. ring.
Qed.

(** X16: on the same objects, with a divisor of degree at least 1 and at
    most the degree of the dividend and an invertible leading coefficient,
    the long division and the division by Newton inversion of the reversed
    divisor both return and leave in [pr] buffers with the same coefficient
    at every index. *)
Theorem long_and_hensel_division_agree (s : pstore T) (pr p1 p2 : nat) PR P1 P2 d :
  s !! pr = Some PR -> s !! p1 = Some P1 -> s !! p2 = Some P2 -> pr <> p2 ->
  wf P1 -> wf P2 -> 1 <= deg P2 <= deg P1 -> d [*] leading_coeff P2 = r1 ->
  exists X X',
    runs (quot_rem_long pr p1 p2) s (fun _ s' => s' = <[pr := X]> s) /\
    runs (quot_rem_hensel pr p1 p2) s (fun _ s' => s' = <[pr := X']> s) /\
    (forall n, at_ X n = at_ X' n) /\ eqb X X' = true.
Proof.
  intros Er E1 E2 Hne W1 W2 Hdeg Hd. unfold leading_coeff in Hd.
  destruct (quot_rem_long_spec s pr p1 p2 PR P1 P2 d Er E1 E2 Hne W1 W2 ltac:(lia) Hd)
    as ([] & s1 & R1 & X & -> & HX).
  destruct (quot_rem_hensel_spec s pr p1 p2 PR P1 P2 d Er E1 E2 Hne W1 W2 Hdeg Hd)
    as ([] & s2 & R2 & X' & -> & HX').
  exists X, X'. split; [exists tt; eauto|]. split; [exists tt; eauto|].
  assert (A : forall n, at_ X n = at_ X' n).
  { apply (qr_buffer_unique P1 P2 X X' d); auto. lia. }
  split; [exact A|]. apply eqb_spec; auto.
  - apply HX.
  - apply HX'.
Qed.

Lemma quot_rem_power s (pr p1 p2 : nat) PR P1 P2 :
  s !! pr = Some PR -> s !! p1 = Some P1 -> s !! p2 = Some P2 -> pr <> p2 ->
  is_power P2 = true ->
  runs (quot_rem pr p1 p2) s (fun _ s' => s' = <[pr := P1]> s).
Proof.
  intros Er E1 E2 Hne Hp. unfold quot_rem.
  eapply runs_obj; [exact E1|]. eapply runs_obj; [exact E2|].
  assert (Lr := lookup_lt _ _ _ Er).
  destruct (_ || _ || _ || _).
  - unfold quot_rem_long.
    eapply runs_obj; [exact E1|]. eapply runs_obj; [exact E2|].
    apply runs_bind, runs_set_obj; [exact Lr|].
    eapply runs_obj; [apply lookup_insert_obj; eauto|].
    destruct (decide (p2 = pr)); [congruence|]. rewrite Hp, orb_true_r.
    now apply runs_ret.
  - unfold quot_rem_hensel.
    eapply runs_obj; [exact E1|]. eapply runs_obj; [exact E2|].
    apply runs_bind, runs_set_obj; [exact Lr|].
    eapply runs_obj; [apply lookup_insert_obj; eauto|].
    destruct (decide (p2 = pr)); [congruence|]. rewrite Hp, orb_true_r.
    now apply runs_ret.
Qed.

(** X17: when the divisor is a monomial [x^k] ([is_power]) of degree at
    most that of the dividend, [quot_rem] leaves a copy of the dividend in
    the output, whatever the output held before; [div] leaves the dividend
    shifted down by [k] places and [mod] its first [k] coefficients, and
    so do [operator /] and [operator %]. *)
Theorem division_by_monomial (s : pstore T) (pr p1 p2 : nat) PR P1 P2 :
  s !! pr = Some PR -> s !! p1 = Some P1 -> s !! p2 = Some P2 -> pr <> p2 ->
  wf P1 -> is_power P2 = true -> deg P2 <= deg P1 ->
  runs (quot_rem pr p1 p2) s (fun _ s' => s' = <[pr := P1]> s) /\
  runs (div pr p1 p2) s (fun _ s' =>
    s' = <[pr := tabulate r0 (fun i => at_ P1 (i + deg P2)) (deg P1 - deg P2 + 1)]> s) /\
  runs (mod_ pr p1 p2) s (fun _ s' =>
    s' = <[pr := tabulate r0 (at_ P1) (deg P2)]> s) /\
  op_div P1 P2
    = Some (tabulate r0 (fun i => at_ P1 (i + deg P2)) (deg P1 - deg P2 + 1)) /\
  op_mod P1 P2 = Some (tabulate r0 (at_ P1) (deg P2)).
Proof.
  intros Er E1 E2 Hne W1 Hp Hle.
  pose proof (quot_rem_power s pr p1 p2 PR P1 P2 Er E1 E2 Hne Hp) as Hq.
  split; [exact Hq|]. split; [|split; [|split]].
  - rewrite <- W1. now apply (div_extract s pr p1 p2 PR P1 P2 P1).
  - rewrite <- W1. now apply (mod_extract s pr p1 p2 PR P1 P2 P1).
  - apply call_runs; [simpl; lia|]. rewrite <- W1.
    eapply (div_extract [P1; P2] 0 0 1 P1 P1 P2 P1); auto.
    apply (quot_rem_power [P1; P2] 0 0 1 P1 P1 P2); auto.
  - apply call_runs; [simpl; lia|]. rewrite <- W1.
    eapply (mod_extract [P1; P2] 0 0 1 P1 P1 P2 P1); auto.
    apply (quot_rem_power [P1; P2] 0 0 1 P1 P1 P2); auto.
Qed.

End PolynomialAlgebra.

(** ** The properties on examples over the integers *)

(** [1 + 2x] stored with a trailing zero. *)
Lemma deg_is_highest_nonzero_witness :
  let p : polynom Z := of_list [1; 2; 0] in
  0 <= deg p <= Z.max 0 (size p - 1) /\
  (forall j, deg p < j -> at_ p j = ZERO_COEFF p) /\
  (0 < deg p -> at_ p (deg p) <> ZERO_COEFF p) /\
  (forall d, 0 <= d -> (forall j, d < j -> at_ p j = ZERO_COEFF p) ->
     (0 < d -> at_ p d <> ZERO_COEFF p) -> deg p = d).
Proof.
  cbv zeta. exact (@deg_is_highest_nonzero Z ZCoeff ZCoeffLaws (of_list [1; 2; 0])).
Defined.

(** [1 + 2x] with and without a stored trailing zero. *)
Lemma equality_is_coefficientwise_witness :
  let p1 : polynom Z := of_list [1; 2] in
  let p2 : polynom Z := of_list [1; 2; 0] in
  wf p1 /\ wf p2 /\ (eqb p1 p2 = true <-> forall i, at_ p1 i = at_ p2 i).
Proof.
  cbv zeta. split; [reflexivity|]. split; [reflexivity|].
  apply (@equality_is_coefficientwise Z ZCoeff ZCoeffLaws
           (of_list [1; 2]) (of_list [1; 2; 0])); reflexivity.
Defined.

Lemma shrink_to_fit_keeps_value_witness :
  let p : polynom Z := of_list [1; 2; 0; 0] in
  (forall i, at_ (shrink_to_fit p) i = at_ p i) /\
  deg (shrink_to_fit p) = deg p /\
  shrink_to_fit (shrink_to_fit p) = shrink_to_fit p /\
  (wf p -> eqb p (shrink_to_fit p) = true).
Proof.
  cbv zeta.
  exact (@shrink_to_fit_keeps_value Z ZCoeff ZCoeffLaws (of_list [1; 2; 0; 0])).
Defined.

(** [1 + 2x] and [3 + 4x + 5x^2]. *)
Lemma add_sub_alias_safe_witness :
  let PR : polynom Z := of_list [9] in
  let P1 : polynom Z := of_list [1; 2] in
  let P2 : polynom Z := of_list [3; 4; 5] in
  ZERO_COEFF P2 = ZERO_COEFF P1 /\
  let n := Z.max (deg P1) (deg P2) + 1 in
  let S := tabulate (ZERO_COEFF P1) (fun i => at_ P1 i [+] at_ P2 i) n in
  let D := tabulate (ZERO_COEFF P1) (fun i => at_ P1 i [-] at_ P2 i) n in
  (call [PR; P1; P2] (add 0 1 2) 0 = Some S /\
   call [P1; P2] (add 0 0 1) 0 = Some S /\
   call [P1; P2] (add 1 0 1) 1 = Some S /\
   (P1 = P2 -> call [P1] (add 0 0 0) 0 = Some S)) /\
  (call [PR; P1; P2] (sub 0 1 2) 0 = Some D /\
   call [P1; P2] (sub 0 0 1) 0 = Some D /\
   call [P1; P2] (sub 1 0 1) 1 = Some D /\
   (P1 = P2 -> call [P1] (sub 0 0 0) 0 = Some D)).
Proof.
  cbv zeta. split; [reflexivity|].
  apply (@add_sub_alias_safe Z ZCoeff ZCoeffLaws
           (of_list [9]) (of_list [1; 2]) (of_list [3; 4; 5])); reflexivity.
Defined.

Lemma mul_commutative_associative_witness :
  let a : polynom Z := of_list [1; 2] in
  let b : polynom Z := of_list [3; 0; 1] in
  let x : polynom Z := of_list [-1; 1] in
  wf a /\ wf b /\ wf x /\
  op_mul a b = op_mul b a /\
  exists ab bx l r,
    op_mul a b = Some ab /\ op_mul ab x = Some l /\
    op_mul b x = Some bx /\ op_mul a bx = Some r /\ eqb l r = true.
Proof.
  cbv zeta. split; [reflexivity|]. split; [reflexivity|]. split; [reflexivity|].
  apply (@mul_commutative_associative Z ZCoeff ZCoeffLaws
           (of_list [1; 2]) (of_list [3; 0; 1]) (of_list [-1; 1])); reflexivity.
Defined.

Lemma mul_distributes_over_add_witness :
  let a : polynom Z := of_list [1; 2] in
  let b : polynom Z := of_list [3; 0; 1] in
  let x : polynom Z := of_list [-1; 1] in
  wf a /\ wf b /\ wf x /\
  exists s l ab ax r,
    op_add b x = Some s /\ op_mul a s = Some l /\
    op_mul a b = Some ab /\ op_mul a x = Some ax /\ op_add ab ax = Some r /\
    eqb l r = true.
Proof.
  cbv zeta. split; [reflexivity|]. split; [reflexivity|]. split; [reflexivity|].
  apply (@mul_distributes_over_add Z ZCoeff ZCoeffLaws
           (of_list [1; 2]) (of_list [3; 0; 1]) (of_list [-1; 1])); reflexivity.
Defined.

Lemma product_degree_witness :
  let a : polynom Z := of_list [1; 2] in
  let b : polynom Z := of_list [3; 0; 1] in
  wf a /\ wf b /\
  exists m, op_mul a b = Some m /\ size m = deg a + deg b + 1 /\
    deg m <= deg a + deg b /\
    at_ m (deg a + deg b) = leading_coeff a [*] leading_coeff b /\
    (leading_coeff a [*] leading_coeff b <> r0 -> deg m = deg a + deg b).
Proof.
  cbv zeta. split; [reflexivity|]. split; [reflexivity|].
  apply (@product_degree Z ZCoeff ZCoeffLaws (of_list [1; 2]) (of_list [3; 0; 1]));
    reflexivity.
Defined.

(** A first operand shorter than the second and an output longer than the
    product. *)
Lemma mul_kernel_contract_witness :
  let h : heap Z := [replicate 6 0; [4; 5]; [1; 2; 3]] in
  mul_pre h (Ptr 0 0) 5 (Ptr 1 0) 1 (Ptr 2 0) 2 /\
  exists h', _mul (Ptr 0 0) 5 (Ptr 1 0) 1 (Ptr 2 0) 2 h = Some (tt, h') /\
    (forall i, 0 <= i <= 5 ->
       rd h' (Ptr 0 0) i = conv (ser h (Ptr 1 0) 1) (ser h (Ptr 2 0) 2) i) /\
    (forall i, 1 + 2 < i <= 5 -> rd h' (Ptr 0 0) i = r0) /\
    modifies h h' (blk (Ptr 0 0)) (off (Ptr 0 0)) (off (Ptr 0 0) + 5).
Proof.
  cbv zeta.
  assert (Hpre : mul_pre ([replicate 6 0; [4; 5]; [1; 2; 3]] : heap Z)
                   (Ptr 0 0) 5 (Ptr 1 0) 1 (Ptr 2 0) 2).
  { unfold mul_pre, valid, alias_ok.
    repeat split; try lia; try (vm_compute; congruence);
      try (left; cbn; congruence). }
  split; [exact Hpre|].
  apply (@mul_kernel_contract Z ZCoeff ZCoeffLaws _ _ _ _ _ _ _ Hpre).
Defined.

Lemma scalar_mul_div_round_trip_witness :
  let p : polynom Z := of_list [1; 2; 3] in
  wf p /\ (-1) [*] (-1) = r1 /\
  exists m q, op_mul_scalar p (-1) = Some m /\ op_div_scalar m (-1) = Some q /\
    (forall i, at_ m i = at_ p i [*] (-1)) /\
    (forall i, at_ q i = at_ p i) /\ eqb q p = true.
Proof.
  cbv zeta. split; [reflexivity|]. split; [reflexivity|].
  apply (@scalar_mul_div_round_trip Z ZCoeff ZCoeffLaws (of_list [1; 2; 3]) (-1) (-1));
    reflexivity.
Defined.

Lemma reverse_mirrors_coefficients_witness :
  let p : polynom Z := of_list [1; 2; 3; 0] in
  wf p /\
  size (reverse p) = size p /\
  (forall j, 0 <= j -> at_ (reverse p) j = at_ p (deg p - j)) /\
  (at_ p 0 <> r0 -> deg (reverse p) = deg p /\ reverse (reverse p) = p).
Proof.
  cbv zeta. split; [reflexivity|].
  apply (@reverse_mirrors_coefficients Z ZCoeff ZCoeffLaws (of_list [1; 2; 3; 0]));
    reflexivity.
Defined.

Lemma is_power_iff_monomial_witness :
  let p : polynom Z := of_list [0; 0; 1; 0] in
  wf p /\
  (is_power p = true <->
   exists k, 0 <= k /\ forall i, at_ p i = if i =? k then r1 else r0).
Proof.
  cbv zeta. split; [reflexivity|].
  apply (@is_power_iff_monomial Z ZCoeff ZCoeffLaws (of_list [0; 0; 1; 0])); reflexivity.
Defined.

(** A write and a read two places beyond the stored coefficients. *)
Lemma element_write_then_read_witness :
  let p : polynom Z := of_list [1; 2] in
  let s : pstore Z := [p] in
  s !! 0%nat = Some p /\ 0 <= 3 /\
  runs (assign 0 3 7 ;; at_ref 0 3) s (fun x s' =>
    x = (if 3 =? 3 then 7 else at_ p 3) /\
    exists p', s' = <[0%nat := p']> s /\ size p' = Z.max (size p) (3 + 1) /\
      forall n, at_ p' n = if n =? 3 then 7 else at_ p n) /\
  runs (subscript 0 3) s (fun x s' =>
    x = at_ p 3 /\
    exists p', s' = <[0%nat := p']> s /\ size p' = Z.max (size p) (3 + 1) /\
      forall n, at_ p' n = at_ p n).
Proof.
  cbv zeta. split; [reflexivity|]. split; [lia|].
  apply (@element_write_then_read Z ZCoeff
           [of_list [1; 2]] 0 (of_list [1; 2]) 3 3 7); [reflexivity|lia].
Defined.

Lemma neg_is_additive_inverse_witness :
  let a : polynom Z := of_list [1; 2; 3] in
  let b : polynom Z := of_list [4; 5] in
  wf a /\ wf b /\
  exists na z nna nb s d,
    op_neg a = Some na /\ op_add a na = Some z /\ (forall i, at_ z i = r0) /\
    op_neg na = Some nna /\ eqb nna a = true /\
    op_neg b = Some nb /\ op_add a nb = Some s /\ op_sub a b = Some d /\
    eqb d s = true.
Proof.
  cbv zeta. split; [reflexivity|]. split; [reflexivity|].
  apply (@neg_is_additive_inverse Z ZCoeff ZCoeffLaws (of_list [1; 2; 3]) (of_list [4; 5]));
    reflexivity.
Defined.

Lemma inverse_nonpositive_bound_witness :
  let p : polynom Z := of_list [-1; 2; 3] in
  wf p /\ c p !! 0%nat = Some (-1) /\ (-1) [*] (-1) = r1 /\ 0 <= 0 /\
  inverse p 0 = Some (Polynom r0 [-1]).
Proof.
  cbv zeta. split; [reflexivity|]. split; [reflexivity|]. split; [reflexivity|].
  split; [lia|].
  apply (@inverse_nonpositive_bound Z ZCoeff ZCoeffLaws (of_list [-1; 2; 3]) 0 (-1) (-1));
    try reflexivity; lia.
Defined.

Lemma inverse_is_the_truncated_inverse_witness :
  let p : polynom Z := of_list [-1; 2; 3] in
  wf p /\ c p !! 0%nat = Some (-1) /\ (-1) [*] (-1) = r1 /\ 1 <= 4 /\
  exists R, inverse p 4 = Some R /\
    (forall i, 4 <= i -> at_ R i = r0) /\ deg R < 4 /\
    forall S : Z -> Z,
      (forall i, 0 <= i < 4 -> conv (at_ p) S i = delta i) ->
      forall i, 0 <= i < 4 -> S i = at_ R i.
Proof.
  cbv zeta. split; [reflexivity|]. split; [reflexivity|]. split; [reflexivity|].
  split; [lia|].
  apply (@inverse_is_the_truncated_inverse Z ZCoeff ZCoeffLaws
           (of_list [-1; 2; 3]) 4 (-1) (-1)); try reflexivity; lia.
Defined.

(** [x^3 + 1] divided by [x + 1]. *)
Lemma long_and_hensel_division_agree_witness :
  let P1 : polynom Z := of_list [1; 0; 0; 1] in
  let P2 : polynom Z := of_list [1; 1] in
  let s := [default_polynom; P1; P2] in
  wf P1 /\ wf P2 /\ 1 <= deg P2 <= deg P1 /\ 1 [*] leading_coeff P2 = r1 /\
  exists X X',
    runs (quot_rem_long 0 1 2) s (fun _ s' => s' = <[0%nat := X]> s) /\
    runs (quot_rem_hensel 0 1 2) s (fun _ s' => s' = <[0%nat := X']> s) /\
    (forall n, at_ X n = at_ X' n) /\ eqb X X' = true.
Proof.
  cbv zeta. split; [reflexivity|]. split; [reflexivity|].
  split; [split; vm_compute; congruence|]. split; [reflexivity|].
  apply (@long_and_hensel_division_agree Z ZCoeff ZCoeffLaws
           [default_polynom; of_list [1; 0; 0; 1]; of_list [1; 1]] 0 1 2
           default_polynom (of_list [1; 0; 0; 1]) (of_list [1; 1]) 1);
    try reflexivity; try (vm_compute; congruence); try lia;
    try (split; vm_compute; congruence).
Defined.

(** [1 + 2x + 3x^2 + 4x^3] divided by [x^2], into an object that holds
    [9 + 9x]. *)
Lemma division_by_monomial_witness :
  let PR : polynom Z := of_list [9; 9] in
  let P1 : polynom Z := of_list [1; 2; 3; 4] in
  let P2 : polynom Z := of_list [0; 0; 1] in
  let s := [PR; P1; P2] in
  wf P1 /\ is_power P2 = true /\ deg P2 <= deg P1 /\
  runs (quot_rem 0 1 2) s (fun _ s' => s' = <[0%nat := P1]> s) /\
  runs (div 0 1 2) s (fun _ s' =>
    s' = <[0%nat := tabulate r0 (fun i => at_ P1 (i + deg P2)) (deg P1 - deg P2 + 1)]> s) /\
  runs (mod_ 0 1 2) s (fun _ s' =>
    s' = <[0%nat := tabulate r0 (at_ P1) (deg P2)]> s) /\
  op_div P1 P2
    = Some (tabulate r0 (fun i => at_ P1 (i + deg P2)) (deg P1 - deg P2 + 1)) /\
  op_mod P1 P2 = Some (tabulate r0 (at_ P1) (deg P2)).
Proof.
  cbv zeta. split; [reflexivity|]. split; [reflexivity|].
  split; [vm_compute; congruence|].
  apply (@division_by_monomial Z ZCoeff ZCoeffLaws
           [of_list [9; 9]; of_list [1; 2; 3; 4]; of_list [0; 0; 1]] 0 1 2
           (of_list [9; 9]) (of_list [1; 2; 3; 4]) (of_list [0; 0; 1]));
    try reflexivity; try (vm_compute; congruence); lia.
Defined.

Import Poly.

Section CalculusLaws.
Context {T : Type} `{CoeffLaws T}.
Add Ring coeff_ring_calculus : coeff_ring.

Lemma castT_0 : (castT 0 : T) = r0.
Proof. reflexivity. Qed.

Lemma castT_add a b :
  0 <= a -> 0 <= b -> (castT (a + b) : T) = castT a [+] castT b.
Proof.
  intros Ha Hb. rewrite !castT_nonneg by lia.
  rewrite Z2Nat.inj_add by lia. apply cast_nat_add.
Qed.

Lemma derivative_loop_zero (p : polynom T) : forall (n : nat) i r,
  ZERO_COEFF (derivative_loop p n i r) = ZERO_COEFF r.
Proof.
  induction n as [|n IH]; intros i r; simpl; [reflexivity|].
  rewrite IH. apply pset_zero.
Qed.

Lemma derivative_loop_at (p : polynom T) : forall (n : nat) i r j,
  i = Z.of_nat n ->
  at_ (derivative_loop p n i r) j =
  if (0 <=? j) && (j <? i) then vget (c p) (j + 1) [*] castT (j + 1) else at_ r j.
Proof.
  induction n as [|n IH]; intros i r j Hi; simpl.
  - destruct (Z.leb_spec 0 j), (Z.ltb_spec j i); simpl; try reflexivity. lia.
  - rewrite IH by lia. rewrite at_pset by lia.
    destruct (Z.leb_spec 0 j), (Z.ltb_spec j (i - 1)), (Z.ltb_spec j i),
      (Z.eqb_spec j (i - 1)); simpl; try reflexivity; try lia.
    subst j. now replace (i - 1 + 1) with i by lia.
Qed.

Lemma derivative_loop_size (p : polynom T) : forall (n : nat) i r,
  i = Z.of_nat n -> size (derivative_loop p n i r) = Z.max (size r) i.
Proof.
  induction n as [|n IH]; intros i r Hi; simpl.
  - pose proof (size_nonneg r). lia.
  - rewrite IH by lia. rewrite pset_size. lia.
Qed.

Lemma wf_derivative (p : polynom T) : wf (derivative p).
Proof.
  unfold derivative, wf. destruct (size p =? 0); [reflexivity|].
  now rewrite derivative_loop_zero.
Qed.

Lemma at_derivative (p : polynom T) j :
  wf p -> at_ (derivative p) j = at_ p (j + 1) [*] castT (j + 1).
Proof.
  intros Wp. pose proof (deg_nonneg p) as Hd. pose proof (size_nonneg p) as Hs.
  assert (Hr : at_ (of_scalar (ZERO_COEFF p)) j = r0).
  { unfold of_scalar. rewrite at_single, Wp. now destruct (j =? 0). }
  unfold derivative. destruct (Z.eqb_spec (size p) 0) as [E|E].
  - rewrite Hr.
    destruct (Z_lt_le_dec (j + 1) 0);
      [rewrite (at_neg p) by lia|rewrite (at_ge p) by lia]; rewrite Wp; ring.
  - rewrite derivative_loop_at by lia. rewrite Hr.
    destruct (Z.leb_spec 0 j), (Z.ltb_spec j (deg p)); simpl.
    + rewrite at_in; [reflexivity|]. pose proof (deg_lt_size p ltac:(lia)). lia.
    + rewrite (at_outside p) by (auto; lia). ring.
    + destruct (Z.eq_dec j (-1)) as [->|Hne].
      * change (-1 + 1) with 0. rewrite castT_0. ring.
      * rewrite (at_outside p) by (auto; lia). ring.
    + destruct (Z.eq_dec j (-1)) as [->|Hne].
      * change (-1 + 1) with 0. rewrite castT_0. ring.
      * rewrite (at_outside p) by (auto; lia). ring.
Qed.

Lemma integral_loop_zero (p : polynom T) : forall (n : nat) i r,
  ZERO_COEFF (integral_loop p n i r) = ZERO_COEFF r.
Proof.
  induction n as [|n IH]; intros i r; simpl; [reflexivity|].
  rewrite IH. apply pset_zero.
Qed.

Lemma integral_loop_at (p : polynom T) : forall (n : nat) i r j,
  i + 1 = Z.of_nat n ->
  at_ (integral_loop p n i r) j =
  if (1 <=? j) && (j <=? i + 1) then vget (c p) (j - 1) [/] castT j else at_ r j.
Proof.
  induction n as [|n IH]; intros i r j Hi; simpl.
  - destruct (Z.leb_spec 1 j), (Z.leb_spec j (i + 1)); simpl; try reflexivity. lia.
  - rewrite IH by lia. rewrite at_pset by lia.
    destruct (Z.leb_spec 1 j), (Z.leb_spec j (i - 1 + 1)), (Z.leb_spec j (i + 1)),
      (Z.eqb_spec j (i + 1)); simpl; try reflexivity; try lia.
    subst j. now replace (i + 1 - 1) with i by lia.
Qed.

Lemma integral_loop_size (p : polynom T) : forall (n : nat) i r,
  i + 1 = Z.of_nat n -> 1 <= size r ->
  size (integral_loop p n i r) = Z.max (size r) (i + 2).
Proof.
  induction n as [|n IH]; intros i r Hi Hr; simpl.
  - lia.
  - rewrite IH by (rewrite ?pset_size; lia). rewrite pset_size. lia.
Qed.

Lemma wf_integral (p : polynom T) c0 : wf (integral p c0).
Proof.
  unfold integral, wf. destruct (size p =? 0); [reflexivity|].
  now rewrite integral_loop_zero.
Qed.

Lemma at_integral (p : polynom T) c0 j :
  wf p -> 0 < size p ->
  at_ (integral p c0) j =
  if j =? 0 then c0
  else if (1 <=? j) && (j <=? deg p + 1) then at_ p (j - 1) [/] castT j else r0.
Proof.
  intros Wp Hs. pose proof (deg_nonneg p) as Hd.
  pose proof (deg_lt_size p Hs) as Hlt.
  unfold integral. destruct (Z.eqb_spec (size p) 0) as [E|E]; [lia|].
  rewrite integral_loop_at by lia. unfold of_scalar. rewrite at_single.
  destruct (Z.eqb_spec j 0) as [->|Hj]; [reflexivity|].
  destruct (Z.leb_spec 1 j), (Z.leb_spec j (deg p + 1)); simpl; try reflexivity.
  rewrite at_in by lia. reflexivity.
Qed.

(** X18: [derivative()] returns [max(1, deg)] coefficients, the
    coefficient at [j] being the coefficient at [j + 1] times [j + 1]; the
    derivative of a constant is the zero polynomial. *)
Theorem derivative_coefficients (p : polynom T) :
  wf p ->
  size (derivative p) = Z.max 1 (deg p) /\
  (forall j, at_ (derivative p) j = at_ p (j + 1) [*] castT (j + 1)) /\
  (deg p = 0 -> forall j, at_ (derivative p) j = r0).
Proof.
  intros Wp. pose proof (deg_nonneg p) as Hd. split; [|split].
  - unfold derivative. destruct (Z.eqb_spec (size p) 0) as [E|E].
    + rewrite (deg_empty p E). reflexivity.
    + rewrite derivative_loop_size by lia. reflexivity.
  - intros j. now apply at_derivative.
  - intros Hd0 j. rewrite at_derivative by exact Wp.
    destruct (Z.eq_dec j (-1)) as [->|Hne].
    + change (-1 + 1) with 0. rewrite castT_0. ring.
    + rewrite (at_outside p) by (auto; lia). ring.
Qed.

(** X19: the derivative is linear and satisfies the product rule:
    [(a + b)' == a' + b'] and [(a * b)' == a' * b + a * b']. *)
Theorem derivative_sum_and_product_rule (a b : polynom T) :
  wf a -> wf b ->
  exists s m l r t,
    op_add a b = Some s /\ op_add (derivative a) (derivative b) = Some t /\
    eqb (derivative s) t = true /\
    op_mul a b = Some m /\ op_mul (derivative a) b = Some l /\
    op_mul a (derivative b) = Some r /\
    exists lr, op_add l r = Some lr /\ eqb (derivative m) lr = true.
Proof.
  intros Wa Wb.
  pose proof (wf_derivative a) as Wda. pose proof (wf_derivative b) as Wdb.
  destruct (at_op_add a b Wa Wb) as (s & Es & Ws & As).
  destruct (at_op_add _ _ Wda Wdb) as (t & Et & Wt & At).
  destruct (at_op_mul a b Wa Wb) as (m & Em & Wm & _ & Am).
  destruct (at_op_mul _ b Wda Wb) as (l & El & Wl & _ & Al).
  destruct (at_op_mul a _ Wa Wdb) as (r & Er & Wr & _ & Ar).
  destruct (at_op_add l r Wl Wr) as (lr & Elr & Wlr & Alr).
  exists s, m, l, r, t. repeat split; auto.
  { apply eqb_spec; [apply wf_derivative|exact Wt|].
    intros j. rewrite At, !at_derivative, As by auto. ring. }
  exists lr. split; [exact Elr|].
  apply eqb_spec; [apply wf_derivative|exact Wlr|].
  intros n. rewrite at_derivative, Am, Alr, Al, Ar by auto.
  destruct (Z_lt_le_dec n 0) as [Hn|Hn].
  { rewrite !(conv_neg _ _ n) by lia.
    destruct (Z.eq_dec n (-1)) as [->|Hne].
    - change (-1 + 1) with 0. rewrite castT_0. ring.
    - rewrite conv_neg by lia. ring. }
  unfold conv.
  (* the first product, with the index moved by one *)
  assert (E1 : sumZ 0 n (fun j => at_ (derivative a) j [*] at_ b (n - j)) =
               sumZ 0 (n + 1) (fun j => (at_ a j [*] at_ b (n + 1 - j)) [*] castT j)).
  { rewrite (sumZ_first 0 (n + 1)) by lia. rewrite castT_0.
    rewrite (sumZ_shift 1 0 n). replace (0 + 1) with 1 by lia.
    transitivity (r0 [+] sumZ 1 (n + 1)
                    (fun j => at_ (derivative a) (j - 1) [*] at_ b (n - (j - 1))));
      [ring|].
    transitivity (r0 [+] sumZ 1 (n + 1)
                    (fun j => (at_ a j [*] at_ b (n + 1 - j)) [*] castT j)); [|ring].
    f_equal. apply sumZ_ext. intros j Hj. rewrite at_derivative by auto.
    replace (j - 1 + 1) with j by lia. replace (n - (j - 1)) with (n + 1 - j) by lia.
    ring. }
  assert (E2 : sumZ 0 n (fun j => at_ a j [*] at_ (derivative b) (n - j)) =
               sumZ 0 (n + 1)
                 (fun j => (at_ a j [*] at_ b (n + 1 - j)) [*] castT (n + 1 - j))).
  { rewrite (sumZ_last 0 (n + 1)) by lia.
    replace (n + 1 - (n + 1)) with 0 by lia. rewrite castT_0.
    replace (n + 1 - 1) with n by lia.
    transitivity (sumZ 0 n (fun j => (at_ a j [*] at_ b (n + 1 - j))
                                      [*] castT (n + 1 - j)) [+] r0); [|ring].
    transitivity (sumZ 0 n (fun j => at_ a j [*] at_ (derivative b) (n - j)) [+] r0);
      [ring|].
    f_equal. apply sumZ_ext. intros j Hj. rewrite at_derivative by auto.
    replace (n - j + 1) with (n + 1 - j) by lia. ring. }
  rewrite E1, E2, <- sumZ_add, <- sumZ_mul_r.
  apply sumZ_ext. intros j Hj.
  replace (castT (n + 1) : T) with (castT j [+] castT (n + 1 - j) : T).
  - ring.
  - rewrite <- castT_add by lia. f_equal. lia.
Qed.

(** X20: [integral(c0)] of a polynomial without stored coefficients is
    the constant [c0]; otherwise it has [deg + 2] coefficients, [c0] at
    index 0 and the coefficient [j] divided by [j + 1] at index [j + 1].
    Where every [j + 1] up to [deg + 1] is invertible in the ring, the
    derivative of the integral compares equal to the polynomial. *)
Theorem integral_then_derivative (p : polynom T) (c0 : T) :
  wf p ->
  at_ (integral p c0) 0 = c0 /\
  (size p = 0 -> integral p c0 = of_scalar c0) /\
  (0 < size p ->
     size (integral p c0) = deg p + 2 /\
     forall j, 0 <= j <= deg p ->
       at_ (integral p c0) (j + 1) = at_ p j [/] castT (j + 1)) /\
  ((forall j, 0 <= j <= deg p -> exists d, d [*] castT (j + 1) = r1) ->
     (forall j, at_ (derivative (integral p c0)) j = at_ p j) /\
     eqb (derivative (integral p c0)) p = true).
Proof.
  intros Wp. pose proof (deg_nonneg p) as Hd. pose proof (size_nonneg p) as Hs.
  pose proof (wf_integral p c0) as WI.
  assert (I0 : at_ (integral p c0) 0 = c0).
  { unfold integral. destruct (Z.eqb_spec (size p) 0) as [E|E].
    - reflexivity.
    - rewrite integral_loop_at by lia. reflexivity. }
  assert (H1 : forall j, 0 <= j <= deg p -> 0 < size p ->
     at_ (integral p c0) (j + 1) = at_ p j [/] castT (j + 1)).
  { intros j Hj Hsz. rewrite at_integral by auto.
    destruct (Z.eqb_spec (j + 1) 0); [lia|].
    destruct (Z.leb_spec 1 (j + 1)), (Z.leb_spec (j + 1) (deg p + 1)); simpl; try lia.
    now replace (j + 1 - 1) with j by lia. }
  split; [exact I0|]. split; [|split].
  - intros E. unfold integral. now rewrite E.
  - intros Hsz. split; [|intros j Hj; now apply H1].
    unfold integral. destruct (Z.eqb_spec (size p) 0) as [E|E]; [lia|].
    rewrite integral_loop_size by (try reflexivity; lia).
    change (size (of_scalar c0)) with 1. lia.
  - intros Hu.
    assert (A : forall j, at_ (derivative (integral p c0)) j = at_ p j).
    { intros j. rewrite at_derivative by exact WI.
      destruct (Z_lt_le_dec j 0) as [Hj|Hj].
      { rewrite (at_outside p j) by (auto; lia).
        destruct (Z.eq_dec j (-1)) as [->|Hne].
        - change (-1 + 1) with 0. rewrite castT_0. ring.
        - rewrite at_neg by lia. rewrite WI. ring. }
      destruct (Z.eqb_spec (size p) 0) as [E|E].
      { rewrite (at_ge p j) by lia. rewrite Wp.
        unfold integral. rewrite E. cbn [Z.eqb]. unfold of_scalar.
        rewrite at_single. destruct (Z.eqb_spec (j + 1) 0); [lia|]. unfold zeroOf. ring. }
      destruct (Z_le_gt_dec j (deg p)) as [Hle|Hgt].
      - rewrite H1 by lia. destruct (Hu j ltac:(lia)) as (d & Hdu).
        rewrite (rdiv_unit _ _ d Hdu).
        transitivity (at_ p j [*] (d [*] castT (j + 1))); [ring|]. rewrite Hdu. ring.
      - rewrite at_integral by (auto; lia).
        destruct (Z.eqb_spec (j + 1) 0); [lia|].
        destruct (Z.leb_spec 1 (j + 1)), (Z.leb_spec (j + 1) (deg p + 1)); simpl; try lia.
        rewrite (at_outside p j) by (auto; lia). ring. }
    split; [exact A|].
    apply eqb_spec; [apply wf_derivative|exact Wp|exact A].
Qed.

End CalculusLaws.

Section EvalLaws.
Context {T : Type} {CT : Coeff T} {LT : CoeffLaws T}.
Context {A : Type} {CA : Coeff A} {LA : CoeffLaws A}.
Variable castOf : A -> T -> A.
Hypothesis cast_zero : forall x, castOf x r0 = r0.
Hypothesis cast_add : forall x a b, castOf x (a [+] b) = castOf x a [+] castOf x b.
Hypothesis cast_mul : forall x a b, castOf x (a [*] b) = castOf x a [*] castOf x b.
Add Ring coeff_ring_eval_T : (@coeff_ring T CT LT).
Add Ring coeff_ring_eval_A : (@coeff_ring A CA LA).

Lemma eval_loop_spec (p : polynom T) (x : A) : forall (n : nat) i r,
  i + 1 = Z.of_nat n ->
  eval_loop castOf p x n i r =
  r [*] powT x (Z.of_nat n)
  [+] sumZ 0 i (fun j => castOf x (vget (c p) j) [*] powT x j).
Proof.
  induction n as [|n IH]; intros i r Hi.
  - simpl. rewrite sumZ_empty by lia. change (Z.of_nat 0) with 0. rewrite powT_0. ring.
  - cbn [eval_loop]. rewrite IH by lia.
    rewrite (sumZ_last 0 i) by lia.
    replace (Z.of_nat (S n)) with (Z.of_nat n + 1) by lia.
    rewrite powT_succ by lia. replace (Z.of_nat n) with i by lia. ring.
Qed.

Lemma cast_sumZ (x : A) lo hi (f : Z -> T) :
  castOf x (sumZ lo hi f) = sumZ lo hi (fun j => castOf x (f j)).
Proof.
  destruct (Z_lt_le_dec hi lo) as [Hlt|Hle].
  - rewrite !sumZ_empty by lia. apply cast_zero.
  - assert (E : hi = lo + Z.of_nat (Z.to_nat (hi - lo))) by lia.
    rewrite E. clear E Hle. generalize (Z.to_nat (hi - lo)).
    intros n. induction n as [|n IH].
    + replace (lo + Z.of_nat 0) with lo by lia. now rewrite !sumZ_one.
    + replace (lo + Z.of_nat (S n)) with (lo + Z.of_nat n + 1) by lia.
      rewrite (sumZ_last lo (lo + Z.of_nat n + 1)) by lia.
      rewrite (sumZ_last lo (lo + Z.of_nat n + 1) (fun j => castOf x (f j))) by lia.
      replace (lo + Z.of_nat n + 1 - 1) with (lo + Z.of_nat n) by lia.
      rewrite cast_add, IH. reflexivity.
Qed.

(** The value of [eval] as a sum, with any bound from the degree on. *)
Lemma eval_upto (p : polynom T) (x : A) N :
  wf p -> deg p <= N ->
  eval castOf p x = sumZ 0 N (fun j => castOf x (at_ p j) [*] powT x j).
Proof.
  intros Wp HN. pose proof (deg_nonneg p) as Hd. pose proof (size_nonneg p) as Hs.
  rewrite (sumZ_split 0 (deg p) N) by lia.
  rewrite (sumZ_zero (deg p + 1) N).
  2:{ intros j Hj. rewrite (at_outside p j) by (auto; lia). rewrite cast_zero. ring. }
  unfold eval. destruct (Z.eqb_spec (size p) 0) as [E|E].
  - rewrite (deg_empty p E), sumZ_one. rewrite (at_ge p 0) by lia.
    rewrite Wp, cast_zero. unfold zeroOf. ring.
  - rewrite eval_loop_spec by lia. unfold zeroOf.
    pose proof (deg_lt_size p ltac:(lia)) as Hlt.
    transitivity (sumZ 0 (deg p) (fun j => castOf x (vget (c p) j) [*] powT x j)); [ring|].
    transitivity (sumZ 0 (deg p) (fun j => castOf x (at_ p j) [*] powT x j)); [|ring].
    apply sumZ_ext. intros j Hj. rewrite at_in by lia. reflexivity.
Qed.

(** X21: [eval(x)] is the value [sum c[i] * x^i] over the coefficients up
    to the degree; polynomials that compare equal have the same value, and
    a constant evaluates to the cast of its coefficient. *)
Theorem eval_is_the_polynomial_value (p q : polynom T) (x : A) :
  wf p -> wf q ->
  eval castOf p x = sumZ 0 (deg p) (fun j => castOf x (at_ p j) [*] powT x j) /\
  (eqb p q = true -> eval castOf p x = eval castOf q x) /\
  (forall c0 : T, eval castOf (of_scalar c0) x = castOf x c0).
Proof.
  intros Wp Wq. split; [apply eval_upto; [exact Wp|lia]|]. split.
  - intros E. pose proof (proj1 (eqb_spec p q Wp Wq) E) as Hpq.
    rewrite (eval_upto p x (Z.max (deg p) (deg q))) by (auto; lia).
    rewrite (eval_upto q x (Z.max (deg p) (deg q))) by (auto; lia).
    apply sumZ_ext. intros j Hj. now rewrite Hpq.
  - intros c0. unfold eval, of_scalar, zeroOf.
    change (size (Polynom (r0 : T) [c0])) with 1.
    change (deg (Polynom (r0 : T) [c0])) with 0.
    change (Z.to_nat (0 + 1)) with 1%nat. cbn [eval_loop].
    change (vget (c (Polynom (r0 : T) [c0])) 0) with c0.
    change (1 =? 0) with false. cbv iota. ring.
Qed.

(** X22: evaluation is a ring homomorphism from the polynomials:
    [(a + b)(x) = a(x) + b(x)] and [(a * b)(x) = a(x) * b(x)]. *)
Theorem eval_sum_and_product (a b : polynom T) (x : A) :
  wf a -> wf b ->
  exists s m, op_add a b = Some s /\ op_mul a b = Some m /\
    eval castOf s x = eval castOf a x [+] eval castOf b x /\
    eval castOf m x = eval castOf a x [*] eval castOf b x.
Proof.
  intros Wa Wb. pose proof (deg_nonneg a) as Ha. pose proof (deg_nonneg b) as Hb.
  destruct (at_op_add a b Wa Wb) as (s & Es & Ws & As).
  destruct (at_op_mul a b Wa Wb) as (m & Em & Wm & Sm & Am).
  exists s, m. split; [exact Es|]. split; [exact Em|]. split.
  - set (N := Z.max (deg s) (Z.max (deg a) (deg b))).
    rewrite (eval_upto s x N), (eval_upto a x N), (eval_upto b x N) by (auto; lia).
    rewrite <- sumZ_add. apply sumZ_ext. intros j Hj. rewrite As, cast_add. ring.
  - set (N := deg a + deg b).
    assert (Hm : deg m <= N) by (pose proof (deg_bound m); lia).
    rewrite (eval_upto m x N), (eval_upto a x N) by (auto; lia).
    rewrite (eval_upto b x (deg b)) by (auto; lia).
    set (EB := sumZ 0 (deg b) (fun j => castOf x (at_ b j) [*] powT x j)).
    rewrite <- sumZ_mul_r.
    transitivity (sumZ 0 N (fun n => sumZ 0 n (fun j =>
       (castOf x (at_ a j) [*] powT x j)
       [*] (castOf x (at_ b (n - j)) [*] powT x (n - j))))).
    { apply sumZ_ext. intros n Hn. rewrite Am. unfold conv.
      rewrite cast_sumZ, <- sumZ_mul_r. apply sumZ_ext. intros j Hj.
      rewrite cast_mul. replace (powT x n) with (powT x (j + (n - j))) by (f_equal; lia).
      rewrite powT_add by lia. ring. }
    rewrite (sumZ_triangle N (fun j n =>
       (castOf x (at_ a j) [*] powT x j)
       [*] (castOf x (at_ b (n - j)) [*] powT x (n - j)))).
    apply sumZ_ext. intros j Hj. rewrite sumZ_mul_l.
    destruct (Z_le_gt_dec j (deg a)) as [Hle|Hgt].
    + f_equal. unfold EB.
      rewrite (sumZ_shift j 0 (deg b)). replace (0 + j) with j by lia.
      rewrite (sumZ_split j (deg b + j) N) by lia.
      rewrite (sumZ_zero (deg b + j + 1) N).
      2:{ intros n Hn. rewrite (at_outside b (n - j)) by (auto; lia).
          rewrite cast_zero. ring. }
      ring.
    + rewrite (at_outside a j) by (auto; lia). rewrite cast_zero. ring.
Qed.

End EvalLaws.

(** ** The properties on examples *)

(** [1 + 2x + 3x^2] over the integers. *)
Lemma derivative_coefficients_witness :
  let p : polynom Z := of_list [1; 2; 3] in
  wf p /\
  size (derivative p) = Z.max 1 (deg p) /\
  (forall j, at_ (derivative p) j = at_ p (j + 1) [*] castT (j + 1)) /\
  (deg p = 0 -> forall j, at_ (derivative p) j = r0).
Proof.
  cbv zeta. split; [reflexivity|].
  apply (@derivative_coefficients Z ZCoeff ZCoeffLaws (of_list [1; 2; 3])); reflexivity.
Defined.

Lemma derivative_sum_and_product_rule_witness :
  let a : polynom Z := of_list [1; 2] in
  let b : polynom Z := of_list [3; 0; 1] in
  wf a /\ wf b /\
  exists s m l r t,
    op_add a b = Some s /\ op_add (derivative a) (derivative b) = Some t /\
    eqb (derivative s) t = true /\
    op_mul a b = Some m /\ op_mul (derivative a) b = Some l /\
    op_mul a (derivative b) = Some r /\
    exists lr, op_add l r = Some lr /\ eqb (derivative m) lr = true.
Proof.
  cbv zeta. split; [reflexivity|]. split; [reflexivity|].
  apply (@derivative_sum_and_product_rule Z ZCoeff ZCoeffLaws
           (of_list [1; 2]) (of_list [3; 0; 1])); reflexivity.
Defined.

(** [1 + 2x + 3x^2] over the integers, where 2 and 3 are not
    invertible. *)
Lemma integral_then_derivative_witness :
  let p : polynom Z := of_list [1; 2; 3] in
  let c0 : Z := 5 in
  wf p /\
  at_ (integral p c0) 0 = c0 /\
  (size p = 0 -> integral p c0 = of_scalar c0) /\
  (0 < size p ->
     size (integral p c0) = deg p + 2 /\
     forall j, 0 <= j <= deg p ->
       at_ (integral p c0) (j + 1) = at_ p j [/] castT (j + 1)) /\
  ((forall j, 0 <= j <= deg p -> exists d : Z, d [*] castT (j + 1) = r1) ->
     (forall j, at_ (derivative (integral p c0)) j = at_ p j) /\
     eqb (derivative (integral p c0)) p = true).
Proof.
  cbv zeta. split; [reflexivity|].
  apply (@integral_then_derivative Z ZCoeff ZCoeffLaws (of_list [1; 2; 3]) 5).
  reflexivity.
Defined.

(** [1 + 2x + 3x^2] modulo 17, where 1, 2 and 3 are invertible: the
    derivative of the integral is the polynomial. *)
Lemma integral_round_trip_modulo_17 :
  let p : polynom (Zmod 17) := of_list (F17 [1; 2; 3]) in
  eqb (derivative (integral p (Zmod.of_Z 17 5))) p = true.
Proof. cbv zeta. vm_compute. reflexivity. Qed.

(** [1 + 2x + 3x^2] and its copy with a trailing zero at the point 2, the
    coefficients being integers themselves. *)
Lemma eval_is_the_polynomial_value_witness :
  let castOf : Z -> Z -> Z := fun _ v => v in
  let p : polynom Z := of_list [1; 2; 3] in
  let q : polynom Z := of_list [1; 2; 3; 0] in
  (forall x, castOf x r0 = r0) /\ wf p /\ wf q /\
  eval castOf p 2 = sumZ 0 (deg p) (fun j => castOf 2 (at_ p j) [*] powT 2 j) /\
  (eqb p q = true -> eval castOf p 2 = eval castOf q 2) /\
  (forall c0 : Z, eval castOf (of_scalar c0) 2 = castOf 2 c0).
Proof.
  cbv zeta. split; [reflexivity|]. split; [reflexivity|]. split; [reflexivity|].
  apply (@eval_is_the_polynomial_value Z ZCoeff ZCoeffLaws Z ZCoeff ZCoeffLaws
           (fun _ v => v) (fun _ => eq_refl)
           (of_list [1; 2; 3]) (of_list [1; 2; 3; 0]) 2); reflexivity.
Defined.

Lemma eval_sum_and_product_witness :
  let castOf : Z -> Z -> Z := fun _ v => v in
  let a : polynom Z := of_list [1; 2] in
  let b : polynom Z := of_list [3; 0; 1] in
  (forall x, castOf x r0 = r0) /\
  (forall x u v, castOf x (u [+] v) = castOf x u [+] castOf x v) /\
  (forall x u v, castOf x (u [*] v) = castOf x u [*] castOf x v) /\
  wf a /\ wf b /\
  exists s m, op_add a b = Some s /\ op_mul a b = Some m /\
    eval castOf s 5 = eval castOf a 5 [+] eval castOf b 5 /\
    eval castOf m 5 = eval castOf a 5 [*] eval castOf b 5.
Proof.
  cbv zeta. split; [reflexivity|]. split; [reflexivity|]. split; [reflexivity|].
  split; [reflexivity|]. split; [reflexivity|].
  apply (@eval_sum_and_product Z ZCoeff ZCoeffLaws Z ZCoeff ZCoeffLaws
           (fun _ v => v) (fun _ => eq_refl) (fun _ _ _ => eq_refl)
           (fun _ _ _ => eq_refl)
           (of_list [1; 2]) (of_list [3; 0; 1]) 5); reflexivity.
Defined.

Import Poly.

Section Transforms.
Context {T : Type} `{CoeffLaws T}.
Add Ring coeff_ring_transforms : coeff_ring.

(** A loop that stores [g i] at every index below [m]. *)
Lemma fill_loop (g : Z -> T) (m : nat) (data : list T) :
  (m <= length data)%nat ->
  let data' := fold_left (fun data i => bset data (Z.of_nat i) (g (Z.of_nat i)))
                (seq 0 m) data in
  length data' = length data /\
  forall p, 0 <= p -> bget data' p = if p <? Z.of_nat m then g p else bget data p.
Proof.
  induction m as [|m IH]; intros Hm; cbv zeta.
  - split; [reflexivity|]. intros p Hp. zcases. reflexivity.
  - rewrite seq_S, fold_left_app. cbn [fold_left Nat.add].
    destruct IH as [L P]; [lia|]. rewrite bset_length. split; [exact L|].
    intros p Hp. rewrite bget_bset by lia. rewrite !P by lia.
    destruct (Z.eqb_spec p (Z.of_nat m)) as [->|Np]; zcases; reflexivity.
Qed.

(** A sum over a full period does not change under a cyclic shift. *)
Lemma sum_cyclic_shift n i (g : Z -> T) :
  0 <= i < n ->
  sumZ 0 (n - 1) (fun m => g ((m - i) mod n)) = sumZ 0 (n - 1) g.
Proof.
  intros Hi.
  rewrite (sumZ_split 0 (i - 1) (n - 1)) by lia.
  rewrite (sumZ_ext 0 (i - 1) _ (fun m => g (m - (i - n)))).
  2:{ intros m Hm. f_equal. symmetry. apply (Z.mod_unique _ _ (-1)); lia. }
  rewrite (sumZ_ext (i - 1 + 1) (n - 1) _ (fun m => g (m - i))).
  2:{ intros m Hm. f_equal. apply Z.mod_small. lia. }
  rewrite (sumZ_split 0 (n - 1 - i) (n - 1) g) by lia.
  rewrite (sumZ_shift i 0 (n - 1 - i) g).
  rewrite (sumZ_shift (i - n) (n - 1 - i + 1) (n - 1) g).
  replace (n - 1 - i + 1 + (i - n)) with 0 by lia.
  replace (n - 1 + (i - n)) with (i - 1) by lia.
  replace (0 + i) with (i - 1 + 1) by lia.
  replace (n - 1 - i + i) with (n - 1) by lia.
  ring.
Qed.

(** The transform of a cyclic convolution is the product of the
    transforms. *)
Lemma dft_cyclic n (w : T) (x y : Z -> T) k :
  0 < n -> powT w n = r1 -> 0 <= k ->
  dft n w (fun m => sumZ 0 (n - 1) (fun i => x i [*] y ((m - i) mod n))) k =
  dft n w x k [*] dft n w y k.
Proof.
  intros Hn Hw Hk. unfold dft.
  rewrite (sumZ_ext 0 (n - 1) _
    (fun m => sumZ 0 (n - 1) (fun i => x i [*] y ((m - i) mod n) [*] powT w (m * k)))).
  2:{ intros m Hm. now rewrite sumZ_mul_r. }
  rewrite (sumZ_swap 0 (n - 1) 0 (n - 1)
    (fun m i => x i [*] y ((m - i) mod n) [*] powT w (m * k))).
  rewrite <- sumZ_mul_r. apply sumZ_ext. intros i Hi.
  rewrite <- (sum_cyclic_shift n i (fun j => y j [*] powT w (j * k))) by lia.
  transitivity (sumZ 0 (n - 1) (fun m =>
     (x i [*] powT w (i * k))
     [*] (y ((m - i) mod n) [*] powT w ((m - i) mod n * k)))).
  2:{ rewrite sumZ_mul_l. reflexivity. }
  apply sumZ_ext. intros m Hm.
  pose proof (Z.mod_pos_bound (m - i) n Hn) as Hr.
  assert (E : powT w (m * k) = powT w (i * k) [*] powT w ((m - i) mod n * k)).
  { rewrite <- powT_add by nia.
    rewrite (powT_mod w n (m * k)) by (auto; nia).
    rewrite (powT_mod w n (i * k + (m - i) mod n * k)) by (auto; nia).
    f_equal.
    pose proof (Z.div_mod (m - i) n ltac:(lia)) as Hdm.
    replace (m * k) with (i * k + (m - i) mod n * k + ((m - i) / n * k) * n) by nia.
    now rewrite Z.mod_add by lia. }
  rewrite E. ring.
Qed.

(** X23: for a size [2 ^ K] and a root whose power [size / 2] is [-1], the
    in-place [fft] and the recursive [fft_rec] both return, give the same
    buffer, and that buffer holds the discrete Fourier transform
    [y[k] = sum x[j] * root^(j * k)] of the input. *)
Theorem transforms_compute_the_dft (K : nat) (data dest : list T) (root : T) :
  Z.of_nat (length data) = 2 ^ Z.of_nat K ->
  Z.of_nat (length dest) = 2 ^ Z.of_nat K ->
  (forall K', K = S K' -> powT root (2 ^ Z.of_nat K') = [~] r1) ->
  exists y,
    fft data (2 ^ Z.of_nat K) root = Some y /\
    fft_rec dest 0 data 0 (2 ^ Z.of_nat K) root 1 = Some y /\
    length y = length data /\
    forall k, 0 <= k < 2 ^ Z.of_nat K ->
      bget y k = dft (2 ^ Z.of_nat K) root (bget data) k.
Proof.
  intros Ld Lt Hr.
  destruct (fft_spec K data root Ld Hr) as (y & Ey & Ly & Vy).
  destruct (fft_rec_spec K dest data root Lt Hr) as (y' & Ey' & Ly' & Vy').
  assert (E : y' = y).
  { apply buffer_ext; [lia|]. intros j Hj. rewrite Vy, Vy' by lia. reflexivity. }
  subst y'. exists y. auto.
Qed.

(** X24: [fft_rec] on a part of a longer destination, reading the source
    from position [s] with the stride [off]: it writes the transform of
    [src[s], src[s + off], ...] to [dest[d .. d + size - 1]] and leaves
    every other element of the destination as it was. *)
Theorem fft_rec_strided_with_frame (K : nat) (dest src : list T) (d s off : Z)
    (root : T) :
  0 <= d -> d + 2 ^ Z.of_nat K <= Z.of_nat (length dest) ->
  0 <= s -> 0 <= off -> s + (2 ^ Z.of_nat K - 1) * off < Z.of_nat (length src) ->
  (forall K', K = S K' -> powT root (2 ^ Z.of_nat K') = [~] r1) ->
  exists dest',
    fft_rec dest d src s (2 ^ Z.of_nat K) root off = Some dest' /\
    length dest' = length dest /\
    (forall k, 0 <= k < 2 ^ Z.of_nat K ->
       bget dest' (d + k) =
       dft (2 ^ Z.of_nat K) root (fun j => bget src (s + j * off)) k) /\
    (forall p, 0 <= p -> ~ (d <= p < d + 2 ^ Z.of_nat K) -> bget dest' p = bget dest p).
Proof.
  intros Hd Hl _ _ _ Hr. unfold fft_rec.
  apply fft_rec_fuel_spec; auto.
  pose proof (pow2_gt K). lia.
Qed.

(** X25: the reorder loop of [fft], with its inner loop that increments a
    bit-reversed counter, applies the bit-reversal permutation to a buffer
    of [2 ^ K] elements; applied twice it gives the buffer back. *)
Theorem reorder_is_bit_reversal (K : nat) (data : list T) :
  Z.of_nat (length data) = 2 ^ Z.of_nat K ->
  exists data',
    fft_reorder (Z.to_nat (2 ^ Z.of_nat K) + 1) (2 ^ Z.of_nat K) 0 1 data = Some data' /\
    (forall p, 0 <= p < 2 ^ Z.of_nat K -> bget data' p = bget data (bitrev K p)) /\
    fft_reorder (Z.to_nat (2 ^ Z.of_nat K) + 1) (2 ^ Z.of_nat K) 0 1 data' = Some data.
Proof.
  intros Ld. pose proof (pow2_pos K) as HP.
  assert (R : forall x : list T, Z.of_nat (length x) = 2 ^ Z.of_nat K ->
            exists x', fft_reorder (Z.to_nat (2 ^ Z.of_nat K) + 1) (2 ^ Z.of_nat K) 0 1 x
                       = Some x' /\ length x' = length x /\
              forall p, 0 <= p < 2 ^ Z.of_nat K -> bget x' p = bget x (bitrev K p)).
  { intros x Lx.
    destruct (fft_reorder_spec K x Lx
                (Z.to_nat (Z.max 1 (2 ^ Z.of_nat K - 1) - 1))
                (Z.to_nat (2 ^ Z.of_nat K) + 1) 1 x) as (x' & E & L & V);
      try lia; try reflexivity.
    - intros p Hp. destruct (Z.ltb_spec (Z.min p (bitrev K p)) 1); [|reflexivity].
      pose proof (bitrev_range K p) as Hb.
      destruct (Z.eq_dec p 0) as [->|Hp0].
      + now rewrite bitrev_0.
      + assert (E0 : bitrev K p = 0) by lia.
        pose proof (bitrev_invol K p Hp) as Ei. rewrite E0, bitrev_0 in Ei. lia.
    - change (1 - 1) with 0 in E. rewrite bitrev_0 in E. eauto. }
  destruct (R data Ld) as (data' & E & L & V).
  exists data'. split; [exact E|]. split; [exact V|].
  destruct (R data' ltac:(lia)) as (data2 & E2 & L2 & V2).
  rewrite E2. f_equal. apply buffer_ext; [lia|].
  intros p Hp. rewrite V2 by lia.
  pose proof (bitrev_range K p) as Hb. rewrite V by lia.
  now rewrite bitrev_invol by lia.
Qed.

Lemma cyclic_values (K : nat) (dataR data1 data2 : list T) (root ninv : T) :
  let n := 2 ^ Z.of_nat K in
  Z.of_nat (length dataR) = n -> Z.of_nat (length data1) = n ->
  Z.of_nat (length data2) = n ->
  principal_root n root -> ninv [*] castT n = r1 ->
  exists bufR buf1 R,
    fft_rec dataR 0 data1 0 n root 1 = Some bufR /\
    fft_rec data1 0 data2 0 n root 1 = Some buf1 /\
    let buf2 := fold_left (fun data i =>
                   bset data (Z.of_nat i)
                        (bget bufR (Z.of_nat i) [*] bget buf1 (Z.of_nat i)))
                 (seq 0 (Z.to_nat n)) data2 in
    fft_rec bufR 0 buf2 0 n (powT root (n - 1)) 1 = Some R /\
    Z.of_nat (length R) = n /\
    (forall k, 0 <= k < n -> bget buf1 k = dft n root (bget data2) k) /\
    (forall k, 0 <= k < n ->
       bget buf2 k = dft n root (bget data1) k [*] dft n root (bget data2) k) /\
    (forall k, 0 <= k < n ->
       bget (scale_isize R n (identityOf root)) k =
       sumZ 0 (n - 1) (fun i => bget data1 i [*] bget data2 ((k - i) mod n))) /\
    length (scale_isize R n (identityOf root)) = length R.
Proof.
  intros n LR L1 L2 Hpr Hinv. pose proof (pow2_pos K) as HP. fold n in HP.
  pose proof (principal_half_pow2 K root ninv Hpr Hinv) as Hh.
  pose proof (reciprocal_half K root Hh) as Hh'.
  destruct (fft_rec_spec K dataR data1 root LR Hh) as (bufR & ER & LbR & VR).
  destruct (fft_rec_spec K data1 data2 root L1 Hh) as (buf1 & E1 & Lb1 & V1).
  fold n in ER, E1, VR, V1.
  exists bufR, buf1.
  destruct (fill_loop (fun i => bget bufR i [*] bget buf1 i) (Z.to_nat n) data2)
    as [Lb2 V2]; [lia|].
  set (buf2 := fold_left _ _ data2) in *.
  destruct (fft_rec_spec K bufR buf2 (powT root (2 ^ Z.of_nat K - 1)))
    as (R & ERR & LRR & VRR); [lia|exact Hh'|].
  fold n in ERR, VRR.
  exists R. split; [exact ER|]. split; [exact E1|]. cbv zeta. fold buf2.
  split; [exact ERR|]. split; [lia|]. split; [exact V1|].
  assert (B2 : forall k, 0 <= k < n ->
            bget buf2 k = dft n root (bget data1) k [*] dft n root (bget data2) k).
  { intros k Hk. rewrite V2 by lia.
    destruct (Z.ltb_spec k (Z.of_nat (Z.to_nat n))); [|lia].
    now rewrite VR, V1 by lia. }
  split; [exact B2|].
  destruct (scale_isize_spec R n (identityOf root)) as [Ls Ps]; [lia|].
  split; [|exact Ls].
  intros k Hk. rewrite Ps by lia. rewrite VRR by lia.
  destruct Hpr as [Hw Hs].
  rewrite (dft_ext n _ (bget buf2)
             (dft n root (fun m => sumZ 0 (n - 1)
                (fun i => bget data1 i [*] bget data2 ((m - i) mod n))))).
  2:{ intros j Hj. rewrite B2 by lia. symmetry. apply dft_cyclic; auto; lia. }
  rewrite dft_inverse by (try split; auto; lia).
  rewrite (rdiv_unit _ _ ninv Hinv). unfold identityOf.
  match goal with
  | |- castT n [*] ?v [*] (r1 [*] ninv) = _ =>
      transitivity ((ninv [*] castT n) [*] v); [ring|]
  end.
  rewrite Hinv. ring.
Qed.

Lemma fft_cyclic_convolution_spec (K : nat) (dataR data1 data2 : list T)
    (root_base : T) (root_order : Z) (ninv : T) :
  let n := 2 ^ Z.of_nat K in
  let root := powT root_base (Z.quot root_order n) in
  Z.of_nat (length dataR) = n -> Z.of_nat (length data1) = n ->
  Z.of_nat (length data2) = n ->
  principal_root n root -> ninv [*] castT n = r1 ->
  exists R B1 B2,
    fft_cyclic_convolution dataR data1 data2 n root_base root_order
      = Some (R, B1, B2) /\
    Z.of_nat (length R) = n /\
    (forall k, 0 <= k < n ->
       bget R k = sumZ 0 (n - 1) (fun i => bget data1 i [*] bget data2 ((k - i) mod n))) /\
    (forall k, 0 <= k < n -> bget B1 k = dft n root (bget data2) k) /\
    (forall k, 0 <= k < n ->
       bget B2 k = dft n root (bget data1) k [*] dft n root (bget data2) k).
Proof.
  intros n root LR L1 L2 Hpr Hinv.
  destruct (cyclic_values K dataR data1 data2 root ninv LR L1 L2 Hpr Hinv)
    as (bufR & buf1 & R & ER & E1 & ERR & LRR & V1 & V2 & VR & Ls).
  fold n in ER, E1, ERR, LRR, V1, V2, VR, Ls. cbv zeta in ERR, V2.
  unfold fft_cyclic_convolution. fold root. rewrite ER, E1, ERR.
  eexists _, _, _. split; [reflexivity|].
  split; [lia|]. split; [exact VR|]. split; [exact V1|exact V2].
Qed.

(** X26: for buffers of [size = 2 ^ K] elements, a root
    [root_base ^ (root_order / size)] that is a principal root of unity of
    order [size] and [size] invertible in the ring,
    [fft_cyclic_convolution] leaves in [dataR] the cyclic convolution
    [dataR[k] = sum data1[i] * data2[(k - i) mod size]]; the buffer of
    [data1] then holds the transform of [data2] and the buffer of [data2]
    the product of the two transforms. *)
Theorem cyclic_convolution_theorem (K : nat) (dataR data1 data2 : list T)
    (root_base : T) (root_order : Z) (ninv : T) :
  let n := 2 ^ Z.of_nat K in
  let root := powT root_base (Z.quot root_order n) in
  Z.of_nat (length dataR) = n -> Z.of_nat (length data1) = n ->
  Z.of_nat (length data2) = n ->
  principal_root n root -> ninv [*] castT n = r1 ->
  exists R B1 B2,
    fft_cyclic_convolution dataR data1 data2 n root_base root_order
      = Some (R, B1, B2) /\
    Z.of_nat (length R) = n /\
    (forall k, 0 <= k < n ->
       bget R k = sumZ 0 (n - 1) (fun i => bget data1 i [*] bget data2 ((k - i) mod n))) /\
    (forall k, 0 <= k < n -> bget B1 k = dft n root (bget data2) k) /\
    (forall k, 0 <= k < n ->
       bget B2 k = dft n root (bget data1) k [*] dft n root (bget data2) k).
Proof. apply fft_cyclic_convolution_spec. Qed.

Lemma double_until_spec (K : nat) n :
  (forall K', K = S K' -> 2 ^ Z.of_nat K' < n) -> n <= 2 ^ Z.of_nat K ->
  forall (d : nat) (j : nat) fuel,
  (j + d = K)%nat -> (d < fuel)%nat ->
  double_until fuel (2 ^ Z.of_nat j) n = Some (2 ^ Z.of_nat K).
Proof.
  intros Hlow Hup. induction d as [|d IH]; intros j fuel Hj Hf.
  - destruct fuel as [|fuel]; [lia|]. simpl.
    replace j with K by lia. destruct (Z.ltb_spec (2 ^ Z.of_nat K) n); [lia|reflexivity].
  - destruct fuel as [|fuel]; [lia|]. simpl.
    destruct K as [|K']; [lia|]. specialize (Hlow K' eq_refl).
    assert (Hle : 2 ^ Z.of_nat j <= 2 ^ Z.of_nat K').
    { apply Z.pow_le_mono_r; lia. }
    destruct (Z.ltb_spec (2 ^ Z.of_nat j) n); [|lia].
    replace (2 ^ Z.of_nat j * 2) with (2 ^ Z.of_nat (S j)) by (rewrite pow2_S; lia).
    apply IH; lia.
Qed.

Lemma bget_vresize (l : list T) n i :
  0 <= i < n -> bget (vresize l n r0) i = bget l i.
Proof.
  intros Hi. unfold bget. rewrite vresize_lookup.
  destruct (Nat.ltb_spec (Z.to_nat i) (Z.to_nat n)); [reflexivity|lia].
Qed.

Lemma bget_beyond (l : list T) i :
  Z.of_nat (length l) <= i -> bget l i = r0.
Proof.
  intros Hi. unfold bget. rewrite lookup_ge_None_2 by lia. reflexivity.
Qed.

(** X27: for two sequences that are not empty, with [l] the least power of
    two not below [n = u_size + v_size - 1], a principal root of unity
    [root_base ^ (root_order / l)] of order [l] and [l] invertible in the
    ring, [convolution] returns [n] elements, the coefficients of the
    product of the two sequences read as polynomials:
    [r[k] = sum u[j] * v[k - j]]. *)
Theorem convolution_is_the_product (K : nat) (u v : list T)
    (root_base : T) (root_order : Z) (ninv : T) :
  let n := Z.of_nat (length u) + Z.of_nat (length v) - 1 in
  let l := 2 ^ Z.of_nat K in
  (0 < length u)%nat -> (0 < length v)%nat ->
  n <= l -> (forall K', K = S K' -> 2 ^ Z.of_nat K' < n) ->
  principal_root l (powT root_base (Z.quot root_order l)) ->
  ninv [*] castT l = r1 ->
  exists r, convolution u v root_base root_order = Some r /\
    Z.of_nat (length r) = n /\
    forall k, 0 <= k < n -> bget r k = conv (bget u) (bget v) k.
Proof.
  intros n l Hu Hv Hup Hlow Hpr Hinv. pose proof (pow2_pos K) as HP. fold l in HP.
  assert (HK : Z.of_nat K <= n).
  { destruct K as [|K']; [lia|]. specialize (Hlow K' eq_refl).
    pose proof (pow2_gt K'). lia. }
  unfold convolution. fold n.
  assert (Ed : double_until (Z.to_nat n + 1) 1 n = Some l).
  { apply (double_until_spec K n Hlow Hup K 0); lia. }
  rewrite Ed. unfold zeroOf, identityOf.
  set (U := vresize u l r0). set (V := vresize v l r0). set (R0 := vresize [] l r0).
  assert (LU : Z.of_nat (length U) = l) by (unfold U; rewrite vresize_length; lia).
  assert (LV : Z.of_nat (length V) = l) by (unfold V; rewrite vresize_length; lia).
  assert (LR : Z.of_nat (length R0) = l) by (unfold R0; rewrite vresize_length; lia).
  destruct (fft_cyclic_convolution_spec K R0 U V root_base root_order ninv LR LU LV Hpr Hinv)
    as (R & B1 & B2 & E & LRR & VR & _).
  fold l in E, LRR, VR. rewrite E.
  destruct (Z.ltb_spec n 0); [lia|].
  eexists. split; [reflexivity|]. split; [rewrite vresize_length; lia|].
  intros k Hk. rewrite bget_vresize by lia. rewrite VR by lia.
  unfold conv.
  rewrite (sumZ_split 0 k (l - 1)) by lia.
  rewrite (sumZ_zero (k + 1) (l - 1)).
  - transitivity (sumZ 0 k (fun i => bget U i [*] bget V ((k - i) mod l))); [ring|].
    apply sumZ_ext. intros i Hi. rewrite Z.mod_small by lia.
    unfold U, V. rewrite !bget_vresize by lia. reflexivity.
  - intros i Hi. unfold U, V.
    rewrite (bget_vresize u) by lia.
    destruct (Z_lt_le_dec i (Z.of_nat (length u))) as [Hlt|Hge].
    + replace ((k - i) mod l) with (k - i + l)
        by (apply (Z.mod_unique _ _ (-1)); lia).
      rewrite (bget_vresize v) by lia.
      rewrite (bget_beyond v) by lia. ring.
    + rewrite (bget_beyond u) by lia. ring.
Qed.

End Transforms.

(** ** The properties on examples modulo 17 *)

(** Modulo 17 the element 2 is a principal root of unity of order 8, and
    its square 4 one of order 4. *)
Lemma root_of_order_4 :
  principal_root (2 ^ Z.of_nat 2) (powT (Zmod.of_Z 17 2) (Z.quot 8 (2 ^ Z.of_nat 2))).
Proof.
  split; [apply Zmod.unsigned_inj; vm_compute; reflexivity|].
  intros e He. change (2 ^ Z.of_nat 2) with 4 in He.
  assert (e = 1 \/ e = 2 \/ e = 3) as [-> | [-> | ->]] by lia;
    apply Zmod.unsigned_inj; vm_compute; reflexivity.
Qed.

Lemma inverse_of_4 : Zmod.of_Z 17 13 [*] castT (2 ^ Z.of_nat 2) = r1.
Proof. apply Zmod.unsigned_inj; vm_compute; reflexivity. Qed.

Lemma half_root_4 :
  forall K', 2%nat = S K' -> powT (Zmod.of_Z 17 4) (2 ^ Z.of_nat K') = [~] r1.
Proof.
  intros K' E. injection E as <-. apply Zmod.unsigned_inj; vm_compute; reflexivity.
Qed.

Lemma half_root_16 :
  forall K', 1%nat = S K' -> powT (Zmod.of_Z 17 16) (2 ^ Z.of_nat K') = [~] r1.
Proof.
  intros K' E. injection E as <-. apply Zmod.unsigned_inj; vm_compute; reflexivity.
Qed.

Lemma transforms_compute_the_dft_witness :
  let data := F17 [1; 2; 3; 4] in
  let root := Zmod.of_Z 17 4 in
  Z.of_nat (length data) = 2 ^ Z.of_nat 2 /\
  (forall K', 2%nat = S K' -> powT root (2 ^ Z.of_nat K') = [~] r1) /\
  exists y,
    fft data (2 ^ Z.of_nat 2) root = Some y /\
    fft_rec data 0 data 0 (2 ^ Z.of_nat 2) root 1 = Some y /\
    length y = length data /\
    forall k, 0 <= k < 2 ^ Z.of_nat 2 ->
      bget y k = dft (2 ^ Z.of_nat 2) root (bget data) k.
Proof.
  cbv zeta. split; [reflexivity|]. split; [exact half_root_4|].
  apply (@transforms_compute_the_dft (Zmod 17) (ZmodCoeff 17) Zmod17_laws 2
           (F17 [1; 2; 3; 4]) (F17 [1; 2; 3; 4]) (Zmod.of_Z 17 4));
    [reflexivity|reflexivity|exact half_root_4].
Defined.

(** The transform of the two elements at the even positions of the source,
    written to the middle of a destination of four elements. *)
Lemma fft_rec_strided_with_frame_witness :
  let dest := F17 [9; 9; 9; 9] in
  let src := F17 [1; 2; 3; 4] in
  let root := Zmod.of_Z 17 16 in
  0 <= 1 /\ 1 + 2 ^ Z.of_nat 1 <= Z.of_nat (length dest) /\
  0 <= 0 /\ 0 <= 2 /\ 0 + (2 ^ Z.of_nat 1 - 1) * 2 < Z.of_nat (length src) /\
  (forall K', 1%nat = S K' -> powT root (2 ^ Z.of_nat K') = [~] r1) /\
  exists dest',
    fft_rec dest 1 src 0 (2 ^ Z.of_nat 1) root 2 = Some dest' /\
    length dest' = length dest /\
    (forall k, 0 <= k < 2 ^ Z.of_nat 1 ->
       bget dest' (1 + k) =
       dft (2 ^ Z.of_nat 1) root (fun j => bget src (0 + j * 2)) k) /\
    (forall p, 0 <= p -> ~ (1 <= p < 1 + 2 ^ Z.of_nat 1) -> bget dest' p = bget dest p).
Proof.
  cbv zeta.
  assert (Ld : 1 + 2 ^ Z.of_nat 1 <= Z.of_nat (length (F17 [9; 9; 9; 9])))
    by (simpl; lia).
  assert (Ls : 0 + (2 ^ Z.of_nat 1 - 1) * 2 < Z.of_nat (length (F17 [1; 2; 3; 4])))
    by (simpl; lia).
  split; [lia|]. split; [exact Ld|]. split; [lia|].
  split; [lia|]. split; [exact Ls|]. split; [exact half_root_16|].
  apply (@fft_rec_strided_with_frame (Zmod 17) (ZmodCoeff 17) Zmod17_laws 1
           (F17 [9; 9; 9; 9]) (F17 [1; 2; 3; 4]) 1 0 2 (Zmod.of_Z 17 16));
    [lia|exact Ld|lia|lia|exact Ls|exact half_root_16].
Defined.

Lemma reorder_is_bit_reversal_witness :
  let data : list Z := [0; 1; 2; 3; 4; 5; 6; 7] in
  Z.of_nat (length data) = 2 ^ Z.of_nat 3 /\
  exists data',
    fft_reorder (Z.to_nat (2 ^ Z.of_nat 3) + 1) (2 ^ Z.of_nat 3) 0 1 data = Some data' /\
    (forall p, 0 <= p < 2 ^ Z.of_nat 3 -> bget data' p = bget data (bitrev 3 p)) /\
    fft_reorder (Z.to_nat (2 ^ Z.of_nat 3) + 1) (2 ^ Z.of_nat 3) 0 1 data' = Some data.
Proof.
  cbv zeta. split; [reflexivity|].
  apply (@reorder_is_bit_reversal Z ZCoeff 3 [0; 1; 2; 3; 4; 5; 6; 7]).
  reflexivity.
Defined.

Lemma cyclic_convolution_theorem_witness :
  let n := 2 ^ Z.of_nat 2 in
  let root_base := Zmod.of_Z 17 2 in
  let root := powT root_base (Z.quot 8 n) in
  let dataR := F17 [0; 0; 0; 0] in
  let data1 := F17 [1; 2; 3; 4] in
  let data2 := F17 [5; 6; 7; 8] in
  Z.of_nat (length dataR) = n /\ Z.of_nat (length data1) = n /\
  Z.of_nat (length data2) = n /\
  principal_root n root /\ Zmod.of_Z 17 13 [*] castT n = r1 /\
  exists R B1 B2,
    fft_cyclic_convolution dataR data1 data2 n root_base 8 = Some (R, B1, B2) /\
    Z.of_nat (length R) = n /\
    (forall k, 0 <= k < n ->
       bget R k = sumZ 0 (n - 1) (fun i => bget data1 i [*] bget data2 ((k - i) mod n))) /\
    (forall k, 0 <= k < n -> bget B1 k = dft n root (bget data2) k) /\
    (forall k, 0 <= k < n ->
       bget B2 k = dft n root (bget data1) k [*] dft n root (bget data2) k).
Proof.
  cbv zeta. split; [reflexivity|]. split; [reflexivity|]. split; [reflexivity|].
  split; [exact root_of_order_4|]. split; [exact inverse_of_4|].
  apply (@cyclic_convolution_theorem (Zmod 17) (ZmodCoeff 17) Zmod17_laws 2
           (F17 [0; 0; 0; 0]) (F17 [1; 2; 3; 4]) (F17 [5; 6; 7; 8])
           (Zmod.of_Z 17 2) 8 (Zmod.of_Z 17 13));
    [reflexivity|reflexivity|reflexivity|exact root_of_order_4|exact inverse_of_4].
Defined.

(** [(1 + 2x) * (3 + 4x + 5x^2)] modulo 17. *)
Lemma convolution_is_the_product_witness :
  let u := F17 [1; 2] in
  let v := F17 [3; 4; 5] in
  let root_base := Zmod.of_Z 17 2 in
  let n := Z.of_nat (length u) + Z.of_nat (length v) - 1 in
  let l := 2 ^ Z.of_nat 2 in
  (0 < length u)%nat /\ (0 < length v)%nat /\ n <= l /\
  (forall K', 2%nat = S K' -> 2 ^ Z.of_nat K' < n) /\
  principal_root l (powT root_base (Z.quot 8 l)) /\
  Zmod.of_Z 17 13 [*] castT l = r1 /\
  exists r, convolution u v root_base 8 = Some r /\
    Z.of_nat (length r) = n /\
    forall k, 0 <= k < n -> bget r k = conv (bget u) (bget v) k.
Proof.
  cbv zeta.
  assert (Hlow : forall K', 2%nat = S K' ->
            2 ^ Z.of_nat K' < Z.of_nat (length (F17 [1; 2]))
                              + Z.of_nat (length (F17 [3; 4; 5])) - 1).
  { intros K' E. injection E as <-. reflexivity. }
  assert (Hup : Z.of_nat (length (F17 [1; 2])) + Z.of_nat (length (F17 [3; 4; 5])) - 1
                <= 2 ^ Z.of_nat 2) by (simpl; lia).
  split; [simpl; lia|]. split; [simpl; lia|]. split; [exact Hup|].
  split; [exact Hlow|]. split; [exact root_of_order_4|]. split; [exact inverse_of_4|].
  apply (@convolution_is_the_product (Zmod 17) (ZmodCoeff 17) Zmod17_laws 2
           (F17 [1; 2]) (F17 [3; 4; 5]) (Zmod.of_Z 17 2) 8 (Zmod.of_Z 17 13));
    [simpl; lia|simpl; lia|exact Hup|exact Hlow
    |exact root_of_order_4|exact inverse_of_4].
Defined.

Import Poly.

(** * Ordering, accumulation kernels and exact division *)

Section Ordering.
Context {T : Type} `{CoeffLaws T}.
Add Ring coeff_ring_ordering : coeff_ring.

Lemma rlt_neq (a b : T) : rlt a b = true -> a <> b.
Proof. intros E <-. rewrite rlt_irrefl in E. discriminate. Qed.

Lemma cmp_loop_less (p1 p2 : polynom T) (n : nat) :
  cmp_loop p1 p2 n (Z.of_nat n - 1) = -1 <->
  exists i, 0 <= i < Z.of_nat n /\ rlt (at_ p1 i) (at_ p2 i) = true /\
    forall j, i < j < Z.of_nat n -> at_ p1 j = at_ p2 j.
Proof.
  induction n as [|n IH].
  - simpl. split; [lia|]. intros (i & Hi & _). lia.
  - cbn [cmp_loop]. replace (Z.of_nat (S n) - 1) with (Z.of_nat n) by lia.
    replace (Z.of_nat n - 1 + 1 - 1) with (Z.of_nat n - 1) by lia.
    destruct (rlt (at_ p1 (Z.of_nat n)) (at_ p2 (Z.of_nat n))) eqn:E1.
    { split; [|reflexivity]. intros _. exists (Z.of_nat n).
      split; [lia|]. split; [exact E1|]. intros; lia. }
    destruct (rlt (at_ p2 (Z.of_nat n)) (at_ p1 (Z.of_nat n))) eqn:E2.
    { split; [lia|]. intros (i & Hi & Hlt & Heq). exfalso.
      destruct (Z.eq_dec i (Z.of_nat n)) as [->|Hne]; [congruence|].
      rewrite (Heq (Z.of_nat n)) in E2 by lia. rewrite rlt_irrefl in E2. discriminate. }
    pose proof (rlt_total _ _ E1 E2) as Etop.
    replace (Z.of_nat n - 1) with (Z.of_nat n - 1) by lia.
    rewrite IH. split.
    + intros (i & Hi & Hlt & Heq). exists i. split; [lia|]. split; [exact Hlt|].
      intros j Hj. destruct (Z.eq_dec j (Z.of_nat n)) as [->|Hne]; [exact Etop|].
      apply Heq. lia.
    + intros (i & Hi & Hlt & Heq).
      destruct (Z.eq_dec i (Z.of_nat n)) as [->|Hne]; [congruence|].
      exists i. split; [lia|]. split; [exact Hlt|]. intros j Hj. apply Heq. lia.
Qed.

(** X28: [operator <], through [cmp], is the lexicographic order from the
    highest coefficient down: [p1 < p2] holds exactly when at some index
    the coefficient of [p1] is less than that of [p2] and all higher
    coefficients are equal; a polynomial is not less than itself. *)
Theorem less_than_is_lexicographic (p1 p2 : polynom T) :
  wf p1 -> wf p2 ->
  (cmp p1 p2 = -1 <->
   exists i, 0 <= i /\ rlt (at_ p1 i) (at_ p2 i) = true /\
     forall j, i < j -> at_ p1 j = at_ p2 j) /\
  cmp p1 p1 = 0.
Proof.
  intros W1 W2. pose proof (deg_nonneg p1) as H1. pose proof (deg_nonneg p2) as H2.
  split.
  - unfold cmp. set (l := Z.max (deg p1) (deg p2)).
    pose proof (cmp_loop_less p1 p2 (Z.to_nat (l + 1))) as C.
    replace (Z.of_nat (Z.to_nat (l + 1)) - 1) with l in C by lia.
    rewrite C. split.
    + intros (i & Hi & Hlt & Heq). exists i. split; [lia|]. split; [exact Hlt|].
      intros j Hj. destruct (Z_lt_le_dec j (l + 1)); [apply Heq; lia|].
      rewrite !at_outside by (auto; lia). reflexivity.
    + intros (i & Hi & Hlt & Heq). exists i. split; [|split; [exact Hlt|]].
      * destruct (Z_lt_le_dec i (l + 1)); [lia|]. exfalso.
        apply (rlt_neq _ _ Hlt). rewrite !at_outside by (auto; lia). reflexivity.
      * intros j Hj. apply Heq. lia.
  - assert (E : eqb p1 p1 = true) by (apply eqb_spec; auto).
    unfold eqb in E. now apply Z.eqb_eq in E.
Qed.

(** The accumulation loop, for an operand in another buffer or at the very
    position of the output. *)
Lemma _acc_alias_spec (op : T -> T -> T) pr p2 l2 (h : heap T) :
  valid h pr 0 l2 -> valid h p2 0 l2 -> alias_ok pr p2 ->
  runs (for_up 0 l2 (fun i =>
          b <- load p2 i ;; a <- load pr i ;; store pr i (op a b))) h
    (fun _ h' =>
      modifies h h' (blk pr) (off pr) (off pr + l2) /\
      forall i, 0 <= i <= l2 -> rd h' pr i = op (rd h pr i) (rd h p2 i)).
Proof.
  intros V1 V2 Hal.
  eapply runs_wand.
  - apply (for_up_rule (fun i h' =>
      modifies h h' (blk pr) (off pr) (off pr + i - 1) /\
      forall j, 0 <= j < i -> rd h' pr j = op (rd h pr j) (rd h p2 j))).
    + split; [apply modifies_refl|intros; lia].
    + intros i h1 Hi [Hm Hz].
      assert (Hb := proj2 (proj1 Hm)). assert (F := proj2 Hm).
      unfold valid in V1, V2.
      assert (R2 : rd h1 p2 i = rd h p2 i).
      { unfold rd. destruct Hal as [Hne| ->]; apply F; [now left|right; lia]. }
      apply runs_bind, runs_load; [rewrite Hb; lia|].
      apply runs_bind, runs_load; [rewrite Hb; lia|].
      apply runs_store; [rewrite Hb; lia|].
      intros h2 Hm2 Hv. split.
      * eapply modifies_trans; eauto; lia.
      * intros j Hj. destruct (Z.eq_dec j i) as [->|Hnj].
        -- rewrite Hv, R2. unfold rd. rewrite !F by lia. reflexivity.
        -- destruct Hm2 as [_ F2]. unfold rd at 1. rewrite F2 by lia. apply Hz; lia.
  - simpl. intros _ h' [Hm Hz].
    destruct (Z_lt_le_dec l2 0).
    + replace (Z.max 0 (l2 + 1)) with 0 in * by lia.
      split; [|intros; lia]. eapply modifies_weaken; [apply Hm|lia].
    + replace (Z.max 0 (l2 + 1)) with (l2 + 1) in * by lia.
      split; [|intros; apply Hz; lia].
      eapply modifies_weaken; [apply Hm|lia].
Qed.

(** X29: [_add_to] and [_sub_from] on arrays [pr[0..l2]] and [p2[0..l2]],
    with [p2] in another buffer or the same pointer as [pr], return, add
    or subtract elementwise, and change nothing outside [pr[0..l2]]; with
    the same pointer [_add_to] doubles every element and [_sub_from]
    clears it. *)
Theorem add_to_sub_from_contract (h : heap T) pr p2 l2 :
  valid h pr 0 l2 -> valid h p2 0 l2 -> alias_ok pr p2 ->
  runs (_add_to pr p2 l2) h (fun _ h' =>
    modifies h h' (blk pr) (off pr) (off pr + l2) /\
    forall i, 0 <= i <= l2 ->
      rd h' pr i = rd h pr i [+] rd h p2 i /\
      (p2 = pr -> rd h' pr i = rd h pr i [+] rd h pr i)) /\
  runs (_sub_from pr p2 l2) h (fun _ h' =>
    modifies h h' (blk pr) (off pr) (off pr + l2) /\
    forall i, 0 <= i <= l2 ->
      rd h' pr i = rd h pr i [-] rd h p2 i /\
      (p2 = pr -> rd h' pr i = r0)).
Proof.
  intros V1 V2 Hal. split.
  - eapply runs_wand; [apply (_acc_alias_spec radd pr p2 l2 h V1 V2 Hal)|].
    intros _ h' [Hm Hv]. split; [exact Hm|]. intros i Hi.
    split; [now apply Hv|]. intros ->. now apply Hv.
  - eapply runs_wand; [apply (_acc_alias_spec rsub pr p2 l2 h V1 V2 Hal)|].
    intros _ h' [Hm Hv]. split; [exact Hm|]. intros i Hi.
    split; [now apply Hv|]. intros ->. rewrite Hv by exact Hi. ring.
Qed.

(** X30: a product divided by one of its factors gives the other factor:
    for [a = q * b] with the leading coefficient of [b] invertible,
    [a / b == q] and every coefficient of [a % b] is zero. *)
Theorem product_divided_by_factor (q b : polynom T) (d : T) :
  wf q -> wf b -> d [*] leading_coeff b = r1 ->
  exists a quo rem,
    op_mul q b = Some a /\ op_div a b = Some quo /\ op_mod a b = Some rem /\
    eqb quo q = true /\ forall i, at_ rem i = r0.
Proof.
  intros Wq Wb Hd. unfold leading_coeff in Hd.
  pose proof (deg_nonneg q) as Hq. pose proof (deg_nonneg b) as Hb.
  destruct (deg_op_mul q b Wq Wb) as (a & Ea & Sa & Da & Top & Dtop).
  destruct (at_op_mul q b Wq Wb) as (a' & Ea' & Wa & _ & Aa).
  rewrite Ea in Ea'. injection Ea' as <-.
  pose proof (deg_nonneg a) as Ha.
  exists a.
  (* the quotient has no coefficient above [deg a - deg b] *)
  assert (Hhigh : forall j, deg a - deg b < j -> at_ q j = r0).
  { destruct (req (leading_coeff q [*] leading_coeff b) r0) eqn:Ez.
    - apply req_true in Ez. unfold leading_coeff in Ez.
      assert (Zq : at_ q (deg q) = r0).
      { transitivity (at_ q (deg q) [*] at_ b (deg b) [*] d); [|rewrite Ez; ring].
        transitivity (at_ q (deg q) [*] (d [*] at_ b (deg b))); [|ring].
        rewrite Hd. ring. }
      assert (Dq : deg q = 0).
      { destruct (Z.eq_dec (deg q) 0) as [E|E]; [exact E|].
        exfalso. apply (deg_nonzero q); [lia|]. now rewrite Wq. }
      intros j Hj. destruct (Z.eq_dec j 0) as [->|Hj0].
      + now rewrite Dq in Zq.
      + apply at_outside; auto. lia.
    - apply req_false in Ez. rewrite (Dtop Ez).
      intros j Hj. apply at_outside; auto. lia. }
  destruct (Z_lt_le_dec (deg a) (deg b)) as [Hlt|Hle].
  - destruct (op_div_mod_lt a b Hlt) as [Ed Em].
    exists (Polynom (ZERO_COEFF a) []), a. split; [exact Ea|]. split; [exact Ed|].
    split; [exact Em|].
    assert (Zq : forall j, at_ q j = r0).
    { intros j. destruct (Z_lt_le_dec j 0); [apply at_outside; auto|].
      apply Hhigh. lia. }
    split.
    + apply eqb_spec; [exact Wa|exact Wq|].
      intros i. rewrite Zq.
      destruct (Z_lt_le_dec i 0);
        [rewrite at_neg by lia|rewrite at_ge by (unfold size; simpl; lia)]; exact Wa.
    + intros i. rewrite Aa. unfold conv. apply sumZ_zero. intros j Hj.
      rewrite Zq. ring.
  - destruct (op_div_mod_spec a b d Wa Wb Hle Hd) as (X & HX & Ed & Em).
    set (X' := tabulate r0 (fun n => if n <? deg b then r0 else at_ q (n - deg b))
                 (deg a + 1)).
    assert (AX' : forall n, at_ X' n = if n <? deg b then r0 else at_ q (n - deg b)).
    { intros n. unfold X'. rewrite at_tabulate.
      destruct (Z.leb_spec 0 n), (Z.ltb_spec n (deg a + 1)), (Z.ltb_spec n (deg b));
        simpl; try reflexivity; try lia.
      symmetry. apply Hhigh. lia. }
    assert (HX' : qr_buffer a b X').
    { split; [reflexivity|]. split.
      - intros n Hn. rewrite AX'. destruct (Z.ltb_spec n (deg b)); [reflexivity|].
        apply Hhigh. lia.
      - intros n.
        rewrite (sumZ_ext 0 (deg a - deg b) _ (fun j => at_ q j [*] at_ b (n - j))).
        2:{ intros j Hj. rewrite AX'. destruct (Z.ltb_spec (j + deg b) (deg b)); [lia|].
            now replace (j + deg b - deg b) with j by lia. }
        rewrite sum_to_conv.
        + rewrite Aa, AX'.
          destruct (Z.leb_spec 0 n), (Z.ltb_spec n (deg b)); simpl; ring.
        + intros j [Hj|Hj]; [apply at_outside; auto|now apply Hhigh].
        + intros j Hj. apply at_outside; auto. }
    pose proof (qr_buffer_unique a b X X' d Wb Hle Hd HX HX') as U.
    eexists _, _. split; [exact Ea|]. split; [exact Ed|]. split; [exact Em|]. split.
    + apply eqb_spec; [reflexivity|exact Wq|].
      intros i. rewrite at_tabulate.
      destruct (Z.leb_spec 0 i), (Z.ltb_spec i (deg a - deg b + 1)); simpl.
      * rewrite U, AX'. destruct (Z.ltb_spec (i + deg b) (deg b)); [lia|].
        now replace (i + deg b - deg b) with i by lia.
      * symmetry. apply Hhigh. lia.
      * symmetry. apply at_outside; auto.
      * symmetry. apply at_outside; auto.
    + intros i. rewrite at_tabulate.
      destruct (Z.leb_spec 0 i), (Z.ltb_spec i (deg b)); simpl; try reflexivity.
      rewrite U, AX'. destruct (Z.ltb_spec i (deg b)); [reflexivity|lia].
Qed.

End Ordering.

(** ** The properties on examples over the integers *)

(** [1 + 2x] and [1 + 3x]. *)
Lemma less_than_is_lexicographic_witness :
  let p1 : polynom Z := of_list [1; 2] in
  let p2 : polynom Z := of_list [1; 3] in
  wf p1 /\ wf p2 /\
  (cmp p1 p2 = -1 <->
   exists i, 0 <= i /\ rlt (at_ p1 i) (at_ p2 i) = true /\
     forall j, i < j -> at_ p1 j = at_ p2 j) /\
  cmp p1 p1 = 0.
Proof.
  cbv zeta. split; [reflexivity|]. split; [reflexivity|].
  apply (@less_than_is_lexicographic Z ZCoeff ZCoeffLaws (of_list [1; 2]) (of_list [1; 3]));
    reflexivity.
Defined.

Lemma add_to_sub_from_contract_witness :
  let h : heap Z := [[1; 2; 3]; [4; 5; 6]] in
  let pr := Ptr 0 0 in
  let p2 := Ptr 1 0 in
  valid h pr 0 2 /\ valid h p2 0 2 /\ alias_ok pr p2 /\
  runs (_add_to pr p2 2) h (fun _ h' =>
    modifies h h' (blk pr) (off pr) (off pr + 2) /\
    forall i, 0 <= i <= 2 ->
      rd h' pr i = rd h pr i [+] rd h p2 i /\
      (p2 = pr -> rd h' pr i = rd h pr i [+] rd h pr i)) /\
  runs (_sub_from pr p2 2) h (fun _ h' =>
    modifies h h' (blk pr) (off pr) (off pr + 2) /\
    forall i, 0 <= i <= 2 ->
      rd h' pr i = rd h pr i [-] rd h p2 i /\
      (p2 = pr -> rd h' pr i = r0)).
Proof.
  cbv zeta.
  assert (V1 : valid ([[1; 2; 3]; [4; 5; 6]] : heap Z) (Ptr 0 0) 0 2)
    by (unfold valid; intros _; split; vm_compute; congruence).
  assert (V2 : valid ([[1; 2; 3]; [4; 5; 6]] : heap Z) (Ptr 1 0) 0 2)
    by (unfold valid; intros _; split; vm_compute; congruence).
  assert (Al : alias_ok (Ptr 0 0) (Ptr 1 0)) by (left; cbn; congruence).
  split; [exact V1|]. split; [exact V2|]. split; [exact Al|].
  exact (@add_to_sub_from_contract Z ZCoeff ZCoeffLaws _ _ _ _ V1 V2 Al).
Defined.

(** [(1 + 2x) * (3 + x)] divided by [3 + x]. *)
Lemma product_divided_by_factor_witness :
  let q : polynom Z := of_list [1; 2] in
  let b : polynom Z := of_list [3; 1] in
  wf q /\ wf b /\ 1 [*] leading_coeff b = r1 /\
  exists a quo rem,
    op_mul q b = Some a /\ op_div a b = Some quo /\ op_mod a b = Some rem /\
    eqb quo q = true /\ forall i, at_ rem i = r0.
Proof.
  cbv zeta. split; [reflexivity|]. split; [reflexivity|]. split; [reflexivity|].
  apply (@product_divided_by_factor Z ZCoeff ZCoeffLaws (of_list [1; 2]) (of_list [3; 1]) 1);
    reflexivity.
Defined.
